(** * The streaming pipeline of neuroapi-sdk, embedded in Rocq

    The development follows the TypeScript sources:
    - [core/events]      : [EventEmitter]                (module [Emitter])
    - [core/streaming]   : [SSEParser], [StreamProcessor] (modules [SSE], [Processor])
    - [resources/chat/streaming]        : [ChatCompletionStreamingRunner] (module [Chat])
    - [resources/completions/streaming] : [CompletionStreamingRunner]     (module [Completion])

    JavaScript objects that are shared and mutated (the [Set]s of handlers,
    the function objects, the abort signal, promises, iterator closures) live
    in explicit stores and are referred to by address. *)

From stdpp Require Import base option list strings gmap.
From Stdlib Require Import Ascii ZArith Lia Sorted.


(** ** JavaScript values used by the pipeline *)

(** An [Error] object: its [name] and [message]. *)
Record js_error := JsError { err_name : string; err_message : string }.

(** [new APIUserAbortError()] of [core/errors]: the default message. *)
Definition APIUserAbortError : js_error :=
  JsError "APIUserAbortError" "Request was aborted".

(** A thrown value: an [Error] instance, or something that is not one. *)
Inductive thrown :=
  | ThrownError (e : js_error)
  | ThrownOther.

(** [error instanceof Error ? error : new Error(msg)]. *)
Definition as_error (t : thrown) (msg : string) : js_error :=
  match t with
  | ThrownError e => e
  | ThrownOther => JsError "Error" msg
  end.

(** Truthiness of a value of type [string | null | undefined]. *)
Definition truthy (o : option string) : bool :=
  match o with
  | Some (String _ _) => true
  | _ => false
  end.

(** [o || ""] on the same type. *)
Definition or_empty (o : option string) : string :=
  if truthy o then default "" o else "".

(** ** Decoded chunks ([types/chat], [types/completions]) *)

(** [ChatCompletionMessageToolCall] as it appears in a delta: every field may
    be missing. *)
Record tool_call_function := ToolCallFunction {
  fn_name : option string;
  fn_arguments : option string
}.

Record tool_call_delta := ToolCallDelta {
  tc_index : option nat;
  tc_id : option string;
  tc_function : option tool_call_function
}.

(** [ChatCompletionChunkDelta]; [tool_calls] present means an array. *)
Record chunk_delta := ChunkDelta {
  content : option string;
  tool_calls : option (list tool_call_delta)
}.

Record chunk_choice := ChunkChoice {
  delta : option chunk_delta;
  finish_reason : option string
}.

(** [ChatCompletionChunk]. [choices = None] stands for a decoded value on which
    [chunk.choices[0]] throws a [TypeError] (no [choices] property, or the
    decoded value is [null]). *)
Record chat_chunk := ChatChunk {
  chunk_id : string;
  choices : option (list chunk_choice)
}.

(** [CompletionChunkChoice] and [CompletionChunk]. *)
Record completion_choice := CompletionChoice {
  text : option string;
  c_finish_reason : option string
}.

Record completion_chunk := CompletionChunk {
  c_chunk_id : string;
  c_choices : option (list completion_choice)
}.

(** The accumulated tool call held in the Tool Call Snapshot
    ([type] is always ["function"]). *)
Record tool_call := ToolCall {
  call_id : string;
  call_name : string;
  call_arguments : string
}.

(** What [JSON.parse(event.data)] gives for one frame: it throws, or it
    returns the decoded chunk. *)
Inductive decoded (C : Type) :=
  | JsonThrows (e : js_error)
  | JsonValue (c : C).
Arguments JsonThrows {C} e.
Arguments JsonValue {C} c.

(** The [TypeError] of reading [choices[0]] on a value without [choices]. *)
Definition choices_type_error : js_error :=
  JsError "TypeError" "undefined is not an object (evaluating 'chunk.choices[0]')".

(** Event payloads ([StreamEventMap], [CompletionStreamEventMap]). *)
Inductive payload :=
  | PUndefined
  | PChatChunk (c : chat_chunk)
  | PCompletionChunk (c : completion_chunk)
  | PContentDelta (d snapshot : string)
  | PContentDone (s : string)
  | PToolDelta (index : nat) (d : tool_call_delta) (snapshot : tool_call)
  | PToolDone (index : nat) (tc : tool_call)
  | PTextDelta (d snapshot : string)
  | PTextDone (s : string)
  | PError (e : js_error).

(** ** Objects keyed by integers

    [Record<number, V>] is a plain object with integer keys. [Object.keys]
    and [Object.values] enumerate first the keys that are array indices
    (the integers below [2^32 - 1]) in ascending order, whatever the
    insertion order, and then the other keys in the order in which they were
    created. The object is kept as an association list in that order. *)
Module JsObject.

(** An integer key that is an array index. *)
Definition array_index (k : nat) : bool := bool_decide (N.of_nat k < 4294967295)%N.

Section obj.
Context {V : Type}.

Definition t := list (nat * V).

Fixpoint get (o : t) (k : nat) : option V :=
  match o with
  | [] => None
  | (k', v) :: o' => if decide (k' = k) then Some v else get o' k
  end.

Fixpoint set (o : t) (k : nat) (v : V) : t :=
  match o with
  | [] => [(k, v)]
  | (k', v') :: o' =>
      if decide (k = k') then (k, v) :: o'
      else if array_index k && (negb (array_index k') || bool_decide (k < k'))
      then (k, v) :: (k', v') :: o'
      else (k', v') :: set o' k v
  end.

Definition keys (o : t) : list nat := o.*1.
Definition values (o : t) : list V := o.*2.
End obj.
Arguments t : clear implicits.
End JsObject.

(** ** EventEmitter ([core/events]) *)

(** A handler is a function object, identified by its address in the store of
    function objects. *)
Abbreviation handler := nat.

(** A [Set] of handlers as ECMAScript defines it: the list of entries in
    insertion order, where [delete] empties an entry in place and [add]
    appends. A running [for ... of] holds an index into this list, so it sees
    every later [delete] and [add]. *)
Abbreviation js_set := (list (option nat)).

Definition set_has (s : js_set) (h : handler) : bool := bool_decide (Some h ∈ s).

Definition set_add (s : js_set) (h : handler) : js_set :=
  if set_has s h then s else s ++ [Some h].

Definition set_delete (s : js_set) (h : handler) : js_set :=
  (λ e, if decide (e = Some h) then None else e) <$> s.

Definition set_size (s : js_set) : nat := length (omap (λ e, e) s).

(** What a user-supplied handler does when it is called. *)
Inductive uaction :=
  | UOff (ev : string) (h : handler)   (* emitter.off(ev, h) *)
  | UOn (ev : string) (h : handler)    (* emitter.on(ev, h) *)
  | UThrow                             (* throw *)
  | UAbort.                            (* runner.abort() *)

(** The function objects that get registered as handlers. *)
Inductive closure :=
  | FUser (body : list uaction)
      (* a handler written by the consumer *)
  | FOnceWrapper (ev : string) (inner : handler)
      (* [onceWrapper] of [once]: [this.off(event, onceWrapper); handler(data)] *)
  | FDoneOnEnd (p : nat) (onEnd onError onAbort : handler)
  | FDoneOnError (p : nat) (onEnd onError onAbort : handler)
  | FDoneOnAbort (p : nat) (onEnd onError onAbort : handler)
      (* the three callbacks of [done()], settling promise [p] *)
  | FIterChunk (i : nat)
  | FIterEnd (i : nat)
  | FIterError (i : nat)
  | FIterAbort (i : nat).
      (* the four callbacks of [Symbol.asyncIterator], closing over iterator [i] *)

Inductive promise :=
  | Pending
  | Resolved
  | Rejected (reason : payload).

(** The variables captured by one [Symbol.asyncIterator] call. *)
Record iter_state := IterState {
  it_chunks : list payload;
  it_chunkIndex : nat;
  it_isComplete : bool;
  it_error : option payload
}.

(** Everything handlers can reach: the emitter's [events] map and its [Set]s,
    the function objects, the abort signal, the promises made by [done()] and
    the iterators. [trace], [calls] and [console] record what happened:
    every [emit(event, data)], every handler invocation, every
    [console.error]. *)
Record shell := Shell {
  events : gmap string nat;
  sets : list js_set;
  funs : list closure;
  aborted : bool;
  promises : list promise;
  iters : list iter_state;
  trace : list (string * payload);
  calls : list (handler * payload);
  console : list string
}.

Definition upd_events (f : gmap string nat → gmap string nat) (sh : shell) : shell :=
  Shell (f (events sh)) (sets sh) (funs sh) (aborted sh) (promises sh) (iters sh)
        (trace sh) (calls sh) (console sh).
Definition upd_sets (f : list js_set → list js_set) (sh : shell) : shell :=
  Shell (events sh) (f (sets sh)) (funs sh) (aborted sh) (promises sh) (iters sh)
        (trace sh) (calls sh) (console sh).
Definition upd_funs (f : list closure → list closure) (sh : shell) : shell :=
  Shell (events sh) (sets sh) (f (funs sh)) (aborted sh) (promises sh) (iters sh)
        (trace sh) (calls sh) (console sh).
Definition set_aborted (b : bool) (sh : shell) : shell :=
  Shell (events sh) (sets sh) (funs sh) b (promises sh) (iters sh)
        (trace sh) (calls sh) (console sh).
Definition upd_promises (f : list promise → list promise) (sh : shell) : shell :=
  Shell (events sh) (sets sh) (funs sh) (aborted sh) (f (promises sh)) (iters sh)
        (trace sh) (calls sh) (console sh).
Definition upd_iters (f : list iter_state → list iter_state) (sh : shell) : shell :=
  Shell (events sh) (sets sh) (funs sh) (aborted sh) (promises sh) (f (iters sh))
        (trace sh) (calls sh) (console sh).
Definition log_emit (ev : string) (d : payload) (sh : shell) : shell :=
  Shell (events sh) (sets sh) (funs sh) (aborted sh) (promises sh) (iters sh)
        (trace sh ++ [(ev, d)]) (calls sh) (console sh).
Definition log_call (h : handler) (d : payload) (sh : shell) : shell :=
  Shell (events sh) (sets sh) (funs sh) (aborted sh) (promises sh) (iters sh)
        (trace sh) (calls sh ++ [(h, d)]) (console sh).
Definition console_error (ev : string) (sh : shell) : shell :=
  Shell (events sh) (sets sh) (funs sh) (aborted sh) (promises sh) (iters sh)
        (trace sh) (calls sh) (console sh ++ [ev]).

(** A new emitter with nothing registered. *)
Definition new_shell : shell := Shell ∅ [] [] false [] [] [] [] [].

Module Emitter.

(** The [Set] registered for [ev], if any. *)
Definition handlers_of (ev : string) (sh : shell) : option js_set :=
  a ← events sh !! ev; sets sh !! a.

(** [on(event, handler)] *)
Definition on (ev : string) (h : handler) (sh : shell) : shell :=
  let sh1 :=
    match events sh !! ev with
    | Some _ => sh
    | None => upd_events (<[ev := length (sets sh)]>) (upd_sets (λ ss, ss ++ [[]]) sh)
    end in
  match events sh1 !! ev with
  | Some a => upd_sets (alter (λ s, set_add s h) a) sh1
  | None => sh1
  end.

(** [off(event, handler)] *)
Definition off (ev : string) (h : handler) (sh : shell) : shell :=
  match events sh !! ev with
  | Some a =>
      let sh1 := upd_sets (alter (λ s, set_delete s h) a) sh in
      if decide (set_size (default [] (sets sh1 !! a)) = 0)
      then upd_events (delete ev) sh1
      else sh1
  | None => sh
  end.

(** [once(event, handler)]: a new [onceWrapper] function object is
    registered. *)
Definition once (ev : string) (h : handler) (sh : shell) : shell :=
  let w := length (funs sh) in
  on ev w (upd_funs (λ fs, fs ++ [FOnceWrapper ev h]) sh).

(** [removeAllListeners(event?)]; the test on [event] is a truthiness
    test. *)
Definition removeAllListeners (ev : option string) (sh : shell) : shell :=
  if truthy ev then upd_events (delete (default "" ev)) sh
  else upd_events (λ _, ∅) sh.

(** [listenerCount(event)] *)
Definition listenerCount (ev : string) (sh : shell) : nat :=
  match handlers_of ev sh with
  | Some s => set_size s
  | None => 0
  end.

(** Settling a promise has an effect only while it is pending. *)
Definition settle (p : nat) (v : promise) (sh : shell) : shell :=
  match promises sh !! p with
  | Some Pending => upd_promises (<[p := v]>) sh
  | _ => sh
  end.

(** [cleanup] of [done()]: it passes the inner callbacks to [off]. *)
Definition cleanup (onEnd onError onAbort : handler) (sh : shell) : shell :=
  off "abort" onAbort (off "error" onError (off "end" onEnd sh)).

(** The body of a user handler; [do_abort] is [runner.abort()]. The boolean
    tells whether the handler threw. *)
Fixpoint run_body (do_abort : shell → option shell) (body : list uaction)
    (sh : shell) : option (bool * shell) :=
  match body with
  | [] => Some (false, sh)
  | UThrow :: _ => Some (true, sh)
  | UOff ev h :: rest => run_body do_abort rest (off ev h sh)
  | UOn ev h :: rest => run_body do_abort rest (on ev h sh)
  | UAbort :: rest =>
      sh' ← do_abort sh; run_body do_abort rest sh'
  end.

(** [emit(event, data)], the loop [for (const handler of handlers)] of
    [emit] from entry [i] of the [Set] at address [a] on, and the call
    [handler(data)]. Handlers can re-enter [emit] (through [abort()]) and
    can grow the [Set] under iteration, so the three run on fuel; [None]
    is "out of fuel". *)
Fixpoint emit (fuel : nat) (ev : string) (d : payload) (sh : shell)
    : option (bool * shell) :=
  match fuel with
  | 0 => None
  | S fuel =>
      let sh := log_emit ev d sh in
      match events sh !! ev with
      | None => Some (false, sh)
      | Some a =>
          if decide (set_size (default [] (sets sh !! a)) = 0)
          then Some (false, sh)
          else sh' ← emit_loop fuel ev d a 0 sh; Some (true, sh')
      end
  end
with emit_loop (fuel : nat) (ev : string) (d : payload) (a i : nat) (sh : shell)
    : option shell :=
  match fuel with
  | 0 => None
  | S fuel =>
      match default [] (sets sh !! a) !! i with
      | None => Some sh
      | Some None => emit_loop fuel ev d a (S i) sh
      | Some (Some h) =>
          '(threw, sh') ← call fuel h d (log_call h d sh);
          emit_loop fuel ev d a (S i) (if threw : bool then console_error ev sh' else sh')
      end
  end
with call (fuel : nat) (h : handler) (d : payload) (sh : shell)
    : option (bool * shell) :=
  match fuel with
  | 0 => None
  | S fuel =>
      match funs sh !! h with
      | None => Some (true, sh)
      | Some (FUser body) =>
          run_body
            (λ s, r ← emit fuel "abort" PUndefined (set_aborted true s); Some r.2)
            body sh
      | Some (FOnceWrapper ev inner) => call fuel inner d (off ev h sh)
      | Some (FDoneOnEnd p onEnd onError onAbort) =>
          Some (false, settle p Resolved (cleanup onEnd onError onAbort sh))
      | Some (FDoneOnError p onEnd onError onAbort) =>
          Some (false, settle p (Rejected d) (cleanup onEnd onError onAbort sh))
      | Some (FDoneOnAbort p onEnd onError onAbort) =>
          Some (false, settle p (Rejected (PError APIUserAbortError))
                              (cleanup onEnd onError onAbort sh))
      | Some (FIterChunk i) =>
          Some (false, upd_iters (alter (λ it,
            IterState (it_chunks it ++ [d]) (it_chunkIndex it)
                      (it_isComplete it) (it_error it)) i) sh)
      | Some (FIterEnd i) =>
          Some (false, upd_iters (alter (λ it,
            IterState (it_chunks it) (it_chunkIndex it) true (it_error it)) i) sh)
      | Some (FIterError i) =>
          Some (false, upd_iters (alter (λ it,
            IterState (it_chunks it) (it_chunkIndex it) true (Some d)) i) sh)
      | Some (FIterAbort i) =>
          Some (false, upd_iters (alter (λ it,
            IterState (it_chunks it) (it_chunkIndex it) true
                      (Some (PError APIUserAbortError))) i) sh)
      end
  end.

(** A consumer creates a function and registers it. *)
Definition new_function (c : closure) (sh : shell) : handler * shell :=
  (length (funs sh), upd_funs (λ fs, fs ++ [c]) sh).

End Emitter.

(** ** The state-and-fuel monad in which the runners are written

    A computation reads and updates the runner object and may run out of
    fuel (inside [emit]). *)
Definition stateT (S A : Type) : Type := S → option (A * S).

#[export] Instance stateT_ret {S} : MRet (stateT S) := λ A a s, Some (a, s).
#[export] Instance stateT_bind {S} : MBind (stateT S) :=
  λ A B k m s, match m s with
               | Some (a, s') => k a s'
               | None => None
               end.

Definition gets {S A} (f : S → A) : stateT S A := λ s, Some (f s, s).
Definition modify {S} (f : S → S) : stateT S unit := λ s, Some (tt, f s).

(** [for (const x of l) body(x)] *)
Fixpoint for_each {S A} (l : list A) (body : A → stateT S unit) : stateT S unit :=
  match l with
  | [] => mret tt
  | x :: l' => body x;; for_each l' body
  end.

(** [if (c) body] *)
Definition when {S} (c : bool) (body : stateT S unit) : stateT S unit :=
  if c then body else mret tt.

(** ** What the two runner classes have in common

    [done], [abort], [Symbol.asyncIterator] and its [next] have the same text
    in both classes; they only touch the emitter, the abort signal and the
    [isComplete] field. *)
Module Common.
Import Emitter.

(** [done()], given the value of [this.isComplete]; returns the address of
    the promise it creates. *)
Definition done (isComplete : bool) (sh : shell) : nat * shell :=
  let p := length (promises sh) in
  if isComplete then (p, upd_promises (λ ps, ps ++ [Resolved]) sh)
  else
    let sh := upd_promises (λ ps, ps ++ [Pending]) sh in
    let onEnd := length (funs sh) in
    let onError := S onEnd in
    let onAbort := S onError in
    let sh := upd_funs (λ fs, fs ++ [FDoneOnEnd p onEnd onError onAbort;
                                     FDoneOnError p onEnd onError onAbort;
                                     FDoneOnAbort p onEnd onError onAbort]) sh in
    (p, once "abort" onAbort (once "error" onError (once "end" onEnd sh))).

(** [abort()] *)
Definition abort (fuel : nat) (sh : shell) : option shell :=
  r ← emit fuel "abort" PUndefined (set_aborted true sh); Some r.2.

(** [[Symbol.asyncIterator]()]; returns the address of the new iterator. *)
Definition asyncIterator (sh : shell) : nat * shell :=
  let i := length (iters sh) in
  let sh := upd_iters (λ l, l ++ [IterState [] 0 false None]) sh in
  let f := length (funs sh) in
  let sh := upd_funs (λ fs, fs ++ [FIterChunk i; FIterEnd i; FIterError i; FIterAbort i]) sh in
  (i, on "abort" (f + 3) (on "error" (f + 2) (on "end" (f + 1) (on "chunk" f sh)))).

(** One call of the iterator's [next()]. [NextWaiting]: the call is inside
    its polling loop and has not returned. *)
Inductive next_result :=
  | NextWaiting
  | NextThrows (e : payload)
  | NextValue (v : payload)
  | NextDone.

Definition next (i : nat) (sh : shell) : next_result * shell :=
  match iters sh !! i with
  | None => (NextWaiting, sh)
  | Some it =>
      if bool_decide (length (it_chunks it) ≤ it_chunkIndex it) && negb (it_isComplete it)
      then (NextWaiting, sh)
      else match it_error it with
           | Some e => (NextThrows e, sh)
           | None =>
               match it_chunks it !! it_chunkIndex it with
               | Some v =>
                   (NextValue v,
                    upd_iters (<[i := IterState (it_chunks it) (S (it_chunkIndex it))
                                                (it_isComplete it) (it_error it)]>) sh)
               | None => (NextDone, sh)
               end
           end
  end.

(** The result of awaiting [done()] inside [finalContent], [finalText] and
    [finalToolCalls]: the value returned at once, or the promise awaited. *)
Inductive awaited (A : Type) :=
  | Now (a : A)
  | AfterDone (p : nat).
Arguments Now {A} a.
Arguments AfterDone {A} p.
End Common.

(** ** ChatCompletionStreamingRunner ([resources/chat/streaming]) *)
Module Chat.
Import Emitter Common.

(** The fields of the class. [sh] holds the inherited emitter and the
    signal of [abortController]; [running] tells whether [processStream] is
    still inside its [for await] loop. *)
Record runner := Runner {
  sh : shell;
  running : bool;
  contentSnapshot : string;
  isComplete : bool;
  _finalContent : option string;
  toolCallsSnapshot : JsObject.t tool_call;
  _finalToolCalls : option (list nat)
}.

(** [_finalToolCalls] is the array [Object.values(this.toolCallsSnapshot)]:
    its elements are the snapshot objects themselves, not copies. An object
    of the snapshot is never replaced once created, so it is named by its
    index. *)

Definition M := stateT runner.

Definition set_sh (s : shell) (r : runner) : runner :=
  Runner s (running r) (contentSnapshot r) (isComplete r) (_finalContent r)
         (toolCallsSnapshot r) (_finalToolCalls r).
Definition set_running (b : bool) (r : runner) : runner :=
  Runner (sh r) b (contentSnapshot r) (isComplete r) (_finalContent r)
         (toolCallsSnapshot r) (_finalToolCalls r).
Definition set_contentSnapshot (s : string) (r : runner) : runner :=
  Runner (sh r) (running r) s (isComplete r) (_finalContent r)
         (toolCallsSnapshot r) (_finalToolCalls r).
Definition set_isComplete (b : bool) (r : runner) : runner :=
  Runner (sh r) (running r) (contentSnapshot r) b (_finalContent r)
         (toolCallsSnapshot r) (_finalToolCalls r).
Definition set_finalContent (o : option string) (r : runner) : runner :=
  Runner (sh r) (running r) (contentSnapshot r) (isComplete r) o
         (toolCallsSnapshot r) (_finalToolCalls r).
Definition set_toolCallsSnapshot (o : JsObject.t tool_call) (r : runner) : runner :=
  Runner (sh r) (running r) (contentSnapshot r) (isComplete r) (_finalContent r)
         o (_finalToolCalls r).
Definition set_finalToolCalls (o : option (list nat)) (r : runner) : runner :=
  Runner (sh r) (running r) (contentSnapshot r) (isComplete r) (_finalContent r)
         (toolCallsSnapshot r) o.

(** What the stream processor's generator hands to [for await]: a frame,
    the end of the sequence, or an exception. *)
Inductive pulled :=
  | Frame (frame : decoded chat_chunk)
  | StreamEnd
  | StreamThrows (t : thrown).

(** The methods below call [this.emit], whose result they never use. They are
    written over [this_emit] so that the same text can be run with the
    emitter of the class ([emit], below) and with an emitter that has no
    listeners ([record]). *)
Section code.
Context (this_emit : string → payload → M unit).

(** The body of the loop of [handleToolCallsDelta]. *)
Definition foldToolCall (toolCallDelta : tool_call_delta) : M unit :=
  match tc_index toolCallDelta with
  | None => mret tt
  | Some index =>
      existing ← gets (λ r, JsObject.get (toolCallsSnapshot r) index);
      when (bool_decide (existing = None))
        (modify (λ r, set_toolCallsSnapshot
           (JsObject.set (toolCallsSnapshot r) index
              (ToolCall (or_empty (tc_id toolCallDelta)) "" "")) r));;
      snapshot ← gets (λ r, default (ToolCall "" "" "")
                              (JsObject.get (toolCallsSnapshot r) index));
      let snapshot :=
        if truthy (tc_id toolCallDelta)
        then ToolCall (or_empty (tc_id toolCallDelta)) (call_name snapshot)
                      (call_arguments snapshot)
        else snapshot in
      let snapshot :=
        match tc_function toolCallDelta with
        | Some f =>
            let snapshot :=
              if truthy (fn_name f)
              then ToolCall (call_id snapshot) (or_empty (fn_name f))
                            (call_arguments snapshot)
              else snapshot in
            if truthy (fn_arguments f)
            then ToolCall (call_id snapshot) (call_name snapshot)
                          (call_arguments snapshot +:+ or_empty (fn_arguments f))
            else snapshot
        | None => snapshot
        end in
      modify (λ r, set_toolCallsSnapshot
                (JsObject.set (toolCallsSnapshot r) index snapshot) r);;
      this_emit "tool_calls.function.arguments.delta"
                (PToolDelta index toolCallDelta snapshot)
  end.

(** [handleToolCallsDelta(toolCallDeltas)] *)
Definition handleToolCallsDelta (toolCallDeltas : list tool_call_delta) : M unit :=
  for_each toolCallDeltas foldToolCall.

(** The block under [if (finishReason)]. *)
Definition onFinishReason : M unit :=
  modify (λ r, set_finalContent (Some (contentSnapshot r)) r);;
  modify (λ r, set_finalToolCalls (Some (JsObject.keys (toolCallsSnapshot r))) r);;
  modify (set_isComplete true);;
  contentSnapshot ← gets contentSnapshot;
  when (truthy (Some contentSnapshot))
    (this_emit "content.done" (PContentDone contentSnapshot));;
  toolCallsSnapshot ← gets toolCallsSnapshot;
  for_each (seq 0 (length (JsObject.keys toolCallsSnapshot)))
    (λ i, match JsObject.get toolCallsSnapshot i with
          | Some tc => this_emit "tool_calls.function.arguments.done" (PToolDone i tc)
          | None => mret tt
          end).

(** The inner [try] block for one frame, with its [catch]. *)
Definition processFrame (frame : decoded chat_chunk) : M unit :=
  match frame with
  | JsonThrows e => this_emit "error" (PError e)
  | JsonValue chunk =>
      this_emit "chunk" (PChatChunk chunk);;
      match choices chunk with
      | None => this_emit "error" (PError choices_type_error)
      | Some cs =>
          let delta := head cs ≫= delta in
          when (truthy (delta ≫= content))
            (modify (λ r, set_contentSnapshot
                       (contentSnapshot r +:+ or_empty (delta ≫= content)) r);;
             snapshot ← gets contentSnapshot;
             this_emit "content.delta"
               (PContentDelta (or_empty (delta ≫= content)) snapshot));;
          match delta ≫= tool_calls with
          | Some tcs => handleToolCallsDelta tcs
          | None => mret tt
          end;;
          let finishReason := head cs ≫= finish_reason in
          when (truthy finishReason) onFinishReason
      end
  end.

(** One turn of [processStream]: the body of the loop for a frame, the code
    after the loop when the sequence ends, the outer [catch] when the
    generator throws. Nothing happens once [processStream] has returned. *)
Definition processStream_step (x : pulled) : M unit :=
  running ← gets running;
  if negb running then mret tt
  else match x with
       | Frame frame =>
           signalled ← gets (λ r, aborted (sh r));
           if signalled : bool
           then this_emit "abort" PUndefined;; modify (set_running false)
           else processFrame frame
       | StreamEnd =>
           modify (set_running false);;
           isComplete ← gets isComplete;
           when (negb isComplete)
             (modify (λ r, set_finalContent (Some (contentSnapshot r)) r);;
              modify (set_isComplete true);;
              contentSnapshot ← gets contentSnapshot;
              this_emit "content.done" (PContentDone contentSnapshot));;
           this_emit "end" PUndefined
       | StreamThrows t =>
           modify (set_running false);;
           signalled ← gets (λ r, aborted (sh r));
           if signalled : bool
           then this_emit "abort" PUndefined
           else this_emit "error" (PError (as_error t "Stream processing failed"))
       end.

(** [processStream] over everything the generator hands over, in order. *)
Definition processStream (xs : list pulled) : M unit :=
  for_each xs processStream_step.

End code.

(** [this.emit(event, data)] *)
Definition emit (fuel : nat) (ev : string) (d : payload) : M unit :=
  λ r, x ← Emitter.emit fuel ev d (sh r); Some (tt, set_sh x.2 r).

(** What [emit] does when no listener is registered: nothing but the entry
    in [trace]. *)
Definition record (ev : string) (d : payload) : M unit :=
  modify (λ r, set_sh (log_emit ev d (sh r)) r).

(** [abort()] *)
Definition abort (fuel : nat) : M unit :=
  λ r, s ← Common.abort fuel (sh r); Some (tt, set_sh s r).

(** [done()] *)
Definition done : M nat :=
  λ r, let '(p, s) := Common.done (isComplete r) (sh r) in Some (p, set_sh s r).

(** [finalContent()] up to its [await], and the rest of it, which runs once
    promise [p] of [done()] has settled. *)
Definition finalContent : M (awaited string) :=
  final ← gets _finalContent;
  match final with
  | Some s => mret (Now s)
  | None => p ← done; mret (AfterDone p)
  end.

Definition finalContent_resume (p : nat) (r : runner) : option (string + payload) :=
  match promises (sh r) !! p with
  | Some Resolved => Some (inl (or_empty (_finalContent r)))
  | Some (Rejected e) => Some (inr e)
  | _ => None
  end.

(** The array [_finalToolCalls] as a reader sees it now: its elements are
    the live snapshot objects. *)
Definition deref_toolCalls (r : runner) (refs : list nat) : list tool_call :=
  omap (JsObject.get (toolCallsSnapshot r)) refs.

(** [finalToolCalls()], same shape. *)
Definition finalToolCalls : M (awaited (list tool_call)) :=
  r ← gets (λ r, r);
  match _finalToolCalls r with
  | Some refs => mret (Now (deref_toolCalls r refs))
  | None => p ← done; mret (AfterDone p)
  end.

Definition finalToolCalls_resume (p : nat) (r : runner)
    : option (list tool_call + payload) :=
  match promises (sh r) !! p with
  | Some Resolved => Some (inl (deref_toolCalls r (default [] (_finalToolCalls r))))
  | Some (Rejected e) => Some (inr e)
  | _ => None
  end.

(** [[Symbol.asyncIterator]()] and [next()] of the iterator it returns. *)
Definition asyncIterator : M nat :=
  λ r, let '(i, s) := Common.asyncIterator (sh r) in Some (i, set_sh s r).

Definition next (i : nat) : M next_result :=
  λ r, let '(x, s) := Common.next i (sh r) in Some (x, set_sh s r).

(** [new ChatCompletionStreamingRunner(response)]: the constructor starts
    [processStream], which emits nothing before its first [await]. *)
Definition new_runner : runner := Runner new_shell true "" false None [] None.

End Chat.

(** ** CompletionStreamingRunner ([resources/completions/streaming]) *)
Module Completion.
Import Emitter Common.

Record runner := Runner {
  sh : shell;
  running : bool;
  textSnapshot : string;
  isComplete : bool;
  _finalText : option string
}.

Definition M := stateT runner.

Definition set_sh (s : shell) (r : runner) : runner :=
  Runner s (running r) (textSnapshot r) (isComplete r) (_finalText r).
Definition set_running (b : bool) (r : runner) : runner :=
  Runner (sh r) b (textSnapshot r) (isComplete r) (_finalText r).
Definition set_textSnapshot (s : string) (r : runner) : runner :=
  Runner (sh r) (running r) s (isComplete r) (_finalText r).
Definition set_isComplete (b : bool) (r : runner) : runner :=
  Runner (sh r) (running r) (textSnapshot r) b (_finalText r).
Definition set_finalText (o : option string) (r : runner) : runner :=
  Runner (sh r) (running r) (textSnapshot r) (isComplete r) o.

Definition emit (fuel : nat) (ev : string) (d : payload) : M unit :=
  λ r, x ← Emitter.emit fuel ev d (sh r); Some (tt, set_sh x.2 r).

(** The inner [try] block for one frame, with its [catch]. *)
Definition processFrame (fuel : nat) (frame : decoded completion_chunk) : M unit :=
  match frame with
  | JsonThrows e => emit fuel "error" (PError e)
  | JsonValue chunk =>
      emit fuel "chunk" (PCompletionChunk chunk);;
      match c_choices chunk with
      | None => emit fuel "error" (PError choices_type_error)
      | Some cs =>
          let choice := head cs in
          when (truthy (choice ≫= text))
            (modify (λ r, set_textSnapshot
                       (textSnapshot r +:+ or_empty (choice ≫= text)) r);;
             snapshot ← gets textSnapshot;
             emit fuel "text.delta"
               (PTextDelta (or_empty (choice ≫= text)) snapshot));;
          let finishReason := choice ≫= c_finish_reason in
          when (truthy finishReason)
            (modify (λ r, set_finalText (Some (textSnapshot r)) r);;
             modify (set_isComplete true);;
             textSnapshot ← gets textSnapshot;
             emit fuel "text.done" (PTextDone textSnapshot))
      end
  end.

Inductive pulled :=
  | Frame (frame : decoded completion_chunk)
  | StreamEnd
  | StreamThrows (t : thrown).

Definition processStream_step (fuel : nat) (x : pulled) : M unit :=
  running ← gets running;
  if negb running then mret tt
  else match x with
       | Frame frame =>
           signalled ← gets (λ r, aborted (sh r));
           if signalled : bool
           then emit fuel "abort" PUndefined;; modify (set_running false)
           else processFrame fuel frame
       | StreamEnd =>
           modify (set_running false);;
           isComplete ← gets isComplete;
           when (negb isComplete)
             (modify (λ r, set_finalText (Some (textSnapshot r)) r);;
              modify (set_isComplete true);;
              textSnapshot ← gets textSnapshot;
              emit fuel "text.done" (PTextDone textSnapshot));;
           emit fuel "end" PUndefined
       | StreamThrows t =>
           modify (set_running false);;
           signalled ← gets (λ r, aborted (sh r));
           if signalled : bool
           then emit fuel "abort" PUndefined
           else emit fuel "error" (PError (as_error t "Stream processing failed"))
       end.

Definition abort (fuel : nat) : M unit :=
  λ r, s ← Common.abort fuel (sh r); Some (tt, set_sh s r).

Definition done : M nat :=
  λ r, let '(p, s) := Common.done (isComplete r) (sh r) in Some (p, set_sh s r).

Definition finalText : M (awaited string) :=
  final ← gets _finalText;
  match final with
  | Some s => mret (Now s)
  | None => p ← done; mret (AfterDone p)
  end.

Definition finalText_resume (p : nat) (r : runner) : option (string + payload) :=
  match promises (sh r) !! p with
  | Some Resolved => Some (inl (or_empty (_finalText r)))
  | Some (Rejected e) => Some (inr e)
  | _ => None
  end.

Definition asyncIterator : M nat :=
  λ r, let '(i, s) := Common.asyncIterator (sh r) in Some (i, set_sh s r).

Definition next (i : nat) : M next_result :=
  λ r, let '(x, s) := Common.next i (sh r) in Some (x, set_sh s r).

Definition new_runner : runner := Runner new_shell true "" false None.

Definition processStream (fuel : nat) (xs : list pulled) : M unit :=
  for_each xs (processStream_step fuel).

End Completion.

(** ** SSEParser ([core/streaming]) *)
Module SSE.

(** [StreamEvent]. A number is an integer or [NaN] ([None]). *)
Record StreamEvent := Build_StreamEvent {
  data : string;
  event : option string;
  ev_id : option string;
  retry : option (option Z)
}.

(** [Partial<StreamEvent>], the type of [currentEvent]. *)
Record PartialEvent := Build_PartialEvent {
  p_data : option string;
  p_event : option string;
  p_id : option string;
  p_retry : option (option Z)
}.

Definition empty_event : PartialEvent := Build_PartialEvent None None None None.

Definition newline : ascii := "010"%char.
Definition nl : string := String newline "".

(** [s.split("\n")]: never empty; a string ending in a newline gives a
    last element [""]. *)
Fixpoint split (s : string) : list string :=
  match s with
  | "" => [""]
  | String c s' =>
      if decide (c = newline) then "" :: split s'
      else match split s' with
           | l :: ls => String c l :: ls
           | [] => [String c ""]
           end
  end.

(** The two halves of [line] around its first colon:
    [line.slice(0, colonIndex)] and [line.slice(colonIndex + 1)], or [None]
    when [line.indexOf(":")] is [-1]. *)
Fixpoint cut_colon (line : string) : option (string * string) :=
  match line with
  | "" => None
  | String c s' =>
      if decide (c = ":"%char) then Some ("", s')
      else '(f, v) ← cut_colon s'; Some (String c f, v)
  end.

(** White space and line terminators removed by [trim()], among the
    characters below 256 that a string holds here: space, tab, LF, VT, FF,
    CR and the no-break space U+00A0. *)
Definition is_space (c : ascii) : bool :=
  bool_decide (c ∈ [" "; "009"; "010"; "011"; "012"; "013"; "160"]%char).

Fixpoint trim_start (s : string) : string :=
  match s with
  | String c s' => if is_space c then trim_start s' else s
  | "" => ""
  end.

Fixpoint trim_end (s : string) : string :=
  match s with
  | String c s' =>
      match trim_end s' with
      | "" => if is_space c then "" else String c ""
      | t => String c t
      end
  | "" => ""
  end.

Definition trim (s : string) : string := trim_end (trim_start s).

Definition digit (c : ascii) : option Z :=
  let n := Z.of_nat (nat_of_ascii c) in
  if decide (48 ≤ n ≤ 57)%Z then Some (n - 48)%Z else None.

(** The longest prefix of decimal digits, read as a number after [acc]. *)
Fixpoint digits (s : string) (acc : option Z) : option Z :=
  match s with
  | String c s' =>
      match digit c with
      | Some d => digits s' (Some (default 0 acc * 10 + d)%Z)
      | None => acc
      end
  | "" => acc
  end.

(** [parseInt(s, 10)]: the integer that the digits denote, that is the
    number returned as long as a number holds it exactly (up to [2^53]);
    [None] is [NaN]. *)
Definition parseInt (s : string) : option Z :=
  match trim_start s with
  | String "-" s' => Z.opp <$> digits s' None
  | String "+" s' => digits s' None
  | s' => digits s' None
  end.

(** The [switch (field)] of [parse]. *)
Definition set_field (field value : string) (e : PartialEvent) : PartialEvent :=
  if decide (field = "data")
  then Build_PartialEvent (Some value) (p_event e) (p_id e) (p_retry e)
  else if decide (field = "event")
  then Build_PartialEvent (p_data e) (Some value) (p_id e) (p_retry e)
  else if decide (field = "id")
  then Build_PartialEvent (p_data e) (p_event e) (Some value) (p_retry e)
  else if decide (field = "retry")
  then Build_PartialEvent (p_data e) (p_event e) (p_id e) (Some (parseInt value))
  else e.

(** The loop [for (const line of lines)] of [parse], from the current
    [currentEvent] on; returns what it pushes to [events]. *)
Fixpoint process_lines (lines : list string) (currentEvent : PartialEvent)
    : list StreamEvent :=
  match lines with
  | [] => []
  | line :: lines' =>
      if decide (line = "") then
        match p_data currentEvent with
        | Some d =>
            Build_StreamEvent d (p_event currentEvent) (p_id currentEvent)
                              (p_retry currentEvent)
            :: process_lines lines' empty_event
        | None => process_lines lines' empty_event
        end
      else
        match cut_colon line with
        | None => process_lines lines' currentEvent
        | Some (field, value) =>
            process_lines lines' (set_field (trim field) (trim value) currentEvent)
        end
  end.

(** [parse(chunk)] on a parser whose [buffer] field is [buffer]; returns the
    events and the new [buffer]. [currentEvent] is a local variable of
    [parse]: each call starts from [{}]. *)
Definition parse (chunk : string) (buffer : string) : list StreamEvent * string :=
  let buffer := buffer +:+ chunk in
  let lines := split buffer in
  (process_lines (removelast lines) empty_event, default "" (last lines)).

(** [reset()] *)
Definition reset : string := "".

(** The chunks of a stream fed one by one to a new parser, the events of
    all calls in order. *)
Fixpoint parse_all (chunks : list string) (buffer : string) : list StreamEvent :=
  match chunks with
  | [] => []
  | chunk :: chunks' =>
      let '(events, buffer) := parse chunk buffer in
      events ++ parse_all chunks' buffer
  end.

End SSE.

(** ** StreamProcessor ([core/streaming]) *)
Module Processor.
Import SSE.

(** What one [reader.read()] resolves to. *)
Inductive read_result :=
  | ReadChunk (text : string)
      (* [{done: false, value}], [text] being [decoder.decode(value, {stream: true})] *)
  | ReadDone
  | ReadThrows (t : thrown).

(** Where the generator [processStream] stands. *)
Inductive gen_state :=
  | GenStart
      (* created, body not entered *)
  | GenRunning (events : list StreamEvent)
      (* suspended at [yield], with these events of the current chunk still
         to go through *)
  | GenAwaiting
      (* inside the [while] loop, at an [await reader.read()] that has not
         settled *)
  | GenClosed.

(** The processor, the response it reads and the abort signal it shares
    with the runner. [body] is what the reader will deliver ([None]:
    [response.body] is null); reading past its end never resolves. *)
Record processor := Build_processor {
  buffer : string;
  abortController : bool;
  signal_aborted : bool;
  gen : gen_state;
  body : option (list read_result);
  reader_locked : bool
}.

Inductive gen_out :=
  | Yield (e : StreamEvent)
  | Return
  | Throws (t : thrown)
  | Blocked.

(** The [finally] block: [reader.releaseLock(); this.parser.reset()]. *)
Definition finally (p : processor) (src : list read_result) : processor :=
  Build_processor SSE.reset (abortController p) (signal_aborted p) GenClosed
                  (Some src) false.

(** [for (const event of events)] from the events left. *)
Definition for_events (p : processor) (src : list read_result) (buf : string)
    (events : list StreamEvent) : option (gen_out * processor) :=
  match events with
  | e :: events' =>
      if decide (data e = "[DONE]") then Some (Return, finally p src)
      else Some (Yield e,
                 Build_processor buf (abortController p) (signal_aborted p)
                                 (GenRunning events') (Some src) true)
  | [] => None
  end.

(** The [while (true)] loop from [await reader.read()] on. *)
Fixpoint read_loop (p : processor) (src : list read_result) (buf : string)
    : gen_out * processor :=
  match src with
  | [] =>
      (Blocked,
       Build_processor buf (abortController p) (signal_aborted p)
                       GenAwaiting (Some []) true)
  | ReadDone :: src' => (Return, finally p src')
  | ReadThrows t :: src' => (Throws t, finally p src')
  | ReadChunk text :: src' =>
      let '(events, buf') := parse text buf in
      match for_events p src' buf' events with
      | Some r => r
      | None => read_loop p src' buf'
      end
  end.

(** [next()] on the generator returned by [processStream(response)]. While
    the generator is awaiting a read, the request is queued behind it. *)
Definition gen_next (p : processor) : gen_out * processor :=
  match gen p with
  | GenClosed => (Return, p)
  | GenAwaiting => (Blocked, p)
  | GenStart =>
      match body p with
      | None =>
          (Throws (ThrownError (JsError "Error" "Response body is null")),
           Build_processor (buffer p) (abortController p) (signal_aborted p)
                           GenClosed None (reader_locked p))
      | Some src => read_loop p src (buffer p)
      end
  | GenRunning events =>
      let src := default [] (body p) in
      match for_events p src (buffer p) events with
      | Some r => r
      | None => read_loop p src (buffer p)
      end
  end.

(** [return()] on the generator: what [for await] calls when the consumer
    leaves its loop early. At a [yield] it runs the [finally] block; while
    the generator is awaiting a read the request is queued and nothing
    runs. *)
Definition gen_return (p : processor) : processor :=
  match gen p with
  | GenRunning _ => finally p (default [] (body p))
  | GenAwaiting => p
  | _ => Build_processor (buffer p) (abortController p) (signal_aborted p)
                         GenClosed (body p) (reader_locked p)
  end.

(** [setAbortController(controller)] with the controller whose signal is
    [signal_aborted]. *)
Definition setAbortController (p : processor) : processor :=
  Build_processor (buffer p) true (signal_aborted p) (gen p) (body p) (reader_locked p).

(** [abort()] *)
Definition abort (p : processor) : processor :=
  if abortController p
  then Build_processor (buffer p) (abortController p) true (gen p) (body p)
                       (reader_locked p)
  else p.

(** [new StreamProcessor()] and the [response] it will be given. *)
Definition new_processor (response_body : option (list read_result)) : processor :=
  Build_processor "" false false GenStart response_body false.

(** A consumer that keeps calling [next()]: the frames it gets in [n]
    calls, and the processor afterwards. *)
Fixpoint pull (n : nat) (p : processor) : list StreamEvent * processor :=
  match n with
  | 0 => ([], p)
  | S n' =>
      match gen_next p with
      | (Yield e, p') => let '(es, p'') := pull n' p' in (e :: es, p'')
      | (_, p') => ([], p')
      end
  end.

End Processor.

(** ** Vocabulary of the statements *)

(** The payloads emitted under event name [ev], in order. *)
Definition emitted (ev : string) (tr : list (string * payload)) : list payload :=
  omap (λ e, if decide (e.1 = ev) then Some e.2 else None) tr.

(** A chat frame with one choice carrying [content] and [finish_reason]. *)
Definition content_frame (c : option string) (f : option string) : decoded chat_chunk :=
  JsonValue (ChatChunk "chatcmpl" (Some [ChunkChoice (Some (ChunkDelta c None)) f])).

(** A chat frame whose delta carries the tool-call entries [ds]. *)
Definition tool_frame (ds : list tool_call_delta) : decoded chat_chunk :=
  JsonValue (ChatChunk "chatcmpl" (Some [ChunkChoice (Some (ChunkDelta None (Some ds))) None])).

(** A tool-call delta at [index] that carries only a fragment of arguments. *)
Definition arguments_delta (index : nat) (fragment : string) : tool_call_delta :=
  ToolCallDelta (Some index) None (Some (ToolCallFunction None (Some fragment))).

(** [choices[0].delta.content] of a frame when the runner appends it (it is a
    non-empty string), [""] otherwise. *)
Definition frame_content (frame : decoded chat_chunk) : string :=
  match frame with
  | JsonValue chunk =>
      match choices chunk with
      | Some cs => or_empty ((head cs ≫= delta) ≫= content)
      | None => ""
      end
  | JsonThrows _ => ""
  end.

(** [choices[0].finish_reason] of a frame, when the runner reaches it. *)
Definition frame_finish (frame : decoded chat_chunk) : option string :=
  match frame with
  | JsonValue chunk =>
      match choices chunk with
      | Some cs => head cs ≫= finish_reason
      | None => None
      end
  | JsonThrows _ => None
  end.

(** Concatenation of strings, in order. *)
Definition concat_strings (l : list string) : string := foldr String.append "" l.

(** Listeners that neither register listeners nor call [abort()]: user
    handlers made of [off] and [throw], and the callbacks of [once], [done]
    and the iterator. A [once] wrapper wraps a function created before it. *)
Definition tame_action (a : uaction) : bool :=
  match a with
  | UOff _ _ | UThrow => true
  | UOn _ _ | UAbort => false
  end.

Definition tame_closure (h : handler) (c : closure) : bool :=
  match c with
  | FUser body => forallb tame_action body
  | FOnceWrapper _ inner => bool_decide (inner < h)
  | _ => true
  end.

Fixpoint tame_from (h : handler) (fs : list closure) : bool :=
  match fs with
  | [] => true
  | c :: fs' => tame_closure h c && tame_from (S h) fs'
  end.

Definition tame (sh : shell) : bool := tame_from 0 (funs sh).

(** Fuel that covers one [emit] among tame listeners: the largest [Set], the
    deepest chain of wrappers, and two more. *)
Definition fuel_ok (fuel : nat) (sh : shell) : bool :=
  bool_decide (length (funs sh) + 2 ≤ fuel)
  && forallb (λ s : js_set, bool_decide (length s + length (funs sh) + 2 ≤ fuel)) (sets sh).

(** * Invariants and relations used by the proofs *)

Import Emitter.

(** A promise that has settled stays as it is. *)
Definition settled_kept (sh sh' : shell) : Prop :=
  ∀ p v, promises sh !! p = Some v → v ≠ Pending → promises sh' !! p = Some v.

(** What a tame listener leaves unchanged. *)
Definition pres (sh sh' : shell) : Prop :=
  funs sh' = funs sh ∧ aborted sh' = aborted sh ∧ trace sh' = trace sh
  ∧ length <$> sets sh' = length <$> sets sh ∧ settled_kept sh sh'.

(** [emit] among tame listeners: it returns, and all it changes for the
    runner is the new entry of the trace. *)
Definition pres_emit (ev : string) (d : payload) (sh sh' : shell) : Prop :=
  funs sh' = funs sh ∧ aborted sh' = aborted sh ∧ trace sh' = trace sh ++ [(ev, d)]
  ∧ length <$> sets sh' = length <$> sets sh ∧ settled_kept sh sh'.

(** * Handlers that remove handlers during emission *)

(** The handlers of a [Set], in insertion order. *)
Definition set_members (s : js_set) : list handler := omap (λ e, e) s.

(** An action of a handler that runs for entry [i] of the [Set] at address
    [a]: it throws, or it removes from that [Set] nothing that comes after
    entry [i]. *)
Definition backward_action (sh : shell) (a : nat) (es : js_set) (i : nat) (act : uaction)
    : bool :=
  match act with
  | UThrow => true
  | UOff ev' h' =>
      negb (bool_decide (events sh !! ev' = Some a))
      || negb (bool_decide (Some h' ∈ drop (S i) es))
  | UOn _ _ | UAbort => false
  end.

(** The handler at entry [i]: a user function, or the wrapper that [once]
    puts around one. *)
Definition backward_handler (sh : shell) (a : nat) (es : js_set) (i : nat) (h : handler)
    : bool :=
  match funs sh !! h with
  | Some (FUser body) => forallb (backward_action sh a es i) body
  | Some (FOnceWrapper ev' inner) =>
      backward_action sh a es i (UOff ev' h)
      && match funs sh !! inner with
         | Some (FUser body) => forallb (backward_action sh a es i) body
         | _ => false
         end
  | _ => false
  end.

Fixpoint backward_from (sh : shell) (a : nat) (es : js_set) (i : nat) (rest : js_set)
    : bool :=
  match rest with
  | [] => true
  | None :: rest' => backward_from sh a es (S i) rest'
  | Some h :: rest' => backward_handler sh a es i h && backward_from sh a es (S i) rest'
  end.

(** Every handler registered for [ev] removes, from the [Set] of [ev], only
    itself or handlers registered before it. *)
Definition removes_backwards (ev : string) (sh : shell) : bool :=
  match events sh !! ev with
  | Some a => let es := default [] (sets sh !! a) in backward_from sh a es 0 es
  | None => true
  end.

(** What is kept while the loop of [emit] over the [Set] at [a] is at entry
    [k]: the functions, the entries from [k] on, and no new name for the
    [Set]. *)
Definition keeps (sh0 : shell) (a k : nat) (sh : shell) : Prop :=
  funs sh = funs sh0
  ∧ (∀ ev', events sh !! ev' = Some a → events sh0 !! ev' = Some a)
  ∧ drop k (default [] (sets sh !! a)) = drop k (default [] (sets sh0 !! a))
  ∧ length (default [] (sets sh !! a)) = length (default [] (sets sh0 !! a)).

Import Processor.

Definition two_frames : list read_result :=
  [ReadChunk ("data: a" +:+ SSE.nl +:+ SSE.nl); ReadChunk ("data: b" +:+ SSE.nl +:+ SSE.nl); ReadDone].

Definition with_signal (b : bool) (p : processor) : processor :=
  Build_processor (buffer p) (abortController p) b (gen p) (body p) (reader_locked p).

Import Chat.

(** * Running the chat runner against two emitters *)

(** The fields of the runner that listeners cannot reach. *)
Definition priv (r : runner) :=
  (running r, contentSnapshot r, isComplete r, _finalContent r,
   toolCallsSnapshot r, _finalToolCalls r).

(** [simM R m ml]: from states related by [R], [m] and [ml] both return, with
    the same result and related states. *)
Definition simM {A} (R : runner → runner → Prop) (m ml : M A) : Prop :=
  ∀ r rl, R r rl → ∃ a r' rl', m r = Some (a, r') ∧ ml rl = Some (a, rl') ∧ R r' rl'.

(** The names of the events a frame can give rise to, errors apart. *)
Definition frame_names (names : string → Prop) : Prop :=
  names "chunk" ∧ names "content.delta" ∧ names "tool_calls.function.arguments.delta"
  ∧ names "content.done" ∧ names "tool_calls.function.arguments.done".

(** Every event the runner can emit. *)
Definition all_names (names : string → Prop) : Prop :=
  frame_names names ∧ names "error" ∧ names "abort" ∧ names "end".

(** A frame that makes the runner emit ["error"]. *)
Definition failing (frame : decoded chat_chunk) : bool :=
  match frame with
  | JsonThrows _ => true
  | JsonValue chunk => bool_decide (choices chunk = None)
  end.

(** ** Tame listeners do not interfere *)

(** [r] runs with its listeners, [rl] is the same runner without any. *)
Definition sim (n : nat) (r rl : runner) : Prop :=
  priv r = priv rl ∧ aborted (sh r) = aborted (sh rl) ∧ trace (sh r) = trace (sh rl)
  ∧ tame (sh r) = true ∧ fuel_ok n (sh r) = true.

(** * The run without listeners *)

(** [m] returns from [r], with a result and a state that satisfy [Q]. *)
Definition runs {A} (m : M A) (r : runner) (Q : A → runner → Prop) : Prop :=
  ∃ a r', m r = Some (a, r') ∧ Q a r'.

(** ** Content *)

(** The fields that the tool-call fold and the emission of events leave
    alone. *)
Definition content_fields (r : runner) :=
  (running r, contentSnapshot r, isComplete r, _finalContent r, _finalToolCalls r,
   aborted (sh r)).

(** ** Which events a run emits *)

(** From [r] to [r'] the trace grew by events whose names satisfy [P]. *)
Definition emits_only (P : string → bool) (r r' : runner) : Prop :=
  ∃ evs, trace (sh r') = trace (sh r) ++ evs ∧ forallb (λ e, P e.1) evs = true.

(** The names of the events of one frame; the two [done] events only when the
    frame carries a finish reason. *)
Definition frame_name (finishing : bool) (ev : string) : bool :=
  bool_decide (ev ∈ ["chunk"; "content.delta"; "tool_calls.function.arguments.delta"; "error"])
  || finishing
     && bool_decide (ev ∈ ["content.done"; "tool_calls.function.arguments.done"]).

(** The names of the events that a frame gives rise to. *)
Definition frame_events (frame : decoded chat_chunk) : list string :=
  match frame with
  | JsonThrows _ => ["error"]
  | JsonValue chunk =>
      "chunk" ::
      match choices chunk with
      | None => ["error"]
      | Some cs =>
          ["content.delta"; "tool_calls.function.arguments.delta"]
          ++ (if truthy (head cs ≫= finish_reason)
              then ["content.done"; "tool_calls.function.arguments.done"] else [])
      end
  end.

(** ** Tool-call arguments *)

(** [function.arguments] of the snapshot at [index]. *)
Definition arguments_at (index : nat) (r : runner) : option string :=
  call_arguments <$> JsObject.get (toolCallsSnapshot r) index.

(** The fragment that a delta appends. *)
Definition delta_arguments (d : tool_call_delta) : string :=
  or_empty (tc_function d ≫= fn_arguments).

(** * A runner awaited through [done()] *)

(** The shell [s] with the trace [tr]. *)
Definition with_trace (tr : list (string * payload)) (s : shell) : shell :=
  Shell (events s) (sets s) (funs s) (aborted s) (promises s) (iters s) tr
        (calls s) (console s).

(** No listener is registered for the events that frames give rise to,
    errors apart. *)
Definition no_frame_listener (s : shell) : bool :=
  forallb (λ ev, bool_decide (events s !! ev = None))
    ["chunk"; "content.delta"; "tool_calls.function.arguments.delta"; "content.done";
     "tool_calls.function.arguments.done"].

(** [r] has the shell [s0] but for the trace, which is that of [rl]. *)
Definition quiet (s0 : shell) (r rl : runner) : Prop :=
  priv r = priv rl ∧ aborted (sh rl) = false ∧ sh r = with_trace (trace (sh rl)) s0.

(** The runner on which [done()] was called first, and no other listener
    registered: its shell but for the trace. *)
Definition awaited_shell : shell := (Common.done false new_shell).2.

(** Tame listeners, and the promises settled in [s0] stay settled. *)
Definition sim_keep (n : nat) (s0 : shell) (r rl : runner) : Prop :=
  sim n r rl ∧ settled_kept s0 (sh r).

(** * A runner read through its async iterator *)

(** What the four callbacks of the iterator do to its variables on one
    event. *)
Definition iter_step (it : iter_state) (e : string * payload) : iter_state :=
  if decide (e.1 = "chunk")
  then IterState (it_chunks it ++ [e.2]) (it_chunkIndex it) (it_isComplete it) (it_error it)
  else if decide (e.1 = "end")
  then IterState (it_chunks it) (it_chunkIndex it) true (it_error it)
  else if decide (e.1 = "error")
  then IterState (it_chunks it) (it_chunkIndex it) true (Some e.2)
  else if decide (e.1 = "abort")
  then IterState (it_chunks it) (it_chunkIndex it) true (Some (PError APIUserAbortError))
  else it.

(** The callback that an event reaches. *)
Definition iter_calls (e : string * payload) : list (nat * payload) :=
  if decide (e.1 = "chunk") then [(0, e.2)]
  else if decide (e.1 = "end") then [(1, e.2)]
  else if decide (e.1 = "error") then [(2, e.2)]
  else if decide (e.1 = "abort") then [(3, e.2)]
  else [].

(** The shell of a new runner on which [Symbol.asyncIterator] was called
    once, after the events [tr]. *)
Definition iterated_shell (tr : list (string * payload)) : shell :=
  let s := (Common.asyncIterator new_shell).2 in
  Shell (events s) (sets s) (funs s) false [] [foldl iter_step (IterState [] 0 false None) tr]
        tr (tr ≫= iter_calls) [].

Definition iterated (r rl : runner) : Prop :=
  priv r = priv rl ∧ aborted (sh rl) = false ∧ sh r = iterated_shell (trace (sh rl)).

(** The names of all the events of the chat runner. *)
Definition chat_events : list string :=
  ["chunk"; "content.delta"; "content.done"; "tool_calls.function.arguments.delta";
   "tool_calls.function.arguments.done"; "error"; "end"; "abort"].

(** The error with which a failing frame makes the runner emit ["error"]. *)
Definition frame_error (frame : decoded chat_chunk) : js_error :=
  match frame with
  | JsonThrows e => e
  | JsonValue _ => choices_type_error
  end.

(** Events that leave the [error] variable of the iterator alone. *)
Definition keeps_error (ev : string) : bool :=
  negb (bool_decide (ev ∈ ["error"; "abort"])).

(** A runner whose consumer listens to ["content.delta"] with a handler
    that throws. *)
Definition throwing_listener_runner : Chat.runner :=
  let '(h, s) := Emitter.new_function (FUser [UThrow]) new_shell in
  Chat.set_sh (Emitter.on "content.delta" h s) Chat.new_runner.

(** Two handlers on ["e"]: one that removes itself, one registered with
    [once]. *)
Definition self_removing_shell : shell :=
  Emitter.once "e" 1
    (Emitter.on "e" 0 (upd_funs (λ _, [FUser [UOff "e" 0]; FUser []]) new_shell)).

Import SSE.

(** * The parser across chunk boundaries *)

(** No newline in [s]. *)
Fixpoint newline_free (s : string) : bool :=
  match s with
  | "" => true
  | String c s' => negb (bool_decide (c = newline)) && newline_free s'
  end.

(** [currentEvent] after the loop of [parse] over [lines]. *)
Fixpoint state_after (lines : list string) (currentEvent : PartialEvent) : PartialEvent :=
  match lines with
  | [] => currentEvent
  | line :: lines' =>
      if decide (line = "") then state_after lines' empty_event
      else match cut_colon line with
           | None => state_after lines' currentEvent
           | Some (field, value) =>
               state_after lines' (set_field (trim field) (trim value) currentEvent)
           end
  end.

(** No empty line in [s]; [at_line_start] tells whether [s] starts a
    line. *)
Fixpoint blank_line_free (at_line_start : bool) (s : string) : bool :=
  match s with
  | "" => true
  | String c s' =>
      if decide (c = newline) then negb at_line_start && blank_line_free true s'
      else blank_line_free false s'
  end.

(** A line that [parse] skips: no colon, or a field name it does not know
    (a comment line starts with a colon and has the field name [""]). *)
Definition skipped_line (line : string) : bool :=
  negb (bool_decide (line = ""))
  && match cut_colon line with
     | None => true
     | Some (field, _) =>
         negb (bool_decide (trim field ∈ ["data"; "event"; "id"; "retry"]))
     end.

(** [lines.join("\n")] *)
Fixpoint join (lines : list string) : string :=
  match lines with
  | [] => ""
  | [l] => l
  | l :: ls => l +:+ nl +:+ join ls
  end.

(** ** One frame *)

(** A character that [trim()] keeps at either end of a string, among the
    characters below 128: a printable character other than the space. *)
Definition visible (c : ascii) : bool :=
  bool_decide (33 ≤ nat_of_ascii c ≤ 126).

Fixpoint last_char (s : string) : option ascii :=
  match s with
  | "" => None
  | String c "" => Some c
  | String _ s' => last_char s'
  end.

(** Printable characters below 128 only. *)
Fixpoint printable (s : string) : bool :=
  match s with
  | "" => true
  | String c s' => bool_decide (32 ≤ nat_of_ascii c ≤ 126) && printable s'
  end.

(** A payload on one line: printable characters below 128, the first and
    the last of them no space. *)
Definition one_line_payload (v : string) : bool :=
  match v with
  | "" => false
  | String c _ =>
      visible c
      && printable v
      && from_option visible false (last_char v)
  end.

Import SSE Processor.

(** * The generator of [StreamProcessor] over the parser *)

(** The events before the first one whose [data] is ["[DONE]"]. *)
Fixpoint until_done (es : list StreamEvent) : list StreamEvent :=
  match es with
  | [] => []
  | e :: es' => if decide (data e = "[DONE]") then [] else e :: until_done es'
  end.

(** A body that delivers [chunks] and then closes. *)
Definition chunked_body (chunks : list string) : list read_result :=
  (ReadChunk <$> chunks) ++ [ReadDone].

(** The generator has finished: reader released, parser reset. *)
Definition finished (p : processor) : Prop :=
  gen p = GenClosed ∧ reader_locked p = false ∧ buffer p = "".

(** The generator is suspended at a [yield], or has not started, with the
    events [es] still to come from a body that closes. *)
Definition suspended (p : processor) (es : list StreamEvent) : Prop :=
  ∃ evs chunks,
    (gen p = GenRunning evs ∨ (gen p = GenStart ∧ evs = []))
    ∧ body p = Some (chunked_body chunks)
    ∧ evs ++ parse_all chunks (buffer p) = es.

(** The reader is locked exactly while the generator is inside its loop,
    and the parser holds nothing outside it. *)
Definition lock_follows_generator (p : processor) : Prop :=
  match gen p with
  | GenStart => reader_locked p = false ∧ buffer p = ""
  | GenRunning _ | GenAwaiting => reader_locked p = true
  | GenClosed => reader_locked p = false ∧ buffer p = ""
  end.

(** The generator is at a [reader.read()] that has not settled. *)
Definition awaits_read (p : processor) : bool :=
  match gen p with
  | GenAwaiting => true
  | _ => false
  end.

(** What a step of the generator gives when [es] are the events to come. *)
Definition step_for (es : list StreamEvent) (r : gen_out * processor) : Prop :=
  match es with
  | [] => r.1 = Return ∧ finished r.2
  | e :: es' =>
      if decide (data e = "[DONE]") then r.1 = Return ∧ finished r.2
      else r.1 = Yield e ∧ suspended r.2 es'
  end.

Import Emitter.

(** * Registration *)

(** The handlers registered for [ev], in registration order: what [emit]
    starts to iterate. *)
Definition members (ev : string) (sh : shell) : list handler :=
  match handlers_of ev sh with
  | Some s => set_members s
  | None => []
  end.

(** The store behind an emitter: every event names a [Set] of its own, and
    no [Set] holds a handler twice. *)
Definition emitter_ok (sh : shell) : Prop :=
  (∀ ev a, events sh !! ev = Some a → a < length (sets sh))
  ∧ (∀ ev1 ev2 a, events sh !! ev1 = Some a → events sh !! ev2 = Some a → ev1 = ev2)
  ∧ (∀ a s, sets sh !! a = Some s → NoDup (set_members s)).

(** Every registered handler is a function that exists. *)
Definition handlers_exist (sh : shell) : Prop :=
  ∀ ev h, h ∈ members ev sh → h < length (funs sh).

(** An emitter with two functions, the first of them listening to
    ["chunk"]. *)
Definition one_listener_shell : shell :=
  on "chunk" 0 (upd_funs (λ _, [FUser [UThrow]; FUser []]) new_shell).

(** An emitter whose only ["chunk"] handler registers another one. *)
Definition growing_shell : shell :=
  on "chunk" 0 (upd_funs (λ _, [FUser [UOn "chunk" 1]; FUser []]) new_shell).

(** * Listeners that call [abort()] *)

(** Listeners that register no listener: user handlers made of [off],
    [throw] and [abort()], and the callbacks of [once], [done] and the
    iterator. A [once] wrapper wraps a function created before it. *)
Definition calm_action (a : uaction) : bool :=
  match a with
  | UOn _ _ => false
  | UOff _ _ | UThrow | UAbort => true
  end.

Definition calm_closure (h : handler) (c : closure) : bool :=
  match c with
  | FUser body => forallb calm_action body
  | FOnceWrapper _ inner => bool_decide (inner < h)
  | _ => true
  end.

Fixpoint calm_from (h : handler) (fs : list closure) : bool :=
  match fs with
  | [] => true
  | c :: fs' => calm_closure h c && calm_from (S h) fs'
  end.

Definition calm (sh : shell) : bool := calm_from 0 (funs sh).

(** Function [h] never calls [abort()]: it is not a user handler that
    does, nor a wrapper, followed through at most [k] wrappers, of one. *)
Fixpoint abort_free (fs : list closure) (k : nat) (h : handler) : bool :=
  match k with
  | 0 => false
  | S k' =>
      match fs !! h with
      | Some (FUser body) => forallb tame_action body
      | Some (FOnceWrapper _ inner) => abort_free fs k' inner
      | _ => true
      end
  end.

(** No handler registered for [ev] calls [abort()]. *)
Definition abort_free_event (ev : string) (sh : shell) : bool :=
  forallb (λ e : option handler,
             match e with
             | Some h => abort_free (funs sh) (length (funs sh)) h
             | None => true
             end)
          (default [] (handlers_of ev sh)).

(** The functions and the promises that closure [c] names are below [f]
    and [p]. *)
Definition names_below (f p : nat) (c : closure) : bool :=
  match c with
  | FUser body =>
      forallb (λ a, match a with
                    | UOff _ h | UOn _ h => bool_decide (h < f)
                    | _ => true
                    end) body
  | FOnceWrapper _ inner => bool_decide (inner < f)
  | FDoneOnEnd q a b c | FDoneOnError q a b c | FDoneOnAbort q a b c =>
      bool_decide (q < p) && bool_decide (a < f) && bool_decide (b < f)
      && bool_decide (c < f)
  | _ => true
  end.

(** Every function and promise that a function of the emitter names
    exists, and so does every registered handler. *)
Definition closed_store (sh : shell) : bool :=
  forallb (names_below (length (funs sh)) (length (promises sh))) (funs sh)
  && forallb (λ s : js_set,
                forallb (λ e : option handler,
                           match e with
                           | Some h => bool_decide (h < length (funs sh))
                           | None => true
                           end) s)
             (sets sh).

(** Entry [j] of the [Set] at address [a]. *)
Definition entry (sh : shell) (a j : nat) : option (option handler) :=
  s ← sets sh !! a; s !! j.

(** A [done()] call that is followed: its promise, the first of the six
    functions that it created, and the addresses of the [Set]s of ["end"],
    ["error"] and ["abort"]. *)
Record awaited_done := AwaitedDone {
  aw_promise : nat;
  aw_first : nat;
  aw_end : nat;
  aw_error : nat;
  aw_abort : nat
}.

(** The wrapper that [once] made of [onAbort]. *)
Definition aw_wrapper (w : awaited_done) : handler := aw_first w + 5.

(** The functions that [done()] creates for promise [p] when [f] functions
    exist: its three callbacks and their [once] wrappers. *)
Definition done_closures (p f : nat) : list closure :=
  [FDoneOnEnd p f (f + 1) (f + 2); FDoneOnError p f (f + 1) (f + 2);
   FDoneOnAbort p f (f + 1) (f + 2);
   FOnceWrapper "end" f; FOnceWrapper "error" (f + 1); FOnceWrapper "abort" (f + 2)].

(** What stays fixed while listeners run: the function objects, the number
    of entries of every [Set], the [Set]s whose handlers never call
    [abort()], and the [done()] call that is followed, if any. *)
Record scene := Scene {
  sc_funs : list closure;
  sc_lengths : list nat;
  sc_quiet : list nat;
  sc_done : option awaited_done
}.

Definition rejected (p : nat) (sh : shell) : Prop :=
  promises sh !! p = Some (Rejected (PError APIUserAbortError)).

(** The wrapper of [onAbort] is registered for ["abort"]. *)
Definition armed (w : awaited_done) (sh : shell) : Prop :=
  events sh !! "abort" = Some (aw_abort w)
  ∧ ∃ j, entry sh (aw_abort w) j = Some (Some (aw_wrapper w)).

Definition waiting (w : awaited_done) (sh : shell) : Prop :=
  promises sh !! aw_promise w = Some Pending ∧ armed w sh.

(** The callbacks of the [done()] call are registered where [done()] put
    them and nowhere else, and its promise is pending with [onAbort]
    registered, or rejected by it. *)
Definition tracks (w : awaited_done) (sh : shell) : Prop :=
  (∀ a j h, entry sh a j = Some (Some h) → aw_first w ≤ h →
     (a, h) ∈ [(aw_end w, aw_first w + 3); (aw_error w, aw_first w + 4);
               (aw_abort w, aw_first w + 5)])
  ∧ (∀ ev a, events sh !! ev = Some a →
       (a = aw_end w → ev = "end") ∧ (a = aw_error w → ev = "error")
       ∧ (a = aw_abort w → ev = "abort"))
  ∧ (waiting w sh ∨ rejected (aw_promise w) sh).

(** The emitter is within scene [c]. *)
Definition within (c : scene) (sh : shell) : Prop :=
  funs sh = sc_funs c ∧ length <$> sets sh = sc_lengths c
  ∧ (∀ ev a, ev ∈ ["abort"; "chunk"] → events sh !! ev = Some a → a ∈ sc_quiet c)
  ∧ (∀ a j h, a ∈ sc_quiet c → entry sh a j = Some (Some h) →
       abort_free (sc_funs c) (length (sc_funs c)) h = true)
  ∧ (∀ w, sc_done c = Some w → tracks w sh).

(** The scene is one of calm listeners, [K] is fuel for an emission among
    those that never call [abort()], and the functions older than the
    [done()] call name nothing that it created. *)
Definition scene_ok (K : nat) (c : scene) : Prop :=
  calm_from 0 (sc_funs c) = true
  ∧ length (sc_funs c) + 2 ≤ K
  ∧ Forall (λ l, l + length (sc_funs c) + 2 ≤ K) (sc_lengths c)
  ∧ (∀ w, sc_done c = Some w →
       ∃ F0, sc_funs c = F0 ++ done_closures (aw_promise w) (length F0)
             ∧ aw_first w = length F0
             ∧ forallb (names_below (length F0) (aw_promise w)) F0 = true).

(** From [sh] to [sh'] handlers were removed, nothing else happened to the
    registrations. *)
Definition shrinks (sh sh' : shell) : Prop :=
  funs sh' = funs sh ∧ length <$> sets sh' = length <$> sets sh
  ∧ events sh' ⊆ events sh
  ∧ (∀ a j h, entry sh' a j = Some (Some h) → entry sh a j = Some (Some h)).

(** Handler [h] is older than the [done()] call that is followed. *)
Definition older (c : scene) (h : handler) : Prop :=
  ∀ w, sc_done c = Some w → h < aw_first w.

(** [h] is not the wrapper of [onAbort]; [q] is not the promise followed. *)
Definition spares (c : scene) (h : handler) : Prop :=
  ∀ w, sc_done c = Some w → h ≠ aw_wrapper w.

Definition other_promise (c : scene) (q : nat) : Prop :=
  ∀ w, sc_done c = Some w → q ≠ aw_promise w.

(** What handlers that never call [abort()] do: within the scene, no
    promise settled twice, handlers removed, no event emitted. *)
Definition quiet_rel (c : scene) (sh sh' : shell) : Prop :=
  within c sh' ∧ settled_kept sh sh' ∧ shrinks sh sh'
  ∧ trace sh' = trace sh ∧ aborted sh' = aborted sh.

(** What handlers older than the [done()] call leave alone: its promise
    and the registration of [onAbort]. *)
Definition old_rel (c : scene) (sh sh' : shell) : Prop :=
  ∀ w, sc_done c = Some w →
    promises sh' !! aw_promise w = promises sh !! aw_promise w
    ∧ (∀ a j, entry sh a j = Some (Some (aw_wrapper w)) →
              entry sh' a j = Some (Some (aw_wrapper w)))
    ∧ (armed w sh → events sh' !! "abort" = Some (aw_abort w)).

Definition abort_entry : string * payload := ("abort", PUndefined).

(** From [sh] to [sh'] the trace grew by ["abort"] events, and the signal
    was set if there was one. *)
Definition aborts_only (sh sh' : shell) : Prop :=
  ∃ k, trace sh' = trace sh ++ replicate k abort_entry
       ∧ aborted sh' = aborted sh || bool_decide (0 < k).

(** What calm handlers do. For the [done()] call that is followed: as long
    as the signal is not set its promise and the registration of [onAbort]
    are as they were, and once it is set the promise is rejected. *)
Definition calm_rel (c : scene) (sh sh' : shell) : Prop :=
  within c sh' ∧ settled_kept sh sh' ∧ shrinks sh sh' ∧ aborts_only sh sh'
  ∧ (∀ w, sc_done c = Some w →
       (aborted sh' = false →
          promises sh' !! aw_promise w = promises sh !! aw_promise w
          ∧ (armed w sh → armed w sh'))
       ∧ (aborted sh' = true → (aborted sh = true → rejected (aw_promise w) sh) →
          rejected (aw_promise w) sh')).

(** ** The functions of a scene *)

(** What closure [cl] removes and settles spares the [done()] call that is
    followed. *)
Definition closure_spares (c : scene) (cl : closure) : Prop :=
  match cl with
  | FUser body => ∀ ev h, UOff ev h ∈ body → spares c h
  | FOnceWrapper _ inner => older c inner
  | FDoneOnEnd q a b d | FDoneOnError q a b d | FDoneOnAbort q a b d =>
      other_promise c q ∧ spares c a ∧ spares c b ∧ spares c d
  | _ => True
  end.

(** What [emit(ev, d)] does among calm listeners. *)
Definition emit_rel (c : scene) (ev : string) (d : payload) (sh sh' : shell) : Prop :=
  within c sh' ∧ settled_kept sh sh'
  ∧ (∃ k, trace sh' = trace sh ++ ((ev, d) :: replicate k abort_entry)
          ∧ aborted sh' = aborted sh || bool_decide (0 < k)
          ∧ (ev ∈ ["abort"; "chunk"] → k = 0))
  ∧ (∀ w, sc_done c = Some w →
       (aborted sh' = false →
          promises sh' !! aw_promise w = promises sh !! aw_promise w
          ∧ (armed w sh → armed w sh'))
       ∧ (aborted sh' = true → (aborted sh = true → rejected (aw_promise w) sh) →
          rejected (aw_promise w) sh')).

(** ** The scene of an emitter *)

(** The scene of emitter [sh], with the [done()] call [w] followed or
    none. *)
Definition scene_of (sh : shell) (w : option awaited_done) : scene :=
  Scene (funs sh) (length <$> sets sh)
        (omap (λ ev, events sh !! ev) ["abort"; "chunk"]) w.

Import Chat.

(** * The runner among listeners that call [abort()] *)

(** What happens to a runner from outside: [processStream] takes one more
    turn of its loop, or the consumer calls [abort()]. *)
Inductive op :=
  | Pull (x : pulled)
  | CallAbort.

Definition run_op (fuel : nat) (o : op) : M unit :=
  match o with
  | Pull x => processStream_step (emit fuel) x
  | CallAbort => abort fuel
  end.

Definition run_ops (fuel : nat) (ops : list op) : M unit := for_each ops (run_op fuel).

(** The stream neither ends nor fails at [o]. *)
Definition stream_goes_on (o : op) : bool :=
  match o with
  | Pull (Frame frame) => negb (failing frame)
  | Pull _ => false
  | CallAbort => true
  end.

Definition stream_event (ev : string) : bool :=
  bool_decide (ev ∈ ["chunk"; "content.delta"]).

Definition has_abort (tr : list (string * payload)) : bool :=
  existsb (λ e, bool_decide (e.1 = "abort")) tr.

(** No [chunk] and no [content.delta] comes after an ["abort"] in [tr], nor
    at all if the signal was set before. *)
Fixpoint quiet_after_abort (signalled : bool) (tr : list (string * payload)) : bool :=
  match tr with
  | [] => true
  | e :: tr' =>
      negb (signalled && stream_event e.1)
      && quiet_after_abort (signalled || bool_decide (e.1 = "abort")) tr'
  end.

(** The promise of the [done()] call that is followed is pending as long
    as the signal is not set, and rejected with the abort error once it
    is. *)
Definition pending_until_abort (c : scene) (s : shell) : Prop :=
  ∀ w, sc_done c = Some w →
    (aborted s = false → promises s !! aw_promise w = Some Pending)
    ∧ (aborted s = true → rejected (aw_promise w) s).

(** What holds of the emitter [s] of a runner that started from [s0]. *)
Definition run_inv (c : scene) (s0 s : shell) : Prop :=
  within c s ∧ settled_kept s0 s ∧ pending_until_abort c s
  ∧ ∃ tr, trace s = trace s0 ++ tr
          ∧ aborted s = aborted s0 || has_abort tr
          ∧ quiet_after_abort (aborted s0) tr = true.

(** The runner emits [ev] from [s]: no ["end"] and no ["error"] while a
    [done()] call is followed, [chunk] and [content.delta] only if the
    signal is not set, ["abort"] only if it is. *)
Definition event_ok (c : scene) (ev : string) (s : shell) : Prop :=
  (∀ w, sc_done c = Some w → ev ∉ ["end"; "error"])
  ∧ (stream_event ev = true → aborted s = false)
  ∧ (ev = "abort" → aborted s = true).

Definition op_ok (c : scene) (o : op) : Prop :=
  sc_done c = None ∨ stream_goes_on o = true.

(** The scene without the [done()] call. *)
Definition forget (c : scene) : scene :=
  Scene (sc_funs c) (sc_lengths c) (sc_quiet c) None.

(** A runner whose consumer listens to ["content.delta"] with a handler
    that calls [abort()]. *)
Definition aborting_listener_runner : runner :=
  let '(h, s) := Emitter.new_function (FUser [UAbort]) new_shell in
  set_sh (Emitter.on "content.delta" h s) new_runner.

(** * What the frames make the chat runner emit *)

(** The ["chunk"] payloads of a sequence of frames: one for every frame
    that [JSON.parse] accepts. *)
Definition frame_chunks (frames : list (decoded chat_chunk)) : list payload :=
  omap (λ f, match f with JsonValue c => Some (PChatChunk c) | JsonThrows _ => None end)
       frames.

(** The ["content.delta"] payloads of a sequence of frames processed from
    the content snapshot [snapshot]: one for every frame with a non-empty
    content, carrying that content and the snapshot so far. *)
Fixpoint content_deltas (snapshot : string) (frames : list (decoded chat_chunk))
    : list payload :=
  match frames with
  | [] => []
  | f :: fs =>
      if truthy (Some (frame_content f))
      then PContentDelta (frame_content f) (snapshot +:+ frame_content f)
           :: content_deltas (snapshot +:+ frame_content f) fs
      else content_deltas snapshot fs
  end.

(** Events other than ["chunk"] and ["content.delta"]. *)
Definition not_chunk_or_delta (ev : string) : bool :=
  negb (bool_decide (ev ∈ ["chunk"; "content.delta"])).

(** * The tool calls at the finish signal *)

(** The indices of the tool-call deltas of a frame. *)
Definition frame_indices (frame : decoded chat_chunk) : list nat :=
  match frame with
  | JsonValue chunk =>
      match choices chunk with
      | Some cs => omap tc_index (default [] ((head cs ≫= delta) ≫= tool_calls))
      | None => []
      end
  | JsonThrows _ => []
  end.

(** [k] comes before [k'] in the enumeration of an object: the two differ,
    and if [k'] is an array index, then [k] is a smaller one. *)
Definition index_order (k k' : nat) : Prop :=
  k ≠ k' ∧ (JsObject.array_index k' = true → JsObject.array_index k = true ∧ k < k').

(** The keys of the tool-call snapshot are in the order of enumeration:
    the array indices first, in ascending order, then the other keys. *)
Definition ascending (r : runner) : Prop :=
  StronglySorted index_order (JsObject.keys (toolCallsSnapshot r)).

(** * Reading the stream with [for await] *)

(** [k] calls of [next()] on iterator [i], one after the other: what they
    return. *)
Fixpoint collect (k : nat) (i : nat) (r : runner) : list Common.next_result :=
  match k with
  | 0 => []
  | S k' =>
      match next i r with
      | Some (x, r') => x :: collect k' i r'
      | None => []
      end
  end.

Import Completion.

(** * The completion runner *)

(** [choices[0].text] of a completion frame when the runner appends it,
    [""] otherwise. *)
Definition frame_text (frame : decoded completion_chunk) : string :=
  match frame with
  | JsonValue chunk =>
      match c_choices chunk with
      | Some cs => or_empty (head cs ≫= text)
      | None => ""
      end
  | JsonThrows _ => ""
  end.

(** [choices[0].finish_reason] of a completion frame. *)
Definition frame_text_finish (frame : decoded completion_chunk) : option string :=
  match frame with
  | JsonValue chunk =>
      match c_choices chunk with
      | Some cs => head cs ≫= c_finish_reason
      | None => None
      end
  | JsonThrows _ => None
  end.

(** A completion frame that parses and has a [choices] array. *)
Definition accepted (frame : decoded completion_chunk) : bool :=
  match frame with
  | JsonValue chunk => bool_decide (c_choices chunk ≠ None)
  | JsonThrows _ => false
  end.

(** A completion runner awaited through [done()], no frame having carried
    a finish reason yet. *)
Definition awaiting (tr : list (string * payload)) (snapshot : string)
    (r : Completion.runner) : Prop :=
  Completion.sh r = with_trace tr awaited_shell
  ∧ Completion.running r = true ∧ Completion.textSnapshot r = snapshot
  ∧ Completion.isComplete r = false ∧ Completion._finalText r = None.

(** The events of a completion frame. *)
Definition text_events (snapshot : string) (frame : decoded completion_chunk)
    : list (string * payload) :=
  match frame with
  | JsonValue chunk =>
      ("chunk", PCompletionChunk chunk)
      :: (if truthy (Some (frame_text frame))
          then [("text.delta", PTextDelta (frame_text frame) (snapshot +:+ frame_text frame))]
          else [])
      ++ (if truthy (frame_text_finish frame)
          then [("text.done", PTextDone (snapshot +:+ frame_text frame))]
          else [])
  | JsonThrows _ => []
  end.

(** * Properties *)

Import Emitter.

(** * Tame listeners: emission terminates and leaves the runner alone *)

Lemma tame_from_lookup fs : ∀ k i c,
  tame_from k fs = true → fs !! i = Some c → tame_closure (k + i) c = true.
Proof.
  induction fs as [|c0 fs IH]; intros k i c Ht Hl; [done|].
  simpl in Ht. apply andb_true_iff in Ht as [Hc Hr].
  destruct i as [|i]; simpl in Hl.
  - injection Hl as <-. by rewrite Nat.add_0_r.
  - replace (k + S i) with (S k + i) by lia. by apply IH.
Qed.

Lemma tame_lookup sh h c :
  tame sh = true → funs sh !! h = Some c → tame_closure h c = true.
Proof. intros Ht Hl. by apply (tame_from_lookup _ 0 h c Ht). Qed.

Lemma pres_refl sh : pres sh sh.
Proof. repeat split. by intros p v. Qed.

Lemma pres_trans sh1 sh2 sh3 : pres sh1 sh2 → pres sh2 sh3 → pres sh1 sh3.
Proof.
  intros (?&?&?&?&K1) (?&?&?&?&K2). repeat split; try congruence.
  intros p v Hp Hv. apply K2; [|done]. by apply K1.
Qed.

Lemma pres_tame sh sh' : pres sh sh' → tame sh' = tame sh.
Proof. intros (Hf&_). unfold tame. by rewrite Hf. Qed.

Lemma fuel_ok_lengths n sh :
  fuel_ok n sh
  = bool_decide (length (funs sh) + 2 ≤ n)
    && forallb (λ l, bool_decide (l + length (funs sh) + 2 ≤ n)) (length <$> sets sh).
Proof.
  unfold fuel_ok. f_equal. induction (sets sh) as [|s ss IH]; simpl; [done|]. by rewrite IH.
Qed.

Lemma pres_fuel_ok n sh sh' : pres sh sh' → fuel_ok n sh' = fuel_ok n sh.
Proof. intros (Hf&_&_&Hl&_). rewrite !fuel_ok_lengths. by rewrite Hf, Hl. Qed.

Lemma fuel_ok_funs n sh : fuel_ok n sh = true → length (funs sh) + 2 ≤ n.
Proof. unfold fuel_ok. intros [H _]%andb_true_iff. by apply bool_decide_eq_true in H. Qed.

Lemma fuel_ok_set n sh a :
  fuel_ok n sh = true →
  length (default [] (sets sh !! a)) + length (funs sh) + 2 ≤ n.
Proof.
  intros Hok. pose proof (fuel_ok_funs _ _ Hok) as Hp.
  unfold fuel_ok in Hok. apply andb_true_iff in Hok as [_ Hs].
  destruct (sets sh !! a) as [s|] eqn:Hl; simpl; [|lia].
  rewrite forallb_forall in Hs. apply list_elem_of_lookup_2, list_elem_of_In in Hl.
  apply Hs in Hl. by apply bool_decide_eq_true in Hl.
Qed.

Lemma lengths_lookup (l1 : list js_set) : ∀ (l2 : list js_set) a,
  length <$> l1 = length <$> l2 →
  length (default [] (l1 !! a)) = length (default [] (l2 !! a)).
Proof.
  induction l1 as [|s1 l1 IH]; intros [|s2 l2] a H; simplify_eq/=; [done|].
  destruct a as [|a]; simpl; [done|]. by apply IH.
Qed.

Lemma pres_set_length sh sh' a :
  pres sh sh' →
  length (default [] (sets sh' !! a)) = length (default [] (sets sh !! a)).
Proof. intros (_&_&_&Hl&_). by apply lengths_lookup. Qed.

Lemma fmap_length_alter (f : js_set → js_set) (l : list js_set) : ∀ a,
  (∀ s, length (f s) = length s) → length <$> alter f a l = length <$> l.
Proof.
  intros a Hf. revert a. induction l as [|s l IH]; intros [|a]; simpl; [done..| |].
  - by rewrite Hf.
  - f_equal. apply IH.
Qed.

Lemma off_pres ev h sh : pres sh (off ev h sh).
Proof.
  unfold off. destruct (events sh !! ev) as [a|]; [|apply pres_refl].
  assert (pres sh (upd_sets (alter (λ s, set_delete s h) a) sh)) as Hp.
  { split; [done|]. split; [done|]. split; [done|]. split; [|by intros p v].
    simpl. apply fmap_length_alter. intros s. unfold set_delete.
    by rewrite length_fmap. }
  case_decide; [|done]. destruct Hp as (?&?&?&?&?). by repeat split.
Qed.

Lemma settle_pres p v sh : pres sh (settle p v sh).
Proof.
  unfold settle. destruct (promises sh !! p) as [[]|] eqn:Hp; try apply pres_refl.
  repeat split. intros q w Hq Hw. simpl.
  destruct (decide (p = q)) as [->|Hne]; [congruence|]. by rewrite list_lookup_insert_ne.
Qed.

Lemma cleanup_pres a b c sh : pres sh (cleanup a b c sh).
Proof.
  unfold cleanup. eapply pres_trans; [|apply off_pres].
  eapply pres_trans; [|apply off_pres]. apply off_pres.
Qed.

Lemma run_body_tame da body : ∀ sh,
  forallb tame_action body = true →
  ∃ threw sh', run_body da body sh = Some (threw, sh') ∧ pres sh sh'.
Proof.
  induction body as [|a body IH]; intros sh Ht; simpl in *.
  - exists false, sh. split; [done|apply pres_refl].
  - apply andb_true_iff in Ht as [Ha Hb]. destruct a as [ev h|ev h| |]; try done.
    + destruct (IH (off ev h sh) Hb) as (t&sh'&He&Hp). exists t, sh'. split; [done|].
      eapply pres_trans; [apply off_pres|done].
    + exists true, sh. split; [done|apply pres_refl].
Qed.

Lemma call_tame d : ∀ h n sh,
  tame sh = true → h < n →
  ∃ threw sh', call n h d sh = Some (threw, sh') ∧ pres sh sh'.
Proof.
  intros h. induction (lt_wf h) as [h _ IH]. intros n sh Ht Hn.
  destruct n as [|n]; [lia|]. simpl.
  destruct (funs sh !! h) as [c|] eqn:Hc;
    [|exists true, sh; split; [done|apply pres_refl]].
  pose proof (tame_lookup _ _ _ Ht Hc) as Htc.
  destruct c; simpl in Htc.
  - by apply run_body_tame.
  - apply bool_decide_eq_true in Htc.
    destruct (IH inner Htc n (off ev h sh)) as (t&sh'&He&Hp).
    { by rewrite (pres_tame _ _ (off_pres ev h sh)). }
    { lia. }
    exists t, sh'. split; [done|]. eapply pres_trans; [apply off_pres|done].
  - eexists _, _. split; [done|]. eapply pres_trans; [apply cleanup_pres|apply settle_pres].
  - eexists _, _. split; [done|]. eapply pres_trans; [apply cleanup_pres|apply settle_pres].
  - eexists _, _. split; [done|]. eapply pres_trans; [apply cleanup_pres|apply settle_pres].
  - eexists _, _. split; [done|]. repeat split. by intros p v.
  - eexists _, _. split; [done|]. repeat split. by intros p v.
  - eexists _, _. split; [done|]. repeat split. by intros p v.
  - eexists _, _. split; [done|]. repeat split. by intros p v.
Qed.

Lemma call_tame' d h n sh :
  tame sh = true → length (funs sh) < n →
  ∃ threw sh', call n h d sh = Some (threw, sh') ∧ pres sh sh'.
Proof.
  intros Ht Hn. destruct (funs sh !! h) as [c|] eqn:Hc.
  - apply call_tame; [done|]. apply lookup_lt_Some in Hc. lia.
  - destruct n as [|n]; [lia|]. simpl. rewrite Hc. exists true, sh.
    split; [done|apply pres_refl].
Qed.

Lemma emit_loop_tame ev d a : ∀ k i n sh,
  tame sh = true →
  length (default [] (sets sh !! a)) ≤ i + k →
  k + length (funs sh) + 1 ≤ n →
  ∃ sh', emit_loop n ev d a i sh = Some sh' ∧ pres sh sh'.
Proof.
  induction k as [|k IH]; intros i n sh Ht Hlen Hn;
    (destruct n as [|n]; [lia|]); simpl.
  - rewrite lookup_ge_None_2 by lia. exists sh. split; [done|apply pres_refl].
  - destruct (default [] (sets sh !! a) !! i) as [[h|]|] eqn:Hi.
    + destruct (call_tame' d h n (log_call h d sh)) as (t&sh1&He&Hp); [done|simpl; lia|].
      rewrite He. simpl.
      assert (pres sh (if t then console_error ev sh1 else sh1)) as Hp'.
      { destruct Hp as (?&?&?&?&?). by destruct t. }
      destruct (IH (S i) n (if t then console_error ev sh1 else sh1)) as (sh2&He2&Hp2).
      { by rewrite (pres_tame _ _ Hp'). }
      { rewrite (pres_set_length _ _ a Hp'). lia. }
      { destruct Hp' as (->&_). lia. }
      exists sh2. split; [done|]. by eapply pres_trans.
    + apply IH; [done|lia|lia].
    + exists sh. split; [done|apply pres_refl].
Qed.

Lemma emit_tame n ev d sh :
  tame sh = true → fuel_ok n sh = true →
  ∃ b sh', emit n ev d sh = Some (b, sh') ∧ pres_emit ev d sh sh'.
Proof.
  intros Ht Hok. pose proof (fuel_ok_funs _ _ Hok) as Hn.
  destruct n as [|n]; [lia|]. simpl.
  destruct (events sh !! ev) as [a|];
    [|eexists _, _; split; [done|]; repeat split; by intros p v].
  case_decide; [eexists _, _; split; [done|]; repeat split; by intros p v|].
  destruct (emit_loop_tame ev d a (length (default [] (sets sh !! a))) 0 n (log_emit ev d sh))
    as (sh'&He&Hp); [done|simpl; lia| |].
  { pose proof (fuel_ok_set _ _ a Hok). simpl. lia. }
  rewrite He. simpl. exists true, sh'. split; [done|].
  destruct Hp as (?&?&?&?&?). by repeat split.
Qed.

Lemma pres_emit_tame ev d sh sh' : pres_emit ev d sh sh' → tame sh' = tame sh.
Proof. intros (Hf&_). unfold tame. by rewrite Hf. Qed.

Lemma pres_emit_fuel_ok n ev d sh sh' : pres_emit ev d sh sh' → fuel_ok n sh' = fuel_ok n sh.
Proof. intros (Hf&_&_&Hl&_). rewrite !fuel_ok_lengths. by rewrite Hf, Hl. Qed.

Lemma keeps_refl sh a k : keeps sh a k sh.
Proof. done. Qed.

Lemma set_delete_absent (s : js_set) h : Some h ∉ s → set_delete s h = s.
Proof.
  intros Hn. unfold set_delete. induction s as [|e s IH]; [done|]. simpl.
  rewrite decide_False.
  - f_equal. apply IH. intros ?. apply Hn. by right.
  - intros ->. apply Hn. by left.
Qed.

Lemma default_alter (f : js_set → js_set) (l : list js_set) a :
  f [] = [] → default [] (alter f a l !! a) = f (default [] (l !! a)).
Proof. intros Hf. rewrite list_lookup_alter_eq. by destruct (l !! a). Qed.

Lemma off_keeps sh0 a k ev' h' sh :
  keeps sh0 a k sh →
  (events sh0 !! ev' = Some a → Some h' ∉ drop k (default [] (sets sh0 !! a))) →
  keeps sh0 a k (off ev' h' sh).
Proof.
  intros (Hf&He&Hd&Hl) Hcond. unfold off.
  destruct (events sh !! ev') as [a'|] eqn:Hev; [|done].
  assert (keeps sh0 a k (upd_sets (alter (λ s, set_delete s h') a') sh)) as Hk.
  { repeat split; simpl; try done.
    - destruct (decide (a' = a)) as [->|Hne].
      + rewrite default_alter by done. unfold set_delete at 1. rewrite <- fmap_drop.
        fold (set_delete (drop k (default [] (sets sh !! a))) h').
        rewrite set_delete_absent; [done|]. rewrite Hd. apply Hcond. by apply He.
      + by rewrite list_lookup_alter_ne.
    - destruct (decide (a' = a)) as [->|Hne].
      + rewrite default_alter by done. unfold set_delete. by rewrite length_fmap.
      + by rewrite list_lookup_alter_ne. }
  case_decide; [|done].
  destruct Hk as (Hf'&He'&Hd'&Hl'). repeat split; simpl in *; try done.
  intros ev'' H'. apply lookup_delete_Some in H' as [_ H']. by apply He.
Qed.

Lemma off_calls ev h sh : calls (off ev h sh) = calls sh.
Proof. unfold off. destruct (events sh !! ev); [|done]. by case_decide. Qed.

Lemma keeps_S sh0 a k sh : keeps sh0 a k sh → keeps sh0 a (S k) sh.
Proof.
  intros (Hf&He&Hd&Hl). repeat split; try done.
  replace (S k) with (k + 1) by lia. rewrite <- !drop_drop. by rewrite Hd.
Qed.

Lemma backward_action_off sh0 a i ev' h' :
  backward_action sh0 a (default [] (sets sh0 !! a)) i (UOff ev' h') = true →
  events sh0 !! ev' = Some a → Some h' ∉ drop (S i) (default [] (sets sh0 !! a)).
Proof.
  simpl. intros [H|H]%orb_true_iff He.
  - apply negb_true_iff, bool_decide_eq_false in H. done.
  - by apply negb_true_iff, bool_decide_eq_false in H.
Qed.

Lemma run_body_keeps da sh0 a i body : ∀ sh,
  forallb (backward_action sh0 a (default [] (sets sh0 !! a)) i) body = true →
  keeps sh0 a (S i) sh →
  ∃ t sh', run_body da body sh = Some (t, sh') ∧ keeps sh0 a (S i) sh'
           ∧ calls sh' = calls sh.
Proof.
  induction body as [|act body IH]; intros sh Hb Hk; simpl in *.
  - by exists false, sh.
  - apply andb_true_iff in Hb as [Ha Hb]. destruct act as [ev' h'|ev' h'| |]; try done.
    + destruct (IH (off ev' h' sh) Hb) as (t&sh'&E&Hk'&Hc).
      { apply off_keeps; [done|]. by apply backward_action_off. }
      exists t, sh'. by rewrite Hc, off_calls.
    + by exists true, sh.
Qed.

Lemma call_keeps d sh0 a i h n sh :
  backward_handler sh0 a (default [] (sets sh0 !! a)) i h = true →
  keeps sh0 a (S i) sh → 2 ≤ n →
  ∃ t sh', call n h d sh = Some (t, sh') ∧ keeps sh0 a (S i) sh' ∧ calls sh' = calls sh.
Proof.
  intros Hb Hk Hn. destruct n as [|[|n]]; [lia..|].
  pose proof Hk as (Hf&_). unfold backward_handler in Hb.
  cbn [call]. rewrite Hf.
  destruct (funs sh0 !! h) as [[body|ev' inner| | | | | | |]|] eqn:Hh; try done.
  - by apply run_body_keeps.
  - apply andb_true_iff in Hb as [Hself Hinner].
    assert (keeps sh0 a (S i) (off ev' h sh)) as Hk'.
    { apply off_keeps; [done|]. by apply backward_action_off. }
    pose proof Hk' as (Hf'&_). rewrite Hf'.
    destruct (funs sh0 !! inner) as [[body| | | | | | | |]|]; try done.
    destruct (run_body_keeps
                (λ s, emit n "abort" PUndefined (set_aborted true s) ≫= λ r, Some r.2)
                sh0 a i body (off ev' h sh) Hinner Hk') as (t&sh'&E&Hk''&Hc).
    exists t, sh'. by rewrite Hc, off_calls.
Qed.

Lemma emit_loop_backward ev d sh0 a : ∀ rest i n sh,
  drop i (default [] (sets sh0 !! a)) = rest →
  backward_from sh0 a (default [] (sets sh0 !! a)) i rest = true →
  keeps sh0 a i sh → length rest + 2 ≤ n →
  ∃ sh', emit_loop n ev d a i sh = Some sh'
         ∧ calls sh' = calls sh ++ ((λ h, (h, d)) <$> set_members rest).
Proof.
  induction rest as [|e rest IH]; intros i n sh Hd Hb Hk Hn;
    (destruct n as [|n]; [simpl in Hn; lia|]); cbn [emit_loop].
  - pose proof Hk as (_&_&Hdk&_). rewrite Hd in Hdk.
    assert (default [] (sets sh !! a) !! i = None) as ->.
    { rewrite <- (Nat.add_0_r i), <- lookup_drop. by rewrite Hdk. }
    exists sh. by rewrite app_nil_r.
  - pose proof Hk as (_&_&Hdk&_). rewrite Hd in Hdk.
    assert (default [] (sets sh !! a) !! i = Some e) as ->.
    { rewrite <- (Nat.add_0_r i), <- lookup_drop. by rewrite Hdk. }
    assert (drop (S i) (default [] (sets sh0 !! a)) = rest) as Hd'.
    { replace (S i) with (i + 1) by lia. by rewrite <- drop_drop, Hd. }
    simpl in Hn. destruct e as [h|]; simpl in Hb.
    + apply andb_true_iff in Hb as [Hh Hb].
      destruct (call_keeps d sh0 a i h n (log_call h d sh) Hh) as (t&sh1&E&Hk1&Hc1);
        [by apply keeps_S|lia|].
      rewrite E. simpl.
      destruct (IH (S i) n (if t then console_error ev sh1 else sh1) Hd' Hb)
        as (sh2&E2&Hc2); [by destruct t|lia|].
      exists sh2. split; [done|]. rewrite Hc2.
      assert (calls (if t then console_error ev sh1 else sh1) = calls sh1) as ->
        by (by destruct t).
      rewrite Hc1. simpl. by rewrite <- app_assoc.
    + destruct (IH (S i) n sh Hd' Hb) as (sh2&E2&Hc2); [by apply keeps_S|lia|].
      by exists sh2.
Qed.

(** C7, for handlers that register nothing and remove, from the [Set] of
    the event, only themselves or handlers registered before them (the
    wrappers of [once] included; handlers may throw): [emit] returns [true]
    and calls each handler registered for the event when [emit] was called
    once, in registration order. *)
Theorem emit_invokes_registered_handlers n ev d sh a es :
  events sh !! ev = Some a → sets sh !! a = Some es → set_size es ≠ 0 →
  removes_backwards ev sh = true →
  length es + 3 ≤ n →
  ∃ sh', emit n ev d sh = Some (true, sh')
         ∧ calls sh' = calls sh ++ ((λ h, (h, d)) <$> set_members es).
Proof.
  intros Hev Hs Hne Hb Hn. destruct n as [|n]; [lia|]. cbn [emit]. simpl.
  rewrite Hev, Hs. simpl. rewrite decide_False by done.
  unfold removes_backwards in Hb. rewrite Hev, Hs in Hb. simpl in Hb.
  assert (default [] (sets sh !! a) = es) as Hes by (by rewrite Hs).
  destruct (emit_loop_backward ev d sh a es 0 n (log_emit ev d sh))
    as (sh'&E&Hc).
  - by rewrite Hes.
  - by rewrite Hes.
  - done.
  - lia.
  - rewrite E. simpl. by exists sh'.
Qed.

(** C7 as stated fails when a handler removes a handler registered after
    it: [emit] iterates the live [Set], and the removed handler is not
    called. *)
Lemma handler_removed_during_emit_is_skipped :
  let sh := on "e" 1 (on "e" 0 (upd_funs (λ _, [FUser [UOff "e" 1]; FUser []]) new_shell)) in
  handlers_of "e" sh = Some [Some 0; Some 1]
  ∧ ∃ sh', emit 5 "e" PUndefined sh = Some (true, sh')
           ∧ calls sh' = [(0, PUndefined)].
Proof. split; [reflexivity|]. eexists. split; reflexivity. Qed.

Import Processor.

(** C2. Parsing depends on where the chunks are cut: [currentEvent] is a
    local variable of [parse], so a frame whose blank line arrives in a later
    chunk than its [data:] line is dropped, and a field line that arrives in
    an earlier chunk than the rest of its frame is forgotten. *)
Theorem parse_drops_frame_split_before_blank_line :
  SSE.parse_all ["data: x" +:+ SSE.nl +:+ SSE.nl] ""
    = [SSE.Build_StreamEvent "x" None None None]
  ∧ SSE.parse_all ["data: x" +:+ SSE.nl; SSE.nl] "" = []
  ∧ SSE.parse_all ["event: a" +:+ SSE.nl +:+ "data: x" +:+ SSE.nl +:+ SSE.nl] ""
    = [SSE.Build_StreamEvent "x" (Some "a") None None]
  ∧ SSE.parse_all ["event: a" +:+ SSE.nl +:+ "da"; "ta: x" +:+ SSE.nl +:+ SSE.nl] ""
    = [SSE.Build_StreamEvent "x" None None None].
Proof. repeat split; reflexivity. Qed.

Lemma for_events_signal p1 p2 src buf evs :
  abortController p1 = abortController p2 →
  for_events p1 src buf evs
  = match for_events p2 src buf evs with
    | Some (o, p') => Some (o, with_signal (signal_aborted p1) p')
    | None => None
    end.
Proof.
  intros Hc. destruct evs as [|e evs]; simpl; [done|].
  case_decide; unfold finally, with_signal; simpl; by rewrite Hc.
Qed.

Lemma read_loop_signal src : ∀ p1 p2 buf,
  abortController p1 = abortController p2 →
  read_loop p1 src buf
  = let '(o, p') := read_loop p2 src buf in (o, with_signal (signal_aborted p1) p').
Proof.
  induction src as [|[text| |t] src IH]; intros p1 p2 buf Hc; simpl;
    try (unfold finally, with_signal; simpl; by rewrite Hc).
  rewrite (for_events_signal p1 p2) by done.
  destruct (for_events p2 src _ _) as [[o q']|]; [done|]. by apply IH.
Qed.

Lemma gen_next_signal p b :
  gen_next (with_signal b p)
  = let '(o, p') := gen_next p in (o, with_signal b p').
Proof.
  unfold gen_next; simpl. destruct (gen p) as [|evs| |] eqn:Hg; simpl.
  - destruct (body p) eqn:Hb; simpl.
    + by rewrite (read_loop_signal _ (with_signal b p) p).
    + done.
  - rewrite (for_events_signal (with_signal b p) p) by done.
    destruct (for_events p _ _ _) as [[o q']|]; [done|].
    by rewrite (read_loop_signal _ (with_signal b p) p).
  - unfold with_signal; simpl. by rewrite ?Hg.
  - unfold with_signal; simpl. by rewrite ?Hg.
Qed.

(** C6. The read loop of [StreamProcessor.processStream] never reads the
    abort controller: the state of the signal has no effect on any step of
    the generator, and a processor whose token has been signaled before the
    first read still reads the whole body and yields every frame. *)
Theorem read_loop_never_checks_signal :
  (∀ p b, gen_next (with_signal b p)
          = let '(o, p') := gen_next p in (o, with_signal b p'))
  ∧ let p := Processor.abort (setAbortController (new_processor (Some two_frames))) in
    signal_aborted p = true
    ∧ (pull 3 p).1 = [SSE.Build_StreamEvent "a" None None None;
                      SSE.Build_StreamEvent "b" None None None]
    ∧ body (pull 3 p).2 = Some [].
Proof. split; [apply gen_next_signal|]. repeat split; reflexivity. Qed.

Import Chat.

Section simulation.
Context (R : runner → runner → Prop) (this_emit : string → payload → M unit)
        (names : string → Prop).

(** [R] relates a runner to one with the same private fields and the same
    abort signal, and looks at nothing else but the shells. *)
Hypothesis R_priv : ∀ r rl, R r rl → priv r = priv rl ∧ aborted (sh r) = aborted (sh rl).
Hypothesis R_shell : ∀ r rl r' rl',
  R r rl → sh r' = sh r → sh rl' = sh rl → priv r' = priv rl' → R r' rl'.
(** On the events in [names], [this_emit] is matched by the emitter without
    listeners. *)
Hypothesis emit_sim : ∀ ev d, names ev → simM R (this_emit ev d) (record ev d).

Lemma simM_ret {A} (a : A) : simM R (mret a) (mret a).
Proof. intros r rl H. by exists a, r, rl. Qed.

Lemma simM_bind {A B} (m ml : M A) (k kl : A → M B) :
  simM R m ml → (∀ a, simM R (k a) (kl a)) → simM R (m ≫= k) (ml ≫= kl).
Proof.
  intros Hm Hk r rl H. destruct (Hm r rl H) as (a&r1&rl1&E1&E2&H1).
  destruct (Hk a r1 rl1 H1) as (b&r2&rl2&E3&E4&H2).
  exists b, r2, rl2. unfold mbind, stateT_bind. by rewrite E1, E2.
Qed.

Lemma simM_gets {A} (f : runner → A) :
  (∀ r rl, priv r = priv rl → aborted (sh r) = aborted (sh rl) → f r = f rl) →
  simM R (gets f) (gets f).
Proof.
  intros Hf r rl H. exists (f r), r, rl. unfold gets.
  destruct (R_priv _ _ H) as [Hp Ha]. by rewrite (Hf r rl Hp Ha).
Qed.

Lemma simM_modify (g : runner → runner) :
  (∀ r, sh (g r) = sh r) → (∀ r rl, priv r = priv rl → priv (g r) = priv (g rl)) →
  simM R (modify g) (modify g).
Proof.
  intros Hs Hg r rl H. exists tt, (g r), (g rl). repeat split.
  destruct (R_priv _ _ H) as [Hp _]. eapply R_shell; eauto.
Qed.

Lemma simM_when c (m ml : M unit) : simM R m ml → simM R (when c m) (when c ml).
Proof. intros Hm. destruct c; [done|apply simM_ret]. Qed.

Lemma simM_for_each {A} (l : list A) (f fl : A → M unit) :
  (∀ a, simM R (f a) (fl a)) → simM R (for_each l f) (for_each l fl).
Proof.
  intros Hf. induction l as [|a l IH]; simpl; [apply simM_ret|].
  apply simM_bind; [apply Hf|done].
Qed.

Ltac sim_fields :=
  first
    [ by intros []
    | let r := fresh "r" in let rl := fresh "rl" in
      intros r rl; unfold priv; destruct r, rl; intros; by simplify_eq/= ].

Ltac sim_auto :=
  repeat first
    [ apply simM_ret
    | apply emit_sim; assumption
    | apply simM_bind; [|intros ?]
    | apply simM_when
    | apply simM_for_each; intros ?
    | apply simM_gets; sim_fields
    | apply simM_modify; sim_fields ].

Lemma sim_foldToolCall d :
  names "tool_calls.function.arguments.delta" →
  simM R (foldToolCall this_emit d) (foldToolCall record d).
Proof. intros ?. unfold foldToolCall. destruct (tc_index d); sim_auto. Qed.

Lemma sim_handleToolCallsDelta ds :
  names "tool_calls.function.arguments.delta" →
  simM R (handleToolCallsDelta this_emit ds) (handleToolCallsDelta record ds).
Proof. intros ?. apply simM_for_each. intros d. by apply sim_foldToolCall. Qed.

Lemma sim_onFinishReason :
  names "content.done" → names "tool_calls.function.arguments.done" →
  simM R (onFinishReason this_emit) (onFinishReason record).
Proof. intros ??. unfold onFinishReason. sim_auto. destruct (JsObject.get _ _); sim_auto. Qed.

Lemma sim_processFrame frame :
  frame_names names → (failing frame = true → names "error") →
  simM R (processFrame this_emit frame) (processFrame record frame).
Proof.
  intros (?&?&?&?&?) He. unfold processFrame. destruct frame as [e|chunk].
  { specialize (He eq_refl). sim_auto. }
  apply simM_bind; [sim_auto|intros _].
  destruct (choices chunk) as [cs|] eqn:Hcs.
  2:{ simpl in He. rewrite Hcs in He. specialize (He eq_refl). sim_auto. }
  apply simM_bind; [sim_auto|intros _].
  apply simM_bind.
  - destruct (_ ≫= tool_calls); [by apply sim_handleToolCallsDelta|sim_auto].
  - intros _. by apply simM_when, sim_onFinishReason.
Qed.

Lemma simM_gets_bind {A B} (f : runner → A) (P : A → Prop) (k kl : A → M B) :
  (∀ r rl, R r rl → f r = f rl ∧ P (f r)) →
  (∀ a, P a → simM R (k a) (kl a)) →
  simM R (gets f ≫= k) (gets f ≫= kl).
Proof.
  intros Hf Hk r rl H. destruct (Hf r rl H) as [Heq HP].
  destruct (Hk (f r) HP r rl H) as (b&r'&rl'&E&El&H').
  exists b, r', rl'. unfold mbind, stateT_bind, gets. by rewrite <- Heq.
Qed.

(** Frames only: ["abort"] is emitted only if the signal is set. *)
Lemma sim_processStream_frames frames :
  frame_names names →
  (names "abort" ∨ ∀ r rl, R r rl → aborted (sh r) = false) →
  (∀ frame, frame ∈ frames → failing frame = true → names "error") →
  simM R (processStream this_emit (Frame <$> frames)) (processStream record (Frame <$> frames)).
Proof.
  intros Hn Ha He. unfold processStream. induction frames as [|frame frames IH]; simpl.
  { apply simM_ret. }
  apply simM_bind.
  - unfold processStream_step. apply simM_bind; [sim_auto|intros running].
    destruct running; simpl; [|sim_auto].
    destruct Ha as [Ha|Ha].
    + apply simM_bind; [sim_auto|intros [|]]; [sim_auto|].
      apply sim_processFrame; [done|]. apply He. by left.
    + apply (simM_gets_bind _ (λ a, a = false)).
      * intros r rl H. destruct (R_priv _ _ H) as [_ Hab]. split; [done|]. by apply (Ha r rl).
      * intros a ->. apply sim_processFrame; [done|]. apply He. by left.
  - intros _. apply IH. intros f Hf. apply He. by right.
Qed.

Lemma sim_processStream_step x :
  all_names names →
  simM R (processStream_step this_emit x) (processStream_step record x).
Proof.
  intros (Hf&?&?&?). unfold processStream_step. apply simM_bind; [sim_auto|intros running].
  destruct running; simpl; [|sim_auto].
  destruct x as [frame| |t].
  - apply simM_bind; [sim_auto|intros [|]]; [sim_auto|].
    by apply sim_processFrame.
  - destruct Hf as (?&?&?&?&?). sim_auto.
  - apply simM_bind; [sim_auto|intros _].
    apply simM_bind; [sim_auto|intros [|]]; by apply emit_sim.
Qed.

Lemma sim_processStream xs :
  all_names names →
  simM R (processStream this_emit xs) (processStream record xs).
Proof. intros Hall. apply simM_for_each. intros x. by apply sim_processStream_step. Qed.

End simulation.

Lemma sim_emit n ev d : simM (sim n) (emit n ev d) (record ev d).
Proof.
  intros r rl (Hp&Ha&Htr&Ht&Hok).
  destruct (emit_tame n ev d (sh r) Ht Hok) as (b&s'&He&Hpe).
  exists tt, (set_sh s' r), (set_sh (log_emit ev d (sh rl)) rl).
  unfold emit, record, modify. rewrite He. simpl. split; [done|]. split; [done|].
  pose proof (pres_emit_tame _ _ _ _ Hpe) as Ht'.
  pose proof (pres_emit_fuel_ok n _ _ _ _ Hpe) as Hok'.
  destruct Hpe as (Hf&Hab&Htr'&Hl).
  unfold sim. simpl. rewrite Ht', Hok', Hab, Htr', Ha, Htr. done.
Qed.

(** With enough fuel [processStream] returns, and its private fields and its
    trace are those of the run without listeners. *)
Lemma tame_processStream n xs :
  simM (sim n) (processStream (emit n) xs) (processStream record xs).
Proof.
  apply (sim_processStream (sim n) (emit n) (λ _, True)).
  - by intros r rl (?&?&_).
  - intros r rl r' rl' (Hp&Ha&Htr&Ht&Hok) Hs Hsl Hp'. unfold sim.
    by rewrite Hs, Hsl.
  - intros ev d _. apply sim_emit.
  - by repeat split.
Qed.

Lemma sim_refl n r : tame (sh r) = true → fuel_ok n (sh r) = true → sim n r r.
Proof. by intros Ht Hok. Qed.

Lemma runs_ret {A} (a : A) r Q : Q a r → runs (mret a) r Q.
Proof. intros H. by exists a, r. Qed.

Lemma runs_bind {A B} (m : M A) (k : A → M B) r Q :
  runs m r (λ a r', runs (k a) r' Q) → runs (m ≫= k) r Q.
Proof.
  intros (a&r1&E1&b&r2&E2&H). exists b, r2. unfold mbind, stateT_bind. by rewrite E1.
Qed.

Lemma runs_gets {A} (f : runner → A) r Q : Q (f r) r → runs (gets f) r Q.
Proof. intros H. by exists (f r), r. Qed.

Lemma runs_modify (g : runner → runner) r Q : Q tt (g r) → runs (modify g) r Q.
Proof. intros H. by exists tt, (g r). Qed.

Lemma runs_record ev d r Q :
  Q tt (set_sh (log_emit ev d (sh r)) r) → runs (record ev d) r Q.
Proof. apply runs_modify. Qed.

Lemma runs_when c (m : M unit) r Q :
  (c = true → runs m r Q) → (c = false → Q tt r) → runs (when c m) r Q.
Proof. destruct c; intros H1 H2; [by apply H1|by apply runs_ret, H2]. Qed.

Lemma runs_mono {A} (m : M A) r (Q Q' : A → runner → Prop) :
  runs m r Q' → (∀ a r', Q' a r' → Q a r') → runs m r Q.
Proof. intros (a&r'&E&H) HQ. exists a, r'. auto. Qed.

Lemma runs_for_each {A} (l : list A) (f : A → M unit) (I : runner → Prop) r :
  (∀ a r, I r → runs (f a) r (λ _, I)) → I r → runs (for_each l f) r (λ _, I).
Proof.
  intros Hf. revert r. induction l as [|a l IH]; intros r HI; simpl.
  - by apply runs_ret.
  - apply runs_bind. eapply runs_mono; [by apply Hf|]. intros ? r' HI'. by apply IH.
Qed.

Lemma runs_result {A} (m : M A) r Q a r' : runs m r Q → m r = Some (a, r') → Q a r'.
Proof. intros (a0&r0&E&H) E'. congruence. Qed.

Ltac runs_step :=
  first
    [ apply runs_ret
    | apply runs_bind
    | apply runs_gets
    | apply runs_modify
    | apply runs_record ].

Lemma foldToolCall_content d r :
  runs (foldToolCall record d) r (λ _ r', content_fields r' = content_fields r).
Proof.
  unfold foldToolCall. destruct (tc_index d); [|by apply runs_ret].
  apply runs_bind, runs_gets, runs_bind, runs_when; intros Hc;
    repeat runs_step; done.
Qed.

Lemma handleToolCallsDelta_content ds r :
  runs (handleToolCallsDelta record ds) r (λ _ r', content_fields r' = content_fields r).
Proof.
  apply (runs_for_each ds _ (λ r', content_fields r' = content_fields r)); [|done].
  intros d r' H. eapply runs_mono; [apply foldToolCall_content|].
  intros ? r'' H'. simpl in *. congruence.
Qed.

Lemma finish_loop_fields (snapshot : JsObject.t tool_call) l r :
  runs (for_each l (λ i, match JsObject.get snapshot i with
                         | Some tc => record "tool_calls.function.arguments.done" (PToolDone i tc)
                         | None => mret tt
                         end)) r
       (λ _ r', content_fields r' = content_fields r
                ∧ toolCallsSnapshot r' = toolCallsSnapshot r).
Proof.
  apply (runs_for_each l _ (λ r', content_fields r' = content_fields r
                                  ∧ toolCallsSnapshot r' = toolCallsSnapshot r)); [|done].
  intros i r' H. destruct (JsObject.get snapshot i); repeat runs_step; done.
Qed.

Lemma onFinishReason_content r :
  runs (onFinishReason record) r
    (λ _ r', running r' = running r ∧ contentSnapshot r' = contentSnapshot r
             ∧ aborted (sh r') = aborted (sh r)
             ∧ isComplete r' = true ∧ _finalContent r' = Some (contentSnapshot r)).
Proof.
  unfold onFinishReason. repeat runs_step.
  apply runs_when; intros Hc; repeat runs_step;
    (eapply runs_mono; [apply finish_loop_fields|]);
    intros ? r' [H ?]; unfold content_fields in H; simplify_eq/=; done.
Qed.

Lemma append_empty_r (s : string) : s +:+ "" = s.
Proof. induction s as [|c s IH]; [done|]. unfold String.app in *. simpl. by rewrite IH. Qed.

Lemma append_assoc (s1 s2 s3 : string) : (s1 +:+ s2) +:+ s3 = s1 +:+ s2 +:+ s3.
Proof. induction s1 as [|c s1 IH]; [done|]. unfold String.app in *. simpl. by rewrite IH. Qed.

Lemma or_empty_falsy o : truthy o = false → or_empty o = "".
Proof. unfold or_empty. by intros ->. Qed.

Lemma processFrame_content frame r :
  runs (processFrame record frame) r
    (λ _ r', running r' = running r
             ∧ aborted (sh r') = aborted (sh r)
             ∧ contentSnapshot r' = contentSnapshot r +:+ frame_content frame
             ∧ (truthy (frame_finish frame) = true →
                isComplete r' = true ∧ _finalContent r' = Some (contentSnapshot r'))).
Proof.
  unfold processFrame. destruct frame as [e|chunk]; simpl.
  { apply runs_record. simpl. by rewrite append_empty_r. }
  apply runs_bind, runs_record.
  destruct (choices chunk) as [cs|]; simpl.
  2:{ apply runs_record. simpl. by rewrite append_empty_r. }
  set (o := (head cs ≫= delta) ≫= content).
  apply runs_bind.
  apply (runs_mono _ _ _ (λ _ r', running r' = running r ∧ aborted (sh r') = aborted (sh r)
            ∧ contentSnapshot r' = contentSnapshot r +:+ or_empty o)).
  { apply runs_when; intros Hc.
    - repeat runs_step. done.
    - simpl. by rewrite (or_empty_falsy _ Hc), append_empty_r. }
  intros ? r1 (Hr1&Ha1&Hc1). apply runs_bind.
  apply (runs_mono _ _ _ (λ _ r', content_fields r' = content_fields r1)).
  { destruct (_ ≫= tool_calls); [apply handleToolCallsDelta_content|by apply runs_ret]. }
  intros ? r2 H2. unfold content_fields in H2. simplify_eq/=.
  apply runs_when; intros Hf.
  - eapply runs_mono; [apply onFinishReason_content|].
    intros ? r3 (?&?&?&?&?). repeat split; congruence.
  - repeat split; congruence.
Qed.

Lemma for_each_app {S A} (l1 l2 : list A) (f : A → stateT S unit) s :
  for_each (l1 ++ l2) f s = (for_each l1 f;; for_each l2 f) s.
Proof.
  revert s. induction l1 as [|a l1 IH]; intros s; simpl.
  - done.
  - unfold mbind, stateT_bind. destruct (f a s) as [[[] s']|]; [|done]. apply IH.
Qed.

Lemma processStream_step_frame frame r :
  running r = true → aborted (sh r) = false →
  processStream_step record (Frame frame) r = processFrame record frame r.
Proof.
  intros Hr Ha. unfold processStream_step, mbind, stateT_bind, gets.
  rewrite Hr. simpl. by rewrite Ha.
Qed.

Lemma processFrames_content frames : ∀ r,
  running r = true → aborted (sh r) = false →
  runs (processStream record (Frame <$> frames)) r
    (λ _ r', running r' = true ∧ aborted (sh r') = false
             ∧ contentSnapshot r'
               = contentSnapshot r +:+ concat_strings (frame_content <$> frames)).
Proof.
  induction frames as [|frame frames IH]; intros r Hr Ha; simpl.
  - apply runs_ret. by rewrite append_empty_r.
  - apply runs_bind. unfold runs at 1. rewrite processStream_step_frame by done.
    eapply runs_mono; [apply processFrame_content|].
    intros ? r1 (Hr1&Ha1&Hc1&_). eapply runs_mono; [apply IH; congruence|].
    intros ? r2 (?&?&Hc2). repeat split; [done..|].
    by rewrite Hc2, Hc1, append_assoc.
Qed.

Lemma concat_strings_app l1 l2 :
  concat_strings (l1 ++ l2) = concat_strings l1 +:+ concat_strings l2.
Proof.
  induction l1 as [|s l1 IH]; simpl; [done|]. by rewrite IH, append_assoc.
Qed.

Lemma processFrames_final frames last r :
  running r = true → aborted (sh r) = false → truthy (frame_finish last) = true →
  runs (processStream record (Frame <$> frames ++ [last])) r
    (λ _ r', running r' = true ∧ aborted (sh r') = false ∧ isComplete r' = true
             ∧ _finalContent r'
               = Some (contentSnapshot r +:+ concat_strings (frame_content <$> frames ++ [last]))).
Proof.
  intros Hr Ha Hf. unfold processStream. rewrite fmap_app. unfold runs at 1.
  rewrite for_each_app. apply runs_bind.
  eapply runs_mono; [by apply processFrames_content|].
  intros ? r1 (Hr1&Ha1&Hc1). simpl. apply runs_bind. unfold runs at 1.
  rewrite processStream_step_frame by done.
  eapply runs_mono; [apply processFrame_content|].
  intros ? r2 (Hr2&Ha2&Hc2&Hfin). apply runs_ret.
  destruct (Hfin Hf) as [Hi Hfc]. repeat split; [congruence..|].
  rewrite Hfc, Hc2, Hc1, fmap_app, concat_strings_app. simpl.
  by rewrite append_empty_r, append_assoc.
Qed.

Lemma streamEnd_complete r :
  isComplete r = true →
  runs (processStream record [StreamEnd]) r
    (λ _ r', _finalContent r' = _finalContent r ∧ isComplete r' = true
             ∧ running r' = false
             ∧ trace (sh r') = trace (sh r) ++ (if running r then [("end", PUndefined)] else [])).
Proof.
  intros Hc. unfold processStream. simpl. apply runs_bind.
  unfold processStream_step. apply runs_bind, runs_gets.
  destruct (running r) eqn:Hr; simpl.
  - repeat runs_step. simpl. rewrite Hc. simpl. repeat runs_step. done.
  - repeat runs_step. by rewrite app_nil_r.
Qed.

(** C1. Under listeners that do not call back into the runner, a sequence
    of frames whose last one carries a [finish_reason] leaves
    [finalContent()] returning, without waiting, the concatenation of every
    [delta.content] in arrival order; the end of the stream does not change
    that value. *)
Theorem finalContent_is_concatenation n r frames last :
  tame (sh r) = true → fuel_ok n (sh r) = true →
  running r = true → aborted (sh r) = false → contentSnapshot r = "" →
  truthy (frame_finish last) = true →
  ∃ r1 r2,
    processStream (emit n) (Frame <$> frames ++ [last]) r = Some (tt, r1)
    ∧ finalContent r1
      = Some (Common.Now (concat_strings (frame_content <$> frames ++ [last])), r1)
    ∧ processStream (emit n) [StreamEnd] r1 = Some (tt, r2)
    ∧ finalContent r2
      = Some (Common.Now (concat_strings (frame_content <$> frames ++ [last])), r2).
Proof.
  intros Ht Hok Hr Ha Hc Hf.
  destruct (tame_processStream n (Frame <$> frames ++ [last]) r r (sim_refl n r Ht Hok))
    as ([]&r1&rl1&E1&El1&Hs1).
  pose proof (runs_result _ _ _ _ _ (processFrames_final frames last r Hr Ha Hf) El1)
    as (Hr1&Ha1&Hi1&Hfc1).
  destruct (tame_processStream n [StreamEnd] r1 rl1 Hs1) as ([]&r2&rl2&E2&El2&Hs2).
  pose proof (runs_result _ _ _ _ _ (streamEnd_complete rl1 Hi1) El2) as (Hfc2&_).
  exists r1, r2. rewrite Hc in Hfc1. simpl in Hfc1.
  assert (_finalContent r1 = _finalContent rl1) as Hp1.
  { destruct Hs1 as (Hp&_). unfold priv in Hp. by simplify_eq. }
  assert (_finalContent r2 = _finalContent rl2) as Hp2.
  { destruct Hs2 as (Hp&_). unfold priv in Hp. by simplify_eq. }
  unfold finalContent, mbind, stateT_bind, gets.
  rewrite Hp1, Hp2, Hfc2, Hfc1. done.
Qed.

Lemma emits_only_refl P r : emits_only P r r.
Proof. exists []. by rewrite app_nil_r. Qed.

Lemma emits_only_same P r0 r r' : emits_only P r0 r → sh r' = sh r → emits_only P r0 r'.
Proof. intros (evs&E&H) Hs. exists evs. by rewrite Hs. Qed.

Lemma emits_only_log P r0 r r' ev d :
  emits_only P r0 r → P ev = true → sh r' = log_emit ev d (sh r) → emits_only P r0 r'.
Proof.
  intros (evs&E&H) HP Hs. exists (evs ++ [(ev, d)]). rewrite Hs. simpl.
  rewrite E, forallb_app, H. simpl. rewrite HP. by rewrite app_assoc.
Qed.

Lemma emits_only_record P r0 r ev d :
  emits_only P r0 r → P ev = true → emits_only P r0 (set_sh (log_emit ev d (sh r)) r).
Proof. intros H HP. by eapply emits_only_log. Qed.

Lemma emits_only_trans P r0 r1 r2 :
  emits_only P r0 r1 → emits_only P r1 r2 → emits_only P r0 r2.
Proof.
  intros (e1&E1&H1) (e2&E2&H2). exists (e1 ++ e2).
  by rewrite E2, E1, forallb_app, H1, H2, app_assoc.
Qed.

Lemma emits_only_mono (P P' : string → bool) r r' :
  (∀ ev, P ev = true → P' ev = true) → emits_only P r r' → emits_only P' r r'.
Proof.
  intros HP (evs&E&H). exists evs. split; [done|].
  rewrite forallb_forall in *. intros e He. by apply HP, H.
Qed.

Lemma emitted_app ev tr1 tr2 : emitted ev (tr1 ++ tr2) = emitted ev tr1 ++ emitted ev tr2.
Proof. unfold emitted. by rewrite omap_app. Qed.

Lemma emitted_none P ev evs :
  forallb (λ e : string * payload, P e.1) evs = true → P ev = false → emitted ev evs = [].
Proof.
  intros H HP. induction evs as [|e evs IH]; [done|].
  simpl in H. apply andb_true_iff in H as [He Hr]. unfold emitted in *. simpl.
  case_decide as Hd; [congruence|]. by apply IH.
Qed.

Lemma emits_only_emitted P r r' ev :
  emits_only P r r' → P ev = false →
  emitted ev (trace (sh r')) = emitted ev (trace (sh r)).
Proof.
  intros (evs&E&H) HP. by rewrite E, emitted_app, (emitted_none P ev evs), app_nil_r.
Qed.

Ltac emits_tac :=
  repeat match goal with
  | |- emits_only _ _ _ =>
      first [ eassumption
            | eapply emits_only_same; [|reflexivity]
            | eapply emits_only_log; [|by (reflexivity || assumption)|reflexivity] ]
  end.

Section names.
Context (P : string → bool) (r0 : runner).

Lemma foldToolCall_emits d r :
  P "tool_calls.function.arguments.delta" = true → emits_only P r0 r →
  runs (foldToolCall record d) r (λ _ r', emits_only P r0 r').
Proof.
  intros HP H. unfold foldToolCall. destruct (tc_index d); [|by apply runs_ret].
  apply runs_bind, runs_gets, runs_bind, runs_when; intros Hc;
    repeat runs_step; simpl.
  - eapply emits_only_log; [|done|reflexivity]. by eapply emits_only_same.
  - eapply emits_only_log; [|done|reflexivity]. by eapply emits_only_same.
Qed.

Lemma handleToolCallsDelta_emits ds r :
  P "tool_calls.function.arguments.delta" = true → emits_only P r0 r →
  runs (handleToolCallsDelta record ds) r (λ _ r', emits_only P r0 r').
Proof.
  intros HP H. apply (runs_for_each ds _ (emits_only P r0)); [|done].
  intros d r' H'. by apply foldToolCall_emits.
Qed.

Lemma onFinishReason_emits r :
  P "content.done" = true → P "tool_calls.function.arguments.done" = true →
  emits_only P r0 r →
  runs (onFinishReason record) r (λ _ r', emits_only P r0 r').
Proof.
  intros HP1 HP2 H. unfold onFinishReason. repeat runs_step.
  set (r1 := set_isComplete _ _).
  assert (emits_only P r0 r1) as H1 by (by eapply emits_only_same).
  clearbody r1. apply runs_when; intros Hc; repeat runs_step.
  - apply (runs_for_each _ _ (emits_only P r0)).
    + intros i r' H'. destruct (JsObject.get _ _); repeat runs_step; [|done].
      by apply emits_only_record.
    + by apply emits_only_record.
  - apply (runs_for_each _ _ (emits_only P r0)); [|done].
    intros i r' H'. destruct (JsObject.get _ _); repeat runs_step; [|done].
    by apply emits_only_record.
Qed.

End names.

Lemma frame_name_mono b ev : frame_name false ev = true → frame_name b ev = true.
Proof. unfold frame_name. rewrite !orb_true_iff. intros [H|H]; [by left|done]. Qed.

(** A frame emits events of its own names only, and without a finish reason
    it leaves the final values alone. *)
Lemma processFrame_emits_in (P : string → bool) frame r0 r :
  (∀ ev, ev ∈ frame_events frame → P ev = true) →
  emits_only P r0 r →
  runs (processFrame record frame) r
    (λ _ r', emits_only P r0 r'
             ∧ (truthy (frame_finish frame) = false →
                isComplete r' = isComplete r ∧ _finalContent r' = _finalContent r
                ∧ _finalToolCalls r' = _finalToolCalls r)).
Proof.
  intros HP H. unfold processFrame. destruct frame as [e|chunk]; simpl in *.
  { apply runs_record. split; [|done]. apply emits_only_record; [done|].
    apply HP. by left. }
  apply runs_bind, runs_record.
  set (r1 := set_sh _ r).
  assert (emits_only P r0 r1) as H1.
  { apply emits_only_record; [done|]. apply HP. by left. }
  assert (content_fields r1 = content_fields r) as Hf1 by done.
  clearbody r1.
  destruct (choices chunk) as [cs|] eqn:Hcs; simpl.
  2:{ apply runs_record. unfold content_fields in Hf1. simplify_eq/=.
      split; [|done]. apply emits_only_record; [done|]. apply HP. right. by left. }
  assert (P "content.delta" = true) as HP1 by (apply HP; right; by left).
  assert (P "tool_calls.function.arguments.delta" = true) as HP2
    by (apply HP; right; right; by left).
  apply runs_bind.
  apply (runs_mono _ _ _ (λ _ r', emits_only P r0 r'
            ∧ isComplete r' = isComplete r ∧ _finalContent r' = _finalContent r
            ∧ _finalToolCalls r' = _finalToolCalls r)).
  { unfold content_fields in Hf1. simplify_eq/=.
    apply runs_when; intros Hc; repeat runs_step; [|done].
    split; [|done]. apply emits_only_record; [|done]. by eapply emits_only_same. }
  intros ? r2 (H2&Hi2&Hc2&Ht2). apply runs_bind.
  apply (runs_mono _ _ _ (λ _ r', emits_only P r0 r'
            ∧ content_fields r' = content_fields r2)).
  { destruct (_ ≫= tool_calls) as [l|].
    - destruct (handleToolCallsDelta_emits P r0 l r2 HP2 H2) as (u&r3&E3&H3).
      exists u, r3. split; [done|]. split; [done|].
      by apply (runs_result _ _ _ _ _ (handleToolCallsDelta_content l r2) E3).
    - by apply runs_ret. }
  intros ? r3 (H3&Hf3). unfold content_fields in Hf3. simplify_eq/=.
  apply runs_when; intros Hf.
  - rewrite Hf in HP. eapply runs_mono.
    { apply (onFinishReason_emits P r0 r3); [| |done]; apply HP; simpl.
      - do 3 right. by left.
      - do 4 right. by left. }
    intros ? r4 Hr4. split; [done|congruence].
  - split; [done|]. intros _. repeat split; congruence.
Qed.

Lemma frame_events_names frame ev :
  ev ∈ frame_events frame → frame_name (truthy (frame_finish frame)) ev = true.
Proof.
  unfold frame_name. destruct frame as [e|chunk]; simpl.
  { intros ->%list_elem_of_singleton. done. }
  destruct (choices chunk) as [cs|]; simpl.
  - destruct (truthy (head cs ≫= finish_reason)); simpl; intros Hin;
      repeat (apply elem_of_cons in Hin as [->|Hin]; [done|]); by apply elem_of_nil in Hin.
  - intros Hin.
    repeat (apply elem_of_cons in Hin as [->|Hin]; [done|]); by apply elem_of_nil in Hin.
Qed.

Lemma processFrame_emits frame r0 r :
  let finishing := truthy (frame_finish frame) in
  emits_only (frame_name finishing) r0 r →
  runs (processFrame record frame) r
    (λ _ r', emits_only (frame_name finishing) r0 r'
             ∧ (finishing = false →
                isComplete r' = isComplete r ∧ _finalContent r' = _finalContent r
                ∧ _finalToolCalls r' = _finalToolCalls r)).
Proof. intros finishing H. apply processFrame_emits_in; [|done]. apply frame_events_names. Qed.

Lemma processFrames_emits frames : ∀ r0 r,
  running r = true → aborted (sh r) = false → emits_only (frame_name true) r0 r →
  runs (processStream record (Frame <$> frames)) r
    (λ _ r', emits_only (frame_name true) r0 r').
Proof.
  induction frames as [|frame frames IH]; intros r0 r Hr Ha H; simpl.
  - by apply runs_ret.
  - apply runs_bind. unfold runs at 1. rewrite processStream_step_frame by done.
    destruct (processFrame_emits frame r r (emits_only_refl _ r)) as (u&r1&E1&H1&_).
    pose proof (runs_result _ _ _ _ _ (processFrame_content frame r) E1) as (Hr1&Ha1&_).
    exists u, r1. split; [done|]. apply IH; [congruence..|].
    eapply emits_only_trans; [done|].
    eapply emits_only_mono; [|done]. intros ev.
    destruct (truthy (frame_finish frame)); [done|apply frame_name_mono].
Qed.

Lemma processFrames_no_finish later : ∀ r0 r,
  running r = true → aborted (sh r) = false →
  (∀ f, f ∈ later → truthy (frame_finish f) = false) →
  emits_only (frame_name false) r0 r →
  runs (processStream record (Frame <$> later)) r
    (λ _ r', running r' = true ∧ aborted (sh r') = false
             ∧ isComplete r' = isComplete r ∧ _finalContent r' = _finalContent r
             ∧ _finalToolCalls r' = _finalToolCalls r
             ∧ emits_only (frame_name false) r0 r').
Proof.
  induction later as [|frame later IH]; intros r0 r Hr Ha Hno H; simpl.
  - by apply runs_ret.
  - apply runs_bind. unfold runs at 1. rewrite processStream_step_frame by done.
    assert (truthy (frame_finish frame) = false) as Hf by (apply Hno; by left).
    pose proof (processFrame_emits frame r0 r) as Hpe. simpl in Hpe. rewrite Hf in Hpe.
    destruct (Hpe H) as (u&r1&E1&H1&Hk). destruct (Hk eq_refl) as (Hi1&Hc1&Ht1).
    pose proof (runs_result _ _ _ _ _ (processFrame_content frame r) E1) as (Hr1&Ha1&_).
    exists u, r1. split; [done|].
    eapply runs_mono.
    { apply (IH r0 r1); [congruence..| |done]. intros f Hin. apply Hno. by right. }
    intros ? r2 (?&?&?&?&?&?). repeat split; congruence.
Qed.

Lemma sim_trace n r rl : sim n r rl → trace (sh r) = trace (sh rl).
Proof. by intros (_&_&?&_). Qed.

Lemma sim_finalContent n r rl : sim n r rl → _finalContent r = _finalContent rl.
Proof. intros (Hp&_). unfold priv in Hp. by simplify_eq. Qed.

Lemma finalContent_now r s :
  _finalContent r = Some s → finalContent r = Some (Common.Now s, r).
Proof. intros H. unfold finalContent, mbind, stateT_bind, gets. by rewrite H. Qed.

(** Once a frame with a [finish_reason] has been processed, frames that
    carry none (with or without content) leave [finalContent()] at the
    snapshot of the finish signal and emit neither [content.done] nor a
    tool-call done event; the end of the stream then emits ["end"] once
    and none of the done events, its block being guarded by
    [isComplete]. *)
Theorem finalization_survives_later_frames n r frames fin later :
  tame (sh r) = true → fuel_ok n (sh r) = true →
  running r = true → aborted (sh r) = false →
  truthy (frame_finish fin) = true →
  (∀ f, f ∈ later → truthy (frame_finish f) = false) →
  let s := contentSnapshot r +:+ concat_strings (frame_content <$> frames ++ [fin]) in
  ∃ r1 r2 r3,
    processStream (emit n) (Frame <$> frames ++ [fin]) r = Some (tt, r1)
    ∧ finalContent r1 = Some (Common.Now s, r1)
    ∧ processStream (emit n) (Frame <$> later) r1 = Some (tt, r2)
    ∧ finalContent r2 = Some (Common.Now s, r2)
    ∧ emitted "content.done" (trace (sh r2)) = emitted "content.done" (trace (sh r1))
    ∧ emitted "tool_calls.function.arguments.done" (trace (sh r2))
      = emitted "tool_calls.function.arguments.done" (trace (sh r1))
    ∧ processStream (emit n) [StreamEnd] r2 = Some (tt, r3)
    ∧ finalContent r3 = Some (Common.Now s, r3)
    ∧ emitted "content.done" (trace (sh r3)) = emitted "content.done" (trace (sh r1))
    ∧ emitted "tool_calls.function.arguments.done" (trace (sh r3))
      = emitted "tool_calls.function.arguments.done" (trace (sh r1))
    ∧ emitted "end" (trace (sh r3)) = emitted "end" (trace (sh r)) ++ [PUndefined].
Proof.
  intros Ht Hok Hr Ha Hf Hno s.
  destruct (tame_processStream n (Frame <$> frames ++ [fin]) r r (sim_refl n r Ht Hok))
    as ([]&r1&rl1&E1&El1&Hs1).
  pose proof (runs_result _ _ _ _ _ (processFrames_final frames fin r Hr Ha Hf) El1)
    as (Hr1&Ha1&Hi1&Hfc1).
  pose proof (runs_result _ _ _ _ _
    (processFrames_emits (frames ++ [fin]) r r Hr Ha (emits_only_refl _ r)) El1) as Hem1.
  destruct (tame_processStream n (Frame <$> later) r1 rl1 Hs1) as ([]&r2&rl2&E2&El2&Hs2).
  pose proof (runs_result _ _ _ _ _
    (processFrames_no_finish later rl1 rl1 Hr1 Ha1 Hno (emits_only_refl _ rl1)) El2)
    as (Hr2&Ha2&Hi2&Hfc2&_&Hem2).
  destruct (tame_processStream n [StreamEnd] r2 rl2 Hs2) as ([]&r3&rl3&E3&El3&Hs3).
  assert (isComplete rl2 = true) as Hi2' by congruence.
  pose proof (runs_result _ _ _ _ _ (streamEnd_complete rl2 Hi2') El3)
    as (Hfc3&_&_&Htr3).
  rewrite Hr2 in Htr3.
  exists r1, r2, r3.
  assert (_finalContent r1 = Some s) as F1
    by (rewrite (sim_finalContent _ _ _ Hs1); exact Hfc1).
  assert (_finalContent r2 = Some s) as F2
    by (rewrite (sim_finalContent _ _ _ Hs2), Hfc2; exact Hfc1).
  assert (_finalContent r3 = Some s) as F3
    by (rewrite (sim_finalContent _ _ _ Hs3), Hfc3, Hfc2; exact Hfc1).
  rewrite (finalContent_now r1 s F1), (finalContent_now r2 s F2), (finalContent_now r3 s F3).
  rewrite (sim_trace _ _ _ Hs1), (sim_trace _ _ _ Hs2), (sim_trace _ _ _ Hs3), Htr3.
  rewrite !emitted_app.
  rewrite !(emits_only_emitted _ _ _ _ Hem2) by done.
  rewrite (emits_only_emitted _ _ _ "end" Hem1) by done.
  simpl. rewrite !app_nil_r. repeat split; done.
Qed.

(** C3. Finalization runs again on a second [finish_reason]: the block
    under [if (finishReason)] has no [isComplete] guard, unlike the block
    after the loop. After a first finishing frame, a second one freezes the
    final content again and emits [content.done] a second time, where the
    end of the stream leaves both as they are. *)
Theorem second_finish_reason_finalizes_again :
  ∃ r1 r2 r3,
    processStream (emit 3) [Frame (content_frame (Some "a") (Some "stop"))] new_runner
      = Some (tt, r1)
    ∧ isComplete r1 = true
    ∧ finalContent r1 = Some (Common.Now "a", r1)
    ∧ processStream (emit 3) [Frame (content_frame (Some "b") (Some "stop"))] r1
      = Some (tt, r2)
    ∧ finalContent r2 = Some (Common.Now "ab", r2)
    ∧ emitted "content.done" (trace (sh r2)) = [PContentDone "a"; PContentDone "ab"]
    ∧ processStream (emit 3) [StreamEnd] r1 = Some (tt, r3)
    ∧ finalContent r3 = Some (Common.Now "a", r3)
    ∧ emitted "content.done" (trace (sh r3)) = [PContentDone "a"].
Proof.
  eexists _, _, _. split; [vm_compute; reflexivity|].
  split; [vm_compute; reflexivity|]. split; [vm_compute; reflexivity|].
  split; [vm_compute; reflexivity|]. split; [vm_compute; reflexivity|].
  split; [vm_compute; reflexivity|]. split; [vm_compute; reflexivity|].
  split; vm_compute; reflexivity.
Qed.

(** ** After [abort()] *)

Ltac emits_close H :=
  let evs := fresh "evs" in let E := fresh "E" in let HP := fresh "HP" in
  destruct H as (evs&E&HP); eexists; simpl; rewrite E, <- ?app_assoc;
  split; [reflexivity|rewrite forallb_app, HP; reflexivity].

Lemma abort_tame n r :
  tame (sh r) = true → fuel_ok n (sh r) = true →
  ∃ r1, abort n r = Some (tt, r1) ∧ priv r1 = priv r ∧ aborted (sh r1) = true
        ∧ trace (sh r1) = trace (sh r) ++ [("abort", PUndefined)]
        ∧ tame (sh r1) = true ∧ fuel_ok n (sh r1) = true.
Proof.
  intros Ht Hok.
  destruct (emit_tame n "abort" PUndefined (set_aborted true (sh r))) as (b&s&E&Hp);
    [done..|].
  exists (set_sh s r). unfold abort, Common.abort. rewrite E. simpl.
  pose proof (pres_emit_tame _ _ _ _ Hp) as Ht'.
  pose proof (pres_emit_fuel_ok n _ _ _ _ Hp) as Hok'.
  destruct Hp as (Hf&Ha&Htr&Hl). simpl in *.
  repeat split; try done. by rewrite Ht'. by rewrite Hok'.
Qed.

(** ** Objects keyed by integers *)

Lemma get_set_eq {V} (o : JsObject.t V) k v : JsObject.get (JsObject.set o k v) k = Some v.
Proof.
  induction o as [|[k' v'] o IH]; simpl.
  - by rewrite decide_True.
  - destruct (decide (k = k')) as [->|Hne]; simpl.
    + by rewrite decide_True.
    + destruct (_ && _); simpl.
      * by rewrite decide_True.
      * rewrite decide_False by done. apply IH.
Qed.

Lemma get_set_ne {V} (o : JsObject.t V) k k' v :
  k ≠ k' → JsObject.get (JsObject.set o k v) k' = JsObject.get o k'.
Proof.
  intros Hne. induction o as [|[k0 v0] o IH]; simpl.
  - by rewrite decide_False.
  - destruct (decide (k = k0)) as [->|Hne0]; simpl.
    + by rewrite !decide_False.
    + destruct (_ && _); simpl.
      * by rewrite decide_False.
      * destruct (decide (k0 = k')); [done|apply IH].
Qed.

Lemma foldToolCall_arguments d index r :
  tc_index d = Some index →
  runs (foldToolCall record d) r
    (λ _ r', arguments_at index r'
             = Some (default "" (arguments_at index r) +:+ delta_arguments d)).
Proof.
  intros Hi. unfold foldToolCall. rewrite Hi.
  apply runs_bind, runs_gets, runs_bind.
  apply (runs_mono _ _ _ (λ _ r',
    ∃ tc, JsObject.get (toolCallsSnapshot r') index = Some tc
          ∧ call_arguments tc = default "" (arguments_at index r))).
  { apply runs_when; intros Hc.
    - apply runs_modify. simpl. rewrite get_set_eq. eexists. split; [done|].
      apply bool_decide_eq_true in Hc. unfold arguments_at. by rewrite Hc.
    - apply bool_decide_eq_false in Hc. unfold arguments_at.
      destruct (JsObject.get _ _) as [tc|]; [|done]. by exists tc. }
  intros ? r1 (tc&Hg&Hargs). repeat runs_step. unfold arguments_at. simpl.
  rewrite get_set_eq, Hg. simpl. unfold delta_arguments.
  destruct (truthy (tc_id d)); simpl;
    (destruct (tc_function d) as [f|]; simpl;
      [destruct (truthy (fn_name f)); simpl;
         (destruct (truthy (fn_arguments f)) eqn:Ha; simpl;
            [by rewrite Hargs|by rewrite (or_empty_falsy _ Ha), append_empty_r, Hargs])
      |by rewrite append_empty_r, Hargs]).
Qed.

Lemma handleToolCallsDelta_arguments ds index : ∀ r,
  (∀ d, d ∈ ds → tc_index d = Some index) →
  runs (handleToolCallsDelta record ds) r
    (λ _ r', arguments_at index r'
             = if decide (ds = []) then arguments_at index r
               else Some (default "" (arguments_at index r)
                          +:+ concat_strings (delta_arguments <$> ds))).
Proof.
  unfold handleToolCallsDelta.
  induction ds as [|d ds IH]; intros r Hall; simpl.
  - by apply runs_ret.
  - apply runs_bind. eapply runs_mono.
    { apply (foldToolCall_arguments d index). apply Hall. by left. }
    intros ? r1 H1. eapply runs_mono.
    { apply IH. intros d' Hd'. apply Hall. by right. }
    intros ? r2 H2. simpl in H2. rewrite H2. destruct (decide (ds = [])) as [->|Hne].
    + rewrite H1. simpl. by rewrite append_empty_r.
    + rewrite H1. simpl. by rewrite append_assoc.
Qed.

Lemma runs_conj {A} (m : M A) r (Q1 Q2 : A → runner → Prop) :
  runs m r Q1 → runs m r Q2 → runs m r (λ a r', Q1 a r' ∧ Q2 a r').
Proof. intros (a&r'&E&H1) H2. exists a, r'. split; [done|]. split; [done|]. by eapply runs_result. Qed.

Lemma tool_frame_arguments ds index r :
  (∀ d, d ∈ ds → tc_index d = Some index) →
  runs (processFrame record (tool_frame ds)) r
    (λ _ r', running r' = running r ∧ aborted (sh r') = aborted (sh r)
             ∧ arguments_at index r'
               = if decide (ds = []) then arguments_at index r
                 else Some (default "" (arguments_at index r)
                            +:+ concat_strings (delta_arguments <$> ds))).
Proof.
  intros Hall. unfold processFrame, tool_frame. simpl.
  apply runs_bind, runs_record. apply runs_bind, runs_ret. apply runs_bind.
  eapply runs_mono.
  { apply runs_conj; [apply handleToolCallsDelta_content
                      |by apply (handleToolCallsDelta_arguments ds index)]. }
  intros ? r1 [Hf H1]. apply runs_ret.
  unfold content_fields in Hf. simplify_eq/=. done.
Qed.

Lemma tool_frames_arguments groups index : ∀ r,
  running r = true → aborted (sh r) = false →
  (∀ d, d ∈ concat groups → tc_index d = Some index) →
  runs (processStream record ((λ ds, Frame (tool_frame ds)) <$> groups)) r
    (λ _ r', arguments_at index r'
             = if decide (concat groups = []) then arguments_at index r
               else Some (default "" (arguments_at index r)
                          +:+ concat_strings (delta_arguments <$> concat groups))).
Proof.
  induction groups as [|ds groups IH]; intros r Hr Ha Hall; simpl.
  - by apply runs_ret.
  - apply runs_bind. unfold runs at 1. rewrite processStream_step_frame by done.
    eapply runs_mono.
    { apply (tool_frame_arguments ds index). intros d Hd. apply Hall.
      simpl. apply elem_of_app. by left. }
    intros ? r1 (Hr1&Ha1&H1). eapply runs_mono.
    { apply IH; [congruence..|]. intros d Hd. apply Hall. simpl. apply elem_of_app. by right. }
    intros ? r2 H2. simpl in H2. rewrite H2, H1.
    destruct (decide (concat groups = [])) as [Hg|Hg], (decide (ds = [])) as [Hd|Hd].
    + subst ds. simpl. by rewrite decide_True.
    + rewrite Hg, app_nil_r. by rewrite decide_False.
    + subst ds. simpl. by rewrite decide_False.
    + rewrite decide_False by (by intros [? _]%app_eq_nil).
      simpl. by rewrite fmap_app, concat_strings_app, append_assoc.
Qed.

Lemma sim_arguments_at n r rl index : sim n r rl → arguments_at index r = arguments_at index rl.
Proof. intros (Hp&_). unfold priv in Hp. unfold arguments_at. simplify_eq. congruence. Qed.

(** C9. Under listeners that do not call back into the runner, deltas at
    one index delivered over any grouping into frames leave, in the tool
    call snapshot, the same [function.arguments] as one delta that carries
    the concatenation of their fragments. *)
Theorem arguments_fold_ignores_fragmentation n r index groups whole :
  tame (sh r) = true → fuel_ok n (sh r) = true →
  running r = true → aborted (sh r) = false →
  (∀ d, d ∈ concat groups → tc_index d = Some index) →
  concat groups ≠ [] →
  tc_index whole = Some index →
  delta_arguments whole = concat_strings (delta_arguments <$> concat groups) →
  ∃ r1 r2,
    processStream (emit n) ((λ ds, Frame (tool_frame ds)) <$> groups) r = Some (tt, r1)
    ∧ processStream (emit n) [Frame (tool_frame [whole])] r = Some (tt, r2)
    ∧ is_Some (arguments_at index r1)
    ∧ arguments_at index r1 = arguments_at index r2.
Proof.
  intros Ht Hok Hr Ha Hall Hne Hw Hwhole.
  destruct (tame_processStream n ((λ ds, Frame (tool_frame ds)) <$> groups) r r
              (sim_refl n r Ht Hok)) as ([]&r1&rl1&E1&El1&Hs1).
  destruct (tame_processStream n [Frame (tool_frame [whole])] r r
              (sim_refl n r Ht Hok)) as ([]&r2&rl2&E2&El2&Hs2).
  pose proof (runs_result _ _ _ _ _
    (tool_frames_arguments groups index r Hr Ha Hall) El1) as H1.
  rewrite decide_False in H1 by done.
  assert (∀ d, d ∈ concat [[whole]] → tc_index d = Some index) as Hall2.
  { intros d Hd. simpl in Hd. apply list_elem_of_singleton in Hd. by subst. }
  pose proof (runs_result _ _ _ _ _
    (tool_frames_arguments [[whole]] index r Hr Ha Hall2) El2) as H2.
  rewrite decide_False in H2 by done. simpl in H2. rewrite append_empty_r, Hwhole in H2.
  exists r1, r2. rewrite (sim_arguments_at _ _ _ index Hs1), (sim_arguments_at _ _ _ index Hs2).
  rewrite H1, H2. done.
Qed.

Lemma emit_no_listener n ev d s :
  0 < n → events s !! ev = None → Emitter.emit n ev d s = Some (false, log_emit ev d s).
Proof. intros Hn He. destruct n as [|n]; [lia|]. simpl. by rewrite He. Qed.

Lemma quiet_frames n s0 frames :
  0 < n → aborted s0 = false → no_frame_listener s0 = true →
  (∀ f, f ∈ frames → failing f = false) →
  simM (quiet s0) (processStream (emit n) (Frame <$> frames))
                  (processStream record (Frame <$> frames)).
Proof.
  intros Hn Ha Hq Hok.
  apply (sim_processStream_frames (quiet s0) (emit n) (λ ev, events s0 !! ev = None)).
  - intros r rl (Hp&Hal&Hs). split; [done|]. by rewrite Hs, Hal.
  - intros r rl r' rl' (Hp&Hal&Hs) E El Hp'. unfold quiet. by rewrite E, El.
  - intros ev d He r rl (Hp&Hal&Hs).
    exists tt, (set_sh (log_emit ev d (sh r)) r), (set_sh (log_emit ev d (sh rl)) rl).
    unfold emit, record, modify. rewrite emit_no_listener by (by rewrite ?Hs).
    repeat split; try done. simpl. by rewrite Hs.
  - unfold no_frame_listener in Hq. simpl in Hq.
    repeat (apply andb_true_iff in Hq as [?%bool_decide_eq_true Hq]).
    by repeat split.
  - right. intros r rl (_&Hal&Hs). by rewrite Hs.
  - intros f Hf Hfail. by rewrite Hok in Hfail.
Qed.

Lemma fuel_ok_mono n m s : n ≤ m → fuel_ok n s = true → fuel_ok m s = true.
Proof.
  intros Hnm. unfold fuel_ok. intros [H1 H2]%andb_true_iff. apply andb_true_iff. split.
  - apply bool_decide_eq_true in H1. apply bool_decide_eq_true. lia.
  - rewrite forallb_forall in *. intros x Hx. specialize (H2 x Hx).
    apply bool_decide_eq_true in H2. apply bool_decide_eq_true. lia.
Qed.

Lemma tame_processStream_keep n s0 xs :
  simM (sim_keep n s0) (processStream (emit n) xs) (processStream record xs).
Proof.
  apply (sim_processStream (sim_keep n s0) (emit n) (λ _, True)).
  - by intros r rl ((?&?&_)&_).
  - intros r rl r' rl' ((Hp&Ha&Htr&Ht&Hok)&Hk) Hs Hsl Hp'. unfold sim_keep, sim.
    by rewrite Hs, Hsl.
  - intros ev d _ r rl ((Hp&Ha&Htr&Ht&Hok)&Hk).
    destruct (emit_tame n ev d (sh r) Ht Hok) as (b&s'&He&Hpe).
    exists tt, (set_sh s' r), (set_sh (log_emit ev d (sh rl)) rl).
    unfold emit, record, modify. rewrite He. simpl. split; [done|]. split; [done|].
    pose proof (pres_emit_tame _ _ _ _ Hpe) as Ht'.
    pose proof (pres_emit_fuel_ok n _ _ _ _ Hpe) as Hok'.
    destruct Hpe as (Hf&Hab&Htr'&Hl&Hk').
    unfold sim_keep, sim. simpl. rewrite Ht', Hok', Hab, Htr', Ha, Htr.
    repeat split; try done. intros p v Hp0 Hv. apply Hk'; [|done]. by apply Hk.
  - by repeat split.
Qed.

(** C5 as stated fails when [abort()] is called by a ["chunk"] listener:
    the abort signal is read at the top of the loop only, so the frame in
    progress still emits ["content.delta"] after ["abort"]. *)
Lemma abort_inside_chunk_listener_lets_delta_through :
  let '(h, s) := Emitter.new_function (FUser [UAbort]) new_shell in
  let r := set_sh (Emitter.on "chunk" h s) new_runner in
  ∃ r', processStream (emit 4) [Frame (content_frame (Some "Hello") None)] r = Some (tt, r')
        ∧ (trace (sh r')).*1 = ["chunk"; "abort"; "content.delta"].
Proof. eexists. split; [by vm_compute|]. by vm_compute. Qed.

(** * A runner awaited through [finalContent()] *)

Lemma end_awaited n tr :
  4 ≤ n →
  ∃ s, Emitter.emit n "end" PUndefined (with_trace tr awaited_shell) = Some (true, s)
       ∧ promises s = [Resolved].
Proof.
  intros Hn. destruct n as [|[|[|[|n]]]]; try lia.
  eexists. split; [vm_compute; reflexivity|]. by vm_compute.
Qed.

Lemma or_empty_Some s : or_empty (Some s) = s.
Proof. by destruct s. Qed.

(** [finalContent()] called before the first frame: it awaits [done()], and
    when the stream ends it returns the concatenation. *)
Lemma finalContent_awaited_is_concatenation n frames last :
  4 ≤ n → (∀ f, f ∈ frames ++ [last] → failing f = false) →
  truthy (frame_finish last) = true →
  ∃ r1 r2,
    finalContent new_runner = Some (Common.AfterDone 0, r1)
    ∧ processStream (emit n) ((Frame <$> frames ++ [last]) ++ [StreamEnd]) r1 = Some (tt, r2)
    ∧ finalContent_resume 0 r2
      = Some (inl (concat_strings (frame_content <$> frames ++ [last]))).
Proof.
  intros Hn Hok Hf. set (r1 := set_sh awaited_shell new_runner).
  assert (quiet awaited_shell r1 r1) as Hq by done.
  destruct (quiet_frames n awaited_shell (frames ++ [last])) with (r := r1) (rl := r1)
    as ([]&r2&rl2&E2&El2&(Hp2&_&Hs2)); [lia|done..|].
  pose proof (runs_result _ _ _ _ _
    (processFrames_final frames last r1 eq_refl eq_refl Hf) El2) as (Hr&_&Hi&Hfc).
  unfold priv in Hp2. simplify_eq/=.
  destruct (end_awaited n (trace (sh rl2))) as (s&Es&Hps); [lia|].
  exists r1, (set_sh s (set_running false r2)). split; [by vm_compute|]. split.
  - unfold processStream in *. rewrite for_each_app.
    unfold mbind at 1, stateT_bind at 1. rewrite E2. simpl.
    unfold processStream_step, mbind, stateT_bind, gets, modify, when, emit. simpl.
    replace (running r2) with true by congruence. simpl.
    replace (isComplete r2) with true by congruence. simpl.
    by rewrite Hs2, Es.
  - unfold finalContent_resume. simpl. rewrite Hps. simpl.
    replace (_finalContent r2) with (_finalContent rl2) by congruence.
    by rewrite Hfc, or_empty_Some.
Qed.

Lemma emit_iterated n ev d tr :
  3 ≤ n → ev ∈ chat_events →
  Emitter.emit n ev d (iterated_shell tr)
  = Some (bool_decide (ev ∈ ["chunk"; "end"; "error"; "abort"]),
          iterated_shell (tr ++ [(ev, d)])).
Proof.
  intros Hn Hev. destruct n as [|[|[|n]]]; try lia.
  unfold iterated_shell. rewrite foldl_app, bind_app.
  replace ([(ev, d)] ≫= iter_calls) with (iter_calls (ev, d))
    by (symmetry; apply app_nil_r).
  unfold chat_events in Hev.
  repeat (apply elem_of_cons in Hev as [->|Hev];
    [match goal with
     | |- context [iter_calls ?x] =>
         let c := eval vm_compute in (iter_calls x) in change (iter_calls x) with c
     end; rewrite ?app_nil_r; by vm_compute|]).
  by apply elem_of_nil in Hev.
Qed.

Lemma iterated_processStream n xs :
  3 ≤ n → simM iterated (processStream (emit n) xs) (processStream record xs).
Proof.
  intros Hn. apply (sim_processStream iterated (emit n) (λ ev, ev ∈ chat_events)).
  - intros r rl (Hp&Ha&Hs). split; [done|]. by rewrite Hs, Ha.
  - intros r rl r' rl' (Hp&Ha&Hs) E El Hp'. unfold iterated. by rewrite E, El.
  - intros ev d Hev r rl (Hp&Ha&Hs).
    eexists tt, _, _. unfold emit, record, modify.
    rewrite Hs, (emit_iterated n ev d _ Hn Hev). simpl. by repeat split.
  - unfold all_names, frame_names, chat_events. repeat split; set_solver.
Qed.

Lemma iter_step_keeps it e :
  keeps_error e.1 = true →
  it_error (iter_step it e) = it_error it
  ∧ (it_isComplete it = true → it_isComplete (iter_step it e) = true).
Proof.
  unfold keeps_error, iter_step. intros H%negb_true_iff%bool_decide_eq_false.
  repeat case_decide; simpl; try done; exfalso; apply H; set_solver.
Qed.

Lemma foldl_iter_step_keeps evs : ∀ it,
  forallb (λ e : string * payload, keeps_error e.1) evs = true →
  it_error (foldl iter_step it evs) = it_error it
  ∧ (it_isComplete it = true → it_isComplete (foldl iter_step it evs) = true).
Proof.
  induction evs as [|e evs IH]; intros it H; simpl in *; [done|].
  apply andb_true_iff in H as [He Hr].
  destruct (iter_step_keeps it e He) as [H1 H2], (IH (iter_step it e) Hr) as [H3 H4].
  split; [congruence|auto].
Qed.

Lemma failing_frame_trace bad r :
  failing bad = true →
  runs (processFrame record bad) r
    (λ _ r', ∃ pre, trace (sh r')
                    = trace (sh r) ++ pre ++ [("error", PError (frame_error bad))]).
Proof.
  intros Hf. unfold processFrame. destruct bad as [e|chunk]; simpl in *.
  - apply runs_record. by exists [].
  - apply bool_decide_eq_true in Hf. rewrite Hf.
    apply runs_bind, runs_record, runs_record. simpl.
    eexists [_]. by rewrite <- app_assoc.
Qed.

Lemma failing_false_events frame ev :
  failing frame = false → ev ∈ frame_events frame → keeps_error ev = true.
Proof.
  destruct frame as [e|chunk]; simpl; [done|].
  intros Hf%bool_decide_eq_false. destruct (choices chunk) as [cs|]; [|done].
  destruct (truthy _); simpl; intros Hin;
    repeat (apply elem_of_cons in Hin as [->|Hin]; [done|]); by apply elem_of_nil in Hin.
Qed.

Lemma processFrames_keep_error frames : ∀ r0 r,
  running r = true → aborted (sh r) = false →
  (∀ f, f ∈ frames → failing f = false) →
  emits_only keeps_error r0 r →
  runs (processStream record (Frame <$> frames)) r (λ _ r', emits_only keeps_error r0 r').
Proof.
  induction frames as [|frame frames IH]; intros r0 r Hr Ha Hok H; simpl.
  - by apply runs_ret.
  - apply runs_bind. unfold runs at 1. rewrite processStream_step_frame by done.
    destruct (processFrame_emits_in keeps_error frame r0 r) as (u&r1&E1&H1&_); [|done|].
    { intros ev. apply failing_false_events, Hok. by left. }
    pose proof (runs_result _ _ _ _ _ (processFrame_content frame r) E1) as (Hr1&Ha1&_).
    exists u, r1. split; [done|]. apply IH; [congruence..| |done].
    intros f Hf. apply Hok. by right.
Qed.

Lemma streamEnd_keeps_error r0 r :
  emits_only keeps_error r0 r →
  runs (processStream record [StreamEnd]) r
    (λ _ r', emits_only keeps_error r0 r' ∧ contentSnapshot r' = contentSnapshot r
             ∧ (isComplete r = true → _finalContent r' = _finalContent r)).
Proof.
  intros H. unfold processStream. simpl. apply runs_bind.
  unfold processStream_step. apply runs_bind, runs_gets.
  destruct (running r); simpl; [|by repeat runs_step].
  repeat runs_step. simpl. apply runs_when; intros Hc; repeat runs_step; simpl.
  - split; [emits_close H|]. split; [done|]. intros Hi. by rewrite Hi in Hc.
  - split; [emits_close H|]. done.
Qed.

Lemma for_each_app_inv {S A} (l1 l2 : list A) (f : A → stateT S unit) s s2 :
  for_each (l1 ++ l2) f s = Some (tt, s2) →
  ∃ s1, for_each l1 f s = Some (tt, s1) ∧ for_each l2 f s1 = Some (tt, s2).
Proof.
  rewrite for_each_app. unfold mbind, stateT_bind.
  destruct (for_each l1 f s) as [[[] s1]|]; [|done]. intros H. by exists s1.
Qed.

Lemma next_throws r it e :
  iters (sh r) !! 0 = Some it → it_error it = Some e → it_isComplete it = true →
  next 0 r = Some (Common.NextThrows e, r).
Proof.
  intros Hit He Hc. unfold next, Common.next. rewrite Hit, He, Hc.
  rewrite andb_false_r. by destruct r.
Qed.

(** C10, for the last failing frame of a stream consumed through one
    async iterator and [finalContent()] called after the finish signal: a
    malformed frame, or a payload without [choices], followed by frames that
    do not fail (and by the end of the stream or not), makes [next()] throw
    that frame's error and leave the iterator as it is, hence throw it again
    at every later call; the content snapshot is the concatenation over all
    the frames, and [finalContent()] returns it when the last frame carries
    a [finish_reason]. *)
Theorem error_event_ends_iteration n fs1 bad fs2 (ended : bool) :
  3 ≤ n → failing bad = true → (∀ f, f ∈ fs2 → failing f = false) →
  let frames := fs1 ++ bad :: fs2 in
  let xs := (Frame <$> frames) ++ (if ended then [StreamEnd] else []) in
  ∃ r1 r2,
    asyncIterator new_runner = Some (0, r1)
    ∧ processStream (emit n) xs r1 = Some (tt, r2)
    ∧ next 0 r2 = Some (Common.NextThrows (PError (frame_error bad)), r2)
    ∧ contentSnapshot r2 = concat_strings (frame_content <$> frames)
    ∧ (∀ fs2' last, fs2 = fs2' ++ [last] → truthy (frame_finish last) = true →
       finalContent r2
       = Some (Common.Now (concat_strings (frame_content <$> frames)), r2)).
Proof.
  intros Hn Hbad Hok frames xs.
  set (r1 := set_sh (Common.asyncIterator new_shell).2 new_runner).
  assert (iterated r1 r1) as Hit by (by vm_compute).
  destruct (iterated_processStream n xs Hn r1 r1 Hit) as ([]&r2&rl2&E2&El2&(Hp2&Ha2&Hs2)).
  exists r1, r2. split; [done|]. split; [done|].
  (* the run without listeners, cut into its parts *)
  unfold xs, processStream in El2.
  apply for_each_app_inv in El2 as (rlF&ElF&Eend).
  pose proof ElF as ElF'. unfold frames in ElF'.
  rewrite fmap_app, fmap_cons in ElF'.
  apply for_each_app_inv in ElF' as (rlA&ElA&ElB).
  apply (for_each_app_inv [Frame bad]) in ElB as (rlB&ElB&ElC).
  pose proof (runs_result _ _ _ _ _ (processFrames_content fs1 r1 eq_refl eq_refl) ElA)
    as (HrA&HaA&_).
  simpl in ElB. unfold mbind, stateT_bind in ElB.
  rewrite processStream_step_frame in ElB by done.
  destruct (processFrame record bad rlA) as [[[] rlB']|] eqn:EB; [|done].
  assert (rlB' = rlB) as -> by (by injection ElB). clear ElB.
  pose proof (runs_result _ _ _ _ _ (failing_frame_trace bad rlA Hbad) EB) as (pre&HtrB).
  pose proof (runs_result _ _ _ _ _ (processFrame_content bad rlA) EB) as (HrB&HaB&_).
  assert (running rlB = true) as HrB' by congruence.
  assert (aborted (sh rlB) = false) as HaB' by congruence.
  pose proof (runs_result _ _ _ _ _
    (processFrames_keep_error fs2 rlB rlB HrB' HaB' Hok (emits_only_refl _ rlB)) ElC) as HemF.
  pose proof (runs_result _ _ _ _ _ (processFrames_content frames r1 eq_refl eq_refl) ElF)
    as (HrF&HaF&HcF).
  assert (emits_only keeps_error rlB rl2 ∧ contentSnapshot rl2 = contentSnapshot rlF
          ∧ (isComplete rlF = true → _finalContent rl2 = _finalContent rlF))
    as (Hem2&Hc2&Hf2).
  { destruct ended.
    - by apply (runs_result _ _ _ _ _ (streamEnd_keeps_error rlB rlF HemF) Eend).
    - assert (rlF = rl2) as <- by (by injection Eend). done. }
  unfold priv in Hp2. injection Hp2 as Hp2 Hpc Hpi Hpf Hpt Hpg.
  split; [|split].
  - destruct Hem2 as (evs&Htr2&Hevs).
    eapply next_throws.
    + rewrite Hs2. unfold iterated_shell. simpl. reflexivity.
    + rewrite Htr2, HtrB, !app_assoc, foldl_app.
      destruct (foldl_iter_step_keeps evs
                  (foldl iter_step (IterState [] 0 false None)
                     ((trace (sh rlA) ++ pre) ++ [("error", PError (frame_error bad))]))
                  Hevs) as [-> _].
      by rewrite foldl_app.
    + rewrite Htr2, HtrB, !app_assoc, foldl_app.
      destruct (foldl_iter_step_keeps evs
                  (foldl iter_step (IterState [] 0 false None)
                     ((trace (sh rlA) ++ pre) ++ [("error", PError (frame_error bad))]))
                  Hevs) as [_ Hc].
      apply Hc. by rewrite foldl_app.
  - replace (contentSnapshot r2) with (contentSnapshot rl2) by congruence.
    by rewrite Hc2, HcF.
  - intros fs2' last -> Hfin.
    assert (frames = (fs1 ++ bad :: fs2') ++ [last]) as Hfr.
    { unfold frames. by rewrite <- app_assoc. }
    rewrite Hfr in ElF.
    pose proof (runs_result _ _ _ _ _
      (processFrames_final (fs1 ++ bad :: fs2') last r1 eq_refl eq_refl Hfin) ElF)
      as (_&_&HiF&HfF).
    apply finalContent_now.
    replace (_finalContent r2) with (_finalContent rl2) by congruence.
    rewrite (Hf2 HiF), HfF. by rewrite Hfr.
Qed.

(** C10 as stated fails for a [finalContent()] that is already waiting:
    the ["error"] event of the malformed frame rejects the promise of
    [done()] it awaits, so it rejects with that error although
    [_finalContent] later holds the final value. *)
Lemma pending_finalContent_rejects_on_malformed_frame :
  ∃ r1 r2,
    finalContent new_runner = Some (Common.AfterDone 0, r1)
    ∧ processStream (emit 9)
        [Frame (content_frame (Some "Hello") None);
         Frame (JsonThrows (JsError "SyntaxError" "Unexpected token"));
         Frame (content_frame (Some " world") (Some "stop"));
         StreamEnd] r1 = Some (tt, r2)
    ∧ _finalContent r2 = Some "Hello world"
    ∧ finalContent_resume 0 r2
      = Some (inr (PError (JsError "SyntaxError" "Unexpected token"))).
Proof. eexists _, _. split; [reflexivity|]. split; [by vm_compute|]. by vm_compute. Qed.

Lemma chat_processStream_returned e xs r :
  Chat.running r = false → Chat.processStream e xs r = Some (tt, r).
Proof.
  intros Hr. unfold Chat.processStream. induction xs as [|x xs IH]; [done|].
  assert (Chat.processStream_step e x r = Some (tt, r)) as Hx.
  { unfold Chat.processStream_step, mbind, stateT_bind, gets. by rewrite Hr. }
  simpl. unfold mbind, stateT_bind. by rewrite Hx.
Qed.

Lemma completion_processStream_returned n xs r :
  Completion.running r = false → Completion.processStream n xs r = Some (tt, r).
Proof.
  intros Hr. unfold Completion.processStream. induction xs as [|x xs IH]; [done|].
  assert (Completion.processStream_step n x r = Some (tt, r)) as Hx.
  { unfold Completion.processStream_step, mbind, stateT_bind, gets. by rewrite Hr. }
  simpl. unfold mbind, stateT_bind. by rewrite Hx.
Qed.

(** C4. [done()] looks at [isComplete] only. Called once [processStream]
    has returned through its outer [catch] (the stream threw) or through the
    abort check of its loop, in the chat and in the completion runner, it
    registers its three listeners and returns a promise that is pending and
    stays pending whatever the response still delivers. *)
Theorem done_after_error_or_abort_stays_pending n t :
  (∃ r1 r2,
     Chat.processStream (Chat.emit 3) [Chat.StreamThrows t] Chat.new_runner = Some (tt, r1)
     ∧ emitted "error" (trace (Chat.sh r1)) = [PError (as_error t "Stream processing failed")]
     ∧ Chat.done r1 = Some (0, r2)
     ∧ promises (Chat.sh r2) = [Pending]
     ∧ ∀ xs, Chat.processStream (Chat.emit n) xs r2 = Some (tt, r2))
  ∧ (∃ r1 r2 r3,
       Chat.abort 3 Chat.new_runner = Some (tt, r1)
       ∧ Chat.processStream (Chat.emit 3)
           [Chat.Frame (content_frame (Some "Hello") None)] r1 = Some (tt, r2)
       ∧ (trace (Chat.sh r2)).*1 = ["abort"; "abort"]
       ∧ Chat.done r2 = Some (0, r3)
       ∧ promises (Chat.sh r3) = [Pending]
       ∧ ∀ xs, Chat.processStream (Chat.emit n) xs r3 = Some (tt, r3))
  ∧ (∃ r1 r2,
       Completion.processStream 3 [Completion.StreamThrows t] Completion.new_runner
         = Some (tt, r1)
       ∧ emitted "error" (trace (Completion.sh r1))
         = [PError (as_error t "Stream processing failed")]
       ∧ Completion.done r1 = Some (0, r2)
       ∧ promises (Completion.sh r2) = [Pending]
       ∧ ∀ xs, Completion.processStream n xs r2 = Some (tt, r2))
  ∧ (∃ r1 r2 r3,
       Completion.abort 3 Completion.new_runner = Some (tt, r1)
       ∧ Completion.processStream 3
           [Completion.Frame (JsonValue (CompletionChunk "cmpl"
              (Some [CompletionChoice (Some "Hello") None])))] r1 = Some (tt, r2)
       ∧ (trace (Completion.sh r2)).*1 = ["abort"; "abort"]
       ∧ Completion.done r2 = Some (0, r3)
       ∧ promises (Completion.sh r3) = [Pending]
       ∧ ∀ xs, Completion.processStream n xs r3 = Some (tt, r3)).
Proof.
  split; [|split; [|split]].
  - eexists _, _. split; [by vm_compute|]. split; [by vm_compute|].
    split; [by vm_compute|]. split; [by vm_compute|].
    intros xs. by apply chat_processStream_returned.
  - eexists _, _, _. split; [by vm_compute|]. split; [by vm_compute|].
    split; [by vm_compute|]. split; [by vm_compute|]. split; [by vm_compute|].
    intros xs. by apply chat_processStream_returned.
  - eexists _, _. split; [by vm_compute|]. split; [by vm_compute|].
    split; [by vm_compute|]. split; [by vm_compute|].
    intros xs. by apply completion_processStream_returned.
  - eexists _, _, _. split; [by vm_compute|]. split; [by vm_compute|].
    split; [by vm_compute|]. split; [by vm_compute|]. split; [by vm_compute|].
    intros xs. by apply completion_processStream_returned.
Qed.

(** C8. With index 2 the only populated index, the loop
    [for (i = 0; i < Object.keys(snapshot).length; i++)] stops at [i = 1]:
    the finish signal emits no [tool_calls.function.arguments.done] at all,
    although [finalToolCalls()] returns the tool call. *)
Theorem tool_call_at_index_2_alone_gets_no_done_event :
  let tc := ToolCallDelta (Some 2) (Some "call_1")
              (Some (ToolCallFunction (Some "get_weather") (Some "{}"))) in
  ∃ r,
    Chat.processStream (Chat.emit 3)
      [Chat.Frame (tool_frame [tc]);
       Chat.Frame (content_frame None (Some "tool_calls"));
       Chat.StreamEnd] Chat.new_runner = Some (tt, r)
    ∧ JsObject.keys (Chat.toolCallsSnapshot r) = [2]
    ∧ Chat.finalToolCalls r
      = Some (Common.Now [ToolCall "call_1" "get_weather" "{}"], r)
    ∧ emitted "tool_calls.function.arguments.delta" (trace (Chat.sh r))
      = [PToolDelta 2 tc (ToolCall "call_1" "get_weather" "{}")]
    ∧ emitted "tool_calls.function.arguments.done" (trace (Chat.sh r)) = [].
Proof. eexists. split; [by vm_compute|]. by vm_compute. Qed.

Lemma forallb_elem_of {A} (P : A → bool) (l : list A) :
  forallb (λ x, negb (P x)) l = true → ∀ x, x ∈ l → P x = false.
Proof.
  intros H x Hx. rewrite forallb_forall in H.
  apply negb_true_iff, H. by apply list_elem_of_In.
Qed.

(** The concatenation on two frames, under a listener that throws. *)
Lemma finalContent_is_concatenation_witness :
  ∃ r1 r2,
    processStream (emit 4)
      (Frame <$> [content_frame (Some "Hel") None] ++ [content_frame (Some "lo") (Some "stop")])
      throwing_listener_runner = Some (tt, r1)
    ∧ finalContent r1 = Some (Common.Now "Hello", r1)
    ∧ processStream (emit 4) [StreamEnd] r1 = Some (tt, r2)
    ∧ finalContent r2 = Some (Common.Now "Hello", r2).
Proof.
  apply (finalContent_is_concatenation 4 throwing_listener_runner
           [content_frame (Some "Hel") None] (content_frame (Some "lo") (Some "stop")));
    reflexivity.
Defined.

(** Two frames after the finish signal, one of them with content. *)
Lemma finalization_survives_later_frames_witness :
  ∃ r1 r2 r3,
    processStream (emit 4)
      (Frame <$> [content_frame (Some "Hel") None] ++ [content_frame (Some "lo") (Some "stop")])
      throwing_listener_runner = Some (tt, r1)
    ∧ finalContent r1 = Some (Common.Now "Hello", r1)
    ∧ processStream (emit 4) (Frame <$> [content_frame (Some "!") None; content_frame None None]) r1
      = Some (tt, r2)
    ∧ finalContent r2 = Some (Common.Now "Hello", r2)
    ∧ emitted "content.done" (trace (sh r2)) = emitted "content.done" (trace (sh r1))
    ∧ emitted "tool_calls.function.arguments.done" (trace (sh r2))
      = emitted "tool_calls.function.arguments.done" (trace (sh r1))
    ∧ processStream (emit 4) [StreamEnd] r2 = Some (tt, r3)
    ∧ finalContent r3 = Some (Common.Now "Hello", r3)
    ∧ emitted "content.done" (trace (sh r3)) = emitted "content.done" (trace (sh r1))
    ∧ emitted "tool_calls.function.arguments.done" (trace (sh r3))
      = emitted "tool_calls.function.arguments.done" (trace (sh r1))
    ∧ emitted "end" (trace (sh r3)) = [PUndefined].
Proof.
  apply (finalization_survives_later_frames 4 throwing_listener_runner
           [content_frame (Some "Hel") None] (content_frame (Some "lo") (Some "stop"))
           [content_frame (Some "!") None; content_frame None None]);
    try reflexivity.
  apply forallb_elem_of. reflexivity.
Defined.

(** A handler that removes itself, followed by a [once] wrapper: both are
    called. *)
Lemma emit_invokes_registered_handlers_witness :
  ∃ sh', Emitter.emit 5 "e" PUndefined self_removing_shell = Some (true, sh')
         ∧ calls sh' = [(0, PUndefined); (2, PUndefined)].
Proof.
  apply (emit_invokes_registered_handlers 5 "e" PUndefined self_removing_shell 0
           [Some 0; Some 2]).
  - reflexivity.
  - reflexivity.
  - vm_compute. lia.
  - reflexivity.
  - simpl. lia.
Defined.

(** Three fragments over three frames, one of them empty, against one
    delta. *)
Lemma arguments_fold_ignores_fragmentation_witness :
  ∃ r1 r2,
    processStream (emit 4)
      ((λ ds, Frame (tool_frame ds))
         <$> [[arguments_delta 0 "{" ; arguments_delta 0 (String "034" "city")];
              [];
              [arguments_delta 0 (String "034" ":1}")]])
      throwing_listener_runner = Some (tt, r1)
    ∧ processStream (emit 4)
        [Frame (tool_frame [arguments_delta 0 ("{" +:+ String "034" "city" +:+ String "034" ":1}")])]
        throwing_listener_runner = Some (tt, r2)
    ∧ is_Some (arguments_at 0 r1)
    ∧ arguments_at 0 r1 = arguments_at 0 r2.
Proof.
  apply (arguments_fold_ignores_fragmentation 4 throwing_listener_runner 0
           [[arguments_delta 0 "{" ; arguments_delta 0 (String "034" "city")];
            [];
            [arguments_delta 0 (String "034" ":1}")]]
           (arguments_delta 0 ("{" +:+ String "034" "city" +:+ String "034" ":1}")));
    try reflexivity.
  - apply Forall_forall. repeat constructor.
  - discriminate.
Defined.

(** A malformed frame between two content frames, then the end of the
    stream. *)
Lemma error_event_ends_iteration_witness :
  ∃ r1 r2,
    asyncIterator new_runner = Some (0, r1)
    ∧ processStream (emit 3)
        ((Frame <$> [content_frame (Some "Hello") None]
                    ++ JsonThrows (JsError "SyntaxError" "Unexpected token")
                    :: [content_frame (Some " world") (Some "stop")])
         ++ [StreamEnd]) r1 = Some (tt, r2)
    ∧ next 0 r2
      = Some (Common.NextThrows (PError (JsError "SyntaxError" "Unexpected token")), r2)
    ∧ contentSnapshot r2 = "Hello world"
    ∧ (∀ fs2' last,
         [content_frame (Some " world") (Some "stop")] = fs2' ++ [last] →
         truthy (frame_finish last) = true →
         finalContent r2 = Some (Common.Now "Hello world", r2)).
Proof.
  apply (error_event_ends_iteration 3 [content_frame (Some "Hello") None]
           (JsonThrows (JsError "SyntaxError" "Unexpected token"))
           [content_frame (Some " world") (Some "stop")] true).
  - lia.
  - reflexivity.
  - apply forallb_elem_of. reflexivity.
Defined.

Import SSE.

#[local] Set Warnings "-clear-no-such-hyp".

Lemma split_nonempty s : split s ≠ [].
Proof.
  destruct s as [|c s]; simpl; [done|].
  case_decide; [done|]. by destruct (split s).
Qed.

Lemma split_cons_char c s :
  c ≠ newline →
  split (String c s) = String c (default "" (head (split s))) :: tail (split s).
Proof.
  intros Hc. simpl. rewrite decide_False by done.
  pose proof (split_nonempty s). by destruct (split s).
Qed.

Lemma removelast_cons {A} (x : A) l : l ≠ [] → removelast (x :: l) = x :: removelast l.
Proof. by destruct l. Qed.

Lemma last_cons_ne {A} (x : A) l : l ≠ [] → last (x :: l) = last l.
Proof. by destruct l. Qed.

Lemma split_cons_nl s : split (String newline s) = "" :: split s.
Proof. change (split (String newline s)) with
  (if decide (newline = newline) then "" :: split s
   else match split s with l :: ls => String newline l :: ls | [] => [String newline ""] end).
  by rewrite decide_True. Qed.

(** The lines of a text that is cut in two: the complete lines of the
    first part, then the lines of the rest behind what the first part
    leaves. *)
Lemma split_app s t :
  split (s +:+ t)
  = removelast (split s) ++ split (default "" (last (split s)) +:+ t).
Proof.
  induction s as [|c s IH]; [done|].
  change (String c s +:+ t) with (String c (s +:+ t)).
  pose proof (split_nonempty s) as Hs.
  destruct (decide (c = newline)) as [->|Hc].
  - rewrite !split_cons_nl, IH.
    rewrite removelast_cons, last_cons_ne by done. done.
  - rewrite !split_cons_char by done. rewrite IH.
    destruct (split s) as [|x [|y l]] eqn:E; [done| |].
    + exact (eq_sym (split_cons_char c (x +:+ t) Hc)).
    + done.
Qed.

Lemma removelast_app_ne {A} (l1 l2 : list A) :
  l2 ≠ [] → removelast (l1 ++ l2) = l1 ++ removelast l2.
Proof. intros H. by apply removelast_app. Qed.

Lemma last_app_ne {A} (l1 l2 : list A) : l2 ≠ [] → last (l1 ++ l2) = last l2.
Proof.
  intros H. destruct l2 as [|x l2 _] using rev_ind; [done|].
  by rewrite app_assoc, !last_snoc.
Qed.

Lemma split_newline_free s : newline_free s = true → split s = [s].
Proof.
  induction s as [|c s IH]; simpl; [done|].
  intros [Hc Hs]%andb_true_iff. apply negb_true_iff, bool_decide_eq_false in Hc.
  rewrite decide_False by done. by rewrite IH.
Qed.

Lemma split_nl x y : split (x +:+ nl +:+ y) = split x ++ split y.
Proof.
  induction x as [|c x IH].
  - change ("" +:+ nl +:+ y) with (String newline y). by rewrite split_cons_nl.
  - change (String c x +:+ nl +:+ y) with (String c (x +:+ nl +:+ y)).
    pose proof (split_nonempty x) as Hx.
    destruct (decide (c = newline)) as [->|Hc].
    + by rewrite !split_cons_nl, IH.
    + rewrite !split_cons_char, IH by done. by destruct (split x).
Qed.

Lemma process_lines_app l1 l2 e :
  process_lines (l1 ++ l2) e = process_lines l1 e ++ process_lines l2 (state_after l1 e).
Proof.
  revert e. induction l1 as [|l l1 IH]; intros e; simpl; [done|].
  case_decide.
  - destruct (p_data e); simpl; by rewrite IH.
  - destruct (cut_colon l) as [[f v]|]; by rewrite IH.
Qed.

Lemma state_after_app l1 l2 e : state_after (l1 ++ l2) e = state_after l2 (state_after l1 e).
Proof.
  revert e. induction l1 as [|l l1 IH]; intros e; simpl; [done|].
  case_decide; [by rewrite IH|]. destruct (cut_colon l) as [[f v]|]; by rewrite IH.
Qed.

(** Two calls of [parse] against one call on the two chunks together. *)
Lemma parse_app a b buf :
  parse (a +:+ b) buf
  = ((parse a buf).1
     ++ process_lines (removelast (split ((parse a buf).2 +:+ b)))
          (state_after (removelast (split (buf +:+ a))) empty_event),
     (parse b (parse a buf).2).2).
Proof.
  unfold parse. simpl. rewrite <- append_assoc, split_app.
  rewrite removelast_app_ne, last_app_ne by apply split_nonempty.
  by rewrite process_lines_app.
Qed.

Lemma parse_all_cons c cs buf :
  parse_all (c :: cs) buf = (parse c buf).1 ++ parse_all cs (parse c buf).2.
Proof. simpl. by destruct (parse c buf). Qed.

Lemma parse_all_merge a b rest buf :
  state_after (removelast (split (buf +:+ a))) empty_event = empty_event →
  parse_all (a :: b :: rest) buf = parse_all ((a +:+ b) :: rest) buf.
Proof.
  intros He. rewrite !parse_all_cons, parse_app, He. simpl. by rewrite app_assoc.
Qed.

(** Cutting a chunk inside the first line of a frame, or between two
    frames, does not change the frames: the text before the cut holds no
    newline at all, or ends with an empty line followed by part of a
    line. *)
Theorem cut_at_frame_start_is_harmless a b rest buf :
  newline_free (buf +:+ a) = true
  ∨ (∃ x p, a = x +:+ nl +:+ nl +:+ p ∧ newline_free p = true) →
  parse_all (a :: b :: rest) buf = parse_all ((a +:+ b) :: rest) buf.
Proof.
  intros H. apply parse_all_merge. destruct H as [H|(x&p&->&Hp)].
  - by rewrite split_newline_free.
  - rewrite <- (append_assoc buf x), split_nl.
    change (nl +:+ p) with (String newline p).
    rewrite split_cons_nl, (split_newline_free p) by done.
    change (split (buf +:+ x) ++ [""; p]) with (split (buf +:+ x) ++ [""] ++ [p]).
    by rewrite app_assoc, removelast_last, state_after_app.
Qed.

Lemma cut_at_frame_start_is_harmless_witness :
  parse_all ["data: a" +:+ nl +:+ nl +:+ "da"; "ta: b" +:+ nl +:+ nl] ""
  = parse_all [("data: a" +:+ nl +:+ nl +:+ "da") +:+ ("ta: b" +:+ nl +:+ nl)] "".
Proof.
  apply (cut_at_frame_start_is_harmless ("data: a" +:+ nl +:+ nl +:+ "da")
           ("ta: b" +:+ nl +:+ nl) [] "").
  right. exists "data: a", "da". split; reflexivity.
Defined.

(** ** What the buffer holds *)

Lemma split_lines_newline_free s : Forall (λ l, newline_free l = true) (split s).
Proof.
  induction s as [|c s IH]; [by repeat constructor|].
  pose proof (split_nonempty s) as Hs.
  destruct (decide (c = newline)) as [->|Hc].
  - rewrite split_cons_nl. by constructor.
  - rewrite split_cons_char by done. destruct (split s) as [|l ls]; [done|].
    inversion_clear IH. constructor; [|done]. simpl.
    by rewrite bool_decide_eq_false_2.
Qed.

Lemma join_split s : join (split s) = s.
Proof.
  induction s as [|c s IH]; [done|].
  pose proof (split_nonempty s) as Hs.
  destruct (decide (c = newline)) as [->|Hc].
  - rewrite split_cons_nl. destruct (split s) as [|l ls] eqn:E; [done|].
    change (String newline (join (l :: ls)) = String newline s).
    f_equal. exact IH.
  - rewrite split_cons_char by done. destruct (split s) as [|l [|l' ls]] eqn:E; [done| |].
    + simpl in *. by rewrite IH.
    + change (String c (l +:+ nl +:+ join (l' :: ls)) = String c s).
      f_equal. exact IH.
Qed.

(** After [parse], the buffer is the text behind the last newline of what
    the parser has been given: it holds no newline, and the lines the call
    went through, each with its newline, followed by the buffer are the old
    buffer followed by the chunk. *)
Theorem buffer_is_the_unfinished_line chunk buf :
  let lines := removelast (split (buf +:+ chunk)) in
  let buf' := (parse chunk buf).2 in
  newline_free buf' = true
  ∧ concat_strings ((λ l, l +:+ nl) <$> lines) +:+ buf' = buf +:+ chunk.
Proof.
  intros lines buf'. unfold buf', lines, parse. simpl. clear lines buf'.
  pose proof (split_lines_newline_free (buf +:+ chunk)) as Hnf.
  pose proof (join_split (buf +:+ chunk)) as Hj.
  pose proof (split_nonempty (buf +:+ chunk)) as Hne.
  destruct (split (buf +:+ chunk)) as [|l ls _] using rev_ind; [done|].
  rewrite removelast_last, last_snoc. simpl.
  apply Forall_app in Hnf as [_ Hl]. inversion_clear Hl. split; [done|].
  rewrite <- Hj. clear. induction ls as [|x ls IH]; [done|].
  change (join ((x :: ls) ++ [l])) with (join (x :: (ls ++ [l]))).
  revert IH. destruct (ls ++ [l]) as [|y ys] eqn:E; [by destruct ls|]. intros IH.
  change (join (x :: y :: ys)) with (x +:+ nl +:+ join (y :: ys)). rewrite <- IH.
  rewrite fmap_cons. simpl. by rewrite !append_assoc.
Qed.

(** ** Streams without an empty line *)

Lemma process_lines_nonempty lines e :
  Forall (λ l, l ≠ "") lines → process_lines lines e = [].
Proof.
  intros H. revert e. induction H as [|l lines Hl _ IH]; intros e; simpl; [done|].
  rewrite decide_False by done. by destruct (cut_colon l) as [[f v]|].
Qed.

Lemma blank_line_free_cons b c s :
  blank_line_free b (String c s)
  = if decide (c = newline) then negb b && blank_line_free true s
    else blank_line_free false s.
Proof. done. Qed.

Lemma blank_line_free_lines s : ∀ b,
  blank_line_free b s = true →
  match removelast (split s) with
  | [] => True
  | l :: ls => (b = true → l ≠ "") ∧ Forall (λ l, l ≠ "") ls
  end.
Proof.
  induction s as [|c s IH]; intros b H; [done|].
  pose proof (split_nonempty s) as Hs.
  rewrite blank_line_free_cons in H.
  destruct (decide (c = newline)) as [->|Hc].
  - rewrite split_cons_nl, removelast_cons by done.
    apply andb_true_iff in H as [Hb H]. destruct b; [done|]. split; [done|].
    specialize (IH true H). destruct (removelast (split s)); [done|].
    destruct IH as [Hl Hls]. constructor; [by apply Hl|done].
  - rewrite split_cons_char by done. specialize (IH false H).
    destruct (split s) as [|l [|l' ls]]; [done..|].
    simpl in *. destruct IH as [_ IH]. by split.
Qed.

Lemma parse_all_nonempty_lines chunks : ∀ buf,
  Forall (λ l, l ≠ "") (removelast (split (buf +:+ concat_strings chunks))) →
  parse_all chunks buf = [].
Proof.
  induction chunks as [|c chunks IH]; intros buf H; [done|].
  rewrite parse_all_cons. simpl in H.
  rewrite <- append_assoc, split_app in H.
  rewrite removelast_app_ne in H by apply split_nonempty.
  apply Forall_app in H as [H1 H2].
  unfold parse at 1. simpl. rewrite process_lines_nonempty by done.
  by apply IH.
Qed.

(** A frame is emitted at a line that is exactly [""]. A stream without
    such a line (one whose lines end in CR LF, for one) yields no frame,
    however it is cut into chunks. *)
Theorem stream_without_empty_line_yields_no_frame chunks :
  blank_line_free true (concat_strings chunks) = true →
  parse_all chunks "" = [].
Proof.
  intros H. apply parse_all_nonempty_lines.
  apply blank_line_free_lines in H.
  change ("" +:+ concat_strings chunks) with (concat_strings chunks).
  destruct (removelast (split (concat_strings chunks))); [done|].
  destruct H as [Hl Hls]. constructor; [by apply Hl|done].
Qed.

Lemma stream_without_empty_line_yields_no_frame_witness :
  parse_all ["data: a" +:+ String "013" nl +:+ String "013" ""; nl +:+ "data: b" +:+ String "013" nl] ""
  = [].
Proof.
  apply (stream_without_empty_line_yields_no_frame
           ["data: a" +:+ String "013" nl +:+ String "013" ""; nl +:+ "data: b" +:+ String "013" nl]).
  reflexivity.
Defined.

(** ** Lines the parser skips *)

Lemma process_lines_skip l1 c l2 e :
  skipped_line c = true →
  process_lines (l1 ++ c :: l2) e = process_lines (l1 ++ l2) e.
Proof.
  intros [Hc Hf]%andb_true_iff. apply negb_true_iff, bool_decide_eq_false in Hc.
  rewrite !process_lines_app. f_equal. simpl. rewrite decide_False by done.
  destruct (cut_colon c) as [[f v]|]; [|done].
  apply negb_true_iff, bool_decide_eq_false in Hf.
  assert (set_field (trim f) (trim v) (state_after l1 e) = state_after l1 e) as ->; [|done].
  unfold set_field. repeat case_decide; try done; destruct Hf; set_solver.
Qed.

(** A comment line (it starts with a colon), a line without a colon and a
    line with a field name other than [data], [event], [id] and [retry]
    change neither the frames nor the buffer, wherever they stand between
    two lines. *)
Theorem skipped_line_changes_nothing x c y buf :
  newline_free c = true → skipped_line c = true →
  parse (x +:+ nl +:+ c +:+ nl +:+ y) buf = parse (x +:+ nl +:+ y) buf.
Proof.
  intros Hnf Hc. unfold parse. simpl.
  rewrite <- !(append_assoc buf x), !split_nl, (split_newline_free c) by done.
  pose proof (split_nonempty y) as Hy.
  change ([c] ++ split y) with (c :: split y).
  rewrite !removelast_app_ne, !last_app_ne by done.
  rewrite removelast_cons, last_cons_ne by done.
  by rewrite (process_lines_skip _ c).
Qed.

Lemma skipped_line_changes_nothing_witness :
  parse ("data: a" +:+ nl +:+ ": keep-alive" +:+ nl +:+ nl) ""
  = parse ("data: a" +:+ nl +:+ nl) "".
Proof.
  apply (skipped_line_changes_nothing "data: a" ": keep-alive" nl ""); reflexivity.
Defined.

Lemma visible_not_space c : visible c = true → is_space c = false.
Proof.
  unfold visible, is_space. intros H%bool_decide_eq_true.
  apply bool_decide_eq_false. intros Hin.
  repeat (apply elem_of_cons in Hin as [->|Hin]; [vm_compute in H; lia|]).
  by apply elem_of_nil in Hin.
Qed.

Lemma trim_end_visible v :
  from_option visible false (last_char v) = true → trim_end v = v.
Proof.
  induction v as [|c v IH]; [done|]. intros H.
  destruct v as [|c' v'].
  - simpl in *. by rewrite visible_not_space.
  - change (last_char (String c (String c' v'))) with (last_char (String c' v')) in H.
    specialize (IH H).
    change (trim_end (String c (String c' v')))
      with (match trim_end (String c' v') with
            | "" => if is_space c then "" else String c ""
            | t => String c t
            end).
    by rewrite IH.
Qed.

Lemma printable_newline_free v : printable v = true → newline_free v = true.
Proof.
  induction v as [|c v IH]; [done|]. simpl.
  intros [Hc Hv]%andb_true_iff. rewrite IH by done.
  apply bool_decide_eq_true in Hc. rewrite bool_decide_eq_false_2; [done|].
  intros ->. vm_compute in Hc. lia.
Qed.

(** A [data:] line followed by an empty line is parsed into one frame whose
    [data] is the payload as sent, colons and inner spaces included; the
    other fields are undefined and the buffer is left empty. *)
Theorem data_frame_round_trip v :
  one_line_payload v = true →
  parse ("data: " +:+ v +:+ nl +:+ nl) "" = ([Build_StreamEvent v None None None], "").
Proof.
  intros H. destruct v as [|c v]; [done|].
  apply andb_true_iff in H as [[Hc Hall]%andb_true_iff Hlast].
  pose proof (printable_newline_free _ Hall) as Hnf.
  unfold parse.
  change ("" +:+ "data: " +:+ String c v +:+ nl +:+ nl)
    with (("data: " +:+ String c v) +:+ nl +:+ nl).
  rewrite split_nl, split_newline_free.
  2:{ change (newline_free (String c v) = true). done. }
  change (split nl) with [""; ""]. simpl.
  unfold set_field. simpl.
  change (trim (" " +:+ String c v))
    with (trim_end (if is_space c then trim_start v else String c v)).
  rewrite (visible_not_space c Hc).
  by rewrite (trim_end_visible (String c v) Hlast).
Qed.

Lemma data_frame_round_trip_witness :
  parse ("data: " +:+ "{" +:+ String "034" "a" +:+ String "034" ": 1}" +:+ nl +:+ nl) ""
  = ([Build_StreamEvent ("{" +:+ String "034" "a" +:+ String "034" ": 1}") None None None], "").
Proof.
  apply (data_frame_round_trip ("{" +:+ String "034" "a" +:+ String "034" ": 1}")).
  reflexivity.
Defined.

Import SSE Processor.

Lemma for_events_step p chunks buf e evs :
  ∃ r, for_events p (chunked_body chunks) buf (e :: evs) = Some r
       ∧ step_for ((e :: evs) ++ parse_all chunks buf) r.
Proof.
  unfold for_events, step_for. simpl. case_decide.
  - eexists. split; [done|]. by repeat split.
  - eexists. split; [done|]. split; [done|].
    exists evs, chunks. simpl. by repeat split; [left|..].
Qed.

Lemma read_loop_cons p text src buf :
  read_loop p (ReadChunk text :: src) buf
  = match for_events p src (parse text buf).2 (parse text buf).1 with
    | Some r => r
    | None => read_loop p src (parse text buf).2
    end.
Proof. simpl. by destruct (parse text buf). Qed.

Lemma read_loop_step p chunks : ∀ buf,
  step_for (parse_all chunks buf) (read_loop p (chunked_body chunks) buf).
Proof.
  induction chunks as [|c chunks IH]; intros buf.
  - simpl. by repeat split.
  - change (chunked_body (c :: chunks)) with (ReadChunk c :: chunked_body chunks).
    rewrite parse_all_cons, read_loop_cons.
    destruct (parse c buf) as [events buf']. simpl.
    destruct events as [|e evs].
    + simpl. apply IH.
    + destruct (for_events_step p chunks buf' e evs) as (r&->&Hr). done.
Qed.

Lemma gen_next_step p es : suspended p es → step_for es (gen_next p).
Proof.
  intros (evs&chunks&Hg&Hb&<-). unfold gen_next. rewrite Hb. simpl.
  destruct Hg as [->|[-> ->]].
  - destruct evs as [|e evs].
    + simpl. apply read_loop_step.
    + destruct (for_events_step p chunks (buffer p) e evs) as (r&->&Hr). done.
  - simpl. apply read_loop_step.
Qed.

Lemma pull_suspended n : ∀ p es,
  suspended p es →
  (pull n p).1 = take n (until_done es)
  ∧ (length (until_done es) < n → finished (pull n p).2).
Proof.
  induction n as [|n IH]; intros p es Hp.
  - simpl. split; [done|lia].
  - pose proof (gen_next_step p es Hp) as Hs. simpl.
    destruct (gen_next p) as [o p'] eqn:E. unfold step_for in Hs.
    destruct es as [|e es'].
    + destruct Hs as [Ho Hf]. simpl in *. subst o. by split.
    + simpl. case_decide.
      * destruct Hs as [Ho Hf]. simpl in *. subst o. by split.
      * destruct Hs as [Ho Hf]. simpl in *. subst o.
        destruct (IH p' es' Hf) as [H1 H2].
        destruct (pull n p') as [l p'']. simpl in *. split; [by rewrite H1|].
        intros Hl. apply H2. lia.
Qed.

(** Pulling [n] times from the generator over a body that delivers
    [chunks] and closes yields the first [n] frames that the parser makes
    of the chunks, up to the first ["[DONE]"] frame, which is not yielded;
    what follows it is never yielded. Once all of them have been pulled,
    one more pull finishes the generator: the reader is released and the
    parser reset. *)
Theorem pull_yields_frames_until_done n chunks :
  let p := new_processor (Some (chunked_body chunks)) in
  (pull n p).1 = take n (until_done (parse_all chunks ""))
  ∧ (length (until_done (parse_all chunks "")) < n → finished (pull n p).2).
Proof.
  intros p. apply pull_suspended. exists [], chunks. by repeat split; [right|..].
Qed.

(** ** The lock on the reader *)

Lemma for_events_lock p src buf evs r :
  for_events p src buf evs = Some r → lock_follows_generator r.2.
Proof.
  destruct evs as [|e evs]; simpl; [done|]. case_decide; intros; by simplify_eq/=.
Qed.

Lemma read_loop_lock p src : ∀ buf, lock_follows_generator (read_loop p src buf).2.
Proof.
  induction src as [|[text| |t] src IH]; intros buf;
    try (unfold lock_follows_generator; simpl; by repeat split).
  rewrite read_loop_cons.
  destruct (for_events p src _ _) as [r|] eqn:E.
  - by apply for_events_lock in E.
  - apply IH.
Qed.

Lemma gen_next_lock p :
  lock_follows_generator p → lock_follows_generator (gen_next p).2.
Proof.
  intros H. unfold gen_next. unfold lock_follows_generator in H.
  destruct (gen p) as [|evs| |] eqn:Hg.
  - destruct (body p); [apply read_loop_lock|]. by unfold lock_follows_generator.
  - destruct (for_events _ _ _ _) as [r|] eqn:E.
    + by apply for_events_lock in E.
    + apply read_loop_lock.
  - simpl. unfold lock_follows_generator. by rewrite Hg.
  - simpl. unfold lock_follows_generator. by rewrite Hg.
Qed.

Lemma pull_lock n : ∀ p,
  lock_follows_generator p → lock_follows_generator (pull n p).2.
Proof.
  induction n as [|n IH]; intros p Hp; [done|]. simpl.
  pose proof (gen_next_lock p Hp) as H.
  destruct (gen_next p) as [[e| |t|] p']; simpl in *; try done.
  specialize (IH p' H). by destruct (pull n p').
Qed.

Lemma pull_closing_body n : ∀ p es, suspended p es → awaits_read (pull n p).2 = false.
Proof.
  induction n as [|n IH]; intros p es Hp.
  - simpl. destruct Hp as (evs&chunks&[Hg|[Hg _]]&_); unfold awaits_read; by rewrite Hg.
  - pose proof (gen_next_step p es Hp) as Hs. simpl.
    destruct (gen_next p) as [o p'] eqn:E. unfold step_for in Hs.
    assert (finished p' → awaits_read p' = false) as Hfin.
    { intros (Hg&_). unfold awaits_read. by rewrite Hg. }
    destruct es as [|e es'].
    + destruct Hs as [Ho Hf]. simpl in *. subst o. by apply Hfin.
    + case_decide.
      * destruct Hs as [Ho Hf]. simpl in *. subst o. by apply Hfin.
      * destruct Hs as [Ho Hf]. simpl in *. subst o.
        specialize (IH p' es' Hf). by destruct (pull n p').
Qed.

(** Whatever the body delivers (chunks, its end, a read error, nothing
    more) and however often the consumer pulls, the reader is locked
    exactly while the generator is inside its loop, and once the generator
    has finished the parser is reset as well. A consumer that leaves the
    loop early, through [return()], finds the generator closed and the
    reader released, unless the generator is waiting for a read that has
    not settled: then [return()] changes nothing and the reader stays
    locked. Over a body that delivers chunks and closes, the generator is
    never left waiting. *)
Theorem reader_lock_follows_generator n response_body :
  let p := (pull n (new_processor response_body)).2 in
  lock_follows_generator p
  ∧ (if awaits_read p
     then gen_return p = p ∧ reader_locked p = true
     else gen (gen_return p) = GenClosed ∧ reader_locked (gen_return p) = false)
  ∧ (∀ chunks, response_body = Some (chunked_body chunks) → awaits_read p = false).
Proof.
  intros p. assert (lock_follows_generator p) as H by by apply pull_lock.
  split; [done|]. split.
  - unfold gen_return, awaits_read, lock_follows_generator in *.
    destruct (gen p); simpl; try done; by destruct H.
  - intros chunks ->. apply (pull_closing_body n _ (parse_all chunks "")).
    exists [], chunks. by repeat split; [right|..].
Qed.

Import Emitter.

Lemma listenerCount_members ev sh : listenerCount ev sh = length (members ev sh).
Proof. unfold listenerCount, members. by destruct (handlers_of ev sh). Qed.

Lemma set_has_members (s : js_set) h : set_has s h = bool_decide (h ∈ set_members s).
Proof.
  unfold set_has, set_members. apply bool_decide_ext. rewrite list_elem_of_omap.
  split; [intros H; by exists (Some h)|]. by intros ([x|]&Hx&?); simplify_eq.
Qed.

Lemma set_members_add (s : js_set) h :
  set_members (set_add s h)
  = if bool_decide (h ∈ set_members s) then set_members s else set_members s ++ [h].
Proof.
  unfold set_add. rewrite set_has_members. case_bool_decide; [done|].
  unfold set_members. by rewrite omap_app.
Qed.

Lemma set_members_cons (e : option handler) (s : js_set) :
  set_members (e :: s) = match e with Some h => h :: set_members s | None => set_members s end.
Proof. by destruct e. Qed.

Lemma set_delete_cons (e : option handler) (s : js_set) h :
  set_delete (e :: s) h = (if decide (e = Some h) then None else e) :: set_delete s h.
Proof. done. Qed.

Lemma set_members_delete (s : js_set) h :
  set_members (set_delete s h) = filter (λ h', h' ≠ h) (set_members s).
Proof.
  induction s as [|e s IH]; [done|].
  rewrite set_delete_cons, !set_members_cons. case_decide as Hx.
  - subst e. rewrite filter_cons_False by naive_solver. done.
  - destruct e as [x|]; [|done].
    rewrite filter_cons_True by naive_solver. by rewrite IH.
Qed.

Lemma NoDup_set_add (s : js_set) h : NoDup (set_members s) → NoDup (set_members (set_add s h)).
Proof.
  intros H. rewrite set_members_add. case_bool_decide; [done|].
  apply NoDup_app. split; [done|]. split; [|apply NoDup_singleton].
  intros x Hx ->%list_elem_of_singleton. done.
Qed.

Lemma NoDup_set_delete (s : js_set) h :
  NoDup (set_members s) → NoDup (set_members (set_delete s h)).
Proof. intros H. rewrite set_members_delete. by apply NoDup_filter. Qed.

Lemma length_filter_ne (l : list nat) h :
  NoDup l → length (filter (λ h', h' ≠ h) l) = length l - (if bool_decide (h ∈ l) then 1 else 0).
Proof.
  induction 1 as [|x l Hx Hl IH]; [done|].
  destruct (decide (x = h)) as [->|Hne].
  - rewrite filter_cons_False by naive_solver.
    rewrite bool_decide_eq_true_2 by left. simpl.
    rewrite IH, bool_decide_eq_false_2 by done. lia.
  - rewrite filter_cons_True by done. simpl. rewrite IH.
    assert (bool_decide (h ∈ x :: l) = bool_decide (h ∈ l)) as ->.
    { apply bool_decide_ext. split; [|by right].
      intros [?|?]%elem_of_cons; [congruence|done]. }
    case_bool_decide as H; [|lia].
    destruct l; [by apply elem_of_nil in H|simpl; lia].
Qed.

(** ** [on] *)

Lemma members_on ev h sh :
  emitter_ok sh →
  members ev (on ev h sh)
  = (if bool_decide (h ∈ members ev sh) then members ev sh else members ev sh ++ [h])
  ∧ (∀ ev', ev' ≠ ev → members ev' (on ev h sh) = members ev' sh).
Proof.
  intros (Hb&Hi&Hn). unfold on, members, handlers_of.
  destruct (events sh !! ev) as [a|] eqn:He.
  - rewrite He. simpl. rewrite He. simpl. split.
    + rewrite list_lookup_alter_eq.
      destruct (sets sh !! a) as [s|] eqn:Hs; simpl; [apply set_members_add|].
      apply lookup_ge_None in Hs. specialize (Hb _ _ He). lia.
    + intros ev' Hne. destruct (events sh !! ev') as [a'|] eqn:He'; simpl; [|done].
      rewrite list_lookup_alter_ne; [done|]. intros ->. by destruct Hne; eapply Hi.
  - simpl. rewrite lookup_insert_eq. simpl. rewrite lookup_insert_eq. simpl. split.
    + by rewrite list_lookup_alter_eq, lookup_app_r, Nat.sub_diag by done.
    + intros ev' Hne. rewrite lookup_insert_ne by done.
      destruct (events sh !! ev') as [a'|] eqn:He'; simpl; [|done].
      specialize (Hb _ _ He').
      rewrite list_lookup_alter_ne by lia. by rewrite lookup_app_l.
Qed.

Lemma emitter_ok_on ev h sh : emitter_ok sh → emitter_ok (on ev h sh).
Proof.
  intros (Hb&Hi&Hn). unfold on.
  destruct (events sh !! ev) as [a|] eqn:He.
  - rewrite He. repeat split; simpl.
    + intros ev' a' H. rewrite length_alter. by eapply Hb.
    + done.
    + intros a' s. destruct (decide (a' = a)) as [->|Hne].
      * rewrite list_lookup_alter_eq. destruct (sets sh !! a) as [s0|] eqn:Hs; [|done].
        intros [= <-]. apply NoDup_set_add. by eapply Hn.
      * rewrite list_lookup_alter_ne by done. apply Hn.
  - simpl. rewrite lookup_insert_eq. repeat split; simpl.
    + intros ev' a'. rewrite length_alter, length_app. simpl.
      destruct (decide (ev' = ev)) as [->|Hne].
      * rewrite lookup_insert_eq. intros; simplify_eq. lia.
      * rewrite lookup_insert_ne by done. intros H. specialize (Hb _ _ H). lia.
    + intros ev1 ev2 a'.
      destruct (decide (ev1 = ev)) as [->|H1], (decide (ev2 = ev)) as [->|H2];
        rewrite ?lookup_insert_eq, ?lookup_insert_ne by done; try done.
      * intros ? H; simplify_eq. specialize (Hb _ _ H). lia.
      * intros H ?; simplify_eq. specialize (Hb _ _ H). lia.
      * apply Hi.
    + intros a' s. destruct (decide (a' = length (sets sh))) as [->|Hne].
      * rewrite list_lookup_alter_eq, lookup_app_r, Nat.sub_diag by done.
        intros [= <-]. apply NoDup_set_add. constructor.
      * rewrite list_lookup_alter_ne by done. intros H.
        apply lookup_app_Some in H as [H|[? H]]; [by eapply Hn|].
        destruct (a' - length (sets sh)) as [|k] eqn:Hk; [lia|]. by destruct k.
Qed.

(** [on(event, handler)] appends the handler to the handlers of the event,
    unless it is registered for that event already: then nothing changes.
    The handlers of every other event stay as they are. *)
Theorem on_registers_a_handler_once ev h sh :
  emitter_ok sh →
  emitter_ok (on ev h sh)
  ∧ members ev (on ev h sh)
    = (if bool_decide (h ∈ members ev sh) then members ev sh else members ev sh ++ [h])
  ∧ listenerCount ev (on ev h sh)
    = listenerCount ev sh + (if bool_decide (h ∈ members ev sh) then 0 else 1)
  ∧ (∀ ev', ev' ≠ ev → members ev' (on ev h sh) = members ev' sh).
Proof.
  intros Hok. destruct (members_on ev h sh Hok) as [H1 H2].
  split; [by apply emitter_ok_on|]. split; [done|]. split; [|done].
  rewrite !listenerCount_members, H1. case_bool_decide; [lia|].
  rewrite length_app. simpl. lia.
Qed.

(** ** [off] *)

Lemma members_off ev h sh :
  emitter_ok sh →
  members ev (off ev h sh) = filter (λ h', h' ≠ h) (members ev sh)
  ∧ (∀ ev', ev' ≠ ev → members ev' (off ev h sh) = members ev' sh).
Proof.
  intros (Hb&Hi&Hn). unfold off, members, handlers_of.
  destruct (events sh !! ev) as [a|] eqn:He; [|by rewrite He].
  simpl. destruct (sets sh !! a) as [s|] eqn:Hs.
  2:{ apply lookup_ge_None in Hs. specialize (Hb _ _ He). lia. }
  rewrite list_lookup_alter_eq, Hs. simpl.
  assert (∀ ev', ev' ≠ ev →
            (events sh !! ev') ≫= (λ a', alter (λ s, set_delete s h) a (sets sh) !! a')
            = (events sh !! ev') ≫= (λ a', sets sh !! a')) as Hother.
  { intros ev' Hne. destruct (events sh !! ev') as [a'|] eqn:He'; simpl; [|done].
    rewrite list_lookup_alter_ne; [done|]. intros ->. by destruct Hne; eapply Hi. }
  case_decide as Hsz; simpl.
  - rewrite lookup_delete_eq. simpl. split.
    + rewrite <- set_members_delete. symmetry. by apply nil_length_inv.
    + intros ev' Hne. rewrite lookup_delete_ne by done. by rewrite Hother.
  - rewrite He. simpl. rewrite list_lookup_alter_eq, Hs. simpl. split.
    + apply set_members_delete.
    + intros ev' Hne. by rewrite Hother.
Qed.

Lemma emitter_ok_off ev h sh : emitter_ok sh → emitter_ok (off ev h sh).
Proof.
  intros (Hb&Hi&Hn). unfold off.
  destruct (events sh !! ev) as [a|] eqn:He; [|done].
  assert (∀ a' s, alter (λ s, set_delete s h) a (sets sh) !! a' = Some s →
                  NoDup (set_members s)) as Hn'.
  { intros a' s. destruct (decide (a' = a)) as [->|Hne].
    - rewrite list_lookup_alter_eq. destruct (sets sh !! a) as [s0|] eqn:Hs; [|done].
      intros [= <-]. apply NoDup_set_delete. by eapply Hn.
    - rewrite list_lookup_alter_ne by done. apply Hn. }
  case_decide; repeat split; simpl; try done.
  - intros ev' a' [_ Hl]%lookup_delete_Some. rewrite length_alter. by eapply Hb.
  - intros ev1 ev2 a' [_ H1]%lookup_delete_Some [_ H2]%lookup_delete_Some. by eapply Hi.
  - intros ev' a' Hl. rewrite length_alter. by eapply Hb.
Qed.

(** [off(event, handler)] removes that handler from the handlers of the
    event and nothing else: the other handlers keep their order, other
    events are untouched, and a handler that is not registered, or an event
    without handlers, leaves the emitter as it is. *)
Theorem off_removes_that_handler_only ev h sh :
  emitter_ok sh →
  emitter_ok (off ev h sh)
  ∧ members ev (off ev h sh) = filter (λ h', h' ≠ h) (members ev sh)
  ∧ listenerCount ev (off ev h sh)
    = listenerCount ev sh - (if bool_decide (h ∈ members ev sh) then 1 else 0)
  ∧ (∀ ev', ev' ≠ ev → members ev' (off ev h sh) = members ev' sh).
Proof.
  intros Hok. destruct (members_off ev h sh Hok) as [H1 H2].
  split; [by apply emitter_ok_off|]. split; [done|]. split; [|done].
  rewrite !listenerCount_members, H1. apply length_filter_ne.
  destruct Hok as (_&_&Hn). unfold members, handlers_of.
  destruct (events sh !! ev) as [a|]; simpl; [|constructor].
  destruct (sets sh !! a) as [s|] eqn:Hs; [by eapply Hn|constructor].
Qed.

Lemma NoDup_members ev sh : emitter_ok sh → NoDup (members ev sh).
Proof.
  intros (_&_&Hn). unfold members, handlers_of.
  destruct (events sh !! ev) as [a|]; simpl; [|constructor].
  destruct (sets sh !! a) as [s|] eqn:Hs; [by eapply Hn|constructor].
Qed.

Lemma filter_ne_absent (l : list nat) h : h ∉ l → filter (λ h', h' ≠ h) l = l.
Proof.
  induction l as [|x l IH]; [done|]. intros Hn.
  rewrite filter_cons_True; [|intros ->; apply Hn; by left].
  rewrite IH; [done|]. intros ?. apply Hn. by right.
Qed.

(** [off] undoes [on]: registering a handler that was not registered and
    removing it again leaves every event with the handlers it had. *)
Theorem off_undoes_on ev h sh ev' :
  emitter_ok sh → h ∉ members ev sh →
  members ev' (off ev h (on ev h sh)) = members ev' sh.
Proof.
  intros Hok Hn.
  pose proof (emitter_ok_on ev h sh Hok) as Hok'.
  destruct (members_on ev h sh Hok) as [H1 H2].
  destruct (members_off ev h (on ev h sh) Hok') as [H3 H4].
  destruct (decide (ev' = ev)) as [->|Hne].
  - rewrite H3, H1, bool_decide_eq_false_2 by done.
    rewrite filter_app, filter_ne_absent by done.
    rewrite filter_cons_False, filter_nil by naive_solver. apply app_nil_r.
  - by rewrite H4, H2.
Qed.

(** ** [removeAllListeners] *)

(** [removeAllListeners(event)] leaves the event without handlers and the
    other events as they are; without an argument, and also when the
    argument is the empty string (the test on it is a truthiness test),
    every event is left without handlers. *)
Theorem removeAllListeners_clears o sh ev' :
  members ev' (removeAllListeners o sh)
  = if truthy o
    then (if decide (ev' = default "" o) then [] else members ev' sh)
    else [].
Proof.
  unfold removeAllListeners, members, handlers_of.
  destruct (truthy o); simpl; [|done].
  case_decide as H.
  - subst ev'. by rewrite lookup_delete_eq.
  - by rewrite lookup_delete_ne.
Qed.

(** ** [once] and [off] *)

(** A handler registered with [once] cannot be removed with [off]: [once]
    registers a wrapper, so [off(event, handler)] removes at most a direct
    registration of the handler and the wrapper stays registered. *)
Theorem off_does_not_remove_a_once_handler ev h sh :
  emitter_ok sh → handlers_exist sh → h < length (funs sh) →
  members ev (off ev h (once ev h sh))
  = filter (λ h', h' ≠ h) (members ev sh) ++ [length (funs sh)]
  ∧ funs (off ev h (once ev h sh)) !! length (funs sh) = Some (FOnceWrapper ev h).
Proof.
  intros Hok Hex Hh. unfold once.
  set (sh1 := upd_funs (λ fs, fs ++ [FOnceWrapper ev h]) sh).
  assert (emitter_ok sh1) as Hok1 by done.
  assert (∀ ev', members ev' sh1 = members ev' sh) as Hm by done.
  pose proof (emitter_ok_on ev (length (funs sh)) sh1 Hok1) as Hok2.
  destruct (members_on ev (length (funs sh)) sh1 Hok1) as [H1 _].
  destruct (members_off ev h (on ev (length (funs sh)) sh1) Hok2) as [H3 _].
  split.
  - rewrite H3, H1, Hm, bool_decide_eq_false_2.
    2:{ intros Hin. specialize (Hex _ _ Hin). lia. }
    rewrite filter_app. f_equal. rewrite filter_cons_True; [done|]. simpl. lia.
  - assert (∀ s, funs (off ev h s) = funs s) as Hfo.
    { intros s. unfold off. destruct (events s !! ev); [|done]. simpl. by destruct (decide _). }
    assert (∀ h' s, funs (on ev h' s) = funs s) as Hfn.
    { intros h' s. unfold on. destruct (events s !! ev) as [a|] eqn:E.
      - by rewrite E.
      - simpl. by rewrite lookup_insert_eq. }
    rewrite Hfo, Hfn. simpl. by rewrite lookup_app_r, Nat.sub_diag.
Qed.

(** * Emission *)

(** Among listeners that only remove handlers or throw, [emit] returns
    (a handler that throws is caught), and what it returns tells whether
    the event had a handler when [emit] was called. *)
Theorem emit_reports_whether_it_had_listeners n ev d sh :
  tame sh = true → fuel_ok n sh = true →
  ∃ sh', emit n ev d sh = Some (bool_decide (listenerCount ev sh ≠ 0), sh')
         ∧ trace sh' = trace sh ++ [(ev, d)].
Proof.
  intros Ht Hok. destruct (emit_tame n ev d sh Ht Hok) as (b&sh'&He&_&_&Htr&_).
  exists sh'. split; [|done]. rewrite He. do 2 f_equal.
  destruct n as [|n]; [done|]. cbn [emit] in He. simpl in He.
  unfold listenerCount, handlers_of.
  destruct (events sh !! ev) as [a|]; simpl in *; [|by simplify_eq].
  destruct (sets sh !! a) as [s|]; simpl in *.
  - case_decide as Hs.
    + simplify_eq. by rewrite bool_decide_eq_false_2 by naive_solver.
    + destruct (emit_loop n ev d a 0 _); simplify_eq/=.
      by rewrite bool_decide_eq_true_2.
  - by simplify_eq.
Qed.

Lemma off_events_None ev' h' ev sh :
  events sh !! ev = None → events (off ev' h' sh) !! ev = None.
Proof.
  intros He. unfold off. destruct (events sh !! ev') as [a|]; [|done]. simpl.
  destruct (decide _); simpl; [|done].
  destruct (decide (ev = ev')) as [->|Hne]; [apply lookup_delete_eq|].
  by rewrite lookup_delete_ne.
Qed.

Lemma off_console ev h sh : console (off ev h sh) = console sh.
Proof. unfold off. destruct (events sh !! ev); [|done]. by case_decide. Qed.

Lemma run_body_tame_events da ev body : ∀ sh,
  forallb tame_action body = true → events sh !! ev = None →
  ∃ t sh', run_body da body sh = Some (t, sh') ∧ pres sh sh'
           ∧ events sh' !! ev = None ∧ calls sh' = calls sh
           ∧ console sh' = console sh.
Proof.
  induction body as [|act body IH]; intros sh Hb He; simpl in *.
  - exists false, sh. split; [done|]. split; [apply pres_refl|done].
  - apply andb_true_iff in Hb as [Ha Hb]. destruct act as [ev' h'|ev' h'| |]; try done.
    + destruct (IH (off ev' h' sh) Hb) as (t&sh'&E&Hp&He'&Hc&Hco);
        [by apply off_events_None|].
      exists t, sh'. split; [done|].
      split; [|by rewrite Hc, Hco, off_calls, off_console].
      eapply pres_trans; [apply off_pres|done].
    + exists true, sh. split; [done|]. split; [apply pres_refl|done].
Qed.

Lemma emit_S fuel ev d sh :
  emit (S fuel) ev d sh
  = match events sh !! ev with
    | None => Some (false, log_emit ev d sh)
    | Some a =>
        if decide (set_size (default [] (sets sh !! a)) = 0)
        then Some (false, log_emit ev d sh)
        else sh' ← emit_loop fuel ev d a 0 (log_emit ev d sh); Some (true, sh')
    end.
Proof. done. Qed.

Lemma emit_loop_S fuel ev d a i sh :
  emit_loop (S fuel) ev d a i sh
  = match default [] (sets sh !! a) !! i with
    | None => Some sh
    | Some None => emit_loop fuel ev d a (S i) sh
    | Some (Some h) =>
        '(threw, sh') ← call fuel h d (log_call h d sh);
        emit_loop fuel ev d a (S i) (if threw : bool then console_error ev sh' else sh')
    end.
Proof. done. Qed.

Lemma call_once_wrapper fuel h d sh ev inner :
  funs sh !! h = Some (FOnceWrapper ev inner) →
  call (S fuel) h d sh = call fuel inner d (off ev h sh).
Proof. intros H. cbn [call]. by rewrite H. Qed.

Lemma call_user fuel h d sh body :
  funs sh !! h = Some (FUser body) →
  call (S fuel) h d sh
  = run_body (λ s, r ← emit fuel "abort" PUndefined (set_aborted true s); Some r.2) body sh.
Proof. intros H. cbn [call]. by rewrite H. Qed.

Lemma off_funs ev h sh : funs (off ev h sh) = funs sh.
Proof. unfold off. destruct (events sh !! ev); [|done]. simpl. by destruct (decide _). Qed.

Lemma run_body_tame_any da da' body : ∀ sh,
  forallb tame_action body = true → run_body da body sh = run_body da' body sh.
Proof.
  induction body as [|act body IH]; intros sh Hb; simpl in *; [done|].
  apply andb_true_iff in Hb as [Ha Hb]. destruct act; try done; by apply IH.
Qed.

(** A handler registered with [once] for an event without handlers runs at
    the first [emit] of the event and not at the second. The first [emit]
    calls the wrapper, which removes itself and then runs the body of the
    handler: the emitter is left as the body leaves it, an exception of the
    body is reported to [console.error], and the event has no handlers any
    more. The second [emit] returns [false], calls nothing and reports
    nothing. The handler may throw and may remove handlers. *)
Theorem once_handler_runs_once n ev h body d1 d2 sh :
  events sh !! ev = None → funs sh !! h = Some (FUser body) →
  forallb tame_action body = true → 4 ≤ n →
  let w := length (funs sh) in
  ∃ threw sh_body sh1 sh2,
    run_body (λ _, None) body
      (off ev w (log_call w d1 (log_emit ev d1 (once ev h sh)))) = Some (threw, sh_body)
    ∧ sh1 = (if threw : bool then console_error ev sh_body else sh_body)
    ∧ emit n ev d1 (once ev h sh) = Some (true, sh1)
    ∧ calls sh1 = calls sh ++ [(w, d1)]
    ∧ console sh1 = console sh ++ (if threw then [ev] else [])
    ∧ listenerCount ev sh1 = 0
    ∧ emit n ev d2 sh1 = Some (false, sh2)
    ∧ calls sh2 = calls sh1
    ∧ console sh2 = console sh1.
Proof.
  intros He Hh Hb Hn w. destruct n as [|[|[|[|n]]]]; try lia.
  set (a := length (sets sh)).
  assert (∃ sh0, once ev h sh = sh0 ∧ events sh0 !! ev = Some a
                 ∧ sets sh0 !! a = Some [Some w]
                 ∧ funs sh0 !! w = Some (FOnceWrapper ev h)
                 ∧ funs sh0 !! h = Some (FUser body)
                 ∧ calls sh0 = calls sh
                 ∧ console sh0 = console sh) as (sh0&->&He0&Hs0&Hw&Hh0&Hc0&Hco0).
  { eexists. split; [done|]. unfold once, on. simpl. rewrite He. simpl.
    rewrite !lookup_insert_eq. simpl.
    rewrite list_lookup_alter_eq, !lookup_app_r, !Nat.sub_diag by done.
    rewrite lookup_app_l by by eapply lookup_lt_Some.
    split; [apply lookup_insert_eq|done]. }
  (* the wrapper removes itself, which leaves [ev] without a [Set] *)
  assert (∃ s2, off ev w (log_call w d1 (log_emit ev d1 sh0)) = s2
                ∧ events s2 !! ev = None ∧ funs s2 = funs sh0
                ∧ calls s2 = calls sh ++ [(w, d1)]
                ∧ console s2 = console sh
                ∧ length (default [] (sets s2 !! a)) = 1)
    as (s2&Hoff&He2&Hf2&Hc2&Hco2&Hl2).
  { eexists. split; [done|]. unfold off. simpl. rewrite He0. simpl.
    rewrite list_lookup_alter_eq, Hs0. simpl.
    destruct (decide (Some w = Some w)); [|done]. simpl.
    rewrite lookup_delete_eq, list_lookup_alter_eq, Hs0, Hc0, Hco0. simpl.
    by destruct (decide (Some w = Some w)). }
  destruct (run_body_tame_events
              (λ s, emit n "abort" PUndefined (set_aborted true s) ≫= λ r, Some r.2)
              ev body s2 Hb He2) as (t&s3&E3&Hp3&He3&Hc3&Hco3).
  set (s4 := if t then console_error ev s3 else s3).
  assert (events s4 !! ev = None ∧ calls s4 = calls sh ++ [(w, d1)]
          ∧ console s4 = console sh ++ (if t then [ev] else [])
          ∧ length (default [] (sets s4 !! a)) = 1) as (He4&Hc4&Hco4&Hl4).
  { pose proof (pres_set_length _ _ a Hp3) as Hl. rewrite Hl2 in Hl.
    unfold s4. destruct t; simpl; rewrite ?Hc3, ?Hco3, ?Hco2, ?app_nil_r; done. }
  exists t, s3, s4, (log_emit ev d2 s4).
  split; [rewrite Hoff, <- E3; by apply run_body_tame_any|].
  split; [done|]. split; [|split; [done|split; [done|split]]].
  - rewrite emit_S, He0, Hs0.
    rewrite decide_False by (cbv; lia).
    rewrite emit_loop_S.
    change (sets (log_emit ev d1 sh0)) with (sets sh0). rewrite Hs0.
    change (default [] (Some [Some w]) !! 0) with (Some (Some w)). cbv beta iota.
    rewrite (call_once_wrapper _ _ _ _ ev h) by done. rewrite Hoff.
    rewrite (call_user _ _ _ _ body) by by rewrite Hf2.
    rewrite E3. cbn [mbind option_bind]. fold s4.
    rewrite emit_loop_S, lookup_ge_None_2 by lia. done.
  - unfold listenerCount, handlers_of. by rewrite He4.
  - rewrite emit_S. by rewrite He4.
Qed.

(** [emit] iterates the live [Set]: a handler that the only handler of an
    event registers for that event during the emission is called by the same
    [emit], after it. *)
Theorem handler_added_during_emit_is_called n ev d sh a h h' :
  events sh !! ev = Some a → sets sh !! a = Some [Some h] →
  funs sh !! h = Some (FUser [UOn ev h']) → funs sh !! h' = Some (FUser []) →
  h ≠ h' → 4 ≤ n →
  ∃ sh', emit n ev d sh = Some (true, sh')
         ∧ calls sh' = calls sh ++ [(h, d); (h', d)]
         ∧ members ev sh' = [h; h'].
Proof.
  intros He Hs Hh Hh' Hne Hn. destruct n as [|[|[|[|n]]]]; try lia.
  assert (∃ s1, on ev h' (log_call h d (log_emit ev d sh)) = s1
                ∧ events s1 !! ev = Some a ∧ sets s1 !! a = Some [Some h; Some h']
                ∧ funs s1 = funs sh ∧ calls s1 = calls sh ++ [(h, d)])
    as (s1&Hon&He1&Hs1&Hf1&Hc1).
  { eexists. split; [done|]. unfold on. simpl. rewrite He. simpl. rewrite He. simpl.
    rewrite list_lookup_alter_eq, Hs. simpl. unfold set_add, set_has.
    rewrite bool_decide_eq_false_2; [done|].
    intros [?|?%elem_of_nil]%elem_of_cons; [congruence|done]. }
  exists (log_call h' d s1). split; [|split].
  - rewrite emit_S, He, Hs.
    rewrite decide_False by (cbv; lia).
    rewrite emit_loop_S.
    change (sets (log_emit ev d sh)) with (sets sh). rewrite Hs.
    change (default [] (Some [Some h]) !! 0) with (Some (Some h)). cbv beta iota.
    rewrite (call_user _ _ _ _ [UOn ev h']) by done.
    cbn [run_body]. rewrite Hon. cbn [mbind option_bind].
    rewrite emit_loop_S, Hs1.
    change (default [] (Some [Some h; Some h']) !! 1) with (Some (Some h')).
    cbv beta iota.
    rewrite (call_user _ _ _ _ []) by (simpl; by rewrite Hf1).
    cbn [run_body mbind option_bind].
    rewrite emit_loop_S.
    change (sets (log_call h' d s1)) with (sets s1). rewrite Hs1.
    by change (default [] (Some [Some h; Some h']) !! 2) with (@None (option nat)).
  - simpl. by rewrite Hc1, <- app_assoc.
  - unfold members, handlers_of. simpl. rewrite He1. simpl. by rewrite Hs1.
Qed.

(** ** The statements above on small emitters *)

Lemma emitter_ok_new : emitter_ok new_shell.
Proof.
  repeat split.
  - intros ev a H. unfold new_shell in H. simpl in H. by rewrite lookup_empty in H.
  - intros ev1 ev2 a H. unfold new_shell in H. simpl in H. by rewrite lookup_empty in H.
  - intros a s H. by destruct a.
Qed.

Lemma emitter_ok_one_listener : emitter_ok one_listener_shell.
Proof. apply emitter_ok_on. exact emitter_ok_new. Qed.

Lemma handlers_exist_one_listener : handlers_exist one_listener_shell.
Proof.
  intros ev h. unfold members, handlers_of.
  change (events one_listener_shell) with (<["chunk" := 0]> (∅ : gmap string nat)).
  change (sets one_listener_shell) with [[Some 0]].
  change (length (funs one_listener_shell)) with 2.
  destruct (decide (ev = "chunk")) as [->|Hne].
  - rewrite lookup_insert_eq. simpl.
    intros [->|H%elem_of_nil]%elem_of_cons; [lia|done].
  - rewrite lookup_insert_ne, lookup_empty by done. by intros ?%elem_of_nil.
Qed.

Lemma on_registers_a_handler_once_witness :
  emitter_ok (on "chunk" 0 one_listener_shell)
  ∧ members "chunk" (on "chunk" 0 one_listener_shell) = [0]
  ∧ listenerCount "chunk" (on "chunk" 0 one_listener_shell) = 1
  ∧ (∀ ev', ev' ≠ "chunk" →
       members ev' (on "chunk" 0 one_listener_shell) = members ev' one_listener_shell).
Proof.
  exact (on_registers_a_handler_once "chunk" 0 one_listener_shell emitter_ok_one_listener).
Defined.

Lemma off_removes_that_handler_only_witness :
  emitter_ok (off "chunk" 0 one_listener_shell)
  ∧ members "chunk" (off "chunk" 0 one_listener_shell) = []
  ∧ listenerCount "chunk" (off "chunk" 0 one_listener_shell) = 0
  ∧ (∀ ev', ev' ≠ "chunk" →
       members ev' (off "chunk" 0 one_listener_shell) = members ev' one_listener_shell).
Proof.
  exact (off_removes_that_handler_only "chunk" 0 one_listener_shell emitter_ok_one_listener).
Defined.

Lemma off_undoes_on_witness :
  members "chunk" (off "chunk" 1 (on "chunk" 1 one_listener_shell))
  = members "chunk" one_listener_shell.
Proof.
  apply (off_undoes_on "chunk" 1 one_listener_shell "chunk" emitter_ok_one_listener).
  vm_compute. intros [H|H]%elem_of_cons; [discriminate H|by apply elem_of_nil in H].
Defined.

Lemma off_does_not_remove_a_once_handler_witness :
  members "chunk" (off "chunk" 1 (once "chunk" 1 one_listener_shell)) = [0; 2]
  ∧ funs (off "chunk" 1 (once "chunk" 1 one_listener_shell)) !! 2
    = Some (FOnceWrapper "chunk" 1).
Proof.
  apply (off_does_not_remove_a_once_handler "chunk" 1 one_listener_shell
           emitter_ok_one_listener handlers_exist_one_listener).
  vm_compute. lia.
Defined.

Lemma emit_reports_whether_it_had_listeners_witness :
  ∃ sh', emit 5 "chunk" PUndefined one_listener_shell = Some (true, sh')
         ∧ trace sh' = [("chunk", PUndefined)].
Proof.
  apply (emit_reports_whether_it_had_listeners 5 "chunk" PUndefined one_listener_shell);
    reflexivity.
Defined.

Lemma once_handler_runs_once_witness :
  ∃ threw sh_body sh1 sh2,
    run_body (λ _, None) [UOff "chunk" 0; UThrow]
      (off "end" 2 (log_call 2 (PError APIUserAbortError)
                      (log_emit "end" (PError APIUserAbortError)
                         (once "end" 0 (upd_funs (λ _, [FUser [UOff "chunk" 0; UThrow]; FUser []])
                                          one_listener_shell)))))
      = Some (threw, sh_body)
    ∧ sh1 = (if threw : bool then console_error "end" sh_body else sh_body)
    ∧ emit 4 "end" (PError APIUserAbortError)
        (once "end" 0 (upd_funs (λ _, [FUser [UOff "chunk" 0; UThrow]; FUser []])
                         one_listener_shell)) = Some (true, sh1)
    ∧ calls sh1 = [(2, PError APIUserAbortError)]
    ∧ console sh1 = (if threw then ["end"] else [])
    ∧ listenerCount "end" sh1 = 0
    ∧ emit 4 "end" PUndefined sh1 = Some (false, sh2)
    ∧ calls sh2 = calls sh1
    ∧ console sh2 = console sh1.
Proof.
  apply (once_handler_runs_once 4 "end" 0 [UOff "chunk" 0; UThrow]
           (PError APIUserAbortError) PUndefined
           (upd_funs (λ _, [FUser [UOff "chunk" 0; UThrow]; FUser []]) one_listener_shell));
    first [reflexivity | lia].
Defined.

Lemma handler_added_during_emit_is_called_witness :
  ∃ sh', emit 4 "chunk" PUndefined growing_shell = Some (true, sh')
         ∧ calls sh' = [(0, PUndefined); (1, PUndefined)]
         ∧ members "chunk" sh' = [0; 1].
Proof.
  apply (handler_added_during_emit_is_called 4 "chunk" PUndefined growing_shell 0 0 1);
    first [reflexivity | lia].
Defined.

(** ** Removing handlers *)

Lemma entry_default sh a j : default [] (sets sh !! a) !! j = entry sh a j.
Proof. unfold entry. by destruct (sets sh !! a). Qed.

Lemma off_promises ev h sh : promises (off ev h sh) = promises sh.
Proof. unfold off. destruct (events sh !! ev); [|done]. by case_decide. Qed.

Lemma off_trace ev h sh : trace (off ev h sh) = trace sh.
Proof. unfold off. destruct (events sh !! ev); [|done]. by case_decide. Qed.

Lemma off_aborted ev h sh : aborted (off ev h sh) = aborted sh.
Proof. unfold off. destruct (events sh !! ev); [|done]. by case_decide. Qed.

Lemma off_sets ev h sh :
  sets (off ev h sh) = sets sh
  ∨ ∃ a, events sh !! ev = Some a
         ∧ sets (off ev h sh) = alter (λ s, set_delete s h) a (sets sh).
Proof.
  unfold off. destruct (events sh !! ev) as [a|]; [|by left].
  right. exists a. split; [done|]. by case_decide.
Qed.

Lemma set_delete_lookup (s : js_set) h j :
  set_delete s h !! j = (λ e, if decide (e = Some h) then None else e) <$> s !! j.
Proof. unfold set_delete. by rewrite list_lookup_fmap. Qed.

Lemma off_entry ev h sh a j h' :
  entry (off ev h sh) a j = Some (Some h') → entry sh a j = Some (Some h').
Proof.
  unfold entry. destruct (off_sets ev h sh) as [->|(a0&_&->)]; [done|].
  destruct (decide (a = a0)) as [->|Hne].
  - rewrite list_lookup_alter_eq. destruct (sets sh !! a0) as [s|]; simpl; [|done].
    rewrite set_delete_lookup. destruct (s !! j) as [e|]; simpl; [|done].
    case_decide; [done|]. by intros [= ->].
  - by rewrite list_lookup_alter_ne.
Qed.

Lemma off_entry_keep ev h sh a j h' :
  h' ≠ h → entry sh a j = Some (Some h') → entry (off ev h sh) a j = Some (Some h').
Proof.
  intros Hne. unfold entry. destruct (off_sets ev h sh) as [->|(a0&_&->)]; [done|].
  destruct (decide (a = a0)) as [->|Hna].
  - rewrite list_lookup_alter_eq. destruct (sets sh !! a0) as [s|]; simpl; [|done].
    rewrite set_delete_lookup. intros ->. simpl. rewrite decide_False; [done|].
    by intros [= ->].
  - by rewrite list_lookup_alter_ne.
Qed.

Lemma off_events ev h sh : events (off ev h sh) ⊆ events sh.
Proof.
  unfold off. destruct (events sh !! ev) as [a|]; [|done].
  case_decide; [|done]. apply delete_subseteq.
Qed.

Lemma set_size_entry (s : js_set) j h : s !! j = Some (Some h) → set_size s ≠ 0.
Proof.
  intros Hj. unfold set_size.
  assert (h ∈ omap (λ e : option handler, e) s) as Hin.
  { apply list_elem_of_omap. exists (Some h). split; [|done].
    by eapply list_elem_of_lookup_2. }
  destruct (omap _ s); [by apply elem_of_nil in Hin|done].
Qed.

Lemma off_events_keep ev h sh ev' a :
  events sh !! ev' = Some a →
  ev' ≠ ev ∨ (∃ j h', h' ≠ h ∧ entry sh a j = Some (Some h')) →
  events (off ev h sh) !! ev' = Some a.
Proof.
  intros He Hc. unfold off. destruct (events sh !! ev) as [a0|] eqn:He0; [|done].
  case_decide as Hs; [|done]. simpl.
  destruct (decide (ev' = ev)) as [->|Hne]; [|by rewrite lookup_delete_ne].
  destruct Hc as [?|(j&h'&Hh&Hj)]; [done|]. exfalso.
  assert (a0 = a) as -> by congruence.
  simpl in Hs. rewrite list_lookup_alter_eq in Hs. unfold entry in Hj.
  destruct (sets sh !! a) as [s|]; simpl in *; [|done].
  eapply (set_size_entry _ j h'); [|done].
  rewrite set_delete_lookup, Hj. simpl. rewrite decide_False; [done|]. by intros [= ->].
Qed.

Lemma shrinks_refl sh : shrinks sh sh.
Proof. by repeat split. Qed.

Lemma shrinks_trans sh1 sh2 sh3 : shrinks sh1 sh2 → shrinks sh2 sh3 → shrinks sh1 sh3.
Proof.
  intros (F1&L1&E1&H1) (F2&L2&E2&H2). repeat split; try congruence.
  - by etrans.
  - intros a j h Hh. by apply H1, H2.
Qed.

Lemma off_shrinks ev h sh : shrinks sh (off ev h sh).
Proof.
  destruct (off_pres ev h sh) as (Hf&_&_&Hl&_).
  split; [done|]. split; [done|]. split; [apply off_events|]. apply off_entry.
Qed.

(** A step that leaves the registrations alone. *)
Lemma shrinks_same sh sh' :
  funs sh' = funs sh → sets sh' = sets sh → events sh' = events sh → shrinks sh sh'.
Proof. intros Hf Hs He. unfold shrinks, entry. by rewrite Hf, Hs, He. Qed.

Lemma within_shrinks c sh sh' :
  within c sh → shrinks sh sh' →
  (∀ w, sc_done c = Some w → waiting w sh' ∨ rejected (aw_promise w) sh') →
  within c sh'.
Proof.
  intros (Hf&Hl&Hq&Ha&Ht) (Hf'&Hl'&He'&Hen') Hw.
  split; [congruence|]. split; [congruence|]. split; [|split].
  - intros ev a Hev Hl0. apply (Hq ev a Hev). by eapply lookup_weaken.
  - intros a j h Hin Hj. apply (Ha a j h Hin). by apply Hen'.
  - intros w Hd. destruct (Ht w Hd) as (T1&T2&_). split; [|split; [|by apply Hw]].
    + intros a j h Hj. apply (T1 a j h). by apply Hen'.
    + intros ev a Hl0. apply T2. by eapply lookup_weaken.
Qed.

Lemma settled_kept_refl sh : settled_kept sh sh.
Proof. by intros p v. Qed.

Lemma settled_kept_trans sh1 sh2 sh3 :
  settled_kept sh1 sh2 → settled_kept sh2 sh3 → settled_kept sh1 sh3.
Proof. intros K1 K2 p v Hp Hv. apply K2; [|done]. by apply K1. Qed.

Lemma rejected_kept p sh sh' : settled_kept sh sh' → rejected p sh → rejected p sh'.
Proof. intros Hk Hr. by apply Hk. Qed.

Lemma quiet_rel_refl c sh : within c sh → quiet_rel c sh sh.
Proof. intros H. split; [done|]. split; [apply settled_kept_refl|]. by split; [apply shrinks_refl|]. Qed.

Lemma quiet_rel_trans c sh1 sh2 sh3 :
  quiet_rel c sh1 sh2 → quiet_rel c sh2 sh3 → quiet_rel c sh1 sh3.
Proof.
  intros (_&K1&S1&T1&A1) (W&K2&S2&T2&A2). split; [done|].
  split; [by eapply settled_kept_trans|]. split; [by eapply shrinks_trans|].
  split; congruence.
Qed.

Lemma old_rel_refl c sh : old_rel c sh sh.
Proof. intros w Hw. split; [done|]. split; [done|]. by intros [? _]. Qed.

Lemma old_rel_trans c sh1 sh2 sh3 : old_rel c sh1 sh2 → old_rel c sh2 sh3 → old_rel c sh1 sh3.
Proof.
  intros H1 H2 w Hw. destruct (H1 w Hw) as (P1&E1&A1), (H2 w Hw) as (P2&E2&A2).
  split; [congruence|]. split; [intros a j Hj; by apply E2, E1|].
  intros Ha. apply A2. split; [by apply A1|]. destruct Ha as (_&j&Hj). exists j. by apply E1.
Qed.

Lemma old_rel_armed c sh sh' w :
  old_rel c sh sh' → sc_done c = Some w → armed w sh → armed w sh'.
Proof.
  intros H Hw Ha. destruct (H w Hw) as (_&E&A). split; [by apply A|].
  destruct Ha as (_&j&Hj). exists j. by apply E.
Qed.

Lemma old_rel_waiting c sh sh' w :
  old_rel c sh sh' → settled_kept sh sh' → sc_done c = Some w →
  waiting w sh ∨ rejected (aw_promise w) sh → waiting w sh' ∨ rejected (aw_promise w) sh'.
Proof.
  intros H Hk Hw [[Hp Ha]|Hr]; [left|right; by eapply rejected_kept].
  split; [|by eapply old_rel_armed]. destruct (H w Hw) as (P&_). congruence.
Qed.

(** [off] of a handler other than the wrapper of [onAbort]. *)
Lemma off_quiet c ev h sh :
  within c sh → spares c h → quiet_rel c sh (off ev h sh) ∧ old_rel c sh (off ev h sh).
Proof.
  intros Hw Hsp.
  assert (old_rel c sh (off ev h sh)) as Ho.
  { intros w Hd. specialize (Hsp w Hd). split; [by rewrite off_promises|]. split.
    - intros a j Hj. by apply off_entry_keep.
    - intros (He&j&Hj). apply off_events_keep; [done|]. right. by exists j, (aw_wrapper w). }
  assert (settled_kept sh (off ev h sh)) as Hk.
  { intros p v. by rewrite off_promises. }
  split; [|done]. split; [|split; [done|split; [apply off_shrinks|]]].
  - apply (within_shrinks c sh); [done|apply off_shrinks|].
    intros w Hd. destruct Hw as (_&_&_&_&Ht). destruct (Ht w Hd) as (_&_&T3).
    by eapply old_rel_waiting.
  - split; [apply off_trace|apply off_aborted].
Qed.

(** [settle] on a promise other than the one followed. *)
Lemma settle_quiet c q v sh :
  within c sh → other_promise c q →
  quiet_rel c sh (settle q v sh) ∧ old_rel c sh (settle q v sh).
Proof.
  intros Hw Hq.
  destruct (settle_pres q v sh) as (Hf&Ha&Htr&Hl&Hk).
  assert (sets (settle q v sh) = sets sh ∧ events (settle q v sh) = events sh) as [Hs He].
  { unfold settle. by destruct (promises sh !! q) as [[]|]. }
  assert (old_rel c sh (settle q v sh)) as Ho.
  { intros w Hd. specialize (Hq w Hd). split; [|split].
    - unfold settle. destruct (promises sh !! q) as [[]|]; try done. simpl.
      by rewrite list_lookup_insert_ne.
    - intros a j. unfold entry. by rewrite Hs.
    - intros [H _]. by rewrite He. }
  split; [|done]. split; [|split; [done|split; [by apply shrinks_same|done]]].
  apply (within_shrinks c sh); [done|by apply shrinks_same|].
  intros w Hd. destruct Hw as (_&_&_&_&Ht). destruct (Ht w Hd) as (_&_&T3).
  by eapply old_rel_waiting.
Qed.

(** A step that changes neither registrations nor promises. *)
Lemma same_regs c sh sh' :
  within c sh → funs sh' = funs sh → sets sh' = sets sh → events sh' = events sh →
  promises sh' = promises sh →
  within c sh' ∧ settled_kept sh sh' ∧ shrinks sh sh' ∧ old_rel c sh sh'.
Proof.
  intros Hw Hf Hs He Hp.
  assert (old_rel c sh sh') as Ho.
  { intros w Hd. split; [by rewrite Hp|]. split.
    - intros a j. unfold entry. by rewrite Hs.
    - intros [H _]. by rewrite He. }
  assert (settled_kept sh sh') as Hk by (intros p v; by rewrite Hp).
  split; [|split; [done|split; [by apply shrinks_same|done]]].
  apply (within_shrinks c sh); [done|by apply shrinks_same|].
  intros w Hd. destruct Hw as (_&_&_&_&Ht'). destruct (Ht' w Hd) as (_&_&T3).
  by eapply old_rel_waiting.
Qed.

Lemma same_quiet c sh sh' :
  within c sh → funs sh' = funs sh → sets sh' = sets sh → events sh' = events sh →
  promises sh' = promises sh → trace sh' = trace sh → aborted sh' = aborted sh →
  quiet_rel c sh sh' ∧ old_rel c sh sh'.
Proof.
  intros Hw Hf Hs He Hp Ht Ha.
  destruct (same_regs c sh sh' Hw Hf Hs He Hp) as (?&?&?&?).
  split; [|done]. by split; [|split; [|split]].
Qed.

Lemma older_spares c h : older c h → spares c h.
Proof. intros H w Hw. specialize (H w Hw). unfold aw_wrapper. lia. Qed.

Lemma older_closure K c h cl :
  scene_ok K c → older c h → sc_funs c !! h = Some cl → closure_spares c cl.
Proof.
  intros (_&_&_&Hd) Ho Hl.
  destruct (sc_done c) as [w|] eqn:Hw.
  2:{ assert (∀ x, spares c x) as H1 by (intros x w' Hw'; congruence).
      assert (∀ x, older c x) as H2 by (intros x w' Hw'; congruence).
      assert (∀ x, other_promise c x) as H3 by (intros x w' Hw'; congruence).
      destruct cl; simpl; auto. }
  destruct (Hd w eq_refl) as (F0&HF&Hf&Hn). specialize (Ho w Hw).
  rewrite HF, lookup_app_l in Hl by lia.
  rewrite forallb_forall in Hn. apply list_elem_of_lookup_2, list_elem_of_In, Hn in Hl.
  assert (∀ x, x < length F0 → spares c x) as Hsp.
  { intros x Hx w' Hw'. assert (w' = w) as -> by congruence. unfold aw_wrapper. lia. }
  destruct cl; simpl in *; try done.
  - intros ev h' Hin. rewrite forallb_forall in Hl.
    apply list_elem_of_In, Hl in Hin. apply bool_decide_eq_true in Hin. by apply Hsp.
  - apply bool_decide_eq_true in Hl. intros w' Hw'.
    assert (w' = w) as -> by congruence. lia.
  - repeat (apply andb_true_iff in Hl as [Hl ?%bool_decide_eq_true]).
    apply bool_decide_eq_true in Hl. repeat split; try by apply Hsp.
    intros w' Hw'. assert (w' = w) as -> by congruence. lia.
  - repeat (apply andb_true_iff in Hl as [Hl ?%bool_decide_eq_true]).
    apply bool_decide_eq_true in Hl. repeat split; try by apply Hsp.
    intros w' Hw'. assert (w' = w) as -> by congruence. lia.
  - repeat (apply andb_true_iff in Hl as [Hl ?%bool_decide_eq_true]).
    apply bool_decide_eq_true in Hl. repeat split; try by apply Hsp.
    intros w' Hw'. assert (w' = w) as -> by congruence. lia.
Qed.

Lemma scene_wrapper K c w :
  scene_ok K c → sc_done c = Some w →
  sc_funs c !! aw_wrapper w = Some (FOnceWrapper "abort" (aw_first w + 2))
  ∧ sc_funs c !! (aw_first w + 2)
    = Some (FDoneOnAbort (aw_promise w) (aw_first w) (aw_first w + 1) (aw_first w + 2)).
Proof.
  intros (_&_&_&Hd) Hw. destruct (Hd w Hw) as (F0&HF&Hf&_). unfold aw_wrapper.
  rewrite HF, Hf. split.
  - rewrite lookup_app_r by lia.
    by replace (length F0 + 5 - length F0) with 5 by lia.
  - rewrite lookup_app_r by lia.
    by replace (length F0 + 2 - length F0) with 2 by lia.
Qed.

Lemma scene_fuel K c sh : scene_ok K c → within c sh → fuel_ok K sh = true.
Proof.
  intros (_&HK&HL&_) (Hf&Hl&_). rewrite fuel_ok_lengths, Hf, Hl.
  apply andb_true_iff. split; [by apply bool_decide_eq_true|].
  apply forallb_forall. intros l Hin. apply bool_decide_eq_true.
  rewrite Forall_forall in HL. by apply HL, list_elem_of_In.
Qed.

(** ** Handlers that never call [abort()] *)

Section quiet_handlers.
Context (K : nat) (c : scene) (Hc : scene_ok K c).

Lemma cleanup_quiet a b d sh :
  within c sh → spares c a → spares c b → spares c d →
  quiet_rel c sh (cleanup a b d sh) ∧ old_rel c sh (cleanup a b d sh).
Proof.
  intros Hw Ha Hb Hd. unfold cleanup.
  destruct (off_quiet c "end" a sh Hw Ha) as [Q1 O1].
  destruct (off_quiet c "error" b _ (proj1 Q1) Hb) as [Q2 O2].
  destruct (off_quiet c "abort" d _ (proj1 Q2) Hd) as [Q3 O3].
  split.
  - eapply quiet_rel_trans; [|done]. by eapply quiet_rel_trans.
  - eapply old_rel_trans; [|done]. by eapply old_rel_trans.
Qed.

Lemma run_body_quiet da body : ∀ sh,
  within c sh → forallb tame_action body = true →
  (∀ ev h, UOff ev h ∈ body → spares c h) →
  ∃ t sh', run_body da body sh = Some (t, sh') ∧ quiet_rel c sh sh' ∧ old_rel c sh sh'.
Proof.
  induction body as [|a body IH]; intros sh Hw Ht Hsp; simpl in *.
  - exists false, sh. split; [done|]. split; [by apply quiet_rel_refl|apply old_rel_refl].
  - apply andb_true_iff in Ht as [Ha Hb]. destruct a as [ev h|ev h| |]; try done.
    + destruct (off_quiet c ev h sh Hw) as [Q1 O1]; [apply (Hsp ev h); by left|].
      destruct (IH (off ev h sh) (proj1 Q1) Hb) as (t&sh'&E&Q2&O2).
      { intros ev' h' Hin. apply (Hsp ev' h'). by right. }
      exists t, sh'. split; [done|]. split; [by eapply quiet_rel_trans|by eapply old_rel_trans].
    + exists true, sh. split; [done|]. split; [by apply quiet_rel_refl|apply old_rel_refl].
Qed.

(** A function older than the [done()] call that never calls [abort()]. *)
Lemma call_quiet d : ∀ k h n sh,
  within c sh → abort_free (sc_funs c) k h = true → k ≤ n → older c h →
  ∃ t sh', call n h d sh = Some (t, sh') ∧ quiet_rel c sh sh' ∧ old_rel c sh sh'.
Proof.
  induction k as [|k IH]; intros h n sh Hw Haf Hn Ho; [done|].
  destruct n as [|n]; [lia|]. cbn [call]. simpl in Haf.
  pose proof Hw as (Hf&_). rewrite Hf.
  destruct (sc_funs c !! h) as [cl|] eqn:Hl.
  2:{ exists true, sh. split; [done|]. split; [by apply quiet_rel_refl|apply old_rel_refl]. }
  pose proof (older_closure K c h cl Hc Ho Hl) as Hsp.
  destruct cl as [body|ev inner|q a b e|q a b e|q a b e|i|i|i|i]; simpl in Hsp.
  - by apply run_body_quiet.
  - destruct (off_quiet c ev h sh Hw (older_spares c h Ho)) as [Q1 O1].
    destruct (IH inner n (off ev h sh) (proj1 Q1) Haf) as (t&sh'&E&Q2&O2); [lia|done|].
    exists t, sh'. split; [done|]. split; [by eapply quiet_rel_trans|by eapply old_rel_trans].
  - destruct Hsp as (Hq&Ha&Hb&He).
    destruct (cleanup_quiet a b e sh Hw Ha Hb He) as [Q1 O1].
    destruct (settle_quiet c q Resolved _ (proj1 Q1) Hq) as [Q2 O2].
    eexists _, _. split; [done|]. split; [by eapply quiet_rel_trans|by eapply old_rel_trans].
  - destruct Hsp as (Hq&Ha&Hb&He).
    destruct (cleanup_quiet a b e sh Hw Ha Hb He) as [Q1 O1].
    destruct (settle_quiet c q (Rejected d) _ (proj1 Q1) Hq) as [Q2 O2].
    eexists _, _. split; [done|]. split; [by eapply quiet_rel_trans|by eapply old_rel_trans].
  - destruct Hsp as (Hq&Ha&Hb&He).
    destruct (cleanup_quiet a b e sh Hw Ha Hb He) as [Q1 O1].
    destruct (settle_quiet c q (Rejected (PError APIUserAbortError)) _ (proj1 Q1) Hq)
      as [Q2 O2].
    eexists _, _. split; [done|]. split; [by eapply quiet_rel_trans|by eapply old_rel_trans].
  - eexists _, _. split; [done|]. by apply same_quiet.
  - eexists _, _. split; [done|]. by apply same_quiet.
  - eexists _, _. split; [done|]. by apply same_quiet.
  - eexists _, _. split; [done|]. by apply same_quiet.
Qed.

(** The wrapper of [onAbort]: it removes itself and rejects the promise. *)
Lemma call_wrapper d w n sh :
  within c sh → sc_done c = Some w → 2 ≤ n →
  ∃ sh', call n (aw_wrapper w) d sh = Some (false, sh') ∧ quiet_rel c sh sh'
         ∧ rejected (aw_promise w) sh'.
Proof.
  intros Hw Hd Hn. destruct n as [|[|n]]; try lia.
  destruct (scene_wrapper K c w Hc Hd) as [Hwr Hin].
  pose proof Hw as (Hf&_&_&_&Ht). destruct (Ht w Hd) as (_&_&T3).
  set (s1 := off "abort" (aw_wrapper w) sh).
  set (s2 := cleanup (aw_first w) (aw_first w + 1) (aw_first w + 2) s1).
  set (s3 := settle (aw_promise w) (Rejected (PError APIUserAbortError)) s2).
  assert (call (S (S n)) (aw_wrapper w) d sh = Some (false, s3)) as E.
  { cbn [call]. rewrite Hf, Hwr. cbn [call]. by rewrite off_funs, Hf, Hin. }
  assert (shrinks sh s2 ∧ promises s2 = promises sh ∧ trace s2 = trace sh
          ∧ aborted s2 = aborted sh) as (S2&P2&T2&A2).
  { unfold s2, s1, cleanup. split; [|by rewrite !off_promises, !off_trace, !off_aborted].
    repeat (eapply shrinks_trans; [|apply off_shrinks]). apply shrinks_refl. }
  destruct (settle_pres (aw_promise w) (Rejected (PError APIUserAbortError)) s2)
    as (Hf3&Ha3&Htr3&Hl3&Hk3).
  assert (sets s3 = sets s2 ∧ events s3 = events s2) as [Hs3 He3].
  { unfold s3, settle. by destruct (promises s2 !! aw_promise w) as [[]|]. }
  assert (rejected (aw_promise w) s3) as Hr.
  { unfold rejected, s3, settle. rewrite P2.
    destruct T3 as [[Hp _]|Hp]; rewrite Hp; simpl; [|by rewrite P2].
    apply list_lookup_insert_eq. rewrite P2. by eapply lookup_lt_Some. }
  assert (shrinks sh s3) as S3.
  { eapply shrinks_trans; [done|]. by apply shrinks_same. }
  exists s3. split; [done|]. split; [|done].
  split; [|split; [|split; [done|split; [rewrite <- T2; apply Htr3|rewrite <- A2; apply Ha3]]]].
  - apply (within_shrinks c sh); [done..|]. intros w' Hd'.
    assert (w' = w) as -> by congruence. by right.
  - intros p v Hp Hv. apply Hk3; [|done]. by rewrite P2.
Qed.

(** The loop of [emit] over a [Set] whose handlers never call [abort()]. *)
Lemma emit_loop_quiet ev d a : ∀ m i n sh,
  within c sh → a ∈ sc_quiet c →
  (∀ w, sc_done c = Some w → a ≠ aw_end w ∧ a ≠ aw_error w) →
  length (default [] (sets sh !! a)) ≤ i + m → m + length (sc_funs c) + 1 ≤ n →
  ∃ sh', emit_loop n ev d a i sh = Some sh' ∧ quiet_rel c sh sh'
         ∧ (∀ w, sc_done c = Some w →
              (a ≠ aw_abort w →
                 promises sh' !! aw_promise w = promises sh !! aw_promise w
                 ∧ (armed w sh → armed w sh'))
              ∧ (rejected (aw_promise w) sh
                 ∨ (∃ j, i ≤ j ∧ entry sh a j = Some (Some (aw_wrapper w))) →
                 rejected (aw_promise w) sh')).
Proof.
  induction m as [|m IH]; intros i n sh Hw Ha Hne Hlen Hn;
    (destruct n as [|n]; [lia|]); cbn [emit_loop]; rewrite entry_default.
  - assert (entry sh a i = None) as ->.
    { rewrite <- entry_default. apply lookup_ge_None_2. lia. }
    exists sh. split; [done|]. split; [by apply quiet_rel_refl|].
    intros w Hd. split; [done|]. intros [Hr|(j&Hj&He)]; [done|].
    rewrite <- entry_default in He. apply lookup_lt_Some in He. lia.
  - destruct (entry sh a i) as [[h|]|] eqn:Hi.
    + (* a handler *)
      assert (∀ s, within c s → quiet_rel c s (log_call h d s) ∧ old_rel c s (log_call h d s))
        as Hlog by (intros s Hs; by apply same_quiet).
      destruct (Hlog sh Hw) as [Q0 O0].
      assert (∃ t sh1, call n h d (log_call h d sh) = Some (t, sh1)
                       ∧ quiet_rel c sh sh1
                       ∧ (∀ w, sc_done c = Some w →
                            (h ≠ aw_wrapper w →
                               promises sh1 !! aw_promise w = promises sh !! aw_promise w
                               ∧ (∀ a' j, entry sh a' j = Some (Some (aw_wrapper w)) →
                                          entry sh1 a' j = Some (Some (aw_wrapper w)))
                               ∧ (armed w sh → events sh1 !! "abort" = Some (aw_abort w)))
                            ∧ (h = aw_wrapper w → rejected (aw_promise w) sh1)))
        as (t&sh1&E&Q1&T1).
      { assert ((∃ w, sc_done c = Some w ∧ h = aw_wrapper w)
                ∨ ¬ (∃ w, sc_done c = Some w ∧ h = aw_wrapper w)) as [(w&Hd&->)|Hold].
        { destruct (sc_done c) as [w|]; [|right; by intros (w'&?&?)].
          destruct (decide (h = aw_wrapper w)) as [->|]; [left; by exists w|].
          right. intros (w'&?&?). by simplify_eq. }
        - destruct (call_wrapper d w n (log_call (aw_wrapper w) d sh) (proj1 Q0) Hd)
            as (sh1&E&Q1&R1).
          { destruct (scene_wrapper K c w Hc Hd) as [Hwr%lookup_lt_Some _].
            unfold aw_wrapper in Hwr. lia. }
          exists false, sh1. split; [done|].
          split; [exact (quiet_rel_trans _ _ _ _ Q0 Q1)|].
          intros w' Hd'. assert (w' = w) as -> by congruence. by split.
        - assert (older c h) as Ho.
          { intros w Hd. destruct (decide (h < aw_first w)) as [|Hge]; [done|].
            destruct Hw as (_&_&_&_&Ht). destruct (Ht w Hd) as (T1&_).
            specialize (T1 a i h Hi ltac:(lia)). destruct (Hne w Hd) as [? ?].
            repeat (apply elem_of_cons in T1 as [T1|T1]; [simplify_eq|]).
            + destruct Hold. exists w. by split.
            + by apply elem_of_nil in T1. }
          destruct (call_quiet d (length (sc_funs c)) h n (log_call h d sh) (proj1 Q0))
            as (t&sh1&E&Q1&O1); [|lia|done|].
          { destruct Hw as (_&_&_&Haf&_). by eapply Haf. }
          exists t, sh1. split; [done|].
          split; [exact (quiet_rel_trans _ _ _ _ Q0 Q1)|].
          intros w Hd. split; [|intros ->; destruct Hold; by exists w].
          intros _. destruct (old_rel_trans _ _ _ _ O0 O1 w Hd) as (?&?&?). done. }
      rewrite E. cbn [mbind option_bind].
      set (sh2 := if t then console_error ev sh1 else sh1).
      assert (quiet_rel c sh1 sh2 ∧ old_rel c sh1 sh2) as [Q2 O2].
      { unfold sh2. destruct t; [|split; [apply quiet_rel_refl, Q1|apply old_rel_refl]].
        apply same_quiet; [apply Q1|done..]. }
      destruct (IH (S i) n sh2 (proj1 Q2) Ha Hne) as (sh3&E3&Q3&T3).
      { destruct Q1 as (_&_&(_&Hl1&_)&_), Q2 as (_&_&(_&Hl2&_)&_).
        rewrite (lengths_lookup _ (sets sh) a) by congruence. lia. }
      { lia. }
      exists sh3. split; [done|].
      split; [eapply quiet_rel_trans; [|done]; by eapply quiet_rel_trans|].
      intros w Hd. destruct (T1 w Hd) as [T1a T1b], (T3 w Hd) as [T3a T3b].
      destruct (O2 w Hd) as (P2&E2&A2). split.
      * intros Hna. assert (h ≠ aw_wrapper w) as Hh.
        { intros ->. destruct Hw as (_&_&_&_&Ht). destruct (Ht w Hd) as (T&_).
          specialize (T a i _ Hi ltac:(unfold aw_wrapper; lia)).
          destruct (Hne w Hd) as [? ?]. unfold aw_wrapper in T.
          repeat (apply elem_of_cons in T as [T|T]; [simplify_eq; try lia|]).
          by apply elem_of_nil in T. }
        destruct (T1a Hh) as (P1&E1&A1), (T3a Hna) as (P3&A3).
        split; [congruence|]. intros Harm. apply A3.
        split; [apply A2; split; [by apply A1|]|].
        -- destruct Harm as (_&j&Hj). exists j. by apply E1.
        -- destruct Harm as (_&j&Hj). exists j. by apply E2, E1.
      * intros Hpre. apply T3b.
        assert (settled_kept sh sh2) as Hk.
        { eapply settled_kept_trans; [apply Q1|apply Q2]. }
        destruct Hpre as [Hr|(j&Hj&He)]; [left; by eapply rejected_kept|].
        destruct (decide (h = aw_wrapper w)) as [->|Hh].
        -- left. eapply rejected_kept; [apply Q2|]. by apply T1b.
        -- right. exists j. destruct (T1a Hh) as (_&E1&_).
           split; [|by apply E2, E1].
           destruct (decide (j = i)) as [->|]; [congruence|lia].
    + (* an entry that was deleted *)
      destruct (IH (S i) n sh Hw Ha Hne) as (sh3&E3&Q3&T3); [lia..|].
      exists sh3. split; [done|]. split; [done|].
      intros w Hd. destruct (T3 w Hd) as [T3a T3b]. split; [done|].
      intros [Hr|(j&Hj&He)]; apply T3b; [by left|right]. exists j. split; [|done].
      destruct (decide (j = i)) as [->|]; [congruence|lia].
    + exists sh. split; [done|]. split; [by apply quiet_rel_refl|].
      intros w Hd. split; [done|]. intros [Hr|(j&Hj&He)]; [done|].
      rewrite <- entry_default in He, Hi. apply lookup_lt_Some in He.
      apply lookup_ge_None in Hi. lia.
Qed.

(** [emit] of an event whose handlers never call [abort()]. *)
Lemma emit_quiet n ev d sh :
  within c sh → ev ∈ ["abort"; "chunk"] → K ≤ n →
  ∃ b sh', emit n ev d sh = Some (b, sh')
           ∧ within c sh' ∧ settled_kept sh sh' ∧ shrinks sh sh'
           ∧ trace sh' = trace sh ++ [(ev, d)] ∧ aborted sh' = aborted sh
           ∧ (∀ w, sc_done c = Some w →
                (ev = "chunk" →
                   promises sh' !! aw_promise w = promises sh !! aw_promise w
                   ∧ (armed w sh → armed w sh'))
                ∧ (ev = "abort" → rejected (aw_promise w) sh')).
Proof.
  intros Hw Hev Hn. pose proof (scene_fuel K c sh Hc Hw) as Hok.
  pose proof (fuel_ok_funs _ _ Hok) as HK.
  destruct n as [|n]; [lia|]. cbn [emit].
  destruct (same_regs c sh (log_emit ev d sh) Hw) as (W0&K0&S0&O0); [done..|].
  change (events (log_emit ev d sh)) with (events sh).
  change (sets (log_emit ev d sh)) with (sets sh).
  assert (∀ w, sc_done c = Some w → ev = "abort" → ¬ armed w sh →
               rejected (aw_promise w) (log_emit ev d sh)) as Hrej.
  { intros w Hd _ Hna. destruct Hw as (_&_&_&_&Ht). destruct (Ht w Hd) as (_&_&[[_ ?]|?]); done. }
  assert (∀ w, sc_done c = Some w → ev = "chunk" →
               promises (log_emit ev d sh) !! aw_promise w = promises sh !! aw_promise w
               ∧ (armed w sh → armed w (log_emit ev d sh))) as Hsame by done.
  destruct (events sh !! ev) as [a|] eqn:He.
  2:{ eexists _, _. do 6 (split; [done|]). intros w Hd. split; [by apply Hsame|].
      intros ->. apply Hrej; [done..|]. intros [? _]. congruence. }
  case_decide as Hsz.
  { eexists _, _. do 6 (split; [done|]). intros w Hd. split; [by apply Hsame|].
    { intros ->. apply Hrej; [done..|]. intros (Ha&j&Hj).
      assert (a = aw_abort w) as -> by congruence. unfold entry in Hj.
      destruct (sets sh !! aw_abort w) as [s|]; [|done]. by eapply set_size_entry. } }
  assert (∀ w, sc_done c = Some w → a ≠ aw_end w ∧ a ≠ aw_error w ∧ (a = aw_abort w → ev = "abort"))
    as Hne.
  { intros w Hd. destruct Hw as (_&_&_&_&Ht). destruct (Ht w Hd) as (_&T2&_).
    destruct (T2 ev a He) as (T2a&T2b&T2c).
    repeat split; [intros E; apply T2a in E|intros E; apply T2b in E|done]; subst ev;
      repeat (apply elem_of_cons in Hev as [?|Hev]; [done|]); by apply elem_of_nil in Hev. }
  destruct (emit_loop_quiet ev d a (length (default [] (sets sh !! a))) 0 n
              (log_emit ev d sh) W0) as (sh'&E&Q&T).
  { destruct Hw as (_&_&Hq&_). by eapply Hq. }
  { intros w Hd. destruct (Hne w Hd) as (?&?&_). done. }
  { simpl. lia. }
  { pose proof (fuel_ok_set _ _ a Hok). destruct Hw as (Hf&_). rewrite <- Hf. lia. }
  rewrite E. cbn [mbind option_bind]. exists true, sh'. split; [done|].
  destruct Q as (W1&K1&S1&T1&A1).
  split; [done|]. split; [exact (settled_kept_trans _ _ _ K0 K1)|].
  split; [exact (shrinks_trans _ _ _ S0 S1)|]. split; [by rewrite T1|].
  split; [by rewrite A1|].
  intros w Hd. destruct (T w Hd) as [Ta Tb], (Hne w Hd) as (_&_&Hab). split.
  - intros ->. apply Ta. intros Haa. by apply Hab in Haa.
  - intros ->. apply Tb. destruct Hw as (_&_&_&_&Ht). destruct (Ht w Hd) as (_&_&[[_ Harm]|Hr]).
    + right. destruct Harm as (Hea&j&Hj). assert (a = aw_abort w) as -> by congruence.
      exists j. split; [lia|done].
    + left. by apply K0.
Qed.

(** [abort()]: the signal is set, ["abort"] is emitted once, and the
    promise of the [done()] call is rejected. *)
Lemma abort_step n sh :
  within c sh → K ≤ n →
  ∃ sh', Common.abort n sh = Some sh'
         ∧ within c sh' ∧ settled_kept sh sh' ∧ shrinks sh sh'
         ∧ trace sh' = trace sh ++ [abort_entry] ∧ aborted sh' = true
         ∧ (∀ w, sc_done c = Some w → rejected (aw_promise w) sh').
Proof.
  intros Hw Hn.
  destruct (same_regs c sh (set_aborted true sh) Hw) as (W0&K0&S0&O0); [done..|].
  destruct (emit_quiet n "abort" PUndefined (set_aborted true sh) W0) as (b&sh'&E&W&K1&S1&T1&A1&R1);
    [by left|done|].
  exists sh'. unfold Common.abort. rewrite E. split; [done|]. split; [done|].
  split; [exact (settled_kept_trans _ _ _ K0 K1)|].
  split; [exact (shrinks_trans _ _ _ S0 S1)|].
  split; [done|]. split; [done|]. intros w Hd. by apply (R1 w Hd).
Qed.

End quiet_handlers.

(** ** Calm handlers *)

Lemma calm_from_lookup fs : ∀ k i cl,
  calm_from k fs = true → fs !! i = Some cl → calm_closure (k + i) cl = true.
Proof.
  induction fs as [|c0 fs IH]; intros k i cl Ht Hl; [done|].
  simpl in Ht. apply andb_true_iff in Ht as [Hc0 Hr].
  destruct i as [|i]; simpl in Hl.
  - injection Hl as <-. by rewrite Nat.add_0_r.
  - replace (k + S i) with (S k + i) by lia. by apply IH.
Qed.

Lemma aborts_only_aborted sh sh' : aborts_only sh sh' → aborted sh = true → aborted sh' = true.
Proof. intros (k&_&->) ->. done. Qed.

Lemma aborts_only_trans sh1 sh2 sh3 :
  aborts_only sh1 sh2 → aborts_only sh2 sh3 → aborts_only sh1 sh3.
Proof.
  intros (k1&T1&A1) (k2&T2&A2). exists (k1 + k2).
  rewrite T2, T1, A2, A1, replicate_add, <- app_assoc, <- orb_assoc. split; [done|].
  f_equal. destruct k1, k2; simpl; try done; by rewrite ?bool_decide_eq_true_2 by lia.
Qed.

Lemma quiet_calm c sh sh' : quiet_rel c sh sh' → old_rel c sh sh' → calm_rel c sh sh'.
Proof.
  intros (W&Kp&S&T&A) O. split; [done|]. split; [done|]. split; [done|]. split.
  - exists 0. simpl. by rewrite app_nil_r, orb_false_r.
  - intros w Hd. destruct (O w Hd) as (P&_). split.
    + intros _. split; [done|]. by eapply old_rel_armed.
    + rewrite A. intros Ha Hr. eapply rejected_kept; [done|]. by apply Hr.
Qed.

Lemma calm_rel_refl c sh : within c sh → calm_rel c sh sh.
Proof. intros H. apply quiet_calm; [by apply quiet_rel_refl|apply old_rel_refl]. Qed.

Lemma calm_rel_trans c sh1 sh2 sh3 :
  calm_rel c sh1 sh2 → calm_rel c sh2 sh3 → calm_rel c sh1 sh3.
Proof.
  intros (_&K1&S1&A1&T1) (W&K2&S2&A2&T2). split; [done|].
  split; [exact (settled_kept_trans _ _ _ K1 K2)|].
  split; [exact (shrinks_trans _ _ _ S1 S2)|].
  split; [exact (aborts_only_trans _ _ _ A1 A2)|].
  intros w Hd. destruct (T1 w Hd) as [T1a T1b], (T2 w Hd) as [T2a T2b]. split.
  - intros H3. assert (aborted sh2 = false) as H2.
    { destruct (aborted sh2) eqn:E; [|done]. by rewrite (aborts_only_aborted _ _ A2 E) in H3. }
    destruct (T1a H2) as [P1 R1], (T2a H3) as [P2 R2]. split; [congruence|auto].
  - intros H3 Hr. apply T2b; [done|]. intros H2. by apply T1b.
Qed.

Section calm_handlers.
Context (K : nat) (c : scene) (Hc : scene_ok K c).

Lemma abort_calm n sh :
  within c sh → K ≤ n → ∃ sh', Common.abort n sh = Some sh' ∧ calm_rel c sh sh' ∧ aborted sh' = true.
Proof.
  intros Hw Hn. destruct (abort_step K c Hc n sh Hw Hn) as (sh'&E&W&Kp&S&T&A&R).
  exists sh'. split; [done|]. split; [|done]. split; [done|]. split; [done|]. split; [done|].
  split.
  - exists 1. simpl. split; [done|]. by rewrite A, orb_true_r.
  - intros w Hd. split; [by rewrite A|]. intros _ _. by apply R.
Qed.

Lemma run_body_calm da body : ∀ sh,
  (∀ s, within c s → ∃ s', da s = Some s' ∧ calm_rel c s s') →
  within c sh → forallb calm_action body = true →
  (∀ ev h, UOff ev h ∈ body → spares c h) →
  ∃ t sh', run_body da body sh = Some (t, sh') ∧ calm_rel c sh sh'.
Proof.
  induction body as [|a body IH]; intros sh Hda Hw Ht Hsp; simpl in *.
  - exists false, sh. split; [done|]. by apply calm_rel_refl.
  - apply andb_true_iff in Ht as [Ha Hb]. destruct a as [ev h|ev h| |]; try done.
    + destruct (off_quiet c ev h sh Hw) as [Q1 O1]; [apply (Hsp ev h); by left|].
      destruct (IH (off ev h sh) Hda (proj1 Q1) Hb) as (t&sh'&E&C2).
      { intros ev' h' Hin. apply (Hsp ev' h'). by right. }
      exists t, sh'. split; [done|].
      exact (calm_rel_trans _ _ _ _ (quiet_calm _ _ _ Q1 O1) C2).
    + exists true, sh. split; [done|]. by apply calm_rel_refl.
    + destruct (Hda sh Hw) as (s1&E1&C1). rewrite E1. cbn [mbind option_bind].
      destruct (IH s1 Hda (proj1 C1) Hb) as (t&sh'&E&C2).
      { intros ev' h' Hin. apply (Hsp ev' h'). by right. }
      exists t, sh'. split; [done|]. exact (calm_rel_trans _ _ _ _ C1 C2).
Qed.

(** A function older than the [done()] call. *)
Lemma call_calm d : ∀ h n sh,
  within c sh → older c h → K + h < n →
  ∃ t sh', call n h d sh = Some (t, sh') ∧ calm_rel c sh sh'.
Proof.
  intros h. induction (lt_wf h) as [h _ IH]. intros n sh Hw Ho Hn.
  destruct (sc_funs c !! h) as [cl|] eqn:Hl.
  2:{ destruct (call_quiet K c Hc d 1 h n sh Hw) as (t&sh'&E&Q&O); [|lia|done|].
      { simpl. by rewrite Hl. }
      exists t, sh'. split; [done|]. by apply quiet_calm. }
  pose proof (older_closure K c h cl Hc Ho Hl) as Hsp.
  pose proof Hc as (Hcalm&_).
  pose proof (calm_from_lookup _ 0 h cl Hcalm Hl) as Hcl.
  destruct cl as [body|ev inner| | | | | | |].
  - destruct n as [|n]; [lia|]. cbn [call]. destruct Hw as (Hf&Hw'). rewrite Hf, Hl.
    apply run_body_calm; [|by split|done..].
    intros s Hs. destruct (abort_calm n s Hs) as (s'&E&C&_); [lia|]. by exists s'.
  - destruct n as [|n]; [lia|]. cbn [call]. pose proof Hw as (Hf&_). rewrite Hf, Hl.
    simpl in Hcl, Hsp. apply bool_decide_eq_true in Hcl.
    destruct (off_quiet c ev h sh Hw (older_spares c h Ho)) as [Q1 O1].
    destruct (IH inner Hcl n (off ev h sh) (proj1 Q1) Hsp) as (t&sh'&E&C2); [lia|].
    exists t, sh'. split; [done|].
    exact (calm_rel_trans _ _ _ _ (quiet_calm _ _ _ Q1 O1) C2).
  - destruct (call_quiet K c Hc d 1 h n sh Hw) as (t&sh'&E&Q&O); [|lia|done|].
    { simpl. by rewrite Hl. }
    exists t, sh'. split; [done|]. by apply quiet_calm.
  - destruct (call_quiet K c Hc d 1 h n sh Hw) as (t&sh'&E&Q&O); [|lia|done|].
    { simpl. by rewrite Hl. }
    exists t, sh'. split; [done|]. by apply quiet_calm.
  - destruct (call_quiet K c Hc d 1 h n sh Hw) as (t&sh'&E&Q&O); [|lia|done|].
    { simpl. by rewrite Hl. }
    exists t, sh'. split; [done|]. by apply quiet_calm.
  - destruct (call_quiet K c Hc d 1 h n sh Hw) as (t&sh'&E&Q&O); [|lia|done|].
    { simpl. by rewrite Hl. }
    exists t, sh'. split; [done|]. by apply quiet_calm.
  - destruct (call_quiet K c Hc d 1 h n sh Hw) as (t&sh'&E&Q&O); [|lia|done|].
    { simpl. by rewrite Hl. }
    exists t, sh'. split; [done|]. by apply quiet_calm.
  - destruct (call_quiet K c Hc d 1 h n sh Hw) as (t&sh'&E&Q&O); [|lia|done|].
    { simpl. by rewrite Hl. }
    exists t, sh'. split; [done|]. by apply quiet_calm.
  - destruct (call_quiet K c Hc d 1 h n sh Hw) as (t&sh'&E&Q&O); [|lia|done|].
    { simpl. by rewrite Hl. }
    exists t, sh'. split; [done|]. by apply quiet_calm.
Qed.

(** The loop of [emit] over a [Set] that holds none of the callbacks of
    the [done()] call. *)
Lemma emit_loop_calm ev d a : ∀ m i n sh,
  within c sh →
  (∀ w, sc_done c = Some w → a ≠ aw_end w ∧ a ≠ aw_error w ∧ a ≠ aw_abort w) →
  length (default [] (sets sh !! a)) ≤ i + m → m + length (sc_funs c) + K + 1 ≤ n →
  ∃ sh', emit_loop n ev d a i sh = Some sh' ∧ calm_rel c sh sh'.
Proof.
  induction m as [|m IH]; intros i n sh Hw Hne Hlen Hn;
    (destruct n as [|n]; [lia|]); cbn [emit_loop]; rewrite entry_default.
  - assert (entry sh a i = None) as ->.
    { rewrite <- entry_default. apply lookup_ge_None_2. lia. }
    exists sh. split; [done|]. by apply calm_rel_refl.
  - destruct (entry sh a i) as [[h|]|] eqn:Hi.
    + destruct (same_quiet c sh (log_call h d sh) Hw) as [Q0 O0]; [done..|].
      assert (older c h) as Ho.
      { intros w Hd. destruct (decide (h < aw_first w)) as [|Hge]; [done|].
        destruct Hw as (_&_&_&_&Ht). destruct (Ht w Hd) as (T1&_).
        specialize (T1 a i h Hi ltac:(lia)). destruct (Hne w Hd) as (?&?&?).
        repeat (apply elem_of_cons in T1 as [T1|T1]; [simplify_eq|]).
        by apply elem_of_nil in T1. }
      assert (∃ t sh1, call n h d (log_call h d sh) = Some (t, sh1)
                       ∧ calm_rel c (log_call h d sh) sh1) as (t&sh1&E&C1).
      { destruct (sc_funs c !! h) as [cl|] eqn:Hl.
        - apply call_calm; [apply Q0|done|]. apply lookup_lt_Some in Hl. lia.
        - destruct (call_quiet K c Hc d 1 h n (log_call h d sh) (proj1 Q0))
            as (t&sh1&E&Q&O); [|lia|done|].
          { simpl. by rewrite Hl. }
          exists t, sh1. split; [done|]. by apply quiet_calm. }
      rewrite E. cbn [mbind option_bind].
      set (sh2 := if t then console_error ev sh1 else sh1).
      assert (calm_rel c sh1 sh2) as C2.
      { unfold sh2. destruct t; [|apply calm_rel_refl, C1].
        destruct (same_quiet c sh1 (console_error ev sh1) (proj1 C1)) as [Q O]; [done..|].
        by apply quiet_calm. }
      destruct (IH (S i) n sh2 (proj1 C2) Hne) as (sh3&E3&C3).
      { destruct Q0 as (_&_&(_&Hl0&_)&_), C1 as (_&_&(_&Hl1&_)&_), C2 as (_&_&(_&Hl2&_)&_).
        rewrite (lengths_lookup _ (sets sh) a) by congruence. lia. }
      { lia. }
      exists sh3. split; [done|].
      eapply calm_rel_trans; [|exact C3]. eapply calm_rel_trans; [|exact C2].
      exact (calm_rel_trans _ _ _ _ (quiet_calm _ _ _ Q0 O0) C1).
    + apply IH; [done..|lia|lia].
    + exists sh. split; [done|]. by apply calm_rel_refl.
Qed.

End calm_handlers.

(** With fuel [2 * K], [emit] returns. While a [done()] call is followed,
    the events are those of frames that do not fail, and ["abort"], which
    is emitted only once the signal is set. *)
Lemma emit_calm K c n ev d sh :
  scene_ok K c → within c sh → 2 * K ≤ n →
  (∀ w, sc_done c = Some w →
     (ev ∉ ["end"; "error"]) ∧ (ev = "abort" → aborted sh = true)) →
  ∃ b sh', emit n ev d sh = Some (b, sh') ∧ emit_rel c ev d sh sh'.
Proof.
  intros Hc Hw Hn Hev. pose proof (scene_fuel K c sh Hc Hw) as Hok.
  pose proof (fuel_ok_funs _ _ Hok) as HK.
  destruct (decide (ev ∈ ["abort"; "chunk"])) as [Hq|Hq].
  - destruct (emit_quiet K c Hc n ev d sh Hw Hq) as (b&sh'&E&W&Kp&S&T&A&R); [lia|].
    exists b, sh'. split; [done|]. split; [done|]. split; [done|]. split.
    + exists 0. simpl. by rewrite orb_false_r.
    + intros w Hd. destruct (R w Hd) as [Rc Ra], (Hev w Hd) as [_ Hab]. split.
      * intros Hf. destruct (decide (ev = "chunk")) as [->|Hne]; [by apply Rc|].
        assert (ev = "abort") as ->.
        { repeat (apply elem_of_cons in Hq as [?|Hq]; [done|]). by apply elem_of_nil in Hq. }
        rewrite A, Hab in Hf; done.
      * intros Ht Hr. destruct (decide (ev = "abort")) as [->|Hne]; [by apply Ra|].
        eapply rejected_kept; [done|]. apply Hr. by rewrite <- A.
  - destruct n as [|n]; [lia|]. cbn [emit].
    destruct (same_regs c sh (log_emit ev d sh) Hw) as (W0&K0&S0&O0); [done..|].
    change (events (log_emit ev d sh)) with (events sh).
    change (sets (log_emit ev d sh)) with (sets sh).
    assert (emit_rel c ev d sh (log_emit ev d sh)) as Hrefl.
    { split; [done|]. split; [done|]. split.
      - exists 0. simpl. by rewrite orb_false_r.
      - intros w Hd. destruct (O0 w Hd) as (P&_). split.
        + intros _. split; [done|]. by eapply old_rel_armed.
        + intros Ha Hr. eapply rejected_kept; [done|]. by apply Hr. }
    destruct (events sh !! ev) as [a|] eqn:He; [|by eexists _, _].
    case_decide as Hsz; [by eexists _, _|].
    destruct (emit_loop_calm K c Hc ev d a (length (default [] (sets sh !! a))) 0 n
                (log_emit ev d sh) W0) as (sh'&E&C).
    { intros w Hd. destruct Hw as (_&_&_&_&Ht). destruct (Ht w Hd) as (_&T2&_).
      destruct (T2 ev a He) as (T2a&T2b&T2c), (Hev w Hd) as [Hee _].
      repeat split; intros Ea.
      - apply T2a in Ea. subst ev. apply Hee. by left.
      - apply T2b in Ea. subst ev. apply Hee. right. by left.
      - apply T2c in Ea. subst ev. apply Hq. by left. }
    { simpl. lia. }
    { pose proof (fuel_ok_set _ _ a Hok). destruct Hw as (Hf&_). rewrite <- Hf. lia. }
    rewrite E. cbn [mbind option_bind]. exists true, sh'. split; [done|].
    destruct C as (W1&K1&S1&(k&T1&A1)&R1).
    split; [done|]. split; [exact (settled_kept_trans _ _ _ K0 K1)|]. split.
    + exists k. split; [rewrite T1; simpl; by rewrite <- app_assoc|].
      split; [done|]. by intros ?.
    + intros w Hd. destruct (R1 w Hd) as [Ra Rb], (O0 w Hd) as (P0&_). split.
      * intros Hf. destruct (Ra Hf) as [P A]. split; [congruence|].
        intros Harm. apply A. by eapply old_rel_armed.
      * intros Ht Hr. apply Rb; [done|]. intros Ha.
        eapply rejected_kept; [done|]. by apply Hr.
Qed.

(** ** Registration, entry by entry *)

Lemma on_unfold ev h sh :
  ∃ a ss,
    events (on ev h sh) !! ev = Some a
    ∧ sets (on ev h sh) = alter (λ s, set_add s h) a ss
    ∧ ((events sh !! ev = Some a ∧ ss = sets sh ∧ events (on ev h sh) = events sh)
       ∨ (events sh !! ev = None ∧ a = length (sets sh) ∧ ss = sets sh ++ [[]]
          ∧ events (on ev h sh) = <[ev := a]> (events sh)))
    ∧ funs (on ev h sh) = funs sh ∧ promises (on ev h sh) = promises sh
    ∧ trace (on ev h sh) = trace sh ∧ aborted (on ev h sh) = aborted sh.
Proof.
  unfold on. destruct (events sh !! ev) as [a|] eqn:He.
  - rewrite He. exists a, (sets sh). simpl. split; [done|]. split; [done|].
    split; [by left|done].
  - simpl. rewrite lookup_insert_eq. exists (length (sets sh)), (sets sh ++ [[]]). simpl.
    split; [apply lookup_insert_eq|]. split; [done|]. split; [by right|done].
Qed.

Lemma set_add_lookup (s : js_set) h j e :
  set_add s h !! j = Some e → s !! j = Some e ∨ e = Some h.
Proof.
  unfold set_add. destruct (set_has s h); [by left|].
  intros [?|[_ H]]%lookup_app_Some; [by left|right].
  destruct (j - length s) as [|k]; simpl in H; [by simplify_eq|done].
Qed.

Lemma set_add_keep (s : js_set) h j e : s !! j = Some e → set_add s h !! j = Some e.
Proof.
  intros H. unfold set_add. destruct (set_has s h); [done|].
  by apply lookup_app_l_Some.
Qed.

Lemma set_add_has (s : js_set) h : ∃ j, set_add s h !! j = Some (Some h).
Proof.
  unfold set_add. destruct (set_has s h) eqn:E.
  - apply bool_decide_eq_true in E. by apply list_elem_of_lookup_1.
  - exists (length s). by rewrite lookup_app_r, Nat.sub_diag by done.
Qed.

Lemma on_entry_inv ev h sh a j h' :
  entry (on ev h sh) a j = Some (Some h') →
  entry sh a j = Some (Some h') ∨ (events (on ev h sh) !! ev = Some a ∧ h' = h).
Proof.
  destruct (on_unfold ev h sh) as (a0&ss&He&Hs&Hc&_). unfold entry. rewrite Hs.
  assert (∀ a', ss !! a' ≫= (.!! j) = Some (Some h') → sets sh !! a' ≫= (.!! j) = Some (Some h'))
    as Hss.
  { intros a'. destruct Hc as [(_&->&_)|(_&_&->&_)]; [done|].
    intros H. destruct (sets sh !! a') as [s|] eqn:E.
    - by rewrite (lookup_app_l_Some _ _ _ _ E) in H.
    - apply lookup_ge_None in E. rewrite lookup_app_r in H by done.
      destruct (a' - length (sets sh)) as [|k]; simpl in H; [|by destruct k].
      by rewrite lookup_nil in H. }
  destruct (decide (a = a0)) as [->|Hne].
  - rewrite list_lookup_alter_eq. destruct (ss !! a0) as [s|] eqn:E; simpl; [|done].
    intros [H| [= ->]]%set_add_lookup; [left|by right].
    apply Hss. by rewrite E.
  - rewrite list_lookup_alter_ne by done. intros H. left. by apply Hss.
Qed.

Lemma on_entry_keep ev h sh a j e :
  entry sh a j = Some e → entry (on ev h sh) a j = Some e.
Proof.
  destruct (on_unfold ev h sh) as (a0&ss&He&Hs&Hc&_). unfold entry. rewrite Hs.
  intros H. destruct (sets sh !! a) as [s|] eqn:E; simpl in H; [|done].
  assert (ss !! a = Some s) as Hss.
  { destruct Hc as [(_&->&_)|(_&_&->&_)]; [done|]. by apply lookup_app_l_Some. }
  destruct (decide (a = a0)) as [->|Hne].
  - rewrite list_lookup_alter_eq, Hss. simpl. by apply set_add_keep.
  - by rewrite list_lookup_alter_ne, Hss.
Qed.

Lemma on_entry_new ev h sh :
  emitter_ok sh →
  ∃ a j, events (on ev h sh) !! ev = Some a ∧ entry (on ev h sh) a j = Some (Some h).
Proof.
  intros (Hb&_). destruct (on_unfold ev h sh) as (a0&ss&He&Hs&Hc&_).
  assert (∃ s, ss !! a0 = Some s) as (s&Hss).
  { destruct Hc as [(Hev&->&_)|(_&->&->&_)].
    - apply lookup_lt_is_Some_2. by eapply Hb.
    - exists []. by rewrite lookup_app_r, Nat.sub_diag by done. }
  destruct (set_add_has s h) as (j&Hj). exists a0, j. split; [done|].
  unfold entry. by rewrite Hs, list_lookup_alter_eq, Hss.
Qed.

Lemma on_events_other ev h sh ev' :
  ev' ≠ ev → events (on ev h sh) !! ev' = events sh !! ev'.
Proof.
  intros Hne. destruct (on_unfold ev h sh) as (a0&ss&_&_&Hc&_).
  destruct Hc as [(_&_&->)|(_&_&_&->)]; [done|]. by rewrite lookup_insert_ne.
Qed.

Lemma on_events_keep ev h sh ev' a :
  events sh !! ev' = Some a → events (on ev h sh) !! ev' = Some a.
Proof.
  intros H. destruct (decide (ev' = ev)) as [->|Hne]; [|by rewrite on_events_other].
  destruct (on_unfold ev h sh) as (a0&ss&_&_&Hc&_).
  destruct Hc as [(_&_&->)|(Hn&_)]; [done|congruence].
Qed.

Lemma on_events_fresh ev h sh a :
  events sh !! ev = None → events (on ev h sh) !! ev = Some a → a = length (sets sh).
Proof.
  intros Hn. destruct (on_unfold ev h sh) as (a0&ss&He&_&Hc&_).
  destruct Hc as [(?&_)|(_&->&_)]; congruence.
Qed.

Lemma on_sets_length ev h sh : length (sets sh) ≤ length (sets (on ev h sh)).
Proof.
  destruct (on_unfold ev h sh) as (a0&ss&_&->&Hc&_). rewrite length_alter.
  destruct Hc as [(_&->&_)|(_&_&->&_)]; [done|]. rewrite length_app. lia.
Qed.

Lemma set_add_length (s : js_set) h : length (set_add s h) ≤ length s + 1.
Proof. unfold set_add. destruct (set_has s h); [lia|]. rewrite length_app. simpl. lia. Qed.

Lemma on_fuel_ok m ev h sh : fuel_ok m sh = true → fuel_ok (m + 1) (on ev h sh) = true.
Proof.
  intros Hok. pose proof (fuel_ok_funs _ _ Hok) as HF.
  destruct (on_unfold ev h sh) as (a0&ss&_&Hs&Hc&Hf&_).
  unfold fuel_ok. rewrite Hf, Hs. apply andb_true_iff.
  split; [apply bool_decide_eq_true; lia|].
  apply forallb_forall. intros s [a Ha]%list_elem_of_In%list_elem_of_lookup_1.
  apply bool_decide_eq_true.
  assert (∀ a' s', ss !! a' = Some s' → length s' + length (funs sh) + 2 ≤ m) as Hss.
  { intros a' s' H. destruct Hc as [(_&->&_)|(_&_&->&_)].
    - pose proof (fuel_ok_set _ _ a' Hok) as Hl. by rewrite H in Hl.
    - apply lookup_app_Some in H as [H|[_ H]].
      + pose proof (fuel_ok_set _ _ a' Hok) as Hl. by rewrite H in Hl.
      + destruct (a' - length (sets sh)) as [|k]; simpl in H; [|by destruct k].
        simplify_eq. simpl. lia. }
  destruct (decide (a = a0)) as [->|Hne].
  - rewrite list_lookup_alter_eq in Ha. destruct (ss !! a0) as [s0|] eqn:E; [|done].
    simpl in Ha. simplify_eq. pose proof (set_add_length s0 h). specialize (Hss _ _ E). lia.
  - rewrite list_lookup_alter_ne in Ha by done. specialize (Hss _ _ Ha). lia.
Qed.

Lemma funs_fuel_ok m cl sh :
  fuel_ok m sh = true → fuel_ok (m + 1) (upd_funs (λ fs, fs ++ [cl]) sh) = true.
Proof.
  intros Hok. pose proof (fuel_ok_funs _ _ Hok) as HF.
  unfold fuel_ok. simpl. rewrite length_app. simpl. apply andb_true_iff.
  split; [apply bool_decide_eq_true; lia|].
  apply forallb_forall. intros s [a Ha]%list_elem_of_In%list_elem_of_lookup_1.
  apply bool_decide_eq_true. pose proof (fuel_ok_set _ _ a Hok) as Hl.
  rewrite Ha in Hl. simpl in Hl. lia.
Qed.

(** What [once(ev, h)] registers. *)
Lemma once_spec m ev h sh :
  emitter_ok sh → fuel_ok m sh = true →
  let sh' := once ev h sh in
  emitter_ok sh' ∧ fuel_ok (m + 2) sh' = true
  ∧ funs sh' = funs sh ++ [FOnceWrapper ev h] ∧ promises sh' = promises sh
  ∧ trace sh' = trace sh ∧ aborted sh' = aborted sh
  ∧ length (sets sh) ≤ length (sets sh')
  ∧ (∃ a j, events sh' !! ev = Some a ∧ entry sh' a j = Some (Some (length (funs sh))))
  ∧ (∀ ev', ev' ≠ ev → events sh' !! ev' = events sh !! ev')
  ∧ (∀ ev' a, events sh !! ev' = Some a → events sh' !! ev' = Some a)
  ∧ (∀ a, events sh !! ev = None → events sh' !! ev = Some a → a = length (sets sh))
  ∧ (∀ a j e, entry sh a j = Some e → entry sh' a j = Some e)
  ∧ (∀ a j h', entry sh' a j = Some (Some h') →
       entry sh a j = Some (Some h') ∨ (events sh' !! ev = Some a ∧ h' = length (funs sh))).
Proof.
  intros Hok Hfuel sh'. unfold sh', once.
  set (s0 := upd_funs (λ fs, fs ++ [FOnceWrapper ev h]) sh).
  assert (emitter_ok s0) as Hok0 by done.
  destruct (on_unfold ev (length (funs sh)) s0) as (_&_&_&_&_&Hf&Hp&Ht&Ha).
  split; [by apply emitter_ok_on|].
  split; [replace (m + 2) with (m + 1 + 1) by lia; by apply on_fuel_ok, funs_fuel_ok|].
  split; [done|]. split; [done|]. split; [done|]. split; [done|].
  split; [apply (on_sets_length ev _ s0)|].
  split; [by apply on_entry_new|].
  split; [intros ev' Hne; by apply (on_events_other ev _ s0)|].
  split; [intros ev' a; apply (on_events_keep ev _ s0)|].
  split; [intros a; apply (on_events_fresh ev _ s0)|].
  split; [intros a j e; apply (on_entry_keep ev _ s0)|].
  intros a j h'. apply (on_entry_inv ev _ s0).
Qed.

Lemma funs3_fuel_ok m c1 c2 c3 sh :
  fuel_ok m sh = true → fuel_ok (m + 3) (upd_funs (λ fs, fs ++ [c1; c2; c3]) sh) = true.
Proof.
  intros Hok. pose proof (fuel_ok_funs _ _ Hok) as HF.
  unfold fuel_ok. simpl. rewrite length_app. simpl. apply andb_true_iff.
  split; [apply bool_decide_eq_true; lia|].
  apply forallb_forall. intros s [a Ha]%list_elem_of_In%list_elem_of_lookup_1.
  apply bool_decide_eq_true. pose proof (fuel_ok_set _ _ a Hok) as Hl.
  rewrite Ha in Hl. simpl in Hl. lia.
Qed.

(** What [done()] registers on a runner that is not complete. *)
Lemma done_spec m sh :
  emitter_ok sh → fuel_ok m sh = true →
  let f := length (funs sh) in
  let p := length (promises sh) in
  let sh1 := (Common.done false sh).2 in
  (Common.done false sh).1 = p
  ∧ emitter_ok sh1 ∧ fuel_ok (m + 9) sh1 = true
  ∧ funs sh1 = funs sh ++ done_closures p f ∧ promises sh1 = promises sh ++ [Pending]
  ∧ trace sh1 = trace sh ∧ aborted sh1 = aborted sh
  ∧ ∃ ae ar aa,
      events sh1 !! "end" = Some ae ∧ events sh1 !! "error" = Some ar
      ∧ events sh1 !! "abort" = Some aa
      ∧ (∃ j, entry sh1 aa j = Some (Some (f + 5)))
      ∧ (∀ ev a, events sh !! ev = Some a → events sh1 !! ev = Some a)
      ∧ (∀ ev a, events sh !! ev = None → events sh1 !! ev = Some a → length (sets sh) ≤ a)
      ∧ (∀ a j h, entry sh1 a j = Some (Some h) →
           entry sh a j = Some (Some h)
           ∨ (a, h) ∈ [(ae, f + 3); (ar, f + 4); (aa, f + 5)]).
Proof.
  intros Hok Hfuel f p sh1. unfold sh1, Common.done. cbn [fst snd].
  set (s0 := upd_funs _ (upd_promises _ sh)).
  assert (emitter_ok s0) as Hok0 by done.
  assert (fuel_ok (m + 3) s0 = true) as Hf0.
  { apply (funs3_fuel_ok m _ _ _ (upd_promises (λ ps, ps ++ [Pending]) sh)). done. }
  assert (length (funs s0) = f + 3) as Hl0.
  { unfold s0. simpl. rewrite length_app. simpl. done. }
  change (length (funs (upd_promises (λ ps, ps ++ [Pending]) sh))) with f.
  destruct (once_spec (m + 3) "end" f s0 Hok0 Hf0)
    as (Hok1&Hf1&F1&P1&T1&A1&L1&(ae&je&Ee1&Ne1)&O1&K1&N1&Ke1&I1).
  set (s1 := once "end" f s0) in *.
  assert (length (funs s1) = f + 4) as Hl1.
  { rewrite F1, length_app, Hl0. simpl. lia. }
  destruct (once_spec (m + 3 + 2) "error" (S f) s1 Hok1 Hf1)
    as (Hok2&Hf2&F2&P2&T2&A2&L2&(ar&jr&Ee2&Ne2)&O2&K2&N2&Ke2&I2).
  set (s2 := once "error" (S f) s1) in *.
  assert (length (funs s2) = f + 5) as Hl2.
  { rewrite F2, length_app, Hl1. simpl. lia. }
  destruct (once_spec (m + 3 + 2 + 2) "abort" (S (S f)) s2 Hok2 Hf2)
    as (Hok3&Hf3&F3&P3&T3&A3&L3&(aa&ja&Ee3&Ne3)&O3&K3&N3&Ke3&I3).
  set (s3 := once "abort" (S (S f)) s2) in *.
  split; [done|]. split; [done|].
  split; [by replace (m + 9) with (m + 3 + 2 + 2 + 2) by lia|].
  split.
  { rewrite F3, F2, F1. unfold s0, done_closures. simpl. rewrite <- !app_assoc. simpl.
    by replace (f + 1) with (S f) by lia; replace (f + 2) with (S (S f)) by lia. }
  split; [by rewrite P3, P2, P1|]. split; [by rewrite T3, T2, T1|].
  split; [by rewrite A3, A2, A1|].
  exists ae, ar, aa.
  split; [rewrite O3, O2 by done; exact Ee1|]. split; [rewrite O3 by done; exact Ee2|].
  split; [exact Ee3|]. split; [exists ja; by rewrite <- Hl2|].
  split; [intros ev a H; by apply K3, K2, K1|]. split.
  - intros ev a Hn H. change (sets s0) with (sets sh) in L1.
    destruct (decide (ev = "abort")) as [->|Hna].
    { apply N3 in H; [subst a; lia|]. by rewrite O2, O1. }
    rewrite O3 in H by done.
    destruct (decide (ev = "error")) as [->|Hnr].
    { apply N2 in H; [subst a; lia|]. by rewrite O1. }
    rewrite O2 in H by done.
    destruct (decide (ev = "end")) as [->|Hne].
    { apply N1 in H; [subst a; done|]. done. }
    rewrite O1 in H by done. change (events s0) with (events sh) in H. congruence.
  - intros a j h H. apply I3 in H as [H|[H ->]].
    2:{ right. rewrite Hl2. assert (a = aa) as -> by congruence. do 2 right. left. }
    apply I2 in H as [H|[H ->]].
    2:{ right. rewrite Hl1. assert (a = ar) as -> by congruence. right. left. }
    apply I1 in H as [H|[H ->]]; [by left|].
    right. rewrite Hl0. assert (a = ae) as -> by congruence. left.
Qed.

Lemma abort_free_event_entry ev sh a j h :
  abort_free_event ev sh = true → events sh !! ev = Some a →
  entry sh a j = Some (Some h) → abort_free (funs sh) (length (funs sh)) h = true.
Proof.
  unfold abort_free_event, handlers_of, entry. intros H He Hj. rewrite He in H. simpl in H.
  destruct (sets sh !! a) as [s|]; [|done]. simpl in *.
  rewrite forallb_forall in H.
  apply list_elem_of_lookup_2, list_elem_of_In, H in Hj. done.
Qed.

Lemma scene_of_quiet sh w ev a :
  ev ∈ ["abort"; "chunk"] → events sh !! ev = Some a → a ∈ sc_quiet (scene_of sh w).
Proof.
  intros Hev He. unfold scene_of, sc_quiet. apply list_elem_of_omap. by exists ev.
Qed.

Lemma scene_of_quiet_inv sh w a :
  a ∈ sc_quiet (scene_of sh w) → ∃ ev, ev ∈ ["abort"; "chunk"] ∧ events sh !! ev = Some a.
Proof.
  unfold scene_of, sc_quiet. intros (ev&Hev&He)%list_elem_of_omap. by exists ev.
Qed.

Lemma fuel_ok_scene K sh w :
  fuel_ok K sh = true →
  length (sc_funs (scene_of sh w)) + 2 ≤ K
  ∧ Forall (λ l, l + length (sc_funs (scene_of sh w)) + 2 ≤ K) (sc_lengths (scene_of sh w)).
Proof.
  intros Hok. split; [by apply fuel_ok_funs|]. simpl.
  apply Forall_forall. intros l (s&->&[a Ha]%list_elem_of_lookup_1)%list_elem_of_fmap.
  pose proof (fuel_ok_set _ _ a Hok) as Hl. by rewrite Ha in Hl.
Qed.

(** An emitter on which no [done()] call is followed. *)
Lemma scene_plain K sh :
  calm sh = true → fuel_ok K sh = true →
  abort_free_event "abort" sh = true → abort_free_event "chunk" sh = true →
  scene_ok K (scene_of sh None) ∧ within (scene_of sh None) sh.
Proof.
  intros Hcalm Hok Ha Hch. split.
  - split; [done|]. destruct (fuel_ok_scene K sh None Hok) as [? ?].
    split; [done|]. by split.
  - split; [done|]. split; [done|]. split; [by apply scene_of_quiet|]. split; [|done].
    intros a j h (ev&Hev&He)%scene_of_quiet_inv Hj.
    apply elem_of_cons in Hev as [->|Hev];
      [exact (abort_free_event_entry _ _ _ _ _ Ha He Hj)|].
    apply elem_of_cons in Hev as [->|Hev];
      [exact (abort_free_event_entry _ _ _ _ _ Hch He Hj)|].
    by apply elem_of_nil in Hev.
Qed.

Lemma calm_from_app l1 : ∀ k l2,
  calm_from k (l1 ++ l2) = calm_from k l1 && calm_from (k + length l1) l2.
Proof.
  induction l1 as [|c l1 IH]; intros k l2; simpl.
  - by rewrite Nat.add_0_r.
  - rewrite IH, andb_assoc. by replace (S k + length l1) with (k + S (length l1)) by lia.
Qed.

Lemma abort_free_app F0 X p :
  forallb (names_below (length F0) p) F0 = true →
  ∀ k h, h < length F0 → abort_free F0 k h = true →
         abort_free (F0 ++ X) (k + length X) h = true.
Proof.
  intros Hn. induction k as [|k IH]; intros h Hh Ha; [done|].
  simpl in *. destruct (lookup_lt_is_Some_2 F0 h Hh) as [cl Hl].
  rewrite Hl in Ha. rewrite (lookup_app_l_Some _ _ _ _ Hl).
  destruct cl; try done. apply IH; [|done].
  rewrite forallb_forall in Hn. apply list_elem_of_lookup_2, list_elem_of_In, Hn in Hl.
  simpl in Hl. by apply bool_decide_eq_true in Hl.
Qed.

Lemma closed_store_entry sh a j h :
  closed_store sh = true → entry sh a j = Some (Some h) → h < length (funs sh).
Proof.
  unfold closed_store, entry. intros [_ H]%andb_true_iff Hj.
  destruct (sets sh !! a) as [s|] eqn:Hs; [|done]. simpl in Hj.
  rewrite forallb_forall in H. apply list_elem_of_lookup_2, list_elem_of_In, H in Hs.
  rewrite forallb_forall in Hs. apply list_elem_of_lookup_2, list_elem_of_In, Hs in Hj.
  by apply bool_decide_eq_true in Hj.
Qed.

(** The scene of an emitter [sh1] that differs from [sh] by the promise,
    the closures and the registrations of one [done()] call. *)
Lemma scene_awaited_of m sh sh1 :
  calm sh = true → closed_store sh = true →
  abort_free_event "abort" sh = true → abort_free_event "chunk" sh = true →
  let f := length (funs sh) in
  let p := length (promises sh) in
  emitter_ok sh1 → fuel_ok (m + 9) sh1 = true →
  funs sh1 = funs sh ++ done_closures p f → promises sh1 = promises sh ++ [Pending] →
  trace sh1 = trace sh → aborted sh1 = aborted sh →
  ∀ ae ar aa,
    events sh1 !! "end" = Some ae → events sh1 !! "error" = Some ar →
    events sh1 !! "abort" = Some aa →
    (∃ j, entry sh1 aa j = Some (Some (f + 5))) →
    (∀ ev a, events sh !! ev = Some a → events sh1 !! ev = Some a) →
    (∀ ev a, events sh !! ev = None → events sh1 !! ev = Some a → length (sets sh) ≤ a) →
    (∀ a j h, entry sh1 a j = Some (Some h) →
       entry sh a j = Some (Some h)
       ∨ (a, h) ∈ [(ae, f + 3); (ar, f + 4); (aa, f + 5)]) →
    ∃ w, aw_promise w = p
         ∧ scene_ok (m + 9) (scene_of sh1 (Some w)) ∧ within (scene_of sh1 (Some w)) sh1
         ∧ waiting w sh1 ∧ trace sh1 = trace sh ∧ aborted sh1 = aborted sh.
Proof.
  intros Hcalm Hcl Hab Hch f0 p0 Hok1 Hf1 HF HP HT HA ae ar aa Ee Er Ea (ja&Hja) Hkeep Hfresh Hent.
  unfold f0, p0 in *. clear f0 p0.
  set (f := length (funs sh)) in *. set (p := length (promises sh)) in *.
  set (w := AwaitedDone p f ae ar aa).
  assert (waiting w sh1) as Hwait.
  { split; [|split; [done|by exists ja]].
    simpl. by rewrite HP, lookup_app_r, Nat.sub_diag by done. }
  pose proof Hcl as [Hnames _]%andb_true_iff. fold f p in Hnames.
  exists w. split; [reflexivity|]. split; [|split; [|done]].
  - split.
    { simpl. rewrite HF, calm_from_app. apply andb_true_iff. split; [done|].
      simpl. rewrite !andb_true_r. fold f.
      repeat (apply andb_true_iff; split); apply bool_decide_eq_true; lia. }
    destruct (fuel_ok_scene (m + 9) sh1 (Some w) Hf1) as [? ?].
    split; [done|]. split; [done|].
    intros w' [= <-]. exists (funs sh). by split; [|split].
  - split; [done|]. split; [done|]. split; [by apply scene_of_quiet|]. split.
    + intros a j h (ev&Hev&He)%scene_of_quiet_inv Hj. simpl. rewrite HF.
      replace (length (funs sh ++ done_closures p f)) with (f + 6)
        by (rewrite length_app; simpl; lia).
      destruct (Hent a j h Hj) as [Hold|Hnew].
      * replace (f + 6) with (length (funs sh) + length (done_closures p f)) by (simpl; lia).
        apply (abort_free_app _ _ p); [done|by eapply closed_store_entry|].
        assert (events sh !! ev = Some a) as He0.
        { destruct (events sh !! ev) as [a'|] eqn:E.
          - apply Hkeep in E. congruence.
          - specialize (Hfresh ev a E He). unfold entry in Hold.
            destruct (sets sh !! a) eqn:Es; [|done]. apply lookup_lt_Some in Es. lia. }
        apply elem_of_cons in Hev as [->|Hev];
          [exact (abort_free_event_entry _ _ _ _ _ Hab He0 Hold)|].
        apply elem_of_cons in Hev as [->|Hev];
          [exact (abort_free_event_entry _ _ _ _ _ Hch He0 Hold)|].
        by apply elem_of_nil in Hev.
      * replace (f + 6) with (S (S (f + 4))) by lia.
        repeat (apply elem_of_cons in Hnew as [[= -> ->]|Hnew];
                [cbn [abort_free]; rewrite lookup_app_r by (fold f; lia);
                 replace (f + 3 - length (funs sh)) with 3 by (fold f; lia);
                 replace (f + 4 - length (funs sh)) with 4 by (fold f; lia);
                 replace (f + 5 - length (funs sh)) with 5 by (fold f; lia);
                 cbn [done_closures lookup list_lookup];
                 rewrite lookup_app_r by (fold f; lia);
                 replace (f - length (funs sh)) with 0 by (fold f; lia);
                 replace (f + 1 - length (funs sh)) with 1 by (fold f; lia);
                 replace (f + 2 - length (funs sh)) with 2 by (fold f; lia);
                 reflexivity|]).
        by apply elem_of_nil in Hnew.
    + intros w' [= <-]. split; [|split; [|by left]].
      * intros a j h Hj Hge. destruct (Hent a j h Hj) as [Hold|Hnew]; [|done].
        apply (closed_store_entry _ _ _ _ Hcl) in Hold. simpl in Hge. fold f in Hold. lia.
      * destruct Hok1 as (_&Hinj&_). intros ev a He. simpl.
        repeat split; intros ->; by eapply Hinj.
Qed.

(** The scene that [done()] sets up on an emitter whose signal is not
    set. *)
Lemma scene_awaited m sh :
  emitter_ok sh → calm sh = true → closed_store sh = true → fuel_ok m sh = true →
  abort_free_event "abort" sh = true → abort_free_event "chunk" sh = true →
  let sh1 := (Common.done false sh).2 in
  ∃ w, aw_promise w = length (promises sh)
       ∧ (Common.done false sh).1 = length (promises sh)
       ∧ scene_ok (m + 9) (scene_of sh1 (Some w)) ∧ within (scene_of sh1 (Some w)) sh1
       ∧ waiting w sh1 ∧ trace sh1 = trace sh ∧ aborted sh1 = aborted sh.
Proof.
  intros Hok Hcalm Hcl Hfuel Hab Hch sh1.
  destruct (done_spec m sh Hok Hfuel)
    as (Hp&Hok1&Hf1&HF&HP&HT&HA&ae&ar&aa&Ee&Er&Ea&Hja&Hkeep&Hfresh&Hent).
  fold sh1 in Hok1, Hf1, HF, HP, HT, HA, Ee, Er, Ea, Hja, Hkeep, Hfresh, Hent.
  clearbody sh1.
  destruct (scene_awaited_of m sh sh1 Hcalm Hcl Hab Hch Hok1 Hf1 HF HP HT HA
              ae ar aa Ee Er Ea Hja Hkeep Hfresh Hent) as (w&Hw&H).
  exists w. split; [exact Hw|]. split; [exact Hp|]. exact H.
Qed.

Import Chat.

(** ** Traces *)

Lemma has_abort_app tr1 tr2 : has_abort (tr1 ++ tr2) = has_abort tr1 || has_abort tr2.
Proof. apply existsb_app. Qed.

Lemma has_abort_replicate k :
  has_abort (replicate k abort_entry) = bool_decide (0 < k).
Proof.
  by destruct k.
Qed.

Lemma has_abort_elem_of tr : has_abort tr = bool_decide ("abort" ∈ tr.*1).
Proof.
  induction tr as [|e tr IH]; [done|]. cbn [has_abort existsb]. fold (has_abort tr).
  rewrite IH. destruct (decide (e.1 = "abort")) as [He|He].
  - rewrite (bool_decide_eq_true_2 _ He). simpl. symmetry. apply bool_decide_eq_true_2.
    rewrite He. left.
  - rewrite (bool_decide_eq_false_2 _ He). simpl. apply bool_decide_ext.
    rewrite elem_of_cons. split; [by right|]. intros [H|H]; [by destruct He|done].
Qed.

Lemma quiet_after_abort_app tr1 : ∀ a tr2,
  quiet_after_abort a (tr1 ++ tr2)
  = quiet_after_abort a tr1 && quiet_after_abort (a || has_abort tr1) tr2.
Proof.
  induction tr1 as [|e tr1 IH]; intros a tr2; simpl.
  - by rewrite orb_false_r.
  - by rewrite IH, andb_assoc, orb_assoc.
Qed.

Lemma quiet_after_abort_replicate a k :
  quiet_after_abort a (replicate k abort_entry) = true.
Proof.
  revert a. induction k as [|k IH]; intros a; [done|]. simpl.
  rewrite IH. by rewrite andb_false_r.
Qed.

Lemma quiet_after_abort_split a tr tr1 e tr2 :
  quiet_after_abort a tr = true → tr = tr1 ++ e :: tr2 →
  e.1 ∈ ["chunk"; "content.delta"] → a = false ∧ "abort" ∉ tr1.*1.
Proof.
  intros H -> He. rewrite quiet_after_abort_app in H.
  apply andb_true_iff in H as [_ H]. simpl in H.
  apply andb_true_iff in H as [H _]. unfold stream_event in H.
  rewrite (bool_decide_eq_true_2 _ He), andb_true_r in H.
  apply negb_true_iff, orb_false_iff in H as [-> H]. split; [done|].
  rewrite has_abort_elem_of in H. by apply bool_decide_eq_false in H.
Qed.

(** ** The invariant of a run *)

Lemma within_forget c s : within c s → within (forget c) s.
Proof. intros (?&?&?&?&_). by repeat split. Qed.

Lemma scene_ok_forget K c : scene_ok K c → scene_ok K (forget c).
Proof. intros (?&?&?&_). by repeat split. Qed.

Lemma run_inv_start c s :
  within c s → pending_until_abort c s → run_inv c s s.
Proof.
  intros Hw Hp. split; [done|]. split; [apply settled_kept_refl|]. split; [done|].
  exists []. by rewrite app_nil_r, orb_false_r.
Qed.

Ltac not_in_list :=
  let H := fresh "H" in
  intros H; repeat (apply elem_of_cons in H as [H|H]; [done|]); by apply elem_of_nil in H.

Ltac not_stream_event :=
  let H := fresh "H" in intros H; by vm_compute in H.

Ltac event_ok_plain :=
  split; [intros ? _; not_in_list|split; [not_stream_event|by intros ?]].

Section walk.
Context (K n : nat) (c : scene) (Hc : scene_ok K c) (Hn : 2 * K ≤ n) (s0 : shell).

Lemma emit_inv ev d r :
  run_inv c s0 (sh r) → event_ok c ev (sh r) →
  runs (emit n ev d) r
    (λ _ r', run_inv c s0 (sh r') ∧ (ev = "chunk" → aborted (sh r') = aborted (sh r))).
Proof.
  intros (Hw&Hk&Hp&tr&Ht&Ha&Hq) (He1&He2&He3).
  destruct (emit_calm K c n ev d (sh r) Hc Hw Hn) as (b&s'&E&Hw'&Hk'&(k&Ht'&Ha'&Hk0)&Hd).
  { intros w Hd. split; [by eapply He1|done]. }
  exists tt, (set_sh s' r). unfold emit. rewrite E. split; [done|].
  change (sh (set_sh s' r)) with s'. split.
  - split; [done|]. split; [exact (settled_kept_trans _ _ _ Hk Hk')|]. split.
    + intros w Hw0. destruct (Hd w Hw0) as [D1 D2]. destruct (Hp w Hw0) as [P1 P2].
      split.
      * intros Hf. destruct (D1 Hf) as [-> _]. apply P1.
        rewrite Ha' in Hf. by apply orb_false_iff in Hf as [? _].
      * intros Ht1. by apply D2.
    + exists (tr ++ (ev, d) :: replicate k abort_entry).
      split; [by rewrite Ht', Ht, app_assoc|]. split.
      * rewrite Ha', Ha, has_abort_app. simpl. rewrite has_abort_replicate.
        destruct (decide (ev = "abort")) as [Hab|Hab].
        { rewrite (bool_decide_eq_true_2 _ Hab). specialize (He3 Hab).
          rewrite Ha in He3. by rewrite !orb_assoc, He3. }
        rewrite (bool_decide_eq_false_2 _ Hab). simpl. by rewrite orb_assoc.
      * rewrite quiet_after_abort_app, Hq. simpl. rewrite quiet_after_abort_replicate.
        rewrite andb_true_r, <- Ha. apply negb_true_iff.
        destruct (stream_event ev) eqn:Hs; [|by rewrite andb_false_r].
        by rewrite (He2 eq_refl).
  - intros ->. rewrite Ha', Hk0; [by rewrite orb_false_r|right; left].
Qed.

Lemma runs_emit ev d r (Q : unit → runner → Prop) :
  run_inv c s0 (sh r) → event_ok c ev (sh r) →
  (∀ r', run_inv c s0 (sh r') → (ev = "chunk" → aborted (sh r') = aborted (sh r)) →
         Q tt r') →
  runs (emit n ev d) r Q.
Proof.
  intros HI He HQ. eapply runs_mono; [by apply emit_inv|].
  intros [] r' [H1 H2]. by apply HQ.
Qed.

Lemma foldToolCall_inv d r :
  run_inv c s0 (sh r) →
  runs (foldToolCall (emit n) d) r (λ _ r', run_inv c s0 (sh r')).
Proof.
  intros HI. unfold foldToolCall. destruct (tc_index d); [|by apply runs_ret].
  apply runs_bind, runs_gets, runs_bind, runs_when; intros Hx;
    repeat runs_step; (apply runs_emit; [done|event_ok_plain|by intros]).
Qed.

Lemma handleToolCallsDelta_inv ds r :
  run_inv c s0 (sh r) →
  runs (handleToolCallsDelta (emit n) ds) r (λ _ r', run_inv c s0 (sh r')).
Proof.
  intros HI. apply (runs_for_each ds _ (λ r', run_inv c s0 (sh r'))); [|done].
  intros d r' H. by apply foldToolCall_inv.
Qed.

Lemma finish_loop_inv (snapshot : JsObject.t tool_call) l r :
  run_inv c s0 (sh r) →
  runs (for_each l (λ i, match JsObject.get snapshot i with
                         | Some tc =>
                             emit n "tool_calls.function.arguments.done" (PToolDone i tc)
                         | None => mret tt
                         end)) r
       (λ _ r', run_inv c s0 (sh r')).
Proof.
  intros HI. apply (runs_for_each l _ (λ r', run_inv c s0 (sh r'))); [|done].
  intros i r' H. destruct (JsObject.get snapshot i); [|by apply runs_ret].
  apply runs_emit; [done|event_ok_plain|by intros].
Qed.

Lemma onFinishReason_inv r :
  run_inv c s0 (sh r) →
  runs (onFinishReason (emit n)) r (λ _ r', run_inv c s0 (sh r')).
Proof.
  intros HI. unfold onFinishReason. repeat runs_step.
  eapply (runs_mono _ _ _ (λ _ r', run_inv c s0 (sh r'))).
  { apply runs_when; intros Hx; [|done].
    apply runs_emit; [done|event_ok_plain|by intros]. }
  intros [] r1 H1. repeat runs_step. by apply finish_loop_inv.
Qed.

Lemma processFrame_inv frame r :
  run_inv c s0 (sh r) → aborted (sh r) = false →
  sc_done c = None ∨ failing frame = false →
  runs (processFrame (emit n) frame) r (λ _ r', run_inv c s0 (sh r')).
Proof.
  intros HI Ha Hf.
  assert (sc_done c = None → ∀ s, event_ok c "error" s) as Herr.
  { intros Hd s. split; [intros w Hw; congruence|].
    split; [not_stream_event|by intros ?]. }
  destruct frame as [e|chunk]; unfold processFrame.
  - destruct Hf as [Hf|Hf]; [|done]. apply runs_emit; [done|by apply Herr|by intros].
  - apply runs_bind. apply runs_emit; [done| |].
    { split; [intros ? _; not_in_list|]. by split. }
    intros r1 H1 Ha1. specialize (Ha1 eq_refl). rewrite Ha in Ha1.
    destruct (choices chunk) as [cs|] eqn:Hcs.
    2:{ destruct Hf as [Hf|Hf].
        - apply runs_emit; [done|by apply Herr|by intros].
        - simpl in Hf. rewrite Hcs in Hf. by apply bool_decide_eq_false in Hf. }
    apply runs_bind. eapply (runs_mono _ _ _ (λ _ r', run_inv c s0 (sh r'))).
    { apply runs_when; intros Hx; [|done]. repeat runs_step.
      apply runs_emit; [done| |by intros].
      split; [intros ? _; not_in_list|]. by split. }
    intros [] r2 H2. apply runs_bind.
    eapply (runs_mono _ _ _ (λ _ r', run_inv c s0 (sh r'))).
    { destruct (_ ≫= tool_calls); [by apply handleToolCallsDelta_inv|by apply runs_ret]. }
    intros [] r3 H3. apply runs_when; intros Hx; [|done]. by apply onFinishReason_inv.
Qed.

Lemma processStream_step_inv x r :
  run_inv c s0 (sh r) → op_ok c (Pull x) →
  runs (processStream_step (emit n) x) r (λ _ r', run_inv c s0 (sh r')).
Proof.
  intros HI Hx. unfold processStream_step. apply runs_bind, runs_gets.
  destruct (running r); simpl; [|by apply runs_ret].
  destruct x as [frame| |t].
  - apply runs_bind, runs_gets. destruct (aborted (sh r)) eqn:Ha.
    + apply runs_bind. apply runs_emit; [done| |].
      { split; [intros ? _; not_in_list|]. split; [not_stream_event|done]. }
      intros r1 H1 _. by apply runs_modify.
    + apply processFrame_inv; [done..|]. destruct Hx as [Hx|Hx]; [by left|right].
      simpl in Hx. by apply negb_true_iff in Hx.
  - destruct Hx as [Hx|Hx]; [|done].
    apply runs_bind, runs_modify, runs_bind, runs_gets, runs_bind.
    eapply (runs_mono _ _ _ (λ _ r', run_inv c s0 (sh r'))).
    { apply runs_when; intros Hy; [|done]. repeat runs_step.
      apply runs_emit; [done| |by intros].
      split; [intros w Hw; congruence|].
      split; [not_stream_event|by intros ?]. }
    intros [] r1 H1. apply runs_emit; [done| |by intros].
    split; [intros w Hw; congruence|].
    split; [not_stream_event|by intros ?].
  - destruct Hx as [Hx|Hx]; [|done].
    apply runs_bind, runs_modify, runs_bind, runs_gets. simpl.
    destruct (aborted (sh r)) eqn:Ha.
    + apply runs_emit; [done| |by intros].
      split; [intros w Hw; congruence|].
      split; [not_stream_event|done].
    + apply runs_emit; [done| |by intros].
      split; [intros w Hw; congruence|].
      split; [not_stream_event|by intros ?].
Qed.

Lemma abort_inv r :
  run_inv c s0 (sh r) → runs (abort n) r (λ _ r', run_inv c s0 (sh r')).
Proof.
  intros (Hw&Hk&Hp&tr&Ht&Ha&Hq).
  destruct (abort_step K c Hc n (sh r) Hw) as (s'&E&Hw'&Hk'&_&Ht'&Ha'&Hd); [lia|].
  exists tt, (set_sh s' r). unfold abort. rewrite E. split; [done|].
  change (sh (set_sh s' r)) with s'.
  split; [done|]. split; [exact (settled_kept_trans _ _ _ Hk Hk')|]. split.
  - intros w Hw0. split; [congruence|]. intros _. by apply Hd.
  - exists (tr ++ [abort_entry]). split; [by rewrite Ht', Ht, app_assoc|]. split.
    + rewrite Ha', has_abort_app. simpl. by rewrite !orb_true_r.
    + rewrite quiet_after_abort_app, Hq. simpl. by rewrite andb_false_r.
Qed.

Lemma run_ops_inv ops : ∀ r,
  run_inv c s0 (sh r) → Forall (op_ok c) ops →
  runs (run_ops n ops) r (λ _ r', run_inv c s0 (sh r')).
Proof.
  induction ops as [|o ops IH]; intros r HI Hops; [by apply runs_ret|].
  apply Forall_cons in Hops as [Ho Hops]. unfold run_ops. simpl. apply runs_bind.
  eapply (runs_mono _ _ _ (λ _ r', run_inv c s0 (sh r'))).
  - destruct o as [x|]; [by apply processStream_step_inv|by apply abort_inv].
  - intros [] r1 H1. by apply IH.
Qed.

End walk.

(** C5, for listeners of ["chunk"] that do not call [abort()]. Among
    listeners that register no listener (they may remove listeners, throw
    and call [abort()], those of ["chunk"] and ["abort"] excepted for
    [abort()]), whatever the response delivers and whenever [abort()] is
    called, by the consumer between two turns of the loop or by a
    listener, the runner emits no ["chunk"] and no ["content.delta"] after
    an ["abort"] (none at all if the signal was set from the start), and
    the signal ends up set exactly if it was set or ["abort"] was emitted.
    The promise of a [done()] call made before the signal is set is pending
    as long as the stream neither ends nor fails and the signal is not
    set, is rejected with [APIUserAbortError] once it is, and keeps that
    rejection whatever follows. *)
Theorem abort_is_final n m r ops before after :
  calm (sh r) = true →
  abort_free_event "chunk" (sh r) = true → abort_free_event "abort" (sh r) = true →
  fuel_ok m (sh r) = true → 2 * (m + 9) ≤ n →
  forallb stream_goes_on before = true →
  (∃ r' tr,
     run_ops n ops r = Some (tt, r')
     ∧ trace (sh r') = trace (sh r) ++ tr
     ∧ aborted (sh r') = aborted (sh r) || bool_decide ("abort" ∈ tr.*1)
     ∧ ∀ tr1 e tr2, tr = tr1 ++ e :: tr2 → e.1 ∈ ["chunk"; "content.delta"] →
         aborted (sh r) = false ∧ "abort" ∉ tr1.*1)
  ∧ (emitter_ok (sh r) → closed_store (sh r) = true →
     isComplete r = false → aborted (sh r) = false →
     ∃ p r1 r2 r3,
       done r = Some (p, r1)
       ∧ promises (sh r) !! p = None
       ∧ run_ops n before r1 = Some (tt, r2)
       ∧ promises (sh r2) !! p
         = Some (if aborted (sh r2) then Rejected (PError APIUserAbortError) else Pending)
       ∧ run_ops n after r2 = Some (tt, r3)
       ∧ (aborted (sh r2) = true →
          promises (sh r3) !! p = Some (Rejected (PError APIUserAbortError)))).
Proof.
  intros Hcalm Hch Hab Hfuel Hn Hbefore. split.
  - destruct (scene_plain m (sh r) Hcalm Hfuel Hab Hch) as [Hc Hw].
    destruct (run_ops_inv m n _ Hc ltac:(lia) (sh r) ops r) as ([]&r'&E&_&_&_&tr&Ht&Ha&Hq).
    { apply run_inv_start; [done|]. by intros w. }
    { apply Forall_forall. intros o _. by left. }
    exists r', tr. split; [done|]. split; [done|].
    split; [by rewrite Ha, has_abort_elem_of|].
    intros tr1 e tr2. by apply quiet_after_abort_split.
  - intros Hok Hcl Hic Ha0.
    destruct (scene_awaited m (sh r) Hok Hcalm Hcl Hfuel Hab Hch)
      as (w&Hwp&Hp&Hc&Hw&(Hpend&_)&_&Ha1).
    destruct (Common.done false (sh r)) as [p s1] eqn:Edone. cbn [fst snd] in *.
    subst p. set (p := length (promises (sh r))) in *.
    exists p, (set_sh s1 r). rewrite Ha0 in Ha1.
    destruct (run_ops_inv (m + 9) n _ Hc ltac:(lia) s1 before (set_sh s1 r))
      as ([]&r2&E2&Hw2&_&Hp2&_).
    { apply run_inv_start; [done|]. intros w' Hw'. cbn [scene_of sc_done] in Hw'.
      injection Hw' as <-. split; [intros _; exact Hpend|intros Ht; simpl in Ht; congruence]. }
    { apply Forall_forall. intros o Ho. right. rewrite forallb_forall in Hbefore.
      by apply Hbefore, list_elem_of_In. }
    destruct (run_ops_inv (m + 9) n _ (scene_ok_forget _ _ Hc) ltac:(lia) (sh r2) after r2)
      as ([]&r3&E3&_&Hk3&_).
    { apply run_inv_start; [by apply within_forget|]. by intros w'. }
    { apply Forall_forall. intros o _. by left. }
    exists r2, r3. split; [unfold done; by rewrite Hic, Edone|].
    split; [apply lookup_ge_None; unfold p; lia|].
    split; [done|]. destruct (Hp2 w eq_refl) as [P1 P2]. rewrite Hwp in P1, P2.
    split; [destruct (aborted (sh r2)); [by apply P2|by apply P1]|].
    split; [done|]. intros Ha2. apply Hk3; [by apply P2|done].
Qed.

(** The statement above for a runner whose ["content.delta"] listener calls
    [abort()]: on three pulls, and with [done()] called before the first
    of them. *)
Lemma abort_is_final_witness :
  (∃ r' tr,
     run_ops 26 [Pull (Frame (content_frame (Some "Hello") None));
                 Pull (Frame (content_frame (Some " world") (Some "stop")));
                 Pull StreamEnd] aborting_listener_runner = Some (tt, r')
     ∧ trace (sh r') = trace (sh aborting_listener_runner) ++ tr
     ∧ aborted (sh r')
       = aborted (sh aborting_listener_runner) || bool_decide ("abort" ∈ tr.*1)
     ∧ ∀ tr1 e tr2, tr = tr1 ++ e :: tr2 → e.1 ∈ ["chunk"; "content.delta"] →
         aborted (sh aborting_listener_runner) = false ∧ "abort" ∉ tr1.*1)
  ∧ (∃ p r1 r2 r3,
       done aborting_listener_runner = Some (p, r1)
       ∧ promises (sh aborting_listener_runner) !! p = None
       ∧ run_ops 26 [Pull (Frame (content_frame (Some "Hello") None))] r1 = Some (tt, r2)
       ∧ promises (sh r2) !! p
         = Some (if aborted (sh r2) then Rejected (PError APIUserAbortError) else Pending)
       ∧ run_ops 26 [Pull (Frame (content_frame (Some " world") (Some "stop")));
                     Pull StreamEnd] r2 = Some (tt, r3)
       ∧ (aborted (sh r2) = true →
          promises (sh r3) !! p = Some (Rejected (PError APIUserAbortError)))).
Proof.
  destruct (abort_is_final 26 4 aborting_listener_runner
              [Pull (Frame (content_frame (Some "Hello") None));
               Pull (Frame (content_frame (Some " world") (Some "stop")));
               Pull StreamEnd]
              [Pull (Frame (content_frame (Some "Hello") None))]
              [Pull (Frame (content_frame (Some " world") (Some "stop")));
               Pull StreamEnd]) as [H1 H2].
  - vm_compute. reflexivity.
  - vm_compute. reflexivity.
  - vm_compute. reflexivity.
  - vm_compute. reflexivity.
  - lia.
  - vm_compute. reflexivity.
  - split; [exact H1|]. apply H2.
    + apply emitter_ok_on. exact emitter_ok_new.
    + vm_compute. reflexivity.
    + reflexivity.
    + reflexivity.
Defined.

(** What that run looks like: the listener sets the signal during the
    first frame, the second pull emits ["abort"] and ends
    [processStream]. *)
Lemma abort_inside_delta_listener_run :
  ∃ r',
    run_ops 26 [Pull (Frame (content_frame (Some "Hello") None));
                Pull (Frame (content_frame (Some " world") (Some "stop")));
                Pull StreamEnd] aborting_listener_runner = Some (tt, r')
    ∧ (trace (sh r')).*1 = ["chunk"; "content.delta"; "abort"; "abort"].
Proof. eexists. split; [by vm_compute|]. by vm_compute. Qed.

(** ** A listener of ["abort"] that calls [abort()] *)

(** [abort()] emits ["abort"], so such a listener re-enters itself without
    end: no fuel is enough. *)
Lemma abort_listener_calling_abort n : ∀ d s,
  events s !! "abort" = Some 0 → sets s = [[Some 0]] → funs s = [FUser [UAbort]] →
  Emitter.emit n "abort" d s = None
  ∧ Emitter.emit_loop n "abort" d 0 0 s = None
  ∧ Emitter.call n 0 d s = None.
Proof.
  induction n as [|n IH]; intros d s He Hs Hf; [done|].
  split; [|split].
  - cbn [Emitter.emit]. change (events (log_emit "abort" d s)) with (events s).
    change (sets (log_emit "abort" d s)) with (sets s). rewrite He, Hs.
    change (set_size (default [] ([[Some 0]] !! 0))) with 1.
    destruct (decide (1 = 0)) as [?|_]; [lia|].
    destruct (IH d (log_emit "abort" d s) He Hs Hf) as (_&->&_). done.
  - cbn [Emitter.emit_loop]. rewrite Hs.
    change (default [] ([[Some 0]] !! 0) !! 0) with (Some (Some 0)).
    destruct (IH d (log_call 0 d s) He Hs Hf) as (_&_&->). done.
  - cbn [Emitter.call]. rewrite Hf. cbn [lookup list_lookup Emitter.run_body].
    destruct (IH PUndefined (set_aborted true s) He Hs Hf) as (->&_). done.
Qed.

Lemma abort_listener_calling_abort_never_returns n :
  let '(h, s) := Emitter.new_function (FUser [UAbort]) new_shell in
  abort n (set_sh (Emitter.on "abort" h s) new_runner) = None.
Proof.
  change (abort n (set_sh (Emitter.on "abort" 0
            (upd_funs (λ fs, fs ++ [FUser [UAbort]]) new_shell)) new_runner) = None).
  unfold abort, Common.abort. cbn [sh set_sh].
  by destruct (abort_listener_calling_abort n PUndefined
    (set_aborted true (Emitter.on "abort" 0 (upd_funs (λ fs, fs ++ [FUser [UAbort]]) new_shell))))
    as (->&_).
Qed.

(** ** A listener that registers a listener *)

(** A ["content.delta"] listener that registers, for ["chunk"], a handler
    that calls [abort()]: on the next frame the signal is set between
    ["chunk"] and ["content.delta"]. *)
Lemma chunk_listener_registered_later_lets_delta_through :
  let s := Emitter.on "content.delta" 0
             (upd_funs (λ _, [FUser [UOn "chunk" 1]; FUser [UAbort]]) new_shell) in
  ∃ r',
    processStream (emit 6) [Frame (content_frame (Some "Hello") None);
                            Frame (content_frame (Some " world") None)]
                  (set_sh s new_runner) = Some (tt, r')
    ∧ (trace (sh r')).*1 = ["chunk"; "content.delta"; "chunk"; "abort"; "content.delta"].
Proof. eexists. split; [by vm_compute|]. by vm_compute. Qed.

Lemma emitted_snoc ev tr ev' d :
  emitted ev (tr ++ [(ev', d)]) = emitted ev tr ++ (if decide (ev' = ev) then [d] else []).
Proof. rewrite emitted_app. unfold emitted at 2. simpl. by case_decide. Qed.

Ltac emitted_tac :=
  simpl; rewrite ?emitted_snoc; repeat (case_decide; try done); rewrite ?app_nil_r; try done.

Lemma truthy_or_empty o : truthy (Some (or_empty o)) = truthy o.
Proof. destruct o as [[|c s]|]; done. Qed.

Lemma processFrame_chunk_delta frame r :
  runs (processFrame record frame) r
    (λ _ r',
       emitted "chunk" (trace (sh r')) = emitted "chunk" (trace (sh r)) ++ frame_chunks [frame]
       ∧ emitted "content.delta" (trace (sh r'))
         = emitted "content.delta" (trace (sh r))
           ++ content_deltas (contentSnapshot r) [frame]).
Proof.
  unfold processFrame. destruct frame as [e|chunk].
  { apply runs_record. emitted_tac. }
  apply runs_bind, runs_record.
  set (r1 := set_sh (log_emit "chunk" (PChatChunk chunk) (sh r)) r).
  assert (emitted "chunk" (trace (sh r1))
          = emitted "chunk" (trace (sh r)) ++ [PChatChunk chunk]
          ∧ emitted "content.delta" (trace (sh r1)) = emitted "content.delta" (trace (sh r))
          ∧ contentSnapshot r1 = contentSnapshot r) as (Hk1&Hd1&Hc1).
  { unfold r1. emitted_tac. }
  clearbody r1. simpl (content_deltas _ _).
  destruct (choices chunk) as [cs|] eqn:Hcs; simpl.
  2:{ apply runs_record. emitted_tac. }
  set (o := (head cs ≫= delta) ≫= content).
  change (match or_empty o with "" => false | String _ _ => true end)
    with (truthy (Some (or_empty o))).
  rewrite truthy_or_empty.
  apply runs_bind.
  apply (runs_mono _ _ _ (λ _ r',
           emitted "chunk" (trace (sh r')) = emitted "chunk" (trace (sh r1))
           ∧ emitted "content.delta" (trace (sh r'))
             = emitted "content.delta" (trace (sh r1))
               ++ (if truthy o
                   then [PContentDelta (or_empty o) (contentSnapshot r +:+ or_empty o)]
                   else []))).
  { apply runs_when; intros Hc; rewrite Hc.
    - repeat runs_step. emitted_tac. by rewrite Hc1.
    - by rewrite app_nil_r. }
  intros ? r2 (Hk2&Hd2).
  (* the tool calls and the finish signal emit other events *)
  apply runs_bind.
  apply (runs_mono _ _ _ (λ _ r', emits_only not_chunk_or_delta r2 r')).
  { destruct (_ ≫= tool_calls);
      [by apply handleToolCallsDelta_emits; [|apply emits_only_refl]
      |apply runs_ret, emits_only_refl]. }
  intros ? r3 H3.
  apply (runs_mono _ _ _ (λ _ r', emits_only not_chunk_or_delta r2 r')).
  { apply runs_when; intros Hf; [|done].
    by apply onFinishReason_emits. }
  intros ? r4 H4.
  rewrite (emits_only_emitted _ _ _ "chunk" H4), (emits_only_emitted _ _ _ "content.delta" H4)
    by done.
  rewrite Hk2, Hd2, Hk1, Hd1. split; [done|]. by destruct (truthy o).
Qed.

Lemma frame_chunks_cons f fs : frame_chunks (f :: fs) = frame_chunks [f] ++ frame_chunks fs.
Proof. unfold frame_chunks. by destruct f. Qed.

Lemma content_deltas_cons s f fs :
  content_deltas s (f :: fs)
  = content_deltas s [f] ++ content_deltas (s +:+ frame_content f) fs.
Proof.
  change (content_deltas s (f :: fs))
    with (if truthy (Some (frame_content f))
          then PContentDelta (frame_content f) (s +:+ frame_content f)
               :: content_deltas (s +:+ frame_content f) fs
          else content_deltas s fs).
  change (content_deltas s [f])
    with (if truthy (Some (frame_content f))
          then [PContentDelta (frame_content f) (s +:+ frame_content f)]
          else []).
  destruct (frame_content f) as [|c v]; simpl; [by rewrite append_empty_r|done].
Qed.

Lemma processFrames_chunk_delta frames : ∀ r,
  running r = true → aborted (sh r) = false →
  runs (processStream record (Frame <$> frames)) r
    (λ _ r',
       emitted "chunk" (trace (sh r')) = emitted "chunk" (trace (sh r)) ++ frame_chunks frames
       ∧ emitted "content.delta" (trace (sh r'))
         = emitted "content.delta" (trace (sh r)) ++ content_deltas (contentSnapshot r) frames).
Proof.
  induction frames as [|f frames IH]; intros r Hr Ha.
  - apply runs_ret. by rewrite !app_nil_r.
  - rewrite (frame_chunks_cons f frames), (content_deltas_cons _ f frames).
    change (processStream record (Frame <$> f :: frames))
      with (processStream_step record (Frame f)
            ≫= λ _, processStream record (Frame <$> frames)).
    apply runs_bind. unfold runs at 1. rewrite processStream_step_frame by done.
    destruct (processFrame_chunk_delta f r) as (u&r1&E1&Hk1&Hd1).
    pose proof (runs_result _ _ _ _ _ (processFrame_content f r) E1) as (Hr1&Ha1&Hc1&_).
    exists u, r1. split; [done|].
    eapply runs_mono; [apply IH; congruence|].
    intros ? r2 (Hk2&Hd2). by rewrite Hk2, Hd2, Hk1, Hd1, Hc1, <- !app_assoc.
Qed.

(** Under listeners that do not call back into the runner, a sequence of
    frames makes the runner emit one ["chunk"] for every frame that parses,
    in order, and one ["content.delta"] for every frame with a non-empty
    content, each with the content of its frame and the concatenation of
    the contents so far; a frame with an empty content emits none. *)
Theorem content_deltas_carry_running_snapshots n r frames :
  tame (sh r) = true → fuel_ok n (sh r) = true →
  running r = true → aborted (sh r) = false →
  ∃ r1,
    processStream (emit n) (Frame <$> frames) r = Some (tt, r1)
    ∧ emitted "chunk" (trace (sh r1))
      = emitted "chunk" (trace (sh r)) ++ frame_chunks frames
    ∧ emitted "content.delta" (trace (sh r1))
      = emitted "content.delta" (trace (sh r)) ++ content_deltas (contentSnapshot r) frames.
Proof.
  intros Ht Hok Hr Ha.
  destruct (tame_processStream n (Frame <$> frames) r r (sim_refl n r Ht Hok))
    as ([]&r1&rl1&E1&El1&Hs1).
  pose proof (runs_result _ _ _ _ _ (processFrames_chunk_delta frames r Hr Ha) El1)
    as (Hk&Hd).
  exists r1. split; [done|]. by rewrite (sim_trace _ _ _ Hs1).
Qed.

Lemma content_deltas_carry_running_snapshots_witness :
  ∃ r1,
    processStream (emit 3)
      (Frame <$> [content_frame (Some "") None; content_frame (Some "Hel") None;
                  JsonThrows (JsError "SyntaxError" "Unexpected token");
                  content_frame (Some "lo") (Some "stop")]) new_runner = Some (tt, r1)
    ∧ emitted "chunk" (trace (sh r1))
      = frame_chunks [content_frame (Some "") None; content_frame (Some "Hel") None;
                      JsonThrows (JsError "SyntaxError" "Unexpected token");
                      content_frame (Some "lo") (Some "stop")]
    ∧ emitted "content.delta" (trace (sh r1))
      = [PContentDelta "Hel" "Hel"; PContentDelta "lo" "Hello"].
Proof.
  apply (content_deltas_carry_running_snapshots 3 new_runner
           [content_frame (Some "") None; content_frame (Some "Hel") None;
            JsonThrows (JsError "SyntaxError" "Unexpected token");
            content_frame (Some "lo") (Some "stop")]); reflexivity.
Defined.

(** * A stream that ends without a finish reason *)

Lemma streamEnd_incomplete r :
  running r = true → isComplete r = false →
  runs (processStream record [StreamEnd]) r
    (λ _ r', running r' = false ∧ isComplete r' = true
             ∧ _finalContent r' = Some (contentSnapshot r)
             ∧ _finalToolCalls r' = _finalToolCalls r
             ∧ trace (sh r')
               = trace (sh r) ++ [("content.done", PContentDone (contentSnapshot r));
                                  ("end", PUndefined)]).
Proof.
  intros Hr Hc. unfold processStream. simpl. apply runs_bind.
  unfold processStream_step. apply runs_bind, runs_gets. rewrite Hr. simpl.
  repeat runs_step. simpl. rewrite Hc. simpl. repeat runs_step. simpl.
  by rewrite <- app_assoc.
Qed.

(** When the response ends and no frame carried a [finish_reason], the
    runner freezes the content at the end: [finalContent()] returns the
    concatenation, and ["content.done"] (even with an empty content) and
    ["end"] are emitted once. The tool calls are not frozen on this path:
    [finalToolCalls()] finds [_finalToolCalls] null, awaits [done()], which
    is resolved at once, and returns the empty list, whatever tool calls the
    frames carried. *)
Theorem stream_end_without_finish_reason n r frames :
  tame (sh r) = true → fuel_ok n (sh r) = true →
  running r = true → aborted (sh r) = false →
  isComplete r = false → _finalToolCalls r = None →
  (∀ f, f ∈ frames → truthy (frame_finish f) = false) →
  let s := contentSnapshot r +:+ concat_strings (frame_content <$> frames) in
  ∃ r1 r2 p,
    processStream (emit n) ((Frame <$> frames) ++ [StreamEnd]) r = Some (tt, r1)
    ∧ finalContent r1 = Some (Common.Now s, r1)
    ∧ emitted "content.done" (trace (sh r1))
      = emitted "content.done" (trace (sh r)) ++ [PContentDone s]
    ∧ emitted "end" (trace (sh r1)) = emitted "end" (trace (sh r)) ++ [PUndefined]
    ∧ finalToolCalls r1 = Some (Common.AfterDone p, r2)
    ∧ finalToolCalls_resume p r2 = Some (inl []).
Proof.
  intros Ht Hok Hr Ha Hc Hft Hno s.
  destruct (tame_processStream n ((Frame <$> frames) ++ [StreamEnd]) r r (sim_refl n r Ht Hok))
    as ([]&r1&rl1&E1&El1&Hs1).
  unfold processStream in El1. apply for_each_app_inv in El1 as (rlF&ElF&Eend).
  pose proof (runs_result _ _ _ _ _
    (processFrames_no_finish frames r r Hr Ha Hno (emits_only_refl _ r)) ElF)
    as (HrF&HaF&HcF&_&HtF&HemF).
  pose proof (runs_result _ _ _ _ _ (processFrames_content frames r Hr Ha) ElF)
    as (_&_&HsF).
  pose proof (runs_result _ _ _ _ _
    (streamEnd_incomplete rlF HrF ltac:(congruence)) Eend) as (Hr1&Hc1&Hf1&Ht1&Htr1).
  pose proof Hs1 as (Hp&_&Htr&_). unfold priv in Hp.
  injection Hp as Hpr Hpc Hpi Hpf Hpt Hpg.
  exists r1, (set_sh (upd_promises (λ ps, ps ++ [Resolved]) (sh r1)) r1),
         (length (promises (sh r1))).
  split; [done|]. split; [|split; [|split; [|split]]].
  - apply finalContent_now. rewrite Hpf, Hf1. by rewrite HsF.
  - rewrite Htr, Htr1, emitted_app, (emits_only_emitted _ _ _ "content.done" HemF) by done.
    by rewrite HsF.
  - rewrite Htr, Htr1, emitted_app, (emits_only_emitted _ _ _ "end" HemF) by done. done.
  - unfold finalToolCalls, mbind, stateT_bind, gets.
    rewrite Hpg, Ht1, HtF, Hft. unfold done, Common.done. by rewrite Hpi, Hc1.
  - unfold finalToolCalls_resume. simpl.
    rewrite lookup_app_r, Nat.sub_diag by done. simpl.
    by rewrite Hpg, Ht1, HtF, Hft.
Qed.

Lemma stream_end_without_finish_reason_witness :
  ∃ r1 r2 p,
    processStream (emit 3)
      ((Frame <$> [content_frame (Some "Hi") None;
                   tool_frame [ToolCallDelta (Some 0) (Some "call_1")
                                 (Some (ToolCallFunction (Some "f") (Some "{}")))]])
       ++ [StreamEnd]) new_runner = Some (tt, r1)
    ∧ finalContent r1 = Some (Common.Now "Hi", r1)
    ∧ emitted "content.done" (trace (sh r1)) = [PContentDone "Hi"]
    ∧ emitted "end" (trace (sh r1)) = [PUndefined]
    ∧ finalToolCalls r1 = Some (Common.AfterDone p, r2)
    ∧ finalToolCalls_resume p r2 = Some (inl []).
Proof.
  apply (stream_end_without_finish_reason 3 new_runner
           [content_frame (Some "Hi") None;
            tool_frame [ToolCallDelta (Some 0) (Some "call_1")
                          (Some (ToolCallFunction (Some "f") (Some "{}")))]]);
    try reflexivity.
  apply forallb_elem_of. reflexivity.
Defined.

(** * After [abort()] *)

(** When the response delivers a frame after [abort()], the loop notices
    the signal, emits ["abort"] a second time and returns: the frame is not
    processed, nothing is emitted afterwards, ["end"] never, and the fields
    of the runner stay as [abort()] found them. *)
Theorem frame_after_abort_emits_abort_again n r frame xs :
  tame (sh r) = true → fuel_ok n (sh r) = true → running r = true →
  ∃ r1 r2,
    abort n r = Some (tt, r1)
    ∧ processStream (emit n) (Frame frame :: xs) r1 = Some (tt, r2)
    ∧ trace (sh r2) = trace (sh r) ++ [("abort", PUndefined); ("abort", PUndefined)]
    ∧ priv r2 = priv (set_running false r).
Proof.
  intros Ht Hok Hr. destruct (abort_tame n r Ht Hok) as (r1&E1&Hp1&Ha1&Htr1&Ht1&Hok1).
  destruct (tame_processStream n (Frame frame :: xs) r1 r1 (sim_refl n r1 Ht1 Hok1))
    as ([]&r2&rl2&E2&El2&Hs2).
  exists r1, r2. split; [done|]. split; [done|].
  pose proof Hs2 as (Hp&_&Htr&_).
  assert (running r1 = true) as Hr1.
  { unfold priv in Hp1. injection Hp1 as H. congruence. }
  change (processStream record (Frame frame :: xs))
    with (processStream_step record (Frame frame) ≫= λ _, processStream record xs) in El2.
  unfold mbind, stateT_bind in El2.
  unfold processStream_step at 1 in El2. unfold mbind, stateT_bind, gets in El2.
  rewrite Hr1 in El2. simpl in El2. rewrite Ha1 in El2. simpl in El2.
  unfold record at 1, modify in El2. simpl in El2.
  set (r' := set_running false _) in El2.
  assert (∀ ys, processStream record ys r' = Some (tt, r')) as Hstop.
  { intros ys. unfold processStream. induction ys as [|y ys IH]; [done|].
    simpl. unfold mbind, stateT_bind, processStream_step at 1, gets. simpl. apply IH. }
  rewrite Hstop in El2. injection El2 as <-.
  split.
  - rewrite Htr. unfold r'. simpl. by rewrite Htr1, <- app_assoc.
  - rewrite Hp. unfold r', priv in *. simpl. injection Hp1; intros; congruence.
Qed.

Lemma frame_after_abort_emits_abort_again_witness :
  ∃ r1 r2,
    abort 4 throwing_listener_runner = Some (tt, r1)
    ∧ processStream (emit 4) [Frame (content_frame (Some "Hello") None); StreamEnd] r1
      = Some (tt, r2)
    ∧ trace (sh r2) = [("abort", PUndefined); ("abort", PUndefined)]
    ∧ priv r2 = priv (set_running false throwing_listener_runner).
Proof.
  apply (frame_after_abort_emits_abort_again 4 throwing_listener_runner
           (content_frame (Some "Hello") None) [StreamEnd]); reflexivity.
Defined.

Lemma set_keys_elem {V} (o : JsObject.t V) k v i :
  i ∈ JsObject.keys (JsObject.set o k v) ↔ i = k ∨ i ∈ JsObject.keys o.
Proof.
  unfold JsObject.keys. induction o as [|[k' v'] o IH]; simpl.
  - rewrite list_elem_of_singleton. split; [by left|]. intros [?|?%elem_of_nil]; done.
  - destruct (decide (k = k')) as [->|Hne]; simpl.
    + rewrite !elem_of_cons. naive_solver.
    + destruct (_ && _); simpl; rewrite !elem_of_cons; [naive_solver|].
      rewrite IH. naive_solver.
Qed.

Lemma set_sorted {V} (o : JsObject.t V) k v :
  StronglySorted index_order (JsObject.keys o) →
  StronglySorted index_order (JsObject.keys (JsObject.set o k v)).
Proof.
  induction o as [|[k' v'] o IH]; intros H.
  - repeat constructor.
  - change (JsObject.keys ((k', v') :: o)) with (k' :: JsObject.keys o) in H.
    apply StronglySorted_inv in H as [Hs Hall]. simpl.
    destruct (decide (k = k')) as [->|Hne]; [by constructor|].
    destruct (JsObject.array_index k && _) eqn:Hc.
    + change (StronglySorted index_order (k :: k' :: JsObject.keys o)).
      apply andb_true_iff in Hc as [Hk Hc].
      assert (JsObject.array_index k' = true → k < k') as Hlt.
      { intros Hk'. rewrite Hk' in Hc. simpl in Hc. by apply bool_decide_eq_true in Hc. }
      constructor; [by constructor|]. constructor; [split; [done|auto]|].
      eapply Forall_impl; [done|]. intros x [Hx1 Hx2]. split.
      * intros ->. destruct (JsObject.array_index x) eqn:Hx; [|done].
        destruct (Hx2 eq_refl) as [Hk' ?]. specialize (Hlt Hk'). lia.
      * intros Hx. destruct (Hx2 Hx) as [Hk' ?]. specialize (Hlt Hk'). split; [done|lia].
    + change (StronglySorted index_order (k' :: JsObject.keys (JsObject.set o k v))).
      constructor; [by apply IH|].
      apply Forall_forall. intros i [->|Hi]%set_keys_elem.
      * split; [done|]. intros Hk. rewrite Hk in Hc. simpl in Hc.
        apply orb_false_iff in Hc as [Hk' Hlt]. apply negb_false_iff in Hk'.
        apply bool_decide_eq_false in Hlt. split; [done|lia].
      * by eapply Forall_forall in Hall.
Qed.

Lemma index_order_lt (l : list nat) :
  StronglySorted index_order l → Forall (λ k, JsObject.array_index k = true) l →
  StronglySorted lt l.
Proof.
  induction 1 as [|k l Hs IH Hall]; intros Hai; [constructor|].
  apply Forall_cons in Hai as [Hk Hl]. constructor; [by apply IH|].
  apply Forall_forall. intros x Hx.
  eapply Forall_forall in Hall; [|done]. eapply Forall_forall in Hl; [|done].
  destruct Hall as [_ H]. by apply H.
Qed.

Lemma get_not_key {V} (o : JsObject.t V) k : k ∉ JsObject.keys o → JsObject.get o k = None.
Proof.
  induction o as [|[k' v'] o IH]; [done|]. intros Hn. simpl.
  rewrite decide_False; [|intros ->; apply Hn; by left].
  apply IH. intros ?. apply Hn. by right.
Qed.

Lemma omap_ext_elem {A B} (f g : A → option B) (l : list A) :
  (∀ x, x ∈ l → f x = g x) → omap f l = omap g l.
Proof.
  induction l as [|x l IH]; intros H; [done|].
  change (omap f (x :: l)) with (match f x with Some y => y :: omap f l | None => omap f l end).
  change (omap g (x :: l)) with (match g x with Some y => y :: omap g l | None => omap g l end).
  rewrite (H x) by left. rewrite IH; [done|]. intros y Hy. apply H. by right.
Qed.

(** [Object.values] is the snapshot at every key, in the order of the
    keys. *)
Lemma deref_keys {V} (o : JsObject.t V) :
  StronglySorted index_order (JsObject.keys o) →
  omap (JsObject.get o) (JsObject.keys o) = JsObject.values o.
Proof.
  induction o as [|[k v] o IH]; [done|]. intros H.
  change (JsObject.keys ((k, v) :: o)) with (k :: JsObject.keys o) in *.
  apply StronglySorted_inv in H as [Hs Hall].
  change (JsObject.values ((k, v) :: o)) with (v :: JsObject.values o).
  rewrite <- IH by done. simpl. rewrite decide_True by done. f_equal.
  apply omap_ext_elem. intros i Hi. rewrite decide_False; [done|].
  eapply Forall_forall in Hall; [|done]. intros ->. by destruct Hall.
Qed.

Lemma foldToolCall_keys d r :
  ascending r →
  runs (foldToolCall record d) r
    (λ _ r', ascending r'
             ∧ ∀ i, i ∈ JsObject.keys (toolCallsSnapshot r')
                    ↔ i ∈ JsObject.keys (toolCallsSnapshot r) ∨ tc_index d = Some i).
Proof.
  intros Hs. unfold foldToolCall. destruct (tc_index d) as [index|].
  2:{ apply runs_ret. split; [done|]. naive_solver. }
  apply runs_bind, runs_gets, runs_bind.
  apply (runs_mono _ _ _ (λ _ r',
    ascending r'
    ∧ ∀ i, i ∈ JsObject.keys (toolCallsSnapshot r')
           ↔ i ∈ JsObject.keys (toolCallsSnapshot r) ∨ Some index = Some i
             ∧ JsObject.get (toolCallsSnapshot r) index = None)).
  { apply runs_when; intros Hc.
    - apply runs_modify. simpl. split; [by apply set_sorted|].
      intros i. rewrite set_keys_elem. apply bool_decide_eq_true in Hc. naive_solver.
    - split; [done|]. apply bool_decide_eq_false in Hc. naive_solver. }
  intros ? r1 (Hs1&Hk1). repeat runs_step. simpl. split; [by apply set_sorted|].
  intros i. rewrite set_keys_elem, Hk1. naive_solver.
Qed.

Lemma handleToolCallsDelta_keys ds : ∀ r,
  ascending r →
  runs (handleToolCallsDelta record ds) r
    (λ _ r', ascending r'
             ∧ ∀ i, i ∈ JsObject.keys (toolCallsSnapshot r')
                    ↔ i ∈ JsObject.keys (toolCallsSnapshot r) ∨ i ∈ omap tc_index ds).
Proof.
  unfold handleToolCallsDelta.
  induction ds as [|d ds IH]; intros r Hs; simpl.
  - apply runs_ret. split; [done|]. intros i. rewrite elem_of_nil. naive_solver.
  - apply runs_bind. eapply runs_mono; [by apply foldToolCall_keys|].
    intros ? r1 (Hs1&Hk1). eapply runs_mono; [by apply IH|].
    intros ? r2 (Hs2&Hk2). split; [done|]. intros i. rewrite Hk2, Hk1.
    destruct (tc_index d) as [j|]; rewrite ?elem_of_cons; naive_solver.
Qed.

Lemma onFinishReason_tools r :
  runs (onFinishReason record) r
    (λ _ r', toolCallsSnapshot r' = toolCallsSnapshot r
             ∧ _finalToolCalls r' = Some (JsObject.keys (toolCallsSnapshot r))).
Proof.
  unfold onFinishReason. repeat runs_step.
  apply runs_when; intros Hc; repeat runs_step;
    (eapply runs_mono; [apply finish_loop_fields|]);
    intros ? r' [H ?]; unfold content_fields in H; simplify_eq/=; done.
Qed.

Lemma processFrame_keys frame r :
  ascending r →
  runs (processFrame record frame) r
    (λ _ r', ascending r'
             ∧ (∀ i, i ∈ JsObject.keys (toolCallsSnapshot r')
                     ↔ i ∈ JsObject.keys (toolCallsSnapshot r) ∨ i ∈ frame_indices frame)
             ∧ (truthy (frame_finish frame) = true →
                _finalToolCalls r' = Some (JsObject.keys (toolCallsSnapshot r')))).
Proof.
  intros Hs. unfold processFrame. destruct frame as [e|chunk]; simpl.
  { apply runs_record. split; [done|]. split; [|done]. intros i. rewrite elem_of_nil.
    naive_solver. }
  apply runs_bind, runs_record.
  destruct (choices chunk) as [cs|]; simpl.
  2:{ apply runs_record. split; [done|]. split; [|done]. intros i. rewrite elem_of_nil.
      naive_solver. }
  apply runs_bind.
  apply (runs_mono _ _ _ (λ _ r', toolCallsSnapshot r' = toolCallsSnapshot r)).
  { apply runs_when; intros Hc; [|done]. repeat runs_step. done. }
  intros ? r1 H1. apply runs_bind.
  apply (runs_mono _ _ _ (λ _ r',
    ascending r'
    ∧ ∀ i, i ∈ JsObject.keys (toolCallsSnapshot r')
           ↔ i ∈ JsObject.keys (toolCallsSnapshot r)
             ∨ i ∈ omap tc_index (default [] ((head cs ≫= delta) ≫= tool_calls)))).
  { destruct (_ ≫= tool_calls) as [tcs|]; simpl.
    - eapply runs_mono; [apply handleToolCallsDelta_keys; unfold ascending; by rewrite H1|].
      intros ? r2 (?&Hk). split; [done|]. intros i. by rewrite Hk, H1.
    - apply runs_ret. unfold ascending. rewrite H1. split; [done|].
      intros i. rewrite elem_of_nil. naive_solver. }
  intros ? r2 (Hs2&Hk2). apply runs_when; intros Hf.
  - eapply runs_mono; [apply onFinishReason_tools|].
    intros ? r3 (H3&Hft). cbv beta. unfold ascending in *. rewrite H3.
    split; [done|]. split; [done|]. intros _. by rewrite Hft.
  - split; [done|]. split; [done|]. intros H. congruence.
Qed.

Lemma processFrames_keys frames : ∀ r,
  running r = true → aborted (sh r) = false → ascending r →
  runs (processStream record (Frame <$> frames)) r
    (λ _ r', running r' = true ∧ aborted (sh r') = false ∧ ascending r'
             ∧ ∀ i, i ∈ JsObject.keys (toolCallsSnapshot r')
                    ↔ i ∈ JsObject.keys (toolCallsSnapshot r)
                      ∨ ∃ f, f ∈ frames ∧ i ∈ frame_indices f).
Proof.
  induction frames as [|f frames IH]; intros r Hr Ha Hs.
  - apply runs_ret. repeat split; try done; [by left|].
    intros [?|(f&?%elem_of_nil&_)]; done.
  - change (processStream record (Frame <$> f :: frames))
      with (processStream_step record (Frame f)
            ≫= λ _, processStream record (Frame <$> frames)).
    apply runs_bind. unfold runs at 1. rewrite processStream_step_frame by done.
    destruct (processFrame_keys f r Hs) as (u&r1&E1&Hs1&Hk1&_).
    pose proof (runs_result _ _ _ _ _ (processFrame_content f r) E1) as (Hr1&Ha1&_).
    exists u, r1. split; [done|].
    eapply runs_mono; [apply IH; congruence|].
    intros ? r2 (?&?&?&Hk2). repeat split; try done.
    + rewrite Hk2, Hk1. intros [[?|?]|(f'&?&?)]; [by left|right..].
      * exists f. split; [by left|done].
      * exists f'. split; [by right|done].
    + rewrite Hk2, Hk1. intros [?|(f'&[->|?]%elem_of_cons&?)]; [by left; left|by left; right|].
      right. by exists f'.
Qed.

(** Under listeners that do not call back into the runner, after a frame
    with a [finish_reason], [finalToolCalls()] returns at once the
    snapshots of the tool calls in the order in which the object enumerates
    its keys: the indices that are array indices (below [2^32 - 1]) first,
    in ascending order whatever the order in which they arrived, then the
    other ones. When every index is an array index, the tool calls are in
    ascending order of their indices. The indices are those the runner held
    before and those of the deltas of the frames. *)
Theorem finalToolCalls_are_in_index_order n r frames last :
  tame (sh r) = true → fuel_ok n (sh r) = true →
  running r = true → aborted (sh r) = false →
  StronglySorted index_order (JsObject.keys (toolCallsSnapshot r)) →
  truthy (frame_finish last) = true →
  ∃ r1,
    processStream (emit n) (Frame <$> frames ++ [last]) r = Some (tt, r1)
    ∧ finalToolCalls r1 = Some (Common.Now (JsObject.values (toolCallsSnapshot r1)), r1)
    ∧ StronglySorted index_order (JsObject.keys (toolCallsSnapshot r1))
    ∧ (Forall (λ i, JsObject.array_index i = true) (JsObject.keys (toolCallsSnapshot r1)) →
       StronglySorted lt (JsObject.keys (toolCallsSnapshot r1)))
    ∧ ∀ i, i ∈ JsObject.keys (toolCallsSnapshot r1)
           ↔ i ∈ JsObject.keys (toolCallsSnapshot r)
             ∨ ∃ f, f ∈ frames ++ [last] ∧ i ∈ frame_indices f.
Proof.
  intros Ht Hok Hr Ha Hs Hf.
  destruct (tame_processStream n (Frame <$> frames ++ [last]) r r (sim_refl n r Ht Hok))
    as ([]&r1&rl1&E1&El1&Hs1).
  pose proof (runs_result _ _ _ _ _ (processFrames_keys (frames ++ [last]) r Hr Ha Hs) El1)
    as (_&_&Hsl&Hkl).
  (* the last frame freezes the keys *)
  pose proof El1 as El1'. unfold processStream in El1'. rewrite fmap_app in El1'.
  apply for_each_app_inv in El1' as (rlF&ElF&Elast).
  pose proof (runs_result _ _ _ _ _ (processFrames_keys frames r Hr Ha Hs) ElF)
    as (HrF&HaF&HsF&_).
  simpl in Elast. unfold mbind, stateT_bind in Elast.
  rewrite processStream_step_frame in Elast by done.
  destruct (processFrame record last rlF) as [[[] rl']|] eqn:EL; [|done].
  assert (rl' = rl1) as -> by (by injection Elast).
  pose proof (runs_result _ _ _ _ _ (processFrame_keys last rlF HsF) EL) as (_&_&Hfin).
  specialize (Hfin Hf).
  pose proof Hs1 as (Hp&_). unfold priv in Hp. injection Hp as Hpr Hpc Hpi Hpf Hpt Hpg.
  exists r1. split; [done|]. rewrite Hpt. split; [|split; [done|split; [|done]]].
  - unfold finalToolCalls, mbind, stateT_bind, gets. rewrite Hpg, Hfin.
    unfold deref_toolCalls. rewrite Hpt. by rewrite deref_keys.
  - by apply index_order_lt.
Qed.

Lemma finalToolCalls_are_in_index_order_witness :
  ∃ r1,
    processStream (emit 3)
      (Frame <$> [tool_frame [arguments_delta 2 "{}"; arguments_delta 0 "[]"]]
                 ++ [content_frame None (Some "tool_calls")]) new_runner = Some (tt, r1)
    ∧ finalToolCalls r1 = Some (Common.Now (JsObject.values (toolCallsSnapshot r1)), r1)
    ∧ StronglySorted index_order (JsObject.keys (toolCallsSnapshot r1))
    ∧ (Forall (λ i, JsObject.array_index i = true) (JsObject.keys (toolCallsSnapshot r1)) →
       StronglySorted lt (JsObject.keys (toolCallsSnapshot r1)))
    ∧ ∀ i, i ∈ JsObject.keys (toolCallsSnapshot r1)
           ↔ i ∈ JsObject.keys (toolCallsSnapshot new_runner)
             ∨ ∃ f, f ∈ [tool_frame [arguments_delta 2 "{}"; arguments_delta 0 "[]"]]
                        ++ [content_frame None (Some "tool_calls")]
                    ∧ i ∈ frame_indices f.
Proof.
  apply (finalToolCalls_are_in_index_order 3 new_runner
           [tool_frame [arguments_delta 2 "{}"; arguments_delta 0 "[]"]]
           (content_frame None (Some "tool_calls"))); try reflexivity.
  constructor.
Defined.

Lemma emitted_cons ev e tr :
  emitted ev (e :: tr) = (if decide (e.1 = ev) then [e.2] else []) ++ emitted ev tr.
Proof. unfold emitted. simpl. by case_decide. Qed.

Lemma foldl_iter_step_chunks tr : ∀ it,
  it_chunks (foldl iter_step it tr) = it_chunks it ++ emitted "chunk" tr
  ∧ it_chunkIndex (foldl iter_step it tr) = it_chunkIndex it.
Proof.
  induction tr as [|e tr IH]; intros it.
  - simpl. by rewrite app_nil_r.
  - change (foldl iter_step it (e :: tr)) with (foldl iter_step (iter_step it e) tr).
    destruct (IH (iter_step it e)) as [-> ->].
    rewrite emitted_cons.
    unfold iter_step. repeat case_decide; simpl; by rewrite <- ?app_assoc.
Qed.

Lemma collect_rest cs : ∀ k r,
  iters (sh r) !! 0 = Some (IterState cs k true None) → k ≤ length cs →
  collect (length cs - k + 1) 0 r = (Common.NextValue <$> drop k cs) ++ [Common.NextDone].
Proof.
  intros k. remember (length cs - k) as m eqn:Hm. revert k Hm.
  induction m as [|m IH]; intros k Hm r Hit Hk.
  - assert (k = length cs) as -> by lia. rewrite drop_all. simpl.
    unfold next, Common.next. rewrite Hit. simpl.
    rewrite andb_false_r, lookup_ge_None_2 by done. done.
  - change (S m + 1) with (S (m + 1)). simpl.
    unfold next, Common.next at 1. rewrite Hit. simpl. rewrite andb_false_r.
    destruct (cs !! k) as [v|] eqn:Hv; [|apply lookup_ge_None in Hv; lia].
    rewrite (drop_S _ _ _ Hv). simpl. f_equal.
    apply IH; [lia| |lia]. simpl.
    apply list_lookup_insert_eq. by eapply lookup_lt_Some.
Qed.

Lemma streamEnd_trace r :
  running r = true →
  runs (processStream record [StreamEnd]) r
    (λ _ r', ∃ pre, trace (sh r') = (trace (sh r) ++ pre) ++ [("end", PUndefined)]
                    ∧ forallb (λ e : string * payload, keeps_error e.1) pre = true
                    ∧ emitted "chunk" pre = []).
Proof.
  intros Hr. unfold processStream. simpl. apply runs_bind.
  unfold processStream_step. apply runs_bind, runs_gets. rewrite Hr. simpl.
  repeat runs_step. simpl. apply runs_when; intros Hc; repeat runs_step; simpl.
  - by eexists [_].
  - exists []. by rewrite app_nil_r.
Qed.

(** A consumer that creates the iterator before the first frame and reads
    it once the response has ended, all frames having been accepted, gets
    every chunk, in the order of the frames, and then [done]. *)
Theorem iterator_yields_every_chunk_in_order n frames :
  3 ≤ n → (∀ f, f ∈ frames → failing f = false) →
  ∃ r1 r2,
    asyncIterator new_runner = Some (0, r1)
    ∧ processStream (emit n) ((Frame <$> frames) ++ [StreamEnd]) r1 = Some (tt, r2)
    ∧ collect (length (frame_chunks frames) + 1) 0 r2
      = (Common.NextValue <$> frame_chunks frames) ++ [Common.NextDone].
Proof.
  intros Hn Hok.
  set (r1 := set_sh (Common.asyncIterator new_shell).2 new_runner).
  assert (iterated r1 r1) as Hit by (by vm_compute).
  destruct (iterated_processStream n ((Frame <$> frames) ++ [StreamEnd]) Hn r1 r1 Hit)
    as ([]&r2&rl2&E2&El2&(Hp2&Ha2&Hs2)).
  exists r1, r2. split; [done|]. split; [done|].
  unfold processStream in El2. apply for_each_app_inv in El2 as (rlF&ElF&Eend).
  pose proof (runs_result _ _ _ _ _ (processFrames_chunk_delta frames r1 eq_refl eq_refl) ElF)
    as (Hk&_).
  pose proof (runs_result _ _ _ _ _
    (processFrames_keep_error frames r1 r1 eq_refl eq_refl Hok (emits_only_refl _ r1)) ElF)
    as (evs&Hevs&Hkeep).
  pose proof (runs_result _ _ _ _ _ (processFrames_content frames r1 eq_refl eq_refl) ElF)
    as (HrF&HaF&_).
  (* the end of the stream *)
  assert (∃ pre, trace (sh rl2) = (trace (sh rlF) ++ pre) ++ [("end", PUndefined)]
                 ∧ forallb (λ e : string * payload, keeps_error e.1) pre = true
                 ∧ emitted "chunk" pre = []) as (pre&Htr&Hpre&Hprek).
  { exact (runs_result _ _ _ _ _ (streamEnd_trace rlF HrF) Eend). }
  change (trace (sh r1)) with (@nil (string * payload)) in *. simpl in Hevs, Hk.
  set (it := foldl iter_step (IterState [] 0 false None) (trace (sh rl2))).
  assert (iters (sh r2) !! 0 = Some it) as Hi by (by rewrite Hs2).
  assert (it = IterState (frame_chunks frames) 0 true None) as Hit'.
  { unfold it. rewrite Htr, foldl_app.
    destruct (foldl_iter_step_chunks (trace (sh rlF) ++ pre) (IterState [] 0 false None))
      as [Hc Hx].
    destruct (foldl_iter_step_keeps (trace (sh rlF) ++ pre) (IterState [] 0 false None))
      as [He _].
    { rewrite Hevs, forallb_app, Hkeep, Hpre. done. }
    destruct (foldl iter_step _ (trace (sh rlF) ++ pre)) as [cs ix ic er].
    simpl in Hc, Hx, He. subst cs ix er.
    rewrite emitted_app, Hk, Hprek, app_nil_r. reflexivity. }
  rewrite Hit' in Hi.
  pose proof (collect_rest (frame_chunks frames) 0 r2 Hi ltac:(lia)) as Hcol.
  by rewrite Nat.sub_0_r in Hcol.
Qed.

Lemma iterator_yields_every_chunk_in_order_witness :
  ∃ r1 r2,
    asyncIterator new_runner = Some (0, r1)
    ∧ processStream (emit 3)
        ((Frame <$> [content_frame (Some "Hel") None; content_frame (Some "lo") (Some "stop")])
         ++ [StreamEnd]) r1 = Some (tt, r2)
    ∧ collect 3 0 r2
      = (Common.NextValue
           <$> frame_chunks [content_frame (Some "Hel") None;
                             content_frame (Some "lo") (Some "stop")])
        ++ [Common.NextDone].
Proof.
  apply (iterator_yields_every_chunk_in_order 3
           [content_frame (Some "Hel") None; content_frame (Some "lo") (Some "stop")]).
  - lia.
  - apply forallb_elem_of. reflexivity.
Defined.

(** * [done()] against errors and aborts *)

Lemma error_awaited n tr d :
  4 ≤ n →
  ∃ s, Emitter.emit n "error" d (with_trace tr awaited_shell) = Some (true, s)
       ∧ promises s = [Rejected d] ∧ tame s = true ∧ fuel_ok 9 s = true.
Proof.
  intros Hn. destruct n as [|[|[|[|n]]]]; try lia.
  eexists. split; [vm_compute; reflexivity|]. by vm_compute.
Qed.

Lemma processStream_one e frame r :
  running r = true → aborted (sh r) = false →
  processStream e [Frame frame] r
  = match processFrame e frame r with Some (_, r') => Some (tt, r') | None => None end.
Proof.
  intros Hr Ha.
  assert (processStream_step e (Frame frame) r = processFrame e frame r) as Hstep.
  { unfold processStream_step, mbind, stateT_bind, gets. rewrite Hr. simpl. by rewrite Ha. }
  unfold processStream. simpl. unfold mbind, stateT_bind. rewrite Hstep.
  by destruct (processFrame e frame r) as [[[] r']|].
Qed.

Lemma failing_frame_awaited n bad r :
  4 ≤ n → failing bad = true → running r = true →
  (∃ tr, sh r = with_trace tr awaited_shell) →
  ∃ s, processStream (emit n) [Frame bad] r = Some (tt, set_sh s r)
       ∧ promises s = [Rejected (PError (frame_error bad))]
       ∧ tame s = true ∧ fuel_ok 9 s = true.
Proof.
  intros Hn Hf Hr (tr&Hs).
  rewrite processStream_one by (done || by rewrite Hs).
  unfold processFrame. destruct bad as [e|chunk]; simpl in *.
  - destruct (error_awaited n tr (PError e) Hn) as (s&Es&Hps&Hts&Hfs).
    exists s. unfold emit. by rewrite Hs, Es.
  - apply bool_decide_eq_true in Hf. rewrite Hf.
    destruct (error_awaited n (tr ++ [("chunk", PChatChunk chunk)])
                (PError choices_type_error) Hn) as (s&Es&Hps&Hts&Hfs).
    exists s. unfold mbind, stateT_bind, emit. rewrite Hs.
    rewrite emit_no_listener by (done || lia). simpl.
    change (log_emit "chunk" (PChatChunk chunk) (with_trace tr awaited_shell))
      with (with_trace (tr ++ [("chunk", PChatChunk chunk)]) awaited_shell).
    by rewrite Es.
Qed.

(** A promise of [done()] that is pending when a frame fails (malformed
    JSON, or a payload without [choices]) is rejected with the error of
    that frame, although the runner goes on processing the frames that
    follow; whatever follows, the promise keeps that rejection. *)
Theorem done_is_rejected_by_the_first_failing_frame n frames bad xs :
  9 ≤ n → (∀ f, f ∈ frames → failing f = false) → failing bad = true →
  ∃ r1 r2 r3,
    done new_runner = Some (0, r1)
    ∧ processStream (emit n) (Frame <$> frames ++ [bad]) r1 = Some (tt, r2)
    ∧ promises (sh r2) !! 0 = Some (Rejected (PError (frame_error bad)))
    ∧ running r2 = true
    ∧ processStream (emit n) xs r2 = Some (tt, r3)
    ∧ promises (sh r3) !! 0 = Some (Rejected (PError (frame_error bad))).
Proof.
  intros Hn Hok Hbad. set (r1 := set_sh awaited_shell new_runner).
  assert (quiet awaited_shell r1 r1) as Hq by done.
  destruct (quiet_frames n awaited_shell frames) with (r := r1) (rl := r1)
    as ([]&r2&rl2&E2&El2&(Hp2&_&Hs2)); [lia|done..|].
  pose proof (runs_result _ _ _ _ _ (processFrames_content frames r1 eq_refl eq_refl) El2)
    as (Hrl&_&_).
  assert (running r2 = true) as Hr2.
  { unfold priv in Hp2. injection Hp2; intros; congruence. }
  destruct (failing_frame_awaited n bad r2) as (s&Eb&Hps&Hts&Hfs); [lia|done..| |].
  { by eexists. }
  assert (sim_keep n s (set_sh s r2) (set_sh s r2)) as Hsim.
  { split; [|by intros p v]. apply sim_refl; [done|]. by apply (fuel_ok_mono 9). }
  destruct (tame_processStream_keep n s xs _ _ Hsim) as ([]&r3&rl3&E3&_&(_&Hk)).
  exists r1, (set_sh s r2), r3. split; [by vm_compute|]. split.
  { unfold processStream in *. rewrite fmap_app, for_each_app.
    unfold mbind at 1, stateT_bind at 1. by rewrite E2. }
  split; [simpl; by rewrite Hps|]. split; [done|]. split; [done|].
  apply Hk; [|done]. by rewrite Hps.
Qed.

Lemma done_is_rejected_by_the_first_failing_frame_witness :
  ∃ r1 r2 r3,
    done new_runner = Some (0, r1)
    ∧ processStream (emit 9)
        (Frame <$> [content_frame (Some "Hello") None]
                   ++ [JsonThrows (JsError "SyntaxError" "Unexpected token")]) r1
      = Some (tt, r2)
    ∧ promises (sh r2) !! 0
      = Some (Rejected (PError (JsError "SyntaxError" "Unexpected token")))
    ∧ running r2 = true
    ∧ processStream (emit 9)
        [Frame (content_frame (Some " world") (Some "stop")); StreamEnd] r2 = Some (tt, r3)
    ∧ promises (sh r3) !! 0
      = Some (Rejected (PError (JsError "SyntaxError" "Unexpected token"))).
Proof.
  apply (done_is_rejected_by_the_first_failing_frame 9
           [content_frame (Some "Hello") None]
           (JsonThrows (JsError "SyntaxError" "Unexpected token"))
           [Frame (content_frame (Some " world") (Some "stop")); StreamEnd]).
  - lia.
  - apply forallb_elem_of. reflexivity.
  - reflexivity.
Defined.

(** When the response ends after [abort()] without another frame between
    the two, the loop never looks at the signal: the stream is finalized
    as if nothing had happened, ["end"] is emitted, and a promise of
    [done()] made after [abort()] is resolved, not rejected. *)
Theorem done_after_abort_is_resolved_by_the_end n frames :
  4 ≤ n → (∀ f, f ∈ frames → failing f = false) →
  ∃ r1 r2 r3 r4 p,
    processStream (emit n) (Frame <$> frames) new_runner = Some (tt, r1)
    ∧ abort n r1 = Some (tt, r2)
    ∧ aborted (sh r2) = true
    ∧ done r2 = Some (p, r3)
    ∧ processStream (emit n) [StreamEnd] r3 = Some (tt, r4)
    ∧ promises (sh r4) !! p = Some Resolved
    ∧ emitted "abort" (trace (sh r4)) = [PUndefined]
    ∧ emitted "end" (trace (sh r4)) = [PUndefined].
Proof.
  intros Hn Hok.
  assert (quiet new_shell new_runner new_runner) as Hq by done.
  destruct (quiet_frames n new_shell frames) with (r := new_runner) (rl := new_runner)
    as ([]&r1&rl1&E1&El1&(Hp1&_&Hs1)); [lia|done..|].
  pose proof (runs_result _ _ _ _ _ (processFrames_content frames new_runner eq_refl eq_refl)
                El1) as (Hrl&_&_).
  pose proof (runs_result _ _ _ _ _
    (processFrames_emits frames new_runner new_runner eq_refl eq_refl (emits_only_refl _ _))
    El1) as Hem.
  pose proof (emits_only_emitted _ _ _ "end" Hem eq_refl) as Hend.
  pose proof (emits_only_emitted _ _ _ "abort" Hem eq_refl) as Habort.
  change (trace (sh new_runner)) with (@nil (string * payload)) in *. simpl in Hend, Habort.
  assert (running r1 = true) as Hr1.
  { unfold priv in Hp1. injection Hp1; intros; congruence. }
  destruct r1 as [sh1 run cs ic fc ts ftc]. simpl in *. subst sh1 run.
  destruct n as [|[|[|[|n]]]]; try lia.
  set (tr := trace (sh rl1)) in *. clearbody tr.
  destruct ic; eexists _, _, _, _, _;
    (split; [exact E1|]); (split; [by vm_compute|]); (split; [done|]);
    (split; [by vm_compute|]); (split; [by vm_compute|]); (split; [by vm_compute|]);
    simpl; rewrite !emitted_app, ?Hend, ?Habort; done.
Qed.

Lemma done_after_abort_is_resolved_by_the_end_witness :
  ∃ r1 r2 r3 r4 p,
    processStream (emit 4) (Frame <$> [content_frame (Some "Hello") None]) new_runner
      = Some (tt, r1)
    ∧ abort 4 r1 = Some (tt, r2)
    ∧ aborted (sh r2) = true
    ∧ done r2 = Some (p, r3)
    ∧ processStream (emit 4) [StreamEnd] r3 = Some (tt, r4)
    ∧ promises (sh r4) !! p = Some Resolved
    ∧ emitted "abort" (trace (sh r4)) = [PUndefined]
    ∧ emitted "end" (trace (sh r4)) = [PUndefined].
Proof.
  apply (done_after_abort_is_resolved_by_the_end 4 [content_frame (Some "Hello") None]).
  - lia.
  - apply forallb_elem_of. reflexivity.
Defined.

(** [finalContent()] called before the first frame. *)
Lemma finalContent_awaited_is_concatenation_witness :
  ∃ r1 r2,
    finalContent new_runner = Some (Common.AfterDone 0, r1)
    ∧ processStream (emit 4)
        ((Frame <$> [content_frame (Some "Hel") None]
                    ++ [content_frame (Some "lo") (Some "stop")]) ++ [StreamEnd]) r1
      = Some (tt, r2)
    ∧ finalContent_resume 0 r2 = Some (inl "Hello").
Proof.
  apply (finalContent_awaited_is_concatenation 4 [content_frame (Some "Hel") None]
           (content_frame (Some "lo") (Some "stop"))).
  - lia.
  - apply forallb_elem_of. reflexivity.
  - reflexivity.
Defined.

Import Completion.

Lemma completion_emit_quiet n ev d r tr :
  0 < n → sh r = with_trace tr awaited_shell →
  ev ∈ ["chunk"; "text.delta"; "text.done"] →
  emit n ev d r = Some (tt, set_sh (with_trace (tr ++ [(ev, d)]) awaited_shell) r).
Proof.
  intros Hn Hs Hev. unfold emit. rewrite Hs, emit_no_listener; [done..|].
  repeat (apply elem_of_cons in Hev as [->|Hev]; [done|]). by apply elem_of_nil in Hev.
Qed.

Lemma completion_emit_quiet_at n ev d tr run snap ic ft :
  0 < n → ev ∈ ["chunk"; "text.delta"; "text.done"] →
  emit n ev d (Runner (with_trace tr awaited_shell) run snap ic ft)
  = Some (tt, Runner (with_trace (tr ++ [(ev, d)]) awaited_shell) run snap ic ft).
Proof. intros Hn Hev. by rewrite (completion_emit_quiet n ev d _ tr). Qed.

Ltac runner_fields :=
  cbv [set_sh set_running set_textSnapshot set_finalText set_isComplete
       sh running textSnapshot isComplete _finalText].

Lemma completion_frame_step n frame tr snapshot r :
  0 < n → accepted frame = true → awaiting tr snapshot r →
  ∃ r', processStream_step n (Frame frame) r = Some (tt, r')
        ∧ sh r' = with_trace (tr ++ text_events snapshot frame) awaited_shell
        ∧ running r' = true
        ∧ textSnapshot r' = snapshot +:+ frame_text frame
        ∧ (if truthy (frame_text_finish frame)
           then isComplete r' = true ∧ _finalText r' = Some (snapshot +:+ frame_text frame)
           else isComplete r' = false ∧ _finalText r' = None).
Proof.
  intros Hn Hacc (Hs&Hr&Hsnap&Hc&Hf).
  destruct frame as [e|chunk]; [done|]. simpl in Hacc. apply bool_decide_eq_true in Hacc.
  destruct (c_choices chunk) as [cs|] eqn:Hcs; [|done].
  assert (processStream_step n (Frame (JsonValue chunk)) r
          = processFrame n (JsonValue chunk) r) as ->.
  { unfold processStream_step, mbind, stateT_bind, gets. rewrite Hr. simpl. by rewrite Hs. }
  unfold text_events, frame_text, frame_text_finish, processFrame. rewrite Hcs.
  set (o := head cs ≫= text). set (fin := head cs ≫= c_finish_reason).
  unfold mbind, stateT_bind.
  rewrite (completion_emit_quiet n _ _ r tr) by (done || set_solver).
  unfold when, modify, gets.
  destruct r as [s run snap ic ft]. simpl in Hs, Hr, Hsnap, Hc, Hf. subst s run snap ic ft.
  assert (truthy (Some (or_empty o)) = truthy o) as -> by by destruct o as [[|]|].
  destruct (truthy o) eqn:Ho.
  - runner_fields. rewrite completion_emit_quiet_at by (done || set_solver).
    destruct (truthy fin) eqn:Hfin.
    + runner_fields. rewrite completion_emit_quiet_at by (done || set_solver).
      eexists. split; [done|]. simpl. by rewrite <- !app_assoc.
    + eexists. split; [done|]. simpl. by rewrite <- !app_assoc.
  - assert (or_empty o = "") as -> by by destruct o as [[|]|].
    rewrite append_empty_r.
    destruct (truthy fin) eqn:Hfin.
    + runner_fields. unfold mret, stateT_ret.
      runner_fields. rewrite completion_emit_quiet_at by (done || set_solver).
      eexists. split; [done|]. simpl. by rewrite <- !app_assoc.
    + eexists. split; [done|]. by simpl.
Qed.

Lemma for_each_snoc {S A} (l : list A) (x : A) (f : A → stateT S unit) s :
  for_each (l ++ [x]) f s
  = match for_each l f s with Some (_, s') => f x s' | None => None end.
Proof.
  rewrite for_each_app. unfold mbind, stateT_bind.
  destruct (for_each l f s) as [[[] s']|]; [|done]. simpl.
  unfold mbind, stateT_bind. by destruct (f x s') as [[[] s'']|].
Qed.

Lemma text_events_end snapshot f : emitted "end" (text_events snapshot f) = [].
Proof.
  destruct f as [e|chunk]; [done|]. unfold text_events.
  by destruct (truthy (Some _)), (truthy (frame_text_finish _)).
Qed.

Lemma text_events_done snapshot f :
  emitted "text.done" (text_events snapshot f)
  = if truthy (frame_text_finish f)
    then [PTextDone (snapshot +:+ frame_text f)] else [].
Proof.
  destruct f as [e|chunk]; [done|]. unfold text_events.
  by destruct (truthy (Some _)), (truthy (frame_text_finish _)).
Qed.

Lemma completion_frames n frames : ∀ tr snapshot r,
  0 < n → (∀ f, f ∈ frames → accepted f = true) →
  (∀ f, f ∈ frames → truthy (frame_text_finish f) = false) →
  awaiting tr snapshot r → emitted "end" tr = [] → emitted "text.done" tr = [] →
  ∃ r' tr', processStream n (Frame <$> frames) r = Some (tt, r')
            ∧ awaiting tr' (snapshot +:+ concat_strings (frame_text <$> frames)) r'
            ∧ emitted "end" tr' = [] ∧ emitted "text.done" tr' = [].
Proof.
  induction frames as [|f frames IH]; intros tr snapshot r Hn Hacc Hno Hr He Hd.
  - exists r, tr. simpl. by rewrite append_empty_r.
  - destruct (completion_frame_step n f tr snapshot r Hn) as (r1&E1&Hs1&Hr1&Hsn1&Hfin1);
      [apply Hacc; by left|done|].
    rewrite (Hno f) in Hfin1 by left. destruct Hfin1 as [Hc1 Hf1].
    destruct (IH (tr ++ text_events snapshot f) (snapshot +:+ frame_text f) r1 Hn)
      as (r2&tr2&E2&Hr2&He2&Hd2).
    + intros f' Hf'. apply Hacc. by right.
    + intros f' Hf'. apply Hno. by right.
    + done.
    + by rewrite emitted_app, He, text_events_end.
    + by rewrite emitted_app, Hd, text_events_done, (Hno f) by left.
    + exists r2, tr2. split; [|split; [|done]].
      * unfold processStream in *. simpl. unfold mbind, stateT_bind. by rewrite E1.
      * simpl. by rewrite <- append_assoc.
Qed.

Lemma completion_end_awaited n tr :
  4 ≤ n →
  ∃ s, Emitter.emit n "end" PUndefined (with_trace tr awaited_shell) = Some (true, s)
       ∧ promises s = [Resolved] ∧ trace s = tr ++ [("end", PUndefined)].
Proof.
  intros Hn. destruct n as [|[|[|[|n]]]]; try lia.
  eexists. split; [vm_compute; reflexivity|]. by vm_compute.
Qed.

(** [finalText()] called before the first frame awaits [done()]. When the
    frames are all accepted and at most the last of them carries a
    [finish_reason], it resolves at the end of the response with the
    concatenation of the [text] of the frames; ["text.done"] is emitted
    once, with that text, and ["end"] once. *)
Theorem finalText_is_concatenation n frames last :
  4 ≤ n → (∀ f, f ∈ frames ++ [last] → accepted f = true) →
  (∀ f, f ∈ frames → truthy (frame_text_finish f) = false) →
  let s := concat_strings (frame_text <$> frames ++ [last]) in
  ∃ r1 r2,
    finalText new_runner = Some (Common.AfterDone 0, r1)
    ∧ processStream n ((Frame <$> frames ++ [last]) ++ [StreamEnd]) r1 = Some (tt, r2)
    ∧ finalText_resume 0 r2 = Some (inl s)
    ∧ emitted "text.done" (trace (sh r2)) = [PTextDone s]
    ∧ emitted "end" (trace (sh r2)) = [PUndefined].
Proof.
  intros Hn Hacc Hno s.
  set (r1 := set_sh awaited_shell new_runner).
  assert (awaiting [] "" r1) as Hr1 by done.
  destruct (completion_frames n frames [] "" r1) as (rF&trF&EF&HrF&HeF&HdF);
    [lia| |done..|].
  { intros f Hf. apply Hacc, elem_of_app. by left. }
  change ("" +:+ concat_strings (frame_text <$> frames))
    with (concat_strings (frame_text <$> frames)) in HrF.
  destruct (completion_frame_step n last trF
              (concat_strings (frame_text <$> frames)) rF)
    as (rL&EL&HsL&HrL&HsnL&HfinL); [lia| |done|].
  { apply Hacc, elem_of_app. right. by left. }
  assert (concat_strings (frame_text <$> frames) +:+ frame_text last = s) as Hs.
  { unfold s. rewrite fmap_app, concat_strings_app. simpl. by rewrite append_empty_r. }
  rewrite Hs in *.
  assert (processStream n (Frame <$> frames ++ [last]) r1 = Some (tt, rL)) as EFL.
  { unfold processStream in *. rewrite fmap_app. simpl. by rewrite for_each_snoc, EF. }
  assert (emitted "end" (trace (sh rL)) = []
          ∧ emitted "text.done" (trace (sh rL))
            = if truthy (frame_text_finish last) then [PTextDone s] else []) as [HeL HdL].
  { rewrite HsL. simpl. rewrite !emitted_app, HeF, HdF, text_events_end, text_events_done.
    by rewrite Hs. }
  exists r1.
  destruct (truthy (frame_text_finish last)) eqn:Hfin.
  - (* the last frame has frozen the text *)
    destruct HfinL as [HcL HfL].
    destruct (completion_end_awaited n (trace (sh rL))) as (s'&Es&Hps&Hts); [lia|].
    exists (set_sh s' (set_running false rL)). split; [by vm_compute|]. split.
    { unfold processStream in *. rewrite for_each_snoc, EFL.
      unfold processStream_step, mbind, stateT_bind, gets, modify, when, emit. simpl.
      rewrite HrL. simpl. rewrite HcL. simpl.
      assert (sh rL = with_trace (trace (sh rL)) awaited_shell) as -> by (by rewrite HsL).
      simpl. by rewrite Es. }
    unfold finalText_resume. simpl. rewrite Hps. simpl. rewrite HfL, or_empty_Some.
    split; [done|]. rewrite Hts, !emitted_app, HeL, HdL. done.
  - (* the end of the response freezes it *)
    destruct HfinL as [HcL HfL].
    destruct (completion_end_awaited n
                (trace (sh rL) ++ [("text.done", PTextDone s)])) as (s'&Es&Hps&Hts); [lia|].
    exists (set_sh s' (set_isComplete true (set_finalText (Some s) (set_running false rL)))).
    split; [by vm_compute|]. split.
    { unfold processStream in *. rewrite for_each_snoc, EFL.
      unfold processStream_step, mbind, stateT_bind, gets, modify, when. simpl.
      rewrite HrL. simpl. rewrite HcL. simpl. unfold mbind, stateT_bind, modify, gets. simpl.
      rewrite HsnL.
      rewrite (completion_emit_quiet n _ _ _ (trace (sh rL))) by (lia || by rewrite ?HsL || set_solver).
      simpl. unfold emit. simpl. by rewrite Es. }
    unfold finalText_resume. simpl. rewrite Hps. simpl. rewrite or_empty_Some.
    split; [done|]. rewrite Hts, !emitted_app, HeL, HdL. done.
Qed.

Lemma finalText_is_concatenation_witness :
  ∃ r1 r2,
    finalText new_runner = Some (Common.AfterDone 0, r1)
    ∧ processStream 4
        ((Frame <$> [JsonValue (CompletionChunk "cmpl" (Some [CompletionChoice (Some "Hel") None]))]
                    ++ [JsonValue (CompletionChunk "cmpl" (Some [CompletionChoice (Some "lo") None]))])
         ++ [StreamEnd]) r1 = Some (tt, r2)
    ∧ finalText_resume 0 r2 = Some (inl "Hello")
    ∧ emitted "text.done" (trace (sh r2)) = [PTextDone "Hello"]
    ∧ emitted "end" (trace (sh r2)) = [PUndefined].
Proof.
  apply (finalText_is_concatenation 4
           [JsonValue (CompletionChunk "cmpl" (Some [CompletionChoice (Some "Hel") None]))]
           (JsonValue (CompletionChunk "cmpl" (Some [CompletionChoice (Some "lo") None])))).
  - lia.
  - intros f Hf. by repeat (apply elem_of_cons in Hf as [->|Hf]; [reflexivity|]);
      apply elem_of_nil in Hf.
  - intros f Hf. by repeat (apply elem_of_cons in Hf as [->|Hf]; [reflexivity|]);
      apply elem_of_nil in Hf.
Defined.
